(* ===== verification/_CoqProject ===== *)
-Q . S2P
Prelude.v
EventId.v
Value.v
Event.v
Common.v
Operator.v
Batch.v
RoundRobin.v
Backpressure.v
BasicOps.v
Graph.v
GraphProps.v
OptimizeProps.v
Window.v
Select.v
WindowProps.v
SelectProps.v
SelectSafe.v
Bytes.v
Processors.v
SeparateProps.v
FramingProps.v
GelfProps.v
