(* ===== verification/Prelude.v ===== *)
(** * Tremor runtime: a verification development

    Tremor is an event processing system.  Connectors read bytes from the outside,
    preprocessors cut and decode them, codecs turn them into values; the values travel as
    events through pipelines, which are graphs of operators; on the way out codecs and
    postprocessors turn them into bytes again.  Insights (acknowledgements, failures, circuit
    breaker changes) travel through a pipeline in the opposite direction (contraflow), and
    signals (ticks among them) visit the operators that ask for them (signalflow).  Every
    event has an id that tracks the input events it was made of, so that an acknowledgement
    reaches all of them.

    This library models the core of the pipeline (tremor-pipeline, parts of tremor-common,
    tremor-value and tremor-script) and the framing processors of the runtime (src/src) as
    executable definitions and proves their properties.

    ** Files

    - Prelude.v: results ([res], with [Panic] for what aborts a task or leaves defined
      behaviour), 64 bit arithmetic with wrap-around (the release profile), Rust's binary
      search, the state and error monad [M] with its weakest preconditions [wp], the hint
      database [tremor].
    - EventId.v: [EventId], [TrackedPullIds], [EventIdGenerator] of tremor-pipeline/src/lib.rs.
      An id refines a finite map from (source, stream) to an interval of pull ids; [track] is
      the join of these maps, the queries read its ends, generators do not repeat ids.
    - Value.v: values and accessors (tremor-value/src/value.rs).
    - Event.v: events, insights, signals and batch iteration (tremor-pipeline/src/event.rs):
      the iterators, lengths and [split_last] agree with the list of contained events.
    - Common.v: ports, shared id generators, the expiring blue green map
      (tremor-common/src): names round trip, ids do not repeat, and an entry that is lost
      before it expires.
    - Operator.v: the [Operator] trait as a type class (tremor-pipeline/src/op.rs).
    - Batch.v, RoundRobin.v, Backpressure.v, BasicOps.v: the operators of
      tremor-pipeline/src/op: generic/batch, qos/roundrobin, qos/backpressure; and
      qos/percentile, grouper/bucket, identity/passthrough, generic/counter, debug/history,
      trickle/script, trickle/simple_select.  Each is a record, its methods and an instance
      of [Operator].  Over any interleaving of events, signals and insights: nothing is lost,
      repeated or reordered; batches have the configured sizes and track their members;
      round robin rotates over the open outputs; the breaker state passed upstream is
      consistent with the operator's own; backoffs escalate step by step; counters count.
    - Graph.v: tremor-pipeline/src/executable_graph.rs (event processing with an explicit
      stack, signalflow, contraflow, metrics, the optimiser) and the construction of the
      graph from the nodes and edges of a query (query.rs), over any operator type.
    - GraphProps.v: the executor against the interface [WellBehaved] that the operators'
      instances discharge: processing terminates on acyclic graphs without panic (every
      unchecked access is in range) and keeps the invariant; on stateless operators it
      returns the events of a recursive reference semantics, in its order, for an event sent
      to an input and for the events operators release on a signal; insights visit exactly the
      operators behind their origin, each getting what the one before left; graphs built from queries are sound.
    - OptimizeProps.v: the optimiser keeps the returned events and their order when skippable
      operators use [out] only; otherwise it merges the edges of all their ports.
    - Window.v, Select.v: tremor-pipeline/src/op/trickle/window.rs and select.rs: window
      implementations, tilt frames, groups, group keys, events and ticks of a select.  The
      expression language and the aggregate functions are type classes.
    - WindowProps.v, SelectProps.v: an abstract machine of tumbling count windows, its
      simulation by the tilt frames, and the operator's contract: every group key is cut into
      consecutive groups independently of the others, and what is emitted tracks every event of
      its group and aggregates exactly these.  Also what goes wrong at time window boundaries and with new and refused groups.
    - SelectSafe.v: a select keeps the executor's interface [WellBehaved] whatever its windows,
      so the executor's theorems hold for graphs with selects.
    - Bytes.v: big endian integers, decimal numbers, ASCII.
    - Processors.v: the preprocessors and postprocessors of src/src/preprocessor and
      src/src/postprocessor and their chains.
    - SeparateProps.v, FramingProps.v, GelfProps.v: what a postprocessor writes, cut anywhere
      in transit (or, for GELF, with its frames in any order), is read back by the
      preprocessor; limits are respected, and where they are not applied; chunks are packed
      greedily; and which data is lost on overflows, bad lengths and when a chain is finished.

    ** Conventions

    A method that takes [&mut self] returns the new state next to its result, also when the
    result is an error.  Integers are [Z] with wrap-around written out where the code can
    overflow.  Hash maps are finite maps; where the code iterates over one, the order is an
    argument or the statement does not depend on it.  Clocks are arguments.  Third-party
    code (LRU cache, sliding windows, the cycle check of petgraph, JSON encoding) is a
    parameter with named hypotheses, and so are the Unicode tables behind [to_lowercase]
    (classes [Lowercase] and [LowercaseLaws]).  [enqueue] and [run] take fuel because the executor's
    loop need not end on cyclic graphs; the theorems show that on acyclic ones enough fuel
    exists and more changes nothing ([enqueue_terminates], [enqueue_signal_terminates]).
    [Ports.from_str] has fuel 2: it calls itself once, on the lowercased name, which lowercasing
    leaves as it is.
    [binary_search_by] has fuel the length of the vector.

    ** Not modelled

    Connectors and their implementations, codecs, the async message loops of pipelines,
    sources and sinks, the flow and system runtime, the script language's front end and
    interpreter, the influx line protocol, the command line and the API: they are tasks around
    channels and third-party clients, or a language of their own, and the parts above do not
    depend on more of them than the interfaces they are given.  Of the windows, the abstract
    machine covers tumbling count windows; time and state windows are modelled, and theorems
    state where they fall short. *)

From Stdlib Require Strings.Byte.
From stdpp Require Export base tactics numbers list strings gmap sets.

(** ** Scopes and default goal selector *)
#[export] Set Default Goal Selector "!".
Open Scope Z_scope.
Declare Scope tremor_scope.
Delimit Scope tremor_scope with tremor.

(** The hint database of the development. *)
Create HintDb tremor discriminated.

(** ** Fallible code

    [Ok] and [Err] are Rust's [Result]; [Panic] stands for a run that leaves the
    language's defined behaviour or aborts the task: [unreachable!], [expect] on [None],
    or an [unsafe] [get_unchecked] with an index that is out of range. *)
Inductive res (E A : Type) : Type :=
| Ok (a : A)
| Err (e : E)
| Panic.
Arguments Ok {E A} a.
Arguments Err {E A} e.
Arguments Panic {E A}.

(** The [?] operator of Rust. *)
Definition res_bind {E A B} (m : res E A) (k : A -> res E B) : res E B :=
  match m with
  | Ok a => k a
  | Err e => Err e
  | Panic => Panic
  end.

Notation "'let?' x ':=' m 'in' k" := (res_bind m (fun x => k))
  (at level 10, x pattern, m at level 100, k at level 200) : tremor_scope.
Open Scope tremor_scope.

(** [ok_or p m]: [Option::ok_or]. *)
Definition ok_or {E A} (e : E) (m : option A) : res E A :=
  match m with Some a => Ok a | None => Err e end.

(** An unchecked access: defined only when the index is in range. *)
Definition unchecked {E A} (m : option A) : res E A :=
  match m with Some a => Ok a | None => Panic end.

Definition is_panic {E A} (m : res E A) : bool :=
  match m with Panic => true | _ => false end.

(** Inversion of a bind, as an equivalence per result. *)
Lemma res_bind_Ok {E A B} (m : res E A) (k : A -> res E B) b :
  res_bind m k = Ok b <-> exists a, m = Ok a /\ k a = Ok b.
Proof. destruct m; simpl; naive_solver. Qed.

Lemma res_bind_Panic {E A B} (m : res E A) (k : A -> res E B) :
  res_bind m k = Panic <-> m = Panic \/ exists a, m = Ok a /\ k a = Panic.
Proof. destruct m; simpl; naive_solver. Qed.

Lemma unchecked_Ok {E A} (m : option A) (a : A) :
  unchecked (E:=E) m = Ok a <-> m = Some a.
Proof. destruct m; simpl; naive_solver. Qed.

(** ** Machine integers

    Unsigned 64 bit integers are [Z]; every operation that can leave the range is written
    with the wrap-around of the release profile (no overflow checks are enabled in
    Cargo.toml). *)
Definition u64 (z : Z) : Z := z mod 2 ^ 64.
Definition is_u64 (z : Z) : Prop := 0 <= z < 2 ^ 64.

Definition wrapping_add (a b : Z) : Z := u64 (a + b).
Definition wrapping_sub (a b : Z) : Z := u64 (a - b).

Lemma u64_range z : is_u64 (u64 z).
Proof. unfold is_u64, u64. apply Z.mod_pos_bound. lia. Qed.

Lemma u64_id z : is_u64 z -> u64 z = z.
Proof. unfold is_u64, u64. intros. by apply Z.mod_small. Qed.

Lemma wrapping_sub_le a b : is_u64 a -> is_u64 b -> b <= a -> wrapping_sub a b = a - b.
Proof. unfold wrapping_sub. intros Ha Hb ?. apply u64_id. unfold is_u64 in *. lia. Qed.

Lemma wrapping_add_small a b : is_u64 (a + b) -> wrapping_add a b = a + b.
Proof. apply u64_id. Qed.

Lemma u64_add_l a b : u64 (u64 a + b) = u64 (a + b).
Proof. unfold u64. apply Zplus_mod_idemp_l. Qed.

#[export] Instance is_u64_dec z : Decision (is_u64 z).
Proof. unfold is_u64. apply _. Defined.

(** ** Lexicographic comparison of pairs, as [Ord for (A, B)] derives it *)
Definition cmp_then (c d : comparison) : comparison :=
  match c with Eq => d | _ => c end.

Definition pair_cmp (a b : Z * Z) : comparison :=
  cmp_then (Z.compare a.1 b.1) (Z.compare a.2 b.2).

Lemma pair_cmp_eq a b : pair_cmp a b = Eq <-> a = b.
Proof.
  destruct a as [a1 a2], b as [b1 b2]; unfold pair_cmp, cmp_then; simpl.
  destruct (Z.compare_spec a1 b1), (Z.compare_spec a2 b2); split; intros; simplify_eq; try done; lia.
Qed.

Lemma pair_cmp_antisym a b : pair_cmp b a = CompOpp (pair_cmp a b).
Proof.
  destruct a as [a1 a2], b as [b1 b2]; unfold pair_cmp, cmp_then; simpl.
  rewrite (Z.compare_antisym a1 b1), (Z.compare_antisym a2 b2).
  by destruct (a1 ?= b1).
Qed.

Lemma pair_cmp_lt_trans a b c : pair_cmp a b = Lt -> pair_cmp b c = Lt -> pair_cmp a c = Lt.
Proof.
  destruct a as [a1 a2], b as [b1 b2], c as [c1 c2]; unfold pair_cmp, cmp_then; simpl.
  destruct (Z.compare_spec a1 b1), (Z.compare_spec b1 c1), (Z.compare_spec a1 c1);
    intros; try done; first [exfalso; lia | rewrite Z.compare_lt_iff in *; lia].
Qed.

#[export] Instance comparison_eq_dec : EqDecision comparison.
Proof. solve_decision. Defined.

(** ** [slice::binary_search_by]

    The loop of the Rust standard library: [left], [right] bound the candidates and [size]
    is their distance.  [fuel] bounds the iterations; [length l] always suffices
    ([binary_search_by_spec] speaks about the result itself). *)
Inductive search_result : Type :=
| Found (idx : nat)
| NotFound (idx : nat).

Fixpoint bsearch_loop {A} (f : A -> comparison) (l : list A)
    (fuel size left right : nat) : search_result :=
  match fuel with
  | O => NotFound left
  | S fuel =>
      if decide (left < right)%nat then
        let mid := (left + size `div` 2)%nat in
        match l !! mid with
        | None => NotFound left
        | Some x =>
            match f x with
            | Lt => bsearch_loop f l fuel (right - (mid + 1)) (mid + 1) right
            | Gt => bsearch_loop f l fuel (mid - left) left mid
            | Eq => Found mid
            end
        end
      else NotFound left
  end.

Definition binary_search_by {A} (f : A -> comparison) (l : list A) : search_result :=
  bsearch_loop f l (length l) (length l) 0 (length l).

(** [l] is partitioned by [f] into a [Lt] part, [Eq] elements and a [Gt] part. *)
Definition partitioned {A} (f : A -> comparison) (l : list A) : Prop :=
  forall i j x y, (i < j)%nat -> l !! i = Some x -> l !! j = Some y ->
    (f y = Lt -> f x = Lt) /\ (f x = Gt -> f y = Gt) /\ (f x = Eq -> f y = Gt) /\ (f y = Eq -> f x = Lt).

Definition search_ok {A} (f : A -> comparison) (l : list A) (r : search_result) : Prop :=
  match r with
  | Found i => exists l1 x l2, l = l1 ++ x :: l2 /\ length l1 = i /\ f x = Eq
  | NotFound i => exists l1 l2, l = l1 ++ l2 /\ length l1 = i
      /\ Forall (fun x => f x = Lt) l1 /\ Forall (fun x => f x = Gt) l2
  end.

Lemma bsearch_loop_spec {A} (f : A -> comparison) l fuel left right :
  partitioned f l ->
  (right - left <= fuel)%nat -> (left <= right)%nat -> (right <= length l)%nat ->
  (forall j x, (j < left)%nat -> l !! j = Some x -> f x = Lt) ->
  (forall j x, (right <= j)%nat -> l !! j = Some x -> f x = Gt) ->
  search_ok f l (bsearch_loop f l fuel (right - left) left right).
Proof.
  intros Hp. revert left right.
  assert (Hend : forall left, (left <= length l)%nat ->
    (forall j x, (j < left)%nat -> l !! j = Some x -> f x = Lt) ->
    (forall j x, (left <= j)%nat -> l !! j = Some x -> f x = Gt) ->
    search_ok f l (NotFound left)).
  { intros left Hle Hl Hr. exists (take left l), (drop left l).
    split_and!; [by rewrite take_drop | rewrite length_take; lia | |];
      apply Forall_lookup; intros i x.
    - intros [? ?]%lookup_take_Some. eauto.
    - rewrite lookup_drop. intros ?. eapply Hr; [|done]. lia. }
  induction fuel as [|fuel IH]; intros left right Hf Hlr Hlen Hl Hr; cbn [bsearch_loop].
  { apply Hend; [lia|done|]. intros; eapply Hr; [|done]; lia. }
  case_decide; [|apply Hend; [lia|done|]; intros; eapply Hr; [|done]; lia].
  set (mid := (left + (right - left) `div` 2)%nat).
  assert (left <= mid < right)%nat.
  { subst mid. split; [lia|]. assert ((right - left) `div` 2 < right - left)%nat; [|lia].
    apply Nat.div_lt; lia. }
  destruct (lookup_lt_is_Some_2 l mid) as [x Hx]; [lia|]. rewrite Hx.
  destruct (f x) eqn:Hfx.
  - exists (take mid l), x, (drop (S mid) l).
    split_and!; [by rewrite take_drop_middle | rewrite length_take; lia | done].
  - apply IH; try lia; [|done]. intros j y Hj Hy.
    destruct (decide (j = mid)) as [->|]; [congruence|].
    destruct (Hp j mid y x) as (?&?&?&?); auto with lia.
  - apply IH; try lia; [done|]. intros j y Hj Hy.
    destruct (decide (j = mid)) as [->|]; [congruence|].
    destruct (Hp mid j x y) as (?&?&?&?); auto with lia.
Qed.

Lemma binary_search_by_spec {A} (f : A -> comparison) l :
  partitioned f l -> search_ok f l (binary_search_by f l).
Proof.
  intros Hp. unfold binary_search_by.
  pose proof (bsearch_loop_spec f l (length l) 0 (length l) Hp) as H.
  rewrite Nat.sub_0_r in H. apply H; try lia.
  intros j x Hj Hx%lookup_lt_Some. lia.
Qed.

(** [Vec::insert]. *)
Definition vec_insert {A} (i : nat) (x : A) (l : list A) : list A :=
  take i l ++ x :: drop i l.

Lemma vec_insert_app {A} (x : A) l1 l2 :
  vec_insert (length l1) x (l1 ++ l2) = l1 ++ x :: l2.
Proof. unfold vec_insert. by rewrite take_app_length, drop_app_length. Qed.

(** ** Lists *)
Lemma omap_fmap_Some {A B C} (f : B -> option C) (g : A -> B) (h : A -> C) (l : list A) :
  (forall x, f (g x) = Some (h x)) -> omap f (g <$> l) = h <$> l.
Proof. intros Hf. induction l as [|x l IH]; csimpl; [done|]. by rewrite Hf, IH. Qed.

(** ** State and errors

    Rust code that mutates [&mut self] and returns [Result]: the state reached is kept when
    the result is an error, as the mutations before the early return are. *)
Definition M (S E A : Type) : Type := S -> S * res E A.

#[export] Instance M_ret {S E} : MRet (M S E) := fun A a s => (s, Ok a).
#[export] Instance M_bind {S E} : MBind (M S E) := fun A B k m s =>
  match m s with
  | (s, Ok a) => k a s
  | (s, Err e) => (s, Err e)
  | (s, Panic) => (s, Panic)
  end.

Definition m_get {S E} : M S E S := fun s => (s, Ok s).
Definition m_put {S E} (s' : S) : M S E unit := fun _ => (s', Ok tt).
Definition m_modify {S E} (f : S -> S) : M S E unit := fun s => (f s, Ok tt).
Definition m_lift {S E A} (r : res E A) : M S E A := fun s => (s, r).
Definition m_err {S E A} (e : E) : M S E A := fun s => (s, Err e).
(** A method written with explicit state. *)
Definition m_call {S E A} (f : S -> S * res E A) : M S E A := f.
Definition m_panic {S E A} : M S E A := fun s => (s, Panic).

(** A [for] loop. *)
Fixpoint m_for {S E A} (l : list A) (f : A -> M S E unit) : M S E unit :=
  match l with
  | [] => mret tt
  | x :: l => _ ← f x; m_for l f
  end.

Lemma M_bind_Ok {S E A B} (m : M S E A) (k : A -> M S E B) s s' b :
  (m ≫= k) s = (s', Ok b) <-> exists s1 a, m s = (s1, Ok a) /\ k a s1 = (s', Ok b).
Proof.
  unfold mbind, M_bind. destruct (m s) as [s1 [a|e|]]; naive_solver.
Qed.

Lemma M_bind_Panic {S E A B} (m : M S E A) (k : A -> M S E B) s :
  is_panic ((m ≫= k) s).2 = true <->
  is_panic (m s).2 = true \/ exists s1 a, m s = (s1, Ok a) /\ is_panic (k a s1).2 = true.
Proof.
  unfold mbind, M_bind. destruct (m s) as [s1 [a|e|]]; naive_solver.
Qed.


(** ** Reasoning about stateful code

    [wp m Q X s]: run from [s], [m] does not panic; a normal end satisfies [Q], an early
    return with an error satisfies [X]. *)
Definition wp {S E A} (m : M S E A) (Q : A -> S -> Prop) (X : E -> S -> Prop) (s : S) : Prop :=
  match m s with
  | (s, Ok a) => Q a s
  | (s, Err e) => X e s
  | (_, Panic) => False
  end.

Lemma wp_bind {S E A B} (m : M S E A) (k : A -> M S E B) Q X s :
  wp m (fun a => wp (k a) Q X) X s -> wp (m ≫= k) Q X s.
Proof. unfold wp, mbind, M_bind. by destruct (m s) as [? []]. Qed.

Lemma wp_mono {S E A} (m : M S E A) (Q Q' : A -> S -> Prop) (X X' : E -> S -> Prop) s :
  wp m Q X s -> (forall a s, Q a s -> Q' a s) -> (forall e s, X e s -> X' e s) -> wp m Q' X' s.
Proof. unfold wp. destruct (m s) as [? []]; naive_solver. Qed.

Lemma wp_for {S E A} (I : S -> Prop) (X : E -> S -> Prop) (l : list A) (f : A -> M S E unit) s :
  I s -> (forall x s, x ∈ l -> I s -> wp (f x) (fun _ => I) X s) -> wp (m_for l f) (fun _ => I) X s.
Proof.
  revert s. induction l as [|x l IH]; intros s Hs Hf; [done|]. cbn [m_for]. apply wp_bind.
  eapply wp_mono; [apply Hf; [by left|done]| |done]. intros ? s' Hs'. apply IH; [done|].
  intros; apply Hf; [by right|done].
Qed.

Lemma wp_unchecked {S E A} (o : option A) (a : A) Q (X : E -> S -> Prop) s :
  o = Some a -> Q a s -> wp (m_lift (unchecked o)) Q X s.
Proof. by intros ->. Qed.
