(* ===== verification/EventId.v ===== *)
(** * Event identifiers and pull-id tracking

    Models [EventId], [TrackedPullIds] and [EventIdGenerator] of tremor-pipeline/src/lib.rs.
    An event id names a (source, stream) and carries, once it tracked other ids, a vector of
    min/max pull ids per (source, stream) that is searched by binary search.  Sources
    acknowledge and fail pulls by these intervals, so the theorems show that the vector
    implements a finite map of intervals and that [track] is its join. *)
From Stdlib Require Import Sorting.Sorted.
From stdpp Require Import pretty.
From S2P Require Import Prelude.

(** A (source id, stream id) pair: the key tracked ids are ordered by. *)
Notation stream_key := (Z * Z)%type (only parsing).

Record TrackedPullIds : Type := mkTracked {
  tp_source_id : Z;
  tp_stream_id : Z;
  min_pull_id : Z;
  max_pull_id : Z
}.

Record EventId : Type := mkEventId {
  source_id : Z;
  stream_id : Z;
  event_id : Z;
  pull_id : Z;
  tracked_pull_ids : list TrackedPullIds
}.

#[export] Instance TrackedPullIds_eq_dec : EqDecision TrackedPullIds.
Proof. solve_decision. Defined.
#[export] Instance EventId_eq_dec : EqDecision EventId.
Proof. solve_decision. Defined.

Definition DEFAULT_STREAM_ID : Z := 0.
Definition DEFAULT_PULL_ID : Z := 0.

(** ** [TrackedPullIds] *)
Module Tracked.

Definition new (source_id stream_id min_pull_id max_pull_id : Z) : TrackedPullIds :=
  mkTracked source_id stream_id min_pull_id max_pull_id.

Definition from_id (source_id stream_id pull_id : Z) : TrackedPullIds :=
  mkTracked source_id stream_id pull_id pull_id.

Definition key (t : TrackedPullIds) : stream_key := (tp_source_id t, tp_stream_id t).

Definition tracks_id (t : TrackedPullIds) (source_id stream_id : Z) : bool :=
  (tp_source_id t =? source_id) && (tp_stream_id t =? stream_id).

Definition compare_ids (t : TrackedPullIds) (source_id stream_id : Z) : comparison :=
  pair_cmp (tp_source_id t, tp_stream_id t) (source_id, stream_id).

Definition compare (t other : TrackedPullIds) : comparison :=
  pair_cmp (tp_source_id t, tp_stream_id t) (tp_source_id other, tp_stream_id other).

Definition track_ids (t : TrackedPullIds) (min_ max_ : Z) : TrackedPullIds :=
  mkTracked (tp_source_id t) (tp_stream_id t)
    (Z.min (min_pull_id t) min_) (Z.max (max_pull_id t) max_).

Definition track_id (t : TrackedPullIds) (pull_id : Z) : TrackedPullIds :=
  track_ids t pull_id pull_id.

Definition track (t : TrackedPullIds) (e : EventId) : TrackedPullIds :=
  track_ids t (pull_id e) (pull_id e).

Definition merge (t ids : TrackedPullIds) : TrackedPullIds :=
  track_ids t (min_pull_id ids) (max_pull_id ids).

Definition from_event_id (e : EventId) : TrackedPullIds :=
  from_id (source_id e) (stream_id e) (pull_id e).

Definition display (t : TrackedPullIds) : string :=
  "[min=" +:+ pretty (tp_source_id t) +:+ ":" +:+ pretty (tp_stream_id t) +:+ ":"
  +:+ pretty (min_pull_id t) +:+ ", max=" +:+ pretty (tp_source_id t) +:+ ":"
  +:+ pretty (tp_stream_id t) +:+ ":" +:+ pretty (max_pull_id t) +:+ "]".

End Tracked.

(** ** [EventId] *)
Module EvId.

Definition new (source_id stream_id event_id pull_id : Z) : EventId :=
  mkEventId source_id stream_id event_id pull_id [].

Definition from_id (source_id stream_id event_id : Z) : EventId :=
  new source_id stream_id event_id event_id.

Definition default : EventId := mkEventId 0 0 0 0 [].

Definition set_source_id (e : EventId) (s : Z) : EventId :=
  mkEventId s (stream_id e) (event_id e) (pull_id e) (tracked_pull_ids e).
Definition set_stream_id (e : EventId) (s : Z) : EventId :=
  mkEventId (source_id e) s (event_id e) (pull_id e) (tracked_pull_ids e).
Definition set_event_id (e : EventId) (i : Z) : EventId :=
  mkEventId (source_id e) (stream_id e) i (pull_id e) (tracked_pull_ids e).
Definition set_pull_id (e : EventId) (p : Z) : EventId :=
  mkEventId (source_id e) (stream_id e) (event_id e) p (tracked_pull_ids e).
Definition set_tracked (e : EventId) (l : list TrackedPullIds) : EventId :=
  mkEventId (source_id e) (stream_id e) (event_id e) (pull_id e) l.

(** The match on [binary_search_by] that [track] and [track_ids] share: update the entry
    of the same stream, or insert [t] where the search says. *)
Definition upsert (l : list TrackedPullIds) (t : TrackedPullIds) : list TrackedPullIds :=
  match binary_search_by (fun probe => Tracked.compare probe t) l with
  | Found idx =>
      match l !! idx with
      | Some x => <[idx := Tracked.track_ids x (min_pull_id t) (max_pull_id t)]> l
      | None => l
      end
  | NotFound idx => vec_insert idx t l
  end.

Definition track_ids (e : EventId) (source_id' stream_id' min_ max_ : Z) : EventId :=
  let l := match tracked_pull_ids e with
           | [] => [Tracked.new (source_id e) (stream_id e) (pull_id e) (pull_id e)]
           | l => l
           end in
  set_tracked e (upsert l (Tracked.new source_id' stream_id' min_ max_)).

Definition is_same_stream (e : EventId) (source_id' stream_id' : Z) : bool :=
  (source_id e =? source_id') && (stream_id e =? stream_id').

Definition track (e other : EventId) : EventId :=
  let '(min_, max_) :=
    if is_same_stream e (source_id other) (stream_id other) then
      (Z.min (pull_id e) (pull_id other), Z.max (pull_id e) (pull_id other))
    else (pull_id other, pull_id other) in
  let e := track_ids e (source_id other) (stream_id other) min_ max_ in
  set_tracked e (fold_left upsert (tracked_pull_ids other) (tracked_pull_ids e)).

Definition is_tracking (e other : EventId) : bool :=
  match tracked_pull_ids e with
  | [] => is_same_stream e (source_id other) (stream_id other)
          && (pull_id e =? pull_id other) && (event_id e =? event_id other)
  | l =>
      match binary_search_by
              (fun probe => Tracked.compare_ids probe (source_id other) (stream_id other)) l with
      | Found idx =>
          match l !! idx with
          | Some entry =>
              (min_pull_id entry <=? pull_id other) && (pull_id other <=? max_pull_id entry)
          | None => false
          end
      | NotFound _ => false
      end
  end.

(** [find_map] of the two getters: the first entry of the stream. *)
Fixpoint find_stream (l : list TrackedPullIds) (k : stream_key) : option TrackedPullIds :=
  match l with
  | [] => None
  | t :: l => if decide (k = Tracked.key t) then Some t else find_stream l k
  end.

Definition get_min_by_stream (e : EventId) (source_id' stream_id' : Z) : option Z :=
  match tracked_pull_ids e with
  | [] => if is_same_stream e source_id' stream_id' then Some (pull_id e) else None
  | l => min_pull_id <$> find_stream l (source_id', stream_id')
  end.

Definition get_max_by_stream (e : EventId) (source_id' stream_id' : Z) : option Z :=
  match tracked_pull_ids e with
  | [] => if is_same_stream e source_id' stream_id' then Some (pull_id e) else None
  | l => max_pull_id <$> find_stream l (source_id', stream_id')
  end.

Definition get_min_streams_by_source (e : EventId) (source_id' : Z) : list (Z * Z) :=
  match tracked_pull_ids e with
  | [] => if source_id e =? source_id' then [(stream_id e, pull_id e)] else []
  | l => omap (fun t => if tp_source_id t =? source_id'
                        then Some (tp_stream_id t, min_pull_id t) else None) l
  end.

Definition get_max_streams_by_source (e : EventId) (source_id' : Z) : list (Z * Z) :=
  match tracked_pull_ids e with
  | [] => if source_id e =? source_id' then [(stream_id e, pull_id e)] else []
  | l => omap (fun t => if tp_source_id t =? source_id'
                        then Some (tp_stream_id t, max_pull_id t) else None) l
  end.

Definition get_streams (e : EventId) (source_id' : Z) : gset Z :=
  match tracked_pull_ids e with
  | [] => if source_id e =? source_id' then {[stream_id e]} else ∅
  | l => list_to_set (omap (fun t => if tp_source_id t =? source_id'
                                     then Some (tp_stream_id t) else None) l)
  end.

Definition get_stream (e : EventId) (source_id' : Z) : option Z :=
  if source_id e =? source_id' then Some (stream_id e)
  else tp_stream_id <$> List.find (fun t => tp_source_id t =? source_id') (tracked_pull_ids e).

Definition display (e : EventId) : string :=
  let base := pretty (source_id e) +:+ ":" +:+ pretty (stream_id e) +:+ ":"
              +:+ pretty (event_id e) +:+ ":" +:+ pretty (pull_id e) in
  match tracked_pull_ids e with
  | [] => base
  | ids :: rest =>
      fold_left (fun s ids => s +:+ ", " +:+ Tracked.display ids) rest
        (base +:+ " " +:+ Tracked.display ids)
  end.

End EvId.

(** ** [EventIdGenerator] *)
Record EventIdGenerator : Type := mkGen {
  gen_source : Z;
  gen_stream : Z;
  gen_next : Z
}.

Module Gen.

Definition next_id (g : EventIdGenerator) : EventId * EventIdGenerator :=
  let event_id := gen_next g in
  (EvId.new (gen_source g) (gen_stream g) event_id event_id,
   mkGen (gen_source g) (gen_stream g) (wrapping_add (gen_next g) 1)).

Definition next_with_pull_id (g : EventIdGenerator) (pull_id : Z) : EventId * EventIdGenerator :=
  let event_id := gen_next g in
  (EvId.new (gen_source g) (gen_stream g) event_id pull_id,
   mkGen (gen_source g) (gen_stream g) (wrapping_add (gen_next g) 1)).

Definition new (source_id : Z) : EventIdGenerator := mkGen source_id DEFAULT_STREAM_ID 0.
Definition for_operator (operator_id : Z) : EventIdGenerator :=
  mkGen operator_id DEFAULT_STREAM_ID 0.
Definition for_operator_with_stream (operator_id stream_id : Z) : EventIdGenerator :=
  mkGen operator_id stream_id 0.
Definition new_with_stream (source_id stream_id : Z) : EventIdGenerator :=
  mkGen source_id stream_id 0.
Definition set_source (g : EventIdGenerator) (s : Z) : EventIdGenerator :=
  mkGen s (gen_stream g) (gen_next g).
Definition set_stream (g : EventIdGenerator) (s : Z) : EventIdGenerator :=
  mkGen (gen_source g) s (gen_next g).
Definition reset (g : EventIdGenerator) : EventIdGenerator :=
  mkGen (gen_source g) (gen_stream g) 0.

(** The first [n] ids a generator hands out. *)
Fixpoint ids (n : nat) (g : EventIdGenerator) : list EventId :=
  match n with
  | O => []
  | S n => let '(e, g) := next_id g in e :: ids n g
  end.

End Gen.

(** ** The abstract view: a finite map of pull-id intervals *)

(** Hull of two intervals. *)
Definition hull (a b : Z * Z) : Z * Z := (Z.min a.1 b.1, Z.max a.2 b.2).

(** Join of two tracking maps: pointwise hull. *)
Definition join (m1 m2 : gmap stream_key (Z * Z)) : gmap stream_key (Z * Z) :=
  union_with (fun a b => Some (hull a b)) m1 m2.

Notation "m1 '⊔t' m2" := (join m1 m2) (at level 50, left associativity) : tremor_scope.

Definition interval (t : TrackedPullIds) : Z * Z := (min_pull_id t, max_pull_id t).

Definition single (t : TrackedPullIds) : gmap stream_key (Z * Z) :=
  {[ Tracked.key t := interval t ]}.

(** The map a vector of tracked ids stands for. *)
Definition tracked_map (l : list TrackedPullIds) : gmap stream_key (Z * Z) :=
  foldr (fun t m => single t ⊔t m) ∅ l.

(** An id's own position, and everything it stands for. *)
Definition own (e : EventId) : TrackedPullIds :=
  Tracked.new (source_id e) (stream_id e) (pull_id e) (pull_id e).

Definition id_map (e : EventId) : gmap stream_key (Z * Z) :=
  match tracked_pull_ids e with
  | [] => single (own e)
  | l => tracked_map l
  end.

Lemma hull_comm a b : hull a b = hull b a.
Proof. unfold hull. f_equal; lia. Qed.
Lemma hull_assoc a b c : hull a (hull b c) = hull (hull a b) c.
Proof. unfold hull; simpl. f_equal; lia. Qed.
Lemma hull_idemp a : hull a a = a.
Proof. destruct a. unfold hull; simpl. f_equal; lia. Qed.

Lemma lookup_join m1 m2 k :
  (m1 ⊔t m2) !! k =
    match m1 !! k, m2 !! k with
    | Some a, Some b => Some (hull a b)
    | Some a, None => Some a
    | None, o => o
    end.
Proof. unfold join. rewrite lookup_union_with. by destruct (m1 !! k), (m2 !! k). Qed.

Lemma join_comm m1 m2 : m1 ⊔t m2 = m2 ⊔t m1.
Proof.
  apply map_eq; intros k. rewrite !lookup_join.
  destruct (m1 !! k), (m2 !! k); try done. by rewrite hull_comm.
Qed.

Lemma join_assoc m1 m2 m3 : m1 ⊔t (m2 ⊔t m3) = m1 ⊔t m2 ⊔t m3.
Proof.
  apply map_eq; intros k. rewrite !lookup_join.
  destruct (m1 !! k), (m2 !! k), (m3 !! k); try done. by rewrite hull_assoc.
Qed.

Lemma join_idemp m : m ⊔t m = m.
Proof.
  apply map_eq; intros k. rewrite lookup_join.
  destruct (m !! k); [by rewrite hull_idemp | done].
Qed.

Lemma join_empty_l m : ∅ ⊔t m = m.
Proof. apply map_eq; intros k. rewrite lookup_join, lookup_empty. done. Qed.
Lemma join_empty_r m : m ⊔t ∅ = m.
Proof. by rewrite join_comm, join_empty_l. Qed.

Lemma single_join t u :
  Tracked.key t = Tracked.key u ->
  single t ⊔t single u = {[ Tracked.key t := hull (interval t) (interval u) ]}.
Proof.
  intros H. unfold single. rewrite <- H. apply map_eq; intros k. rewrite lookup_join.
  destruct (decide (k = Tracked.key t)) as [->|].
  - by rewrite !lookup_singleton_eq.
  - by rewrite !lookup_singleton_ne.
Qed.

Lemma tracked_map_app l1 l2 : tracked_map (l1 ++ l2) = tracked_map l1 ⊔t tracked_map l2.
Proof.
  induction l1 as [|t l1 IH]; simpl; [by rewrite join_empty_l|].
  by rewrite IH, join_assoc.
Qed.

(** ** Well-formed ids *)
Definition key_lt (t u : TrackedPullIds) : Prop := Tracked.compare t u = Lt.

(** The vector is strictly sorted by stream and covers the id's own pull. *)
Definition covers_own (e : EventId) : Prop :=
  tracked_pull_ids e = [] \/ id_map e ⊔t single (own e) = id_map e.

Definition wf_id (e : EventId) : Prop :=
  StronglySorted key_lt (tracked_pull_ids e) /\ covers_own e.

Lemma key_lt_trans t u v : key_lt t u -> key_lt u v -> key_lt t v.
Proof. apply pair_cmp_lt_trans. Qed.

Lemma compare_key t u : Tracked.compare t u = pair_cmp (Tracked.key t) (Tracked.key u).
Proof. done. Qed.

Lemma sorted_lookup l i j t u :
  StronglySorted key_lt l -> (i < j)%nat -> l !! i = Some t -> l !! j = Some u -> key_lt t u.
Proof.
  intros Hs. revert i j. induction Hs as [|x l Hs IH Hall]; intros i j Hij Hi Hj; [done|].
  destruct i, j; simplify_eq/=; try lia.
  - rewrite Forall_lookup in Hall. eauto.
  - eapply IH; [|done..]. lia.
Qed.

(** A sorted vector is a valid target for a search by key. *)
Lemma sorted_partitioned l k :
  StronglySorted key_lt l -> partitioned (fun p => pair_cmp (Tracked.key p) k) l.
Proof.
  intros Hs i j x y Hij Hx Hy.
  pose proof (sorted_lookup l i j x y Hs Hij Hx Hy) as Hlt.
  unfold key_lt in Hlt. rewrite compare_key in Hlt.
  assert (Hgt : pair_cmp (Tracked.key y) (Tracked.key x) = Gt)
    by (rewrite pair_cmp_antisym, Hlt; done).
  split_and!.
  - intros. by eapply pair_cmp_lt_trans.
  - intros Hxk. rewrite pair_cmp_antisym. rewrite (pair_cmp_antisym k) in Hxk.
    destruct (pair_cmp k (Tracked.key x)) eqn:E; try done.
    by rewrite (pair_cmp_lt_trans _ _ _ E Hlt).
  - intros <-%pair_cmp_eq. done.
  - intros <-%pair_cmp_eq. done.
Qed.

Lemma sorted_app_inv l1 l2 :
  StronglySorted key_lt (l1 ++ l2) ->
  StronglySorted key_lt l1 /\ StronglySorted key_lt l2 /\
  (forall x y, x ∈ l1 -> y ∈ l2 -> key_lt x y).
Proof.
  induction l1 as [|a l1 IH]; simpl; intros Hs.
  - split_and!; [constructor | done | set_solver].
  - inversion_clear Hs as [|?? Hs' Hall]. destruct (IH Hs') as (?&?&Hlt).
    rewrite Forall_app, !Forall_forall in Hall. destruct Hall as [H1 H2].
    split_and!; [constructor; [done|by apply Forall_forall] | done |].
    intros x y [->|]%elem_of_cons; eauto.
Qed.

Lemma sorted_app l1 l2 :
  StronglySorted key_lt l1 -> StronglySorted key_lt l2 ->
  (forall x y, x ∈ l1 -> y ∈ l2 -> key_lt x y) ->
  StronglySorted key_lt (l1 ++ l2).
Proof.
  intros H1 H2 Hlt. induction H1 as [|a l1 Hs IH Hall]; simpl; [done|].
  constructor.
  - apply IH. set_solver.
  - rewrite Forall_forall in *. set_solver.
Qed.

(** ** [upsert] implements the join with one entry *)
Section upsert.
Context (l : list TrackedPullIds) (t : TrackedPullIds).
Hypothesis Hsorted : StronglySorted key_lt l.

(** The two shapes [upsert] can leave the vector in. *)
Lemma upsert_cases :
  (exists l1 x l2, l = l1 ++ x :: l2 /\ Tracked.key x = Tracked.key t
     /\ EvId.upsert l t = l1 ++ Tracked.track_ids x (min_pull_id t) (max_pull_id t) :: l2)
  \/ (exists l1 l2, l = l1 ++ l2 /\ EvId.upsert l t = l1 ++ t :: l2
     /\ Forall (fun x => key_lt x t) l1 /\ Forall (fun x => key_lt t x) l2).
Proof.
  unfold EvId.upsert.
  pose proof (binary_search_by_spec _ _ (sorted_partitioned l (Tracked.key t) Hsorted)) as Hok.
  change (fun p => pair_cmp (Tracked.key p) (Tracked.key t))
    with (fun probe => Tracked.compare probe t) in Hok.
  destruct (binary_search_by _ l) as [i|i]; simpl in Hok.
  - destruct Hok as (l1 & x & l2 & -> & <- & Hx%pair_cmp_eq). left.
    exists l1, x, l2. split_and!; [done..|].
    rewrite list_lookup_middle by done. by rewrite insert_app_r_alt, Nat.sub_diag by lia.
  - destruct Hok as (l1 & l2 & -> & <- & H1 & H2). right.
    exists l1, l2. split_and!; [done|by rewrite vec_insert_app|done|].
    eapply Forall_impl; [exact H2|]. simpl. intros x Hx.
    unfold key_lt. rewrite compare_key, pair_cmp_antisym.
    change (Tracked.compare x t) with (pair_cmp (Tracked.key x) (Tracked.key t)) in Hx.
    by rewrite Hx.
Qed.

Lemma upsert_sorted : StronglySorted key_lt (EvId.upsert l t).
Proof using Hsorted.
  destruct upsert_cases as [(l1&x&l2&Hl&Hk&->)|(l1&l2&Hl&->&H1&H2)].
  - rewrite Hl in Hsorted. destruct (sorted_app_inv _ _ Hsorted) as (Hs1&Hs2&Hlt).
    inversion_clear Hs2 as [|?? Hs2' Hall]. apply sorted_app; [done| |].
    + constructor; [done|]. eapply Forall_impl; [exact Hall|]. done.
    + intros y z Hy [->|Hz]%elem_of_cons; [apply (Hlt y x)|apply Hlt]; set_solver.
  - rewrite Hl in Hsorted. destruct (sorted_app_inv _ _ Hsorted) as (Hs1&Hs2&Hlt).
    rewrite Forall_forall in H1. apply sorted_app; [done|by constructor|].
    intros y z Hy [->|Hz]%elem_of_cons; [by apply H1 | by apply Hlt].
Qed.

Lemma upsert_map : tracked_map (EvId.upsert l t) = tracked_map l ⊔t single t.
Proof using Hsorted.
  destruct upsert_cases as [(l1&x&l2&->&Hk&->)|(l1&l2&->&->&_&_)];
    rewrite !tracked_map_app; simpl.
  - replace (single (Tracked.track_ids x (min_pull_id t) (max_pull_id t)))
      with (single x ⊔t single t) by by rewrite single_join.
    rewrite <- !join_assoc. by rewrite (join_comm (single t)).
  - rewrite <- !join_assoc. by rewrite (join_comm (single t)).
Qed.

Lemma upsert_not_nil : EvId.upsert l t <> [].
Proof using Hsorted.
  destruct upsert_cases as [(l1&x&l2&->&Hk&->)|(l1&l2&->&->&_&_)]; by destruct l1.
Qed.
End upsert.

Lemma fold_upsert_spec ts l :
  StronglySorted key_lt l -> l <> [] ->
  StronglySorted key_lt (fold_left EvId.upsert ts l)
  /\ fold_left EvId.upsert ts l <> []
  /\ tracked_map (fold_left EvId.upsert ts l) = tracked_map l ⊔t tracked_map ts.
Proof.
  revert l. induction ts as [|t ts IH]; intros l Hs Hne; simpl.
  { split_and!; [done..|by rewrite join_empty_r]. }
  destruct (IH (EvId.upsert l t)) as (?&?&Heq); [by apply upsert_sorted|by apply upsert_not_nil|].
  split_and!; [done..|]. by rewrite Heq, upsert_map, join_assoc.
Qed.

(** The entry [track] writes for the other id's own stream. *)
Lemma track_own_entry a b mn mx :
  (if EvId.is_same_stream a (source_id b) (stream_id b)
   then (Z.min (pull_id a) (pull_id b), Z.max (pull_id a) (pull_id b))
   else (pull_id b, pull_id b)) = (mn, mx) ->
  single (Tracked.new (source_id b) (stream_id b) mn mx) =
  (if EvId.is_same_stream a (source_id b) (stream_id b) then single (own a) else ∅)
    ⊔t single (own b).
Proof.
  destruct (EvId.is_same_stream a _ _) eqn:Hsame; intros ?; simplify_eq.
  - unfold EvId.is_same_stream in Hsame.
    apply andb_true_iff in Hsame as [H1%Z.eqb_eq H2%Z.eqb_eq].
    rewrite single_join by (unfold Tracked.key, own; simpl; congruence).
    unfold single, Tracked.key, own; simpl. by rewrite H1, H2.
  - by rewrite join_empty_l.
Qed.

(** [track] on its own vector, without any assumption on the other id. *)
Lemma track_map_raw a b :
  StronglySorted key_lt (tracked_pull_ids a) ->
  StronglySorted key_lt (tracked_pull_ids (EvId.track a b))
  /\ tracked_pull_ids (EvId.track a b) <> []
  /\ id_map (EvId.track a b) =
       id_map a ⊔t (if EvId.is_same_stream a (source_id b) (stream_id b)
                    then single (own a) else ∅)
         ⊔t single (own b) ⊔t tracked_map (tracked_pull_ids b).
Proof.
  intros Hs. unfold EvId.track, EvId.track_ids.
  set (l0 := match tracked_pull_ids a with [] => _ | _ => _ end).
  assert (Hl0 : StronglySorted key_lt l0 /\ tracked_map l0 = id_map a).
  { subst l0. unfold id_map. destruct (tracked_pull_ids a); [|done].
    split; [repeat constructor|]. simpl. by rewrite join_empty_r. }
  destruct Hl0 as [Hs0 Hm0].
  destruct (if EvId.is_same_stream a _ _ then _ else _) as [mn mx] eqn:Hp. simpl.
  set (u := Tracked.new (source_id b) (stream_id b) mn mx).
  destruct (fold_upsert_spec (tracked_pull_ids b) (EvId.upsert l0 u)) as (?&Hne&Heq);
    [by apply upsert_sorted|by apply upsert_not_nil|].
  split_and!; [done..|].
  assert (Hid : id_map (EvId.set_tracked (EvId.set_tracked a (EvId.upsert l0 u))
            (fold_left EvId.upsert (tracked_pull_ids b) (EvId.upsert l0 u)))
          = tracked_map (fold_left EvId.upsert (tracked_pull_ids b) (EvId.upsert l0 u))).
  { unfold id_map; simpl. by destruct (fold_left _ _ _). }
  rewrite Hid, Heq, (upsert_map l0) by done. rewrite Hm0.
  subst u. rewrite (track_own_entry a b mn mx Hp). by rewrite !join_assoc.
Qed.

Lemma id_map_tracked e : join (id_map e) (tracked_map (tracked_pull_ids e)) = id_map e.
Proof.
  unfold id_map. destruct (tracked_pull_ids e); simpl; [by rewrite join_empty_r|].
  by rewrite join_idemp.
Qed.

Lemma covers_own_id_map e : covers_own e -> id_map e ⊔t single (own e) = id_map e.
Proof.
  intros [Hnil|?]; [|done]. unfold id_map. rewrite Hnil. apply join_idemp.
Qed.

Lemma own_tracked_id_map e :
  covers_own e -> single (own e) ⊔t tracked_map (tracked_pull_ids e) = id_map e.
Proof.
  intros Hc. unfold id_map.
  destruct (tracked_pull_ids e) eqn:E; simpl; [by rewrite join_empty_r|].
  pose proof (covers_own_id_map e Hc) as H. unfold id_map in H. rewrite E in H.
  by rewrite join_comm.
Qed.

Lemma own_track a b : own (EvId.track a b) = own a.
Proof. unfold EvId.track. by destruct (EvId.is_same_stream _ _ _). Qed.

(** [track] is the join of the two ids' interval maps, and it keeps the vector sorted and
    covering the id's own pull. *)
Lemma track_join a b :
  wf_id a -> wf_id b ->
  wf_id (EvId.track a b) /\ id_map (EvId.track a b) = id_map a ⊔t id_map b.
Proof.
  intros [Hs Hc] [_ Hcb]. destruct (track_map_raw a b Hs) as (Hs'&Hne&Heq).
  assert (Hmap : id_map (EvId.track a b) = id_map a ⊔t id_map b).
  { rewrite Heq, <- join_assoc, own_tracked_id_map by done. f_equal.
    destruct (EvId.is_same_stream _ _ _); [by apply covers_own_id_map|apply join_empty_r]. }
  split; [|done]. split; [done|]. right. rewrite Hmap.
  rewrite own_track. rewrite (join_comm (id_map a)), <- join_assoc. f_equal. by apply covers_own_id_map.
Qed.

Lemma wf_new s t i p : wf_id (EvId.new s t i p).
Proof. split; [constructor | by left]. Qed.

Lemma wf_track a b : wf_id a -> wf_id b -> wf_id (EvId.track a b).
Proof. intros. by apply track_join. Qed.

Lemma tracked_not_nil a b : wf_id a -> tracked_pull_ids (EvId.track a b) <> [].
Proof. intros [Hs _]. by destruct (track_map_raw a b Hs) as (_&?&_). Qed.

#[export] Hint Resolve wf_new wf_track : tremor.

(** Tracking a sequence of ids, as the batch operator and the windows do. *)
Definition track_all (a : EventId) (bs : list EventId) : EventId := fold_left EvId.track bs a.

Definition join_all (bs : list EventId) : gmap stream_key (Z * Z) :=
  foldr (fun b m => id_map b ⊔t m) ∅ bs.

Lemma track_all_join a bs :
  wf_id a -> Forall wf_id bs ->
  wf_id (track_all a bs) /\ id_map (track_all a bs) = id_map a ⊔t join_all bs.
Proof.
  unfold track_all. intros Ha Hbs. revert a Ha.
  induction Hbs as [|b bs Hb Hbs IH]; intros a Ha; simpl; [by rewrite join_empty_r|].
  destruct (track_join a b) as [Hw Heq]; [done..|].
  destruct (IH _ Hw) as [? Heq']. split; [done|]. by rewrite Heq', Heq, join_assoc.
Qed.

#[export] Instance join_all_perm : Proper ((≡ₚ) ==> (=)) join_all.
Proof.
  induction 1 as [|b l1 l2 _ IH|b c l|l1 l2 l3 _ IH1 _ IH2]; simpl; [done| | |congruence].
  - by rewrite IH.
  - by rewrite !join_assoc, (join_comm (id_map b)).
Qed.

(** C4: tracking any sequence of event ids yields the join (per (source, stream): minimum and
    maximum pull id) of all of them, whatever the order they arrive in; the vector stays
    strictly sorted, which the binary searches of later calls rely on. *)
Theorem track_all_refines_join a bs bs' :
  wf_id a -> Forall wf_id bs -> bs ≡ₚ bs' ->
  wf_id (track_all a bs)
  /\ id_map (track_all a bs) = id_map a ⊔t join_all bs
  /\ id_map (track_all a bs') = id_map (track_all a bs).
Proof.
  intros Ha Hbs Hp. destruct (track_all_join a bs) as [? Heq]; [done..|].
  destruct (track_all_join a bs') as [_ Heq']; [done|by rewrite <- Hp|].
  split_and!; [done..|]. by rewrite Heq, Heq', Hp.
Qed.

Definition track_ex : list EventId := [EvId.new 1 2 3 4; EvId.new 1 2 9 9; EvId.new 0 7 5 5].

Lemma track_all_refines_join_witness :
  id_map (track_all (EvId.new 1 1 1 1) (rev track_ex)) = id_map (track_all (EvId.new 1 1 1 1) track_ex)
  /\ EvId.get_max_by_stream (track_all (EvId.new 1 1 1 1) track_ex) 1 2 = Some 9.
Proof.
  split; [|reflexivity].
  destruct (track_all_refines_join (EvId.new 1 1 1 1) track_ex (rev track_ex)) as (_&_&H).
  - apply wf_new.
  - repeat constructor; by left.
  - symmetry. apply Permutation_rev.
  - exact H.
Defined.

(** ** Lookups in a sorted vector *)
Lemma find_stream_None l k : Forall (fun t => Tracked.key t <> k) l -> tracked_map l !! k = None.
Proof.
  induction 1 as [|t l Hk _ IH]; simpl; [apply lookup_empty|].
  rewrite lookup_join. unfold single. rewrite lookup_singleton_ne by done. done.
Qed.

Lemma find_stream_map l k :
  StronglySorted key_lt l -> tracked_map l !! k = interval <$> EvId.find_stream l k.
Proof.
  induction 1 as [|t l Hs IH Hall]; simpl; [apply lookup_empty|].
  rewrite lookup_join. unfold single.
  case_decide as Hk.
  - subst k. rewrite lookup_singleton_eq, find_stream_None; [done|].
    eapply Forall_impl; [exact Hall|]. intros u Hu Heq. unfold key_lt in Hu.
    rewrite compare_key, Heq in Hu.
    by rewrite (proj2 (pair_cmp_eq (Tracked.key t) (Tracked.key t))) in Hu.
  - rewrite lookup_singleton_ne by done. by destruct (tracked_map l !! k).
Qed.

(** The search of [is_tracking] finds the map's entry. *)
Lemma search_lookup l k :
  StronglySorted key_lt l ->
  match binary_search_by (fun p => Tracked.compare_ids p k.1 k.2) l with
  | Found i => exists t, l !! i = Some t /\ tracked_map l !! k = Some (interval t)
  | NotFound _ => tracked_map l !! k = None
  end.
Proof.
  intros Hs. pose proof (binary_search_by_spec _ _ (sorted_partitioned l k Hs)) as Hok.
  replace (binary_search_by (fun p => Tracked.compare_ids p k.1 k.2) l)
    with (binary_search_by (fun p => pair_cmp (Tracked.key p) k) l) by by destruct k.
  destruct (binary_search_by _ l) as [i|i]; simpl in Hok.
  - destruct Hok as (l1&t&l2&->&<-&<-%pair_cmp_eq). exists t.
    split; [by rewrite list_lookup_middle|].
    destruct (sorted_app_inv _ _ Hs) as (_&_&Hlt).
    rewrite find_stream_map by done.
    assert (Hl1 : Forall (fun u => Tracked.key u <> Tracked.key t) l1).
    { apply Forall_forall. intros u Hu Heq. specialize (Hlt u t Hu ltac:(set_solver)).
      unfold key_lt in Hlt. rewrite compare_key, Heq in Hlt.
      by rewrite (proj2 (pair_cmp_eq (Tracked.key t) (Tracked.key t))) in Hlt. }
    clear -Hl1. induction Hl1; simpl; case_decide; try done; congruence.
  - destruct Hok as (l1&l2&->&_&H1&H2). apply find_stream_None.
    apply Forall_app; split; (eapply Forall_impl; [eassumption|]); simpl;
      intros u Hu Heq; rewrite Heq in Hu; by rewrite (proj2 (pair_cmp_eq k k)) in Hu.
Qed.

(** Membership in the abstract view: the id's pull lies in the interval of its stream. *)
Definition in_map (m : gmap stream_key (Z * Z)) (x : EventId) : Prop :=
  exists lo hi, m !! (source_id x, stream_id x) = Some (lo, hi) /\ lo <= pull_id x <= hi.

Lemma in_map_join_l m1 m2 x : in_map m1 x -> in_map (m1 ⊔t m2) x.
Proof.
  intros (lo&hi&Hl&?). unfold in_map. setoid_rewrite lookup_join. rewrite Hl.
  destruct (m2 !! _) as [[a b]|]; do 2 eexists; (split; [done|]); simpl; lia.
Qed.

Lemma in_map_join_r m1 m2 x : in_map m2 x -> in_map (m1 ⊔t m2) x.
Proof. rewrite join_comm. apply in_map_join_l. Qed.

Lemma in_map_own e : covers_own e -> in_map (id_map e) e.
Proof.
  intros Hc. rewrite <- covers_own_id_map by done. apply in_map_join_r.
  exists (pull_id e), (pull_id e). split; [by apply lookup_singleton_Some|lia].
Qed.

Lemma is_tracking_map e x :
  wf_id e -> tracked_pull_ids e <> [] -> EvId.is_tracking e x = true <-> in_map (id_map e) x.
Proof.
  intros [Hs _] Hne. unfold EvId.is_tracking, in_map, id_map.
  pose proof (search_lookup (tracked_pull_ids e) (source_id x, stream_id x) Hs) as Hl.
  destruct (tracked_pull_ids e) as [|t0 l0]; [done|].
  cbn [fst snd] in Hl. destruct (binary_search_by _ _) as [i|i].
  - destruct Hl as (t&->&Hm). rewrite Hm. unfold interval. rewrite andb_true_iff, !Z.leb_le.
    naive_solver.
  - rewrite Hl. naive_solver.
Qed.

Lemma is_tracking_in_map e x : wf_id e -> EvId.is_tracking e x = true -> in_map (id_map e) x.
Proof.
  intros Hw Ht. destruct (decide (tracked_pull_ids e = [])) as [Hnil|]; [|by apply is_tracking_map].
  destruct (in_map_own e) as (lo&hi&Hl&Hr); [by left|].
  unfold EvId.is_tracking in Ht. rewrite Hnil in Ht.
  rewrite !andb_true_iff, !Z.eqb_eq in Ht. unfold EvId.is_same_stream in Ht.
  rewrite !andb_true_iff, !Z.eqb_eq in Ht. destruct Ht as [[[H1 H2] H3] _].
  exists lo, hi. by rewrite <- H1, <- H2, <- H3.
Qed.

Lemma join_all_in_map bs b x : b ∈ bs -> in_map (id_map b) x -> in_map (join_all bs) x.
Proof.
  induction bs as [|c bs IH]; [set_solver|]. simpl.
  intros [->|]%elem_of_cons ?; [by apply in_map_join_l|apply in_map_join_r; auto].
Qed.

Lemma track_all_exact a bs x :
  wf_id a -> Forall wf_id bs -> bs <> [] ->
  EvId.is_tracking (track_all a bs) x = true <-> in_map (id_map a ⊔t join_all bs) x.
Proof.
  intros Ha Hbs Hne. destruct (track_all_join a bs) as [Hw Heq]; [done..|].
  rewrite <- Heq. apply is_tracking_map; [done|].
  destruct bs as [|b bs _] using rev_ind; [done|]. unfold track_all.
  rewrite fold_left_app. simpl. apply Forall_app in Hbs as [Hbs _].
  apply tracked_not_nil. by apply track_all_join.
Qed.

Lemma track_all_member a bs b :
  wf_id a -> Forall wf_id bs -> b ∈ bs -> EvId.is_tracking (track_all a bs) b = true.
Proof.
  intros Ha Hbs Hb. apply track_all_exact; [done..|by intros ->; apply elem_of_nil in Hb|].
  apply in_map_join_r, (join_all_in_map bs b); [done|].
  rewrite Forall_forall in Hbs. apply in_map_own, Hbs, Hb.
Qed.

(** C6: after tracking a non-empty sequence, the id is tracking exactly the ids whose pull
    lies in the joined intervals; these include every id of the sequence, everything those
    were tracking, and everything it was tracking before: an ack for it covers all of them. *)
Theorem track_all_is_tracking a bs x :
  wf_id a -> Forall wf_id bs -> bs <> [] ->
  (EvId.is_tracking (track_all a bs) x = true <-> in_map (id_map a ⊔t join_all bs) x)
  /\ (EvId.is_tracking a x = true -> EvId.is_tracking (track_all a bs) x = true)
  /\ (forall b, b ∈ bs -> x = b \/ EvId.is_tracking b x = true ->
        EvId.is_tracking (track_all a bs) x = true).
Proof.
  intros Ha Hbs Hne. pose proof (track_all_exact a bs x Ha Hbs Hne) as Hex.
  split_and!; [done| |].
  - intros ?. by apply Hex, in_map_join_l, is_tracking_in_map.
  - intros b Hb Hx. rewrite Forall_forall in Hbs.
    apply Hex, in_map_join_r, (join_all_in_map bs b); [done|].
    destruct Hx as [->|?]; [apply in_map_own, Hbs, Hb|apply is_tracking_in_map; auto].
Qed.

Lemma track_all_is_tracking_witness :
  EvId.is_tracking (track_all (EvId.new 1 1 1 1) track_ex) (EvId.new 1 2 3 4) = true.
Proof.
  apply (track_all_is_tracking (EvId.new 1 1 1 1) track_ex) with (b := EvId.new 1 2 3 4).
  - apply wf_new.
  - repeat constructor; by left.
  - discriminate.
  - left.
  - by left.
Defined.

(** ** Getters *)
Lemma lookup_single t k : single t !! k = if decide (k = Tracked.key t) then Some (interval t) else None.
Proof.
  unfold single. case_decide as H; [by rewrite H, lookup_singleton_eq|by rewrite lookup_singleton_ne].
Qed.

Lemma same_stream_decide e s t :
  EvId.is_same_stream e s t = bool_decide ((s, t) = Tracked.key (own e)).
Proof.
  unfold EvId.is_same_stream, own, Tracked.key; simpl.
  destruct (Z.eqb_spec (source_id e) s), (Z.eqb_spec (stream_id e) t); simpl; symmetry;
    rewrite ?bool_decide_eq_true, ?bool_decide_eq_false; congruence.
Qed.

Lemma elem_of_tracked_map l s st iv :
  StronglySorted key_lt l ->
  tracked_map l !! (s, st) = Some iv <->
  exists t, t ∈ l /\ tp_source_id t = s /\ tp_stream_id t = st /\ interval t = iv.
Proof.
  intros Hs. rewrite find_stream_map by done. induction Hs as [|t l Hs IH Hall]; simpl.
  { split; [done|]. intros (?&H%elem_of_nil&_). done. }
  rewrite Forall_forall in Hall.
  assert (Hother : forall u, u ∈ l -> Tracked.key u <> Tracked.key t).
  { intros u Hu Heq. specialize (Hall u Hu). unfold key_lt in Hall.
    rewrite compare_key, Heq in Hall.
    by rewrite (proj2 (pair_cmp_eq (Tracked.key t) (Tracked.key t))) in Hall. }
  case_decide as Hk.
  - unfold Tracked.key in Hk. simplify_eq. simpl. split.
    + intros ?; simplify_eq. exists t. split_and!; [left|done..].
    + intros (u&[->|Hu]%elem_of_cons&H1&H2&<-); [done|].
      destruct (Hother u Hu). unfold Tracked.key. congruence.
  - rewrite IH. split.
    + intros (u&?&?). exists u. split; [by right|done].
    + intros (u&[->|Hu]%elem_of_cons&H1&H2&<-); [|eauto].
      destruct Hk. unfold Tracked.key. congruence.
Qed.

Lemma omap_source {B} (f : TrackedPullIds -> B) (l : list TrackedPullIds) s b :
  b ∈ omap (fun t => if tp_source_id t =? s then Some (f t) else None) l <->
  exists t, t ∈ l /\ tp_source_id t = s /\ f t = b.
Proof.
  rewrite list_elem_of_omap. split.
  - intros (t&?&H). destruct (Z.eqb_spec (tp_source_id t) s); naive_solver.
  - intros (t&?&<-&<-). exists t. split; [done|]. by rewrite Z.eqb_refl.
Qed.

(** C7: the getters a source uses to acknowledge ([get_max_*]) and fail ([get_min_*]) pulls
    read the upper and the lower ends of the interval map, for one stream and for all
    streams of a source; [get_streams] is the set of the source's streams. *)
Theorem getters_refine_map e s st p :
  wf_id e ->
  EvId.get_min_by_stream e s st = fst <$> id_map e !! (s, st)
  /\ EvId.get_max_by_stream e s st = snd <$> id_map e !! (s, st)
  /\ ((st, p) ∈ EvId.get_min_streams_by_source e s <-> exists hi, id_map e !! (s, st) = Some (p, hi))
  /\ ((st, p) ∈ EvId.get_max_streams_by_source e s <-> exists lo, id_map e !! (s, st) = Some (lo, p))
  /\ (st ∈ EvId.get_streams e s <-> is_Some (id_map e !! (s, st))).
Proof.
  intros [Hs _]. unfold EvId.get_min_by_stream, EvId.get_max_by_stream,
    EvId.get_min_streams_by_source, EvId.get_max_streams_by_source, EvId.get_streams, id_map.
  destruct (tracked_pull_ids e) as [|t l] eqn:E.
  - rewrite same_stream_decide, lookup_single. unfold own, Tracked.key, interval; simpl.
    destruct (Z.eqb_spec (source_id e) s) as [<-|];
      repeat case_decide; repeat case_bool_decide; simplify_eq; simpl; set_solver.
  - rewrite find_stream_map by done.
    split_and!; [by destruct (EvId.find_stream _ _)..| | |].
    + rewrite (omap_source (fun t => (tp_stream_id t, min_pull_id t))).
      setoid_rewrite <- (find_stream_map (t :: l)); [|done].
      setoid_rewrite elem_of_tracked_map; [|done]. unfold interval. naive_solver.
    + rewrite (omap_source (fun t => (tp_stream_id t, max_pull_id t))).
      setoid_rewrite <- (find_stream_map (t :: l)); [|done].
      setoid_rewrite elem_of_tracked_map; [|done]. unfold interval. naive_solver.
    + rewrite elem_of_list_to_set, omap_source. unfold is_Some.
      setoid_rewrite <- (find_stream_map (t :: l)); [|done].
      setoid_rewrite elem_of_tracked_map; [|done]. naive_solver.
Qed.

Lemma getters_refine_map_witness :
  (2, 9) ∈ EvId.get_max_streams_by_source (track_all (EvId.new 1 1 1 1) track_ex) 1.
Proof.
  apply (getters_refine_map (track_all (EvId.new 1 1 1 1) track_ex) 1 2 9).
  - apply track_all_join; [apply wf_new | repeat constructor; by left].
  - exists 4. reflexivity.
Defined.

(** ** Generated ids *)
Lemma ids_lookup n g i e :
  Gen.ids n g !! i = Some e ->
  source_id e = gen_source g /\ stream_id e = gen_stream g /\ pull_id e = event_id e
  /\ (i < n)%nat /\ event_id e = if decide (i = 0%nat) then gen_next g else u64 (gen_next g + Z.of_nat i).
Proof.
  revert g i. induction n as [|n IH]; intros g i; [done|]. destruct i as [|i]; simpl.
  { intros ?; simplify_eq/=. split_and!; auto with lia. }
  intros (H1&H2&H3&H4&H5)%IH. simpl in *. split_and!; auto with lia.
  rewrite H5. unfold wrapping_add, u64. case_decide.
  - subst. done.
  - rewrite Zplus_mod_idemp_l. f_equal. lia.
Qed.

(** C28: a generator hands out pairwise distinct, untracked event ids of its source and
    stream for up to 2^64 calls (then the counter wraps). *)
Theorem generator_ids_distinct n g :
  is_u64 (gen_next g) -> Z.of_nat n <= 2 ^ 64 ->
  NoDup (Gen.ids n g)
  /\ Forall (fun e => source_id e = gen_source g /\ stream_id e = gen_stream g) (Gen.ids n g).
Proof.
  intros Hr Hn. split.
  - apply NoDup_alt. intros i j e Hi%ids_lookup Hj%ids_lookup.
    destruct Hi as (_&_&_&Hi&Hei), Hj as (_&_&_&Hj&Hej). rewrite Hei in Hej.
    assert (Hu : forall k, (if decide (k = 0%nat) then gen_next g else u64 (gen_next g + Z.of_nat k))
                 = u64 (gen_next g + Z.of_nat k)).
    { intros k. destruct (decide (k = 0%nat)) as [->|]; [|done]. by rewrite Z.add_0_r, u64_id. }
    rewrite !Hu in Hej. unfold u64, is_u64 in *.
    assert (Z.of_nat i = Z.of_nat j); [|lia].
    pose proof (Z.div_mod (gen_next g + Z.of_nat i) (2 ^ 64) ltac:(lia)).
    pose proof (Z.div_mod (gen_next g + Z.of_nat j) (2 ^ 64) ltac:(lia)).
    lia.
  - apply Forall_lookup. intros i e (?&?&_)%ids_lookup. done.
Qed.

Lemma generator_ids_distinct_witness :
  NoDup (Gen.ids 3 (mkGen 5 7 (2 ^ 64 - 1))).
Proof.
  apply (generator_ids_distinct 3 (mkGen 5 7 (2 ^ 64 - 1))); [|reflexivity || discriminate].
  split; [discriminate | reflexivity].
Defined.
