(* ===== verification/Value.v ===== *)
(** * Values

    Models the [Value] type of tremor-value/src/value.rs, the constructors and accessors
    the pipeline uses, and [ValueAndMeta] of tremor-script/src/srs.rs.

    A 64 bit float is the specification float of the Standard Library (a sign, mantissa and
    exponent, or an infinity, a zero, NaN) at binary64 precision.  Strings are their UTF-8
    bytes.  An object is an association list with the update discipline of a map
    ([obj_insert] replaces the entry of a key in place or appends it), in insertion order, as
    halfbrown's vector maps are.  The byte buffers a payload's borrowed strings point into are
    not modelled. *)
From Stdlib Require Import SpecFloat.
From Stdlib Require Strings.Byte Strings.Ascii.
From S2P Require Import Prelude.

Notation byte := Byte.byte.

#[export] Instance byte_eq_dec : EqDecision byte := Byte.byte_eq_dec.

Inductive StaticNode : Type :=
| SNull
| SBool (b : bool)
| SI64 (i : Z)
| SU64 (u : Z)
| SF64 (f : spec_float).

Inductive Value : Type :=
| VStatic (s : StaticNode)
| VString (s : string)
| VArray (a : list Value)
| VObject (o : list (string * Value))
| VBytes (b : list byte).

(** ** Maps with string keys *)
Section object.
Context {A : Type}.

Fixpoint obj_get (k : string) (o : list (string * A)) : option A :=
  match o with
  | [] => None
  | (k', v) :: o => if decide (k = k') then Some v else obj_get k o
  end.

Fixpoint obj_insert (k : string) (v : A) (o : list (string * A)) : list (string * A) :=
  match o with
  | [] => [(k, v)]
  | (k', v') :: o => if decide (k = k') then (k', v) :: o else (k', v') :: obj_insert k v o
  end.

Lemma obj_get_insert k v o : obj_get k (obj_insert k v o) = Some v.
Proof.
  induction o as [|[k' v'] o IH]; simpl; [by rewrite decide_True|].
  case_decide; simpl; [by rewrite decide_True|by rewrite decide_False].
Qed.

Lemma obj_get_insert_ne k k' v o : k <> k' -> obj_get k (obj_insert k' v o) = obj_get k o.
Proof.
  intros Hne. induction o as [|[k2 v2] o IH]; simpl; [by rewrite decide_False|].
  repeat (case_decide; simpl; simplify_eq); congruence.
Qed.

Lemma obj_insert_keys k v o :
  (obj_insert k v o).*1 = if decide (k ∈ o.*1) then o.*1 else o.*1 ++ [k].
Proof.
  induction o as [|[k' v'] o IH]; [done|]. cbn [obj_insert].
  destruct (decide (k = k')) as [->|Hk]; csimpl.
  - rewrite decide_True; [done|set_solver].
  - rewrite IH. repeat case_decide; set_solver.
Qed.

Lemma obj_insert_NoDup k v o : NoDup o.*1 -> NoDup (obj_insert k v o).*1.
Proof.
  intros Hn. rewrite obj_insert_keys. case_decide; [done|].
  apply NoDup_app. split_and!; [done|set_solver|apply NoDup_singleton].
Qed.

Lemma obj_get_elem k (v : A) o : NoDup o.*1 -> obj_get k o = Some v <-> (k, v) ∈ o.
Proof.
  induction o as [|[k' v'] o IH]; simpl; intros Hn; [set_solver|].
  inversion_clear Hn as [|?? Hk Hn']. case_decide.
  - subst. rewrite elem_of_cons. split; [naive_solver|]. intros [?|Hin]; [by simplify_eq|].
    destruct Hk. apply list_elem_of_fmap. by exists (k', v).
  - rewrite IH by done. rewrite elem_of_cons. naive_solver.
Qed.
End object.

(** ** Construction and access *)
Module Val.

Definition const_null : Value := VStatic SNull.
Definition const_true : Value := VStatic (SBool true).
Definition const_false : Value := VStatic (SBool false).
Definition array : Value := VArray [].
Definition object : Value := VObject [].
Definition of_u64 (u : Z) : Value := VStatic (SU64 u).
Definition of_bool (b : bool) : Value := VStatic (SBool b).

Definition is_null (v : Value) : bool :=
  match v with VStatic SNull => true | _ => false end.

Definition as_bool (v : Value) : option bool :=
  match v with VStatic (SBool b) => Some b | _ => None end.

(** [StaticNode::as_u64]: unsigned integers and non-negative signed ones. *)
Definition as_u64 (v : Value) : option Z :=
  match v with
  | VStatic (SU64 u) => Some u
  | VStatic (SI64 i) => if 0 <=? i then Some i else None
  | _ => None
  end.

Definition as_str (v : Value) : option string :=
  match v with VString s => Some s | _ => None end.

Definition as_array (v : Value) : option (list Value) :=
  match v with VArray a => Some a | _ => None end.

Definition as_object (v : Value) : option (list (string * Value)) :=
  match v with VObject o => Some o | _ => None end.

Definition get (k : string) (v : Value) : option Value :=
  match as_object v with Some o => obj_get k o | None => None end.

Definition get_idx (i : nat) (v : Value) : option Value :=
  match as_array v with Some a => a !! i | None => None end.

Definition get_u64 (k : string) (v : Value) : option Z :=
  match get k v with Some x => as_u64 x | None => None end.

Definition get_str (k : string) (v : Value) : option string :=
  match get k v with Some x => as_str x | None => None end.

(** [Mutable::try_insert]: a no-op on anything but an object. *)
Definition try_insert (k : string) (x : Value) (v : Value) : Value :=
  match v with
  | VObject o => VObject (obj_insert k x o)
  | _ => v
  end.

(** [Mutable::try_push]. *)
Definition try_push (x : Value) (v : Value) : Value :=
  match v with
  | VArray a => VArray (a ++ [x])
  | _ => v
  end.

End Val.

(** ** Value and metadata of an event *)
Record ValueAndMeta : Type := mkVM { vm_value : Value; vm_meta : Value }.

Module VM.

Definition from_parts (v m : Value) : ValueAndMeta := mkVM v m.
Definition default : ValueAndMeta := mkVM Val.object Val.object.
Definition from_value (v : Value) : ValueAndMeta := mkVM v Val.object.

End VM.
