(* ===== verification/Event.v ===== *)
(** * Events

    Models [Event] and its iterators (tremor-pipeline/src/event.rs) and the contraflow and
    signal vocabulary of tremor-pipeline/src/lib.rs ([CbAction], [SignalKind], [OpMeta]).
    The wall clock ([nanotime()]) is an argument of the constructors that read it. *)
From S2P Require Import Prelude EventId Value.

(** ** Identifiers (tremor-common/src/ids.rs): newtypes over u64 *)
Notation OperatorId := Z (only parsing).
Notation SourceId := Z (only parsing).
Notation SinkId := Z (only parsing).

(** ** Circuit breaker actions and signals *)
Inductive CbAction : Type :=
| CbNone
| CbTrigger
| CbRestore
| CbAck
| CbFail
| CbSinkStart (sink : SinkId)
| CbDrained (source : SourceId) (sink : SinkId).

Inductive SignalKind : Type :=
| SigStart (source : SourceId)
| SigShutdown
| SigControl
| SigTick
| SigDrain (source : SourceId).

#[export] Instance CbAction_eq_dec : EqDecision CbAction.
Proof. solve_decision. Defined.
#[export] Instance SignalKind_eq_dec : EqDecision SignalKind.
Proof. solve_decision. Defined.

Module Cb.

Definition from_bool (success : bool) : CbAction := if success then CbAck else CbFail.

Definition is_cb (c : CbAction) : bool :=
  match c with CbTrigger | CbRestore => true | _ => false end.

Definition is_gd (c : CbAction) : bool :=
  match c with CbAck | CbFail => true | _ => false end.

Definition always_deliver (c : CbAction) : bool :=
  is_cb c || match c with CbDrained _ _ | CbSinkStart _ => true | _ => false end.

End Cb.

(** ** Operator metadata: a map from operator ids to values *)
Notation OpMeta := (gmap OperatorId Value) (only parsing).

Module OpMetaOps.

Definition insert (m : OpMeta) (key : OperatorId) (value : Value) : OpMeta := <[key := value]> m.
Definition get (m : OpMeta) (key : OperatorId) : option Value := m !! key.
Definition contains_key (m : OpMeta) (key : OperatorId) : bool := bool_decide (is_Some (m !! key)).

(** [BTreeMap::append]: entries of [other] win. *)
Definition merge (m other : OpMeta) : OpMeta := other ∪ m.
Definition is_empty (m : OpMeta) : bool := bool_decide (m = ∅).

End OpMetaOps.

(** ** The event record *)
Record EventOriginUri : Type := mkOrigin {
  uri_scheme : string;
  uri_host : string;
  uri_port : option Z;
  uri_path : list string
}.

Record Event : Type := mkEvent {
  ev_id : EventId;
  ev_data : ValueAndMeta;
  ev_ingest_ns : Z;
  ev_origin_uri : option EventOriginUri;
  ev_kind : option SignalKind;
  ev_is_batch : bool;
  ev_cb : CbAction;
  ev_op_meta : OpMeta;
  ev_transactional : bool
}.

Module Evt.

Definition default : Event :=
  mkEvent EvId.default VM.default 0 None None false CbNone ∅ false.

(** Functional record updates (the struct-update syntax and field assignments). *)
Definition set_id (e : Event) (x : EventId) : Event :=
  mkEvent x (ev_data e) (ev_ingest_ns e) (ev_origin_uri e) (ev_kind e) (ev_is_batch e)
    (ev_cb e) (ev_op_meta e) (ev_transactional e).
Definition set_data (e : Event) (x : ValueAndMeta) : Event :=
  mkEvent (ev_id e) x (ev_ingest_ns e) (ev_origin_uri e) (ev_kind e) (ev_is_batch e)
    (ev_cb e) (ev_op_meta e) (ev_transactional e).
Definition set_ingest_ns (e : Event) (x : Z) : Event :=
  mkEvent (ev_id e) (ev_data e) x (ev_origin_uri e) (ev_kind e) (ev_is_batch e)
    (ev_cb e) (ev_op_meta e) (ev_transactional e).
Definition set_kind (e : Event) (x : option SignalKind) : Event :=
  mkEvent (ev_id e) (ev_data e) (ev_ingest_ns e) (ev_origin_uri e) x (ev_is_batch e)
    (ev_cb e) (ev_op_meta e) (ev_transactional e).
Definition set_cb (e : Event) (x : CbAction) : Event :=
  mkEvent (ev_id e) (ev_data e) (ev_ingest_ns e) (ev_origin_uri e) (ev_kind e) (ev_is_batch e)
    x (ev_op_meta e) (ev_transactional e).
Definition set_op_meta (e : Event) (x : OpMeta) : Event :=
  mkEvent (ev_id e) (ev_data e) (ev_ingest_ns e) (ev_origin_uri e) (ev_kind e) (ev_is_batch e)
    (ev_cb e) x (ev_transactional e).
Definition set_transactional (e : Event) (x : bool) : Event :=
  mkEvent (ev_id e) (ev_data e) (ev_ingest_ns e) (ev_origin_uri e) (ev_kind e) (ev_is_batch e)
    (ev_cb e) (ev_op_meta e) x.

Definition signal_tick (now : Z) : Event := set_kind (set_ingest_ns default now) (Some SigTick).
Definition signal_drain (now : Z) (s : SourceId) : Event :=
  set_kind (set_ingest_ns default now) (Some (SigDrain s)).
Definition signal_start (now : Z) (s : SourceId) : Event :=
  set_kind (set_ingest_ns default now) (Some (SigStart s)).

Definition insight (cb : CbAction) (id : EventId) (ingest_ns : Z) (op_meta : OpMeta) : Event :=
  set_op_meta (set_cb (set_ingest_ns (set_id default id) ingest_ns) cb) op_meta.

Definition cb_restore (ingest_ns : Z) : Event := set_cb (set_ingest_ns default ingest_ns) CbRestore.
Definition cb_trigger (ingest_ns : Z) : Event := set_cb (set_ingest_ns default ingest_ns) CbTrigger.
Definition cb_open (ingest_ns : Z) (op_meta : OpMeta) : Event :=
  set_cb (set_op_meta (set_ingest_ns default ingest_ns) op_meta) CbRestore.
Definition cb_close (ingest_ns : Z) (op_meta : OpMeta) : Event :=
  set_cb (set_op_meta (set_ingest_ns default ingest_ns) op_meta) CbTrigger.
Definition cb_ack (ingest_ns : Z) (id : EventId) (op_meta : OpMeta) : Event :=
  insight CbAck id ingest_ns op_meta.
Definition cb_fail (ingest_ns : Z) (id : EventId) (op_meta : OpMeta) : Event :=
  insight CbFail id ingest_ns op_meta.

(** [(Value::null(), literal!({"time": duration})).into()] *)
Definition timing_data (duration : Z) : ValueAndMeta :=
  mkVM Val.const_null (VObject [("time", Val.of_u64 duration)]).
Definition cb_ack_with_timing (ingest_ns : Z) (id : EventId) (op_meta : OpMeta) (duration : Z)
  : Event := set_data (cb_ack ingest_ns id op_meta) (timing_data duration).

Definition restore_or_break (restore : bool) (ingest_ns : Z) : Event :=
  if restore then cb_restore ingest_ns else cb_trigger ingest_ns.
Definition ack_or_fail (ack : bool) (ingest_ns : Z) (ids : EventId) (op_meta : OpMeta) : Event :=
  if ack then cb_ack ingest_ns ids op_meta else cb_fail ingest_ns ids op_meta.

Definition insight_ack (e : Event) : Event := cb_ack (ev_ingest_ns e) (ev_id e) (ev_op_meta e).
Definition insight_ack_with_timing (e : Event) (processing_time : Z) : Event :=
  set_data (insight_ack e) (timing_data processing_time).
Definition insight_fail (e : Event) : Event := cb_fail (ev_ingest_ns e) (ev_id e) (ev_op_meta e).

(** The two constructors that swap the op meta out of the event: they return the insight and
    the event left behind. *)
Definition insight_restore (e : Event) : Event * Event :=
  let i := cb_restore (ev_ingest_ns e) in
  (set_op_meta i (ev_op_meta e), set_op_meta e (ev_op_meta i)).
Definition insight_trigger (e : Event) : Event * Event :=
  let i := cb_trigger (ev_ingest_ns e) in
  (set_op_meta i (ev_op_meta e), set_op_meta e (ev_op_meta i)).

(** ** Batched events *)
Definition len (e : Event) : nat :=
  if ev_is_batch e then
    match Val.as_array (vm_value (ev_data e)) with Some a => length a | None => 0%nat end
  else 1%nat.

Definition is_empty (e : Event) : bool :=
  ev_is_batch e &&
  match Val.as_array (vm_value (ev_data e)) with
  | Some a => match a with [] => true | _ => false end
  | None => true
  end.

Definition extract_batched_value_meta (v : Value) : option (Value * Value) :=
  match Val.get "data" v with
  | Some last_data =>
      match Val.get "value" last_data, Val.get "meta" last_data with
      | Some x, Some m => Some (x, m)
      | _, _ => None
      end
  | None => None
  end.

Definition extract_batched_value (v : Value) : option Value :=
  match Val.get "data" v with
  | Some last_data => Val.get "value" last_data
  | None => None
  end.

(** [ValueMetaIter::next] and [ValueIter::next]: the item and the new index. *)
Definition vm_next (e : Event) (idx : nat) : option (Value * Value) * nat :=
  if ev_is_batch e then
    (match Val.get_idx idx (vm_value (ev_data e)) with
     | Some v => extract_batched_value_meta v
     | None => None
     end, S idx)
  else match idx with
       | O => (Some (vm_value (ev_data e), vm_meta (ev_data e)), S idx)
       | S _ => (None, idx)
       end.

Definition v_next (e : Event) (idx : nat) : option Value * nat :=
  if ev_is_batch e then
    (match Val.get_idx idx (vm_value (ev_data e)) with
     | Some v => extract_batched_value v
     | None => None
     end, S idx)
  else match idx with
       | O => (Some (vm_value (ev_data e)), S idx)
       | S _ => (None, idx)
       end.

(** A [for] loop over an iterator: at most [fuel] items. *)
Fixpoint collect {A} (next : nat -> option A * nat) (fuel idx : nat) : list A :=
  match fuel with
  | O => []
  | S fuel =>
      match next idx with
      | (Some x, idx) => x :: collect next fuel idx
      | (None, _) => []
      end
  end.

(** One step more than the number of events ends either iterator ([iter_complete]). *)
Definition value_meta_iter (e : Event) : list (Value * Value) :=
  collect (vm_next e) (S (len e)) 0.
Definition value_iter (e : Event) : list Value := collect (v_next e) (S (len e)) 0.

(** [slice::split_last] *)
Definition split_last {A} (l : list A) : option (A * list A) :=
  match last l with
  | Some x => Some (x, removelast l)
  | None => None
  end.

Definition vm_split_last (e : Event) : option ((Value * Value) * list (Value * Value)) :=
  if ev_is_batch e then
    match Val.as_array (vm_value (ev_data e)) with
    | Some vec =>
        match split_last vec with
        | Some (last, rest) =>
            match extract_batched_value_meta last with
            | Some l => Some (l, omap extract_batched_value_meta rest)
            | None => None
            end
        | None => None
        end
    | None => None
    end
  else Some ((vm_value (ev_data e), vm_meta (ev_data e)), []).

Definition v_split_last (e : Event) : option (Value * list Value) :=
  if ev_is_batch e then
    match Val.as_array (vm_value (ev_data e)) with
    | Some vec =>
        match split_last vec with
        | Some (last, rest) =>
            match extract_batched_value last with
            | Some l => Some (l, omap extract_batched_value rest)
            | None => None
            end
        | None => None
        end
    | None => None
    end
  else Some (vm_value (ev_data e), []).

Definition correlation_metas (e : Event) : list (option Value) :=
  map (fun vm => Val.get "correlation" vm.2) (value_meta_iter e).

(** [Value::from(Vec<Option<Value>>)]: absent entries become null. *)
Definition value_of_options (l : list (option Value)) : Value :=
  VArray (map (from_option id Val.const_null) l).

Definition correlation_meta (e : Event) : option Value :=
  if ev_is_batch e then
    match correlation_metas e with
    | [] => None
    | cms => Some (value_of_options cms)
    end
  else Val.get "correlation" (vm_meta (ev_data e)).

End Evt.

(** ** Iteration over batches *)

(** The well-formed events: a single event, or a batch whose elements all carry a value and
    a metadata entry (what the batch operator builds). *)
Definition wf_batch (e : Event) : Prop :=
  ev_is_batch e = true ->
  exists a, vm_value (ev_data e) = VArray a
    /\ Forall (fun v => is_Some (Evt.extract_batched_value_meta v)) a.

Definition batch_items (e : Event) : list (Value * Value) :=
  if ev_is_batch e then
    match Val.as_array (vm_value (ev_data e)) with
    | Some a => omap Evt.extract_batched_value_meta a
    | None => []
    end
  else [(vm_value (ev_data e), vm_meta (ev_data e))].

Lemma omap_is_Some {A B} (f : A -> option B) (l : list A) :
  Forall (fun x => is_Some (f x)) l -> length (omap f l) = length l.
Proof. induction 1 as [|x l [y Hy] _ IH]; csimpl; [done|]. rewrite Hy. simpl. by rewrite IH. Qed.

Lemma extract_value_of_vm v x m :
  Evt.extract_batched_value_meta v = Some (x, m) -> Evt.extract_batched_value v = Some x.
Proof.
  unfold Evt.extract_batched_value_meta, Evt.extract_batched_value. intros.
  repeat case_match; by simplify_eq.
Qed.

Lemma omap_extract_value a :
  Forall (fun v => is_Some (Evt.extract_batched_value_meta v)) a ->
  omap Evt.extract_batched_value a = (omap Evt.extract_batched_value_meta a).*1.
Proof.
  induction 1 as [|v a [[x m] Hv] _ IH]; csimpl; [done|].
  rewrite Hv, (extract_value_of_vm _ _ _ Hv). simpl. by rewrite IH.
Qed.

(** Collecting an index-driven iterator over a list. *)
Lemma collect_omap {A B} (f : A -> option B) (next : nat -> option B * nat) (l : list A) fuel idx :
  (forall i, next i = (l !! i ≫= f, S i)) ->
  Forall (fun x => is_Some (f x)) l ->
  (length l <= fuel + idx)%nat ->
  Evt.collect next fuel idx = omap f (drop idx l).
Proof.
  intros Hnext Hall. revert idx. induction fuel as [|fuel IH]; intros idx Hlen; simpl.
  { by rewrite drop_ge by lia. }
  rewrite Hnext. destruct (l !! idx) as [x|] eqn:Hx; simpl.
  - rewrite (drop_S l x) by done. rewrite Forall_lookup in Hall.
    destruct (Hall idx x Hx) as [y Hy]. csimpl. rewrite Hy. f_equal. apply IH. lia.
  - apply lookup_ge_None in Hx. by rewrite drop_ge by lia.
Qed.

Lemma value_meta_iter_items e : wf_batch e -> Evt.value_meta_iter e = batch_items e.
Proof.
  unfold wf_batch, Evt.value_meta_iter, batch_items, Evt.len. intros Hwf.
  destruct (ev_is_batch e) eqn:Hb; [|unfold Evt.collect, Evt.vm_next; rewrite Hb; done].
  destruct (Hwf eq_refl) as (a&Ha&Hall). rewrite Ha. simpl Val.as_array. cbv iota.
  rewrite (collect_omap Evt.extract_batched_value_meta _ a); [done| |done|lia].
  intros. unfold Evt.vm_next. rewrite Hb, Ha. unfold Val.get_idx; simpl. by destruct (a !! i).
Qed.

Lemma value_iter_items e : wf_batch e -> Evt.value_iter e = (batch_items e).*1.
Proof.
  unfold wf_batch, Evt.value_iter, batch_items, Evt.len. intros Hwf.
  destruct (ev_is_batch e) eqn:Hb; [|unfold Evt.collect, Evt.v_next; rewrite Hb; done].
  destruct (Hwf eq_refl) as (a&Ha&Hall). rewrite Ha. simpl Val.as_array. cbv iota.
  rewrite (collect_omap Evt.extract_batched_value _ a).
  - by rewrite <- omap_extract_value.
  - intros. unfold Evt.v_next. rewrite Hb, Ha. unfold Val.get_idx; simpl. by destruct (a !! i).
  - eapply Forall_impl; [exact Hall|]. intros v [[x m] Hv]. eauto using extract_value_of_vm.
  - lia.
Qed.

Lemma split_last_app {A} (l : list A) x : Evt.split_last (l ++ [x]) = Some (x, l).
Proof. unfold Evt.split_last. by rewrite last_snoc, removelast_last. Qed.

Lemma batch_items_length e : wf_batch e -> length (batch_items e) = Evt.len e.
Proof.
  unfold wf_batch, batch_items, Evt.len. intros Hwf. destruct (ev_is_batch e); [|done].
  destruct Hwf as (a&->&Hall); [done|]. simpl. by apply omap_is_Some.
Qed.

Lemma vm_split_last_items e :
  wf_batch e -> Evt.vm_split_last e = Evt.split_last (batch_items e)
  /\ Evt.v_split_last e = Evt.split_last (batch_items e).*1.
Proof.
  unfold wf_batch, batch_items, Evt.vm_split_last, Evt.v_split_last. intros Hwf.
  destruct (ev_is_batch e); [|done].
  destruct Hwf as (a&->&Hall); [done|]. cbn [Val.as_array].
  destruct a as [|v a _] using rev_ind; [done|].
  rewrite split_last_app. apply Forall_app in Hall as [Ha Hv].
  apply Forall_singleton in Hv as [[x m] Hv].
  rewrite omap_app, Hv, (extract_value_of_vm _ _ _ Hv). csimpl. rewrite Hv.
  rewrite fmap_app; csimpl. by rewrite !split_last_app, omap_extract_value.
Qed.

(** C24: for a single event and for every well-formed batch, iterating yields exactly the
    contained events, as many as [len] says; both iterators agree, splitting off the last
    element agrees with iterating, and the correlation metadata is read off each element. *)
Theorem iter_complete e :
  wf_batch e ->
  Evt.value_meta_iter e = batch_items e
  /\ Evt.value_iter e = (Evt.value_meta_iter e).*1
  /\ length (Evt.value_meta_iter e) = Evt.len e
  /\ (Evt.is_empty e = true <-> Evt.value_meta_iter e = [])
  /\ Evt.vm_split_last e = Evt.split_last (Evt.value_meta_iter e)
  /\ Evt.v_split_last e = Evt.split_last (Evt.value_iter e)
  /\ Evt.correlation_metas e = (fun vm => Val.get "correlation" vm.2) <$> batch_items e.
Proof.
  intros Hwf. pose proof (vm_split_last_items e Hwf) as [H1 H2].
  pose proof (batch_items_length e Hwf) as Hlen.
  unfold Evt.correlation_metas. rewrite (value_iter_items e Hwf), (value_meta_iter_items e Hwf).
  split_and!; [done..| |done|done|done].
  rewrite <- length_zero_iff_nil, Hlen. clear H1 H2 Hlen.
  unfold Evt.is_empty, Evt.len. unfold wf_batch in Hwf.
  destruct (ev_is_batch e); [|done]. destruct Hwf as (a&->&_); [done|]. simpl. by destruct a.
Qed.

Definition batch_ex : Event :=
  mkEvent EvId.default
    (mkVM (VArray [VObject [("data", VObject [("value", Val.of_u64 1); ("meta", Val.object)])];
                   VObject [("data", VObject [("value", Val.of_u64 2);
                                              ("meta", VObject [("correlation", Val.of_u64 9)])])]])
       Val.object)
    0 None None true CbNone ∅ false.

Lemma iter_complete_witness :
  Evt.vm_split_last batch_ex = Evt.split_last (Evt.value_meta_iter batch_ex)
  /\ Evt.correlation_metas batch_ex = [None; Some (Val.of_u64 9)].
Proof.
  split; [|reflexivity]. apply (iter_complete batch_ex).
  intros _. eexists. split; [reflexivity|]. repeat constructor; eauto.
Defined.
