(* ===== verification/Common.v ===== *)
(** * tremor-common: ports, identifiers and the blue-green hash map

    Models tremor-common/src/ports.rs, ids.rs and blue_green_hashmap.rs. *)
From Stdlib Require Import Strings.Ascii.
From S2P Require Import Prelude.

(** ** Ports *)
Inductive Port : Type :=
| PIn
| POut
| PErr
| PMetrics
| POverflow
| PCustom (s : string).

#[export] Instance Port_eq_dec : EqDecision Port.
Proof. solve_decision. Defined.

Definition port_code (p : Port) : nat * string :=
  match p with
  | PIn => (0%nat, EmptyString) | POut => (1%nat, EmptyString) | PErr => (2%nat, EmptyString)
  | PMetrics => (3%nat, EmptyString) | POverflow => (4%nat, EmptyString)
  | PCustom s => (5%nat, s)
  end.

Definition port_decode (c : nat * string) : Port :=
  match c with
  | (0%nat, _) => PIn | (1%nat, _) => POut | (2%nat, _) => PErr
  | (3%nat, _) => PMetrics | (4%nat, _) => POverflow | (_, s) => PCustom s
  end.

#[export] Instance Port_countable : Countable Port.
Proof. apply (inj_countable' port_code port_decode). by intros []. Defined.

(** [str::to_lowercase] maps characters by the tables of Unicode, which are an argument here.
    The laws are what the tables and the function promise: a text of ASCII characters is
    lowercased letter by letter, and a lowercased text stays as it is. *)
Class Lowercase : Type := { to_lowercase : string -> string }.

Definition lower_ascii (a : ascii) : ascii :=
  let n := nat_of_ascii a in
  if (65 <=? n)%nat && (n <=? 90)%nat then ascii_of_nat (n + 32) else a.
Fixpoint ascii_lowercase (s : string) : string :=
  match s with
  | EmptyString => EmptyString
  | String a s => String (lower_ascii a) (ascii_lowercase s)
  end.
Fixpoint is_ascii (s : string) : bool :=
  match s with
  | EmptyString => true
  | String a s => (nat_of_ascii a <? 128)%nat && is_ascii s
  end.

Class LowercaseLaws `{Lowercase} : Prop := {
  lowercase_ascii s : is_ascii s = true -> to_lowercase s = ascii_lowercase s;
  lowercase_idemp s : to_lowercase (to_lowercase s) = to_lowercase s
}.

Module Ports.
Section ports.
Context `{Lowercase}.

Definition IN : Port := PIn.
Definition OUT : Port := POut.
Definition ERR : Port := PErr.
Definition METRICS : Port := PMetrics.
Definition OVERFLOW : Port := POverflow.

(** [From<Cow<str>> for Port], with its recursive call on the lowercased name: [fuel] bounds
    the recursion depth. *)
Fixpoint from_cow (fuel : nat) (value : string) : option Port :=
  match fuel with
  | O => None
  | S fuel =>
      if decide (value = "in") then Some PIn
      else if decide (value = "out") then Some POut
      else if decide (value = "err") then Some PErr
      else if decide (value = "metrics") then Some PMetrics
      else if decide (value = "overflow") then Some POverflow
      else if decide (value = to_lowercase value) then Some (PCustom value)
      else from_cow fuel (to_lowercase value)
  end.

(** [From<&str> for Port] and [From<String> for Port]: two calls of [from_cow] at most. *)
Definition from_str (value : string) : option Port :=
  if decide (value = "in") then Some PIn
  else if decide (value = "out") then Some POut
  else if decide (value = "err") then Some PErr
  else if decide (value = "metrics") then Some PMetrics
  else if decide (value = "overflow") then Some POverflow
  else from_cow 2 value.

(** [into()] on a name: [from_str] never runs out of fuel ([port_names_roundtrip]), so the
    default is not used. *)
Definition of_string (value : string) : Port := from_option id (PCustom value) (from_str value).

(** [Borrow<str> for Port], which [Display] writes. *)
Definition borrow (p : Port) : string :=
  match p with
  | PIn => "in"
  | POut => "out"
  | PErr => "err"
  | PMetrics => "metrics"
  | POverflow => "overflow"
  | PCustom c => c
  end.

End ports.
End Ports.

(** Text of ASCII characters only: an instance of the laws. *)
Lemma lower_ascii_idemp a : lower_ascii (lower_ascii a) = lower_ascii a.
Proof. destruct a as [[] [] [] [] [] [] [] []]; reflexivity. Qed.
Lemma ascii_lowercase_idemp s : ascii_lowercase (ascii_lowercase s) = ascii_lowercase s.
Proof. induction s as [|a s IH]; simpl; [done|]. by rewrite lower_ascii_idemp, IH. Qed.
Definition ascii_only : Lowercase := {| to_lowercase := ascii_lowercase |}.
Lemma ascii_only_laws : @LowercaseLaws ascii_only.
Proof. split; [done|apply ascii_lowercase_idemp]. Qed.

Section port_names.
Context `{LowercaseLaws}.

(** The names a port displays as: one of the well-known ones or a lowercase custom name that
    is none of them. *)
Definition normal_port (p : Port) : Prop :=
  match p with
  | PCustom c => c = to_lowercase c
      /\ c ∉ ["in"; "out"; "err"; "metrics"; "overflow"]
  | _ => True
  end.

Lemma from_cow_lower fuel s :
  Ports.from_cow (S fuel) (to_lowercase s) =
  Some (if decide (to_lowercase s = "in") then PIn
        else if decide (to_lowercase s = "out") then POut
        else if decide (to_lowercase s = "err") then PErr
        else if decide (to_lowercase s = "metrics") then PMetrics
        else if decide (to_lowercase s = "overflow") then POverflow
        else PCustom (to_lowercase s)).
Proof.
  simpl. repeat case_decide; try done. by rewrite lowercase_idemp in *.
Qed.

Lemma from_str_cow s : Ports.from_str s = Ports.from_cow 2 s.
Proof. unfold Ports.from_str. repeat case_decide; by subst. Qed.

Lemma from_str_lower s : Ports.from_str s = Ports.from_cow 1 (to_lowercase s).
Proof.
  rewrite from_str_cow, from_cow_lower. cbn [Ports.from_cow].
  repeat match goal with |- context [decide (s = ?x)] => destruct (decide (s = x)) as [->|]; [by rewrite (lowercase_ascii x)|] end.
  destruct (decide (s = to_lowercase s)) as [Hs|Hs].
  - rewrite <- Hs. by repeat (rewrite decide_False by done).
  - apply (from_cow_lower 0).
Qed.

(** The case of ASCII letters does not matter: a name that is a well-known one up to case is
    read as that port. *)
Lemma from_str_known s p :
  is_ascii s = true -> p <> PCustom (Ports.borrow p) -> ascii_lowercase s = Ports.borrow p ->
  Ports.from_str s = Some p.
Proof.
  intros Ha Hp Hs. rewrite from_str_lower, lowercase_ascii by done. rewrite Hs.
  by destruct p as [| | | | |c].
Qed.

(** C29: reading a port name always returns (the recursion stops after lowercasing once), is
    case-insensitive, and yields a normal port; a well-known name is found in any case of its
    letters; displaying a normal port and reading the name back gives the same port.  Of the
    Unicode tables it uses that ASCII letters are mapped as expected and that a lowercased
    text is not changed by lowercasing it again. *)
Theorem port_names_roundtrip s p :
  (exists q, Ports.from_str s = Some q /\ normal_port q)
  /\ Ports.from_str (to_lowercase s) = Ports.from_str s
  /\ (is_ascii s = true -> p <> PCustom (Ports.borrow p) -> ascii_lowercase s = Ports.borrow p ->
      Ports.from_str s = Some p)
  /\ (normal_port p -> Ports.from_str (Ports.borrow p) = Some p).
Proof.
  split_and!.
  - rewrite from_str_lower, from_cow_lower. eexists; split; [done|].
    repeat case_decide; try done. split; [by rewrite lowercase_idemp|set_solver].
  - by rewrite !from_str_lower, lowercase_idemp.
  - apply from_str_known.
  - destruct p as [| | | | |c]; try done. intros [Hl Hn]. simpl.
    rewrite from_str_cow. cbn [Ports.from_cow].
    repeat (rewrite decide_False by set_solver). by rewrite decide_True.
Qed.
End port_names.

Lemma port_names_roundtrip_witness :
  @Ports.from_str ascii_only "OverFlow" = Some POverflow /\
  @Ports.from_str ascii_only "side" = Some (PCustom "side").
Proof.
  split.
  - apply (@port_names_roundtrip ascii_only ascii_only_laws "OverFlow" POverflow); reflexivity || discriminate.
  - apply (@port_names_roundtrip ascii_only ascii_only_laws "" (PCustom "side")). split; [reflexivity|].
    rewrite !not_elem_of_cons. repeat split; try discriminate. apply not_elem_of_nil.
Defined.

(** ** Identifier generator *)
Module IdGen.

Definition new : Z := 0.

(** [next_id]: the new counter is also the id handed out. *)
Definition next_id (current : Z) : Z * Z :=
  let current := wrapping_add current 1 in (current, current).

Fixpoint ids (n : nat) (current : Z) : list Z :=
  match n with
  | O => []
  | S n => let '(i, current) := next_id current in i :: ids n current
  end.

End IdGen.

(** ** BlueGreenHashMap *)
Record BlueGreen (K V : Type) `{Countable K} : Type := mkBG {
  bg_expiration : Z;
  bg_blue : gmap K V * Z;
  bg_green : gmap K V * Z
}.
Arguments mkBG {K V _ _} _ _ _.
Arguments bg_expiration {K V _ _} _.
Arguments bg_blue {K V _ _} _.
Arguments bg_green {K V _ _} _.

Module BG.
Section bg.
Context {K V : Type} `{Countable K}.

Definition new (expiration now : Z) : BlueGreen K V :=
  mkBG expiration (∅, now) (∅, now - expiration).

Inductive colour : Type := Blue | Green.

(** [get_unexpired_hashmap]: the map (after a possible replacement) and which half to write. *)
Definition get_unexpired_hashmap (m : BlueGreen K V) (now : Z) : BlueGreen K V * colour :=
  let blue_t := (bg_blue m).2 in
  let green_t := (bg_green m).2 in
  if (now <? blue_t + bg_expiration m) && (blue_t <? green_t) then (m, Blue)
  else if now <? green_t + bg_expiration m then (m, Green)
  else if blue_t <? green_t then (mkBG (bg_expiration m) (∅, now) (bg_green m), Blue)
  else (mkBG (bg_expiration m) (bg_blue m) (∅, now), Green).

Definition insert (m : BlueGreen K V) (key : K) (value : V) (now : Z) : BlueGreen K V :=
  match get_unexpired_hashmap m now with
  | (m, Blue) => mkBG (bg_expiration m) (<[key := value]> (bg_blue m).1, (bg_blue m).2) (bg_green m)
  | (m, Green) => mkBG (bg_expiration m) (bg_blue m) (<[key := value]> (bg_green m).1, (bg_green m).2)
  end.

Definition remove (m : BlueGreen K V) (key : K) : option V * BlueGreen K V :=
  match (bg_blue m).1 !! key with
  | Some x => (Some x, mkBG (bg_expiration m) (delete key (bg_blue m).1, (bg_blue m).2) (bg_green m))
  | None => ((bg_green m).1 !! key,
             mkBG (bg_expiration m) (bg_blue m) (delete key (bg_green m).1, (bg_green m).2))
  end.

End bg.
End BG.

Lemma idgen_lookup n c i x :
  IdGen.ids n c !! i = Some x -> (i < n)%nat /\ x = u64 (c + 1 + Z.of_nat i).
Proof.
  revert c i. induction n as [|n IH]; intros c i; [done|]. destruct i as [|i]; simpl.
  - intros ?; simplify_eq. split; [lia|]. unfold wrapping_add. f_equal. lia.
  - intros [? ->]%IH. split; [lia|]. unfold wrapping_add, u64.
    rewrite <- Z.add_assoc, Zplus_mod_idemp_l. f_equal. lia.
Qed.

(** A fresh generator shared by all pipelines hands out pairwise distinct ids, none of
    them 0, for up to 2^64 - 1 calls. *)
Theorem idgen_distinct n :
  Z.of_nat n < 2 ^ 64 -> NoDup (IdGen.ids n IdGen.new) /\ 0 ∉ IdGen.ids n IdGen.new.
Proof.
  intros Hn. assert (Hx : forall i x, IdGen.ids n IdGen.new !! i = Some x ->
    (i < n)%nat /\ x = 1 + Z.of_nat i).
  { intros i x [Hi ->]%idgen_lookup. split; [done|]. unfold IdGen.new.
    apply u64_id. unfold is_u64. lia. }
  split.
  - apply NoDup_alt. intros i j x [_ Hi]%Hx [_ Hj]%Hx. lia.
  - intros [i [_ Hi]%Hx]%list_elem_of_lookup. lia.
Qed.

Lemma idgen_distinct_witness : NoDup (IdGen.ids 4 IdGen.new).
Proof. apply (idgen_distinct 4). reflexivity. Defined.

(** Decide the time comparisons of one insertion. *)
Ltac bg_insert :=
  unfold BG.insert, BG.get_unexpired_hashmap, BG.new; simpl;
  repeat match goal with
  | |- context [?x <? ?y] => destruct (Z.ltb_spec x y); try (exfalso; lia); simpl
  end; reflexivity.

Section blue_green_loss.
Context {K V : Type} `{Countable K}.

(** C39: the map promises that an entry lives at least [expiration].  It does not: an entry
    written just before the green half expires is dropped by the second write after the
    switch to the blue half, because a younger blue half is never selected (the first test
    asks for a blue half older than the green one). *)
Theorem blue_green_early_loss (a b c d : K) (va vb vc vd : V) expiration t0 :
  2 < expiration -> b <> c -> b <> d ->
  let m1 := BG.insert (BG.new expiration t0) a va (t0 + 1) in
  let m2 := BG.insert m1 b vb (t0 + expiration) in
  let m3 := BG.insert m2 c vc (t0 + expiration + 1) in
  let m4 := BG.insert m3 d vd (t0 + expiration + 2) in
  (BG.remove m2 b).1 = Some vb /\ (BG.remove m4 b).1 = None.
Proof.
  intros He Hbc Hbd m1 m2 m3 m4.
  assert (Hm1 : m1 = mkBG expiration (∅, t0) (<[a := va]> ∅, t0 + 1)) by (subst m1; bg_insert).
  assert (Hm2 : m2 = mkBG expiration (∅, t0) (<[b := vb]> (<[a := va]> ∅), t0 + 1))
    by (subst m2; rewrite Hm1; bg_insert).
  assert (Hm3 : m3 = mkBG expiration (<[c := vc]> ∅, t0 + expiration + 1)
                       (<[b := vb]> (<[a := va]> ∅), t0 + 1))
    by (subst m3; rewrite Hm2; bg_insert).
  assert (Hm4 : m4 = mkBG expiration (<[c := vc]> ∅, t0 + expiration + 1)
                       (<[d := vd]> ∅, t0 + expiration + 2))
    by (subst m4; rewrite Hm3; bg_insert).
  rewrite Hm2, Hm4. unfold BG.remove; simpl. split.
  - by rewrite lookup_empty, lookup_insert_eq.
  - rewrite lookup_insert_ne, lookup_empty by done. by rewrite lookup_insert_ne, lookup_empty.
Qed.

End blue_green_loss.

Lemma blue_green_early_loss_witness :
  let m1 := BG.insert (BG.new 10 100) 1 1 101 in
  let m2 := BG.insert m1 2 2 110 in
  let m3 := BG.insert m2 3 3 111 in
  let m4 := BG.insert m3 4 4 112 in
  (BG.remove m2 2).1 = Some 2 /\ (BG.remove m4 2).1 = None.
Proof. apply (blue_green_early_loss 1 2 3 4 1 2 3 4 10 100); [reflexivity|discriminate..]. Defined.
