(* ===== verification/Operator.v ===== *)
(** * The operator interface

    Models the [Operator] trait of tremor-pipeline/src/op.rs as a type class.  A method that
    takes [&mut self] and [&mut state] returns the operator and its node state next to the
    result, also when the result is an error.  Also the metrics messages of
    tremor-pipeline/src/metrics.rs. *)
From S2P Require Import Prelude EventId Value Event Common.

(** Error kinds the pipeline code raises (tremor-pipeline/src/errors.rs and error strings). *)
Inductive pipe_error : Type :=
| InvalidInputStreamName (stream pipeline : string)
| MissingOpConfig (id : string)
| ExtraOpConfig (id : string)
| UnknownOp (namespace name : string)
| UnknownNamespace (name : string)
| ScriptError (msg : string)
| CyclicGraphError
| ErrorMsg (msg : string).

Record EventAndInsights : Type := mkEAI {
  eai_events : list (Port * Event);
  eai_insights : list Event
}.

Module EAI.

Definition default : EventAndInsights := mkEAI [] [].
Definition from_events (events : list (Port * Event)) : EventAndInsights := mkEAI events [].
Definition from_event (e : Event) : EventAndInsights := from_events [(Ports.OUT, e)].

End EAI.

(** Tags of a metrics message: a map with string keys. *)
Notation Tags := (list (string * Value)) (only parsing).

(** [metrics::value_count]. *)
Definition value_count (metric_name : string) (tags : Tags) (count timestamp : Z) : Value :=
  VObject [("measurement", VString metric_name); ("tags", VObject tags);
           ("fields", VObject [("count", Val.of_u64 count)]); ("timestamp", Val.of_u64 timestamp)].

Class Operator (O : Type) : Type := mkOperator {
  on_event : O -> OperatorId -> Port -> Value -> Event ->
             (O * Value) * res pipe_error EventAndInsights;
  handles_signal : O -> bool;
  on_signal : O -> OperatorId -> Value -> Event ->
              (O * Value * Event) * res pipe_error EventAndInsights;
  handles_contraflow : O -> bool;
  on_contraflow : O -> OperatorId -> Event -> O * Event;
  metrics : O -> Tags -> Z -> res pipe_error (list Value);
  skippable : O -> bool;
  initial_state : O -> Value
}.

(** The default methods of the trait. *)
Module OpDefault.
Section defaults.
Context {O : Type}.

Definition handles_signal (o : O) : bool := false.
Definition on_signal (o : O) (uid : OperatorId) (state : Value) (signal : Event)
  : (O * Value * Event) * res pipe_error EventAndInsights := ((o, state, signal), Ok EAI.default).
Definition handles_contraflow (o : O) : bool := false.
Definition on_contraflow (o : O) (uid : OperatorId) (insight : Event) : O * Event := (o, insight).
Definition metrics (o : O) (tags : Tags) (timestamp : Z) : res pipe_error (list Value) := Ok [].
Definition skippable (o : O) : bool := false.
Definition initial_state (o : O) : Value := Val.const_null.

End defaults.
End OpDefault.

(** The state of its circuit breaker, as a source that receives these insights sees it:
    open ([true]) or closed. *)
Definition upstream_view (opened : bool) (insight : Event) : bool :=
  match ev_cb insight with
  | CbTrigger => false
  | CbRestore => true
  | _ => opened
  end.
