(* ===== verification/Batch.v ===== *)
(** * The batch operator

    Models tremor-pipeline/src/op/generic/batch.rs.  The abstract view of the operator is
    the list of events it holds ([holds]); the theorems show that events leave in the order
    they arrived, none lost or duplicated, and that a batch's id tracks every member. *)
From S2P Require Import Prelude EventId Value Event Common Operator.

Record BatchConfig : Type := mkBatchConfig {
  bc_count : nat;
  bc_timeout : option Z
}.

Record Batch : Type := mkBatch {
  b_config : BatchConfig;
  b_data : ValueAndMeta;
  b_len : nat;
  b_max_delay_ns : option Z;
  b_first_ns : Z;
  b_batch_event_id : EventId;
  b_is_transactional : bool;
  b_event_id_gen : EventIdGenerator
}.

Module BatchOp.

Definition empty_payload : ValueAndMeta := VM.from_value Val.array.

(** [BatchFactory]: [config] is the parsed configuration, if the node has one. *)
Definition node_to_operator (uid : OperatorId) (node_id : string) (config : option BatchConfig)
  : res pipe_error Batch :=
  match config with
  | Some config =>
      let '(id, gen) := Gen.next_id (Gen.for_operator uid) in
      Ok (mkBatch config empty_payload 0 (bc_timeout config) 0 id false gen)
  | None => Err (MissingOpConfig node_id)
  end.

(** The element pushed for one event: [literal!({"data": {...}})]. *)
Definition wrap (value meta : Value) (ingest_ns : Z) (is_batch : bool) : Value :=
  VObject [("data", VObject [("value", value); ("meta", meta);
                             ("ingest_ns", Val.of_u64 ingest_ns);
                             ("kind", Val.const_null);
                             ("is_batch", Val.of_bool is_batch)])].

(** The closure of [data.consume]: append to the payload when it is an array. *)
Definition consume (this other : ValueAndMeta) (ingest_ns : Z) (is_batch : bool) : ValueAndMeta :=
  match vm_value this with
  | VArray a =>
      mkVM (VArray (a ++ [wrap (vm_value other) (vm_meta other) ingest_ns is_batch])) (vm_meta this)
  | _ => this
  end.

(** The flush code shared by [on_event] and [on_signal]. *)
Definition flush (b : Batch) : Batch * EventAndInsights :=
  let '(id, gen) := Gen.next_id (b_event_id_gen b) in
  let event := mkEvent (b_batch_event_id b) (b_data b) (b_first_ns b) None None true CbNone ∅
                 (b_is_transactional b) in
  (mkBatch (b_config b) empty_payload 0 (b_max_delay_ns b) (b_first_ns b) id false gen,
   EAI.from_event event).

Definition on_event (b : Batch) (uid : OperatorId) (port : Port) (state : Value) (event : Event)
  : (Batch * Value) * res pipe_error EventAndInsights :=
  let ingest_ns := ev_ingest_ns event in
  let id := EvId.track (b_batch_event_id b) (ev_id event) in
  let is_transactional := b_is_transactional b || ev_transactional event in
  let data := consume (b_data b) (ev_data event) ingest_ns (ev_is_batch event) in
  let len := S (b_len b) in
  let first_ns := if decide (len = 1%nat) then ingest_ns else b_first_ns b in
  let b := mkBatch (b_config b) data len (b_max_delay_ns b) first_ns id is_transactional
             (b_event_id_gen b) in
  let do_flush :=
    match b_max_delay_ns b with
    | Some t => if t <? wrapping_sub ingest_ns first_ns then true
                else bool_decide (len = bc_count (b_config b))
    | None => bool_decide (len = bc_count (b_config b))
    end in
  if do_flush then let '(b, r) := flush b in ((b, state), Ok r)
  else ((b, state), Ok EAI.default).

Definition handles_signal (b : Batch) : bool := true.

Definition on_signal (b : Batch) (uid : OperatorId) (state : Value) (signal : Event)
  : (Batch * Value * Event) * res pipe_error EventAndInsights :=
  match b_max_delay_ns b with
  | None => ((b, state, signal), Ok EAI.default)
  | Some delay_ns =>
      if delay_ns <? wrapping_sub (ev_ingest_ns signal) (b_first_ns b) then
        match b_len b with
        | O => ((b, state, signal), Ok EAI.default)
        | S _ => let '(b, r) := flush b in ((b, state, signal), Ok r)
        end
      else ((b, state, signal), Ok EAI.default)
  end.

End BatchOp.

#[export] Instance Batch_Operator : Operator Batch :=
  mkOperator _ BatchOp.on_event BatchOp.handles_signal BatchOp.on_signal
    OpDefault.handles_contraflow OpDefault.on_contraflow OpDefault.metrics OpDefault.skippable
    OpDefault.initial_state.

(** ** The abstract view: the pending events *)
Definition event_wrap (e : Event) : Value :=
  BatchOp.wrap (vm_value (ev_data e)) (vm_meta (ev_data e)) (ev_ingest_ns e) (ev_is_batch e).

Definition event_item (e : Event) : Value * Value := (vm_value (ev_data e), vm_meta (ev_data e)).

Definition gen_id (g : EventIdGenerator) : EventId := EvId.new (gen_source g) (gen_stream g) (gen_next g) (gen_next g).

(** [b] holds exactly [evs], in this order. *)
Record holds (b : Batch) (evs : list Event) : Prop := {
  holds_data : b_data b = mkVM (VArray (event_wrap <$> evs)) Val.object;
  holds_len : b_len b = length evs;
  holds_first : forall e, head evs = Some e -> b_first_ns b = ev_ingest_ns e;
  holds_id : exists s t i, b_batch_event_id b = track_all (EvId.new s t i i) (ev_id <$> evs);
  holds_trans : b_is_transactional b = existsb ev_transactional evs;
  holds_delay : b_max_delay_ns b = bc_timeout (b_config b)
}.

(** What a batch event must be for the events it contains. *)
Definition batch_of (evs : list Event) (e : Event) : Prop :=
  ev_is_batch e = true
  /\ ev_kind e = None
  /\ Evt.value_meta_iter e = event_item <$> evs
  /\ ev_transactional e = existsb ev_transactional evs
  /\ (forall x, head evs = Some x -> ev_ingest_ns e = ev_ingest_ns x)
  /\ (exists s t i, ev_id e = track_all (EvId.new s t i i) (ev_id <$> evs)).

Lemma extract_event_wrap e : Evt.extract_batched_value_meta (event_wrap e) = Some (event_item e).
Proof. done. Qed.

Lemma track_all_snoc a bs b : track_all a (bs ++ [b]) = EvId.track (track_all a bs) b.
Proof. unfold track_all. by rewrite fold_left_app. Qed.

Lemma existsb_snoc {A} (f : A -> bool) l x : existsb f (l ++ [x]) = existsb f l || f x.
Proof. rewrite existsb_app. simpl. by rewrite orb_false_r. Qed.

Lemma flush_spec b evs b' r :
  holds b evs -> BatchOp.flush b = (b', r) ->
  holds b' [] /\ b_config b' = b_config b
  /\ exists e, r = EAI.from_event e /\ batch_of evs e.
Proof.
  intros [Hd Hl Hf (s&t&i&Hi) Ht Hm] H. unfold BatchOp.flush in H. simplify_eq/=.
  split; [|split; [done|]].
  - constructor; try done. by exists (gen_source (b_event_id_gen b)), (gen_stream (b_event_id_gen b)),
      (gen_next (b_event_id_gen b)).
  - eexists; split; [done|]. split_and!; try done.
    + rewrite value_meta_iter_items; unfold batch_items, wf_batch; simpl.
      * rewrite Hd. by apply omap_fmap_Some, extract_event_wrap.
      * intros _. rewrite Hd. simpl. eexists; split; [done|]. apply Forall_fmap, Forall_true.
        intros e; simpl. rewrite extract_event_wrap. eauto.
    + simpl. eauto.
Qed.

Lemma holds_snoc b evs e data' :
  holds b evs -> data' = BatchOp.consume (b_data b) (ev_data e) (ev_ingest_ns e) (ev_is_batch e) ->
  holds (mkBatch (b_config b) data' (S (b_len b)) (b_max_delay_ns b)
           (if decide (S (b_len b) = 1%nat) then ev_ingest_ns e else b_first_ns b)
           (EvId.track (b_batch_event_id b) (ev_id e))
           (b_is_transactional b || ev_transactional e) (b_event_id_gen b)) (evs ++ [e]).
Proof.
  intros [Hd Hl Hf (s&t&i&Hi) Ht Hm] ->. constructor; simpl.
  - rewrite Hd. unfold BatchOp.consume; simpl. by rewrite fmap_app.
  - rewrite Hl, length_app. simpl. lia.
  - intros x Hx. destruct evs as [|y evs]; simplify_eq/=.
    + by rewrite Hl, decide_True.
    + rewrite Hl, decide_False by (simpl; lia). by apply Hf.
  - exists s, t, i. by rewrite fmap_app, Hi, <- track_all_snoc.
  - by rewrite existsb_snoc, Ht.
  - done.
Qed.

(** When the operator flushes on an event. *)
Definition flush_due (b : Batch) (evs : list Event) (e : Event) : bool :=
  match bc_timeout (b_config b), head evs with
  | Some t, Some x => (t <? wrapping_sub (ev_ingest_ns e) (ev_ingest_ns x))
                      || bool_decide (S (length evs) = bc_count (b_config b))
  | Some t, None => (t <? wrapping_sub (ev_ingest_ns e) (ev_ingest_ns e))
                    || bool_decide (S (length evs) = bc_count (b_config b))
  | None, _ => bool_decide (S (length evs) = bc_count (b_config b))
  end.

Lemma batch_on_event_spec b evs uid p st e :
  holds b evs ->
  exists b' r, BatchOp.on_event b uid p st e = ((b', st), Ok r)
    /\ b_config b' = b_config b
    /\ if flush_due b evs e
       then holds b' [] /\ exists x, r = EAI.from_event x /\ batch_of (evs ++ [e]) x
       else holds b' (evs ++ [e]) /\ r = EAI.default.
Proof.
  intros Hh. pose proof (holds_snoc b evs e _ Hh eq_refl) as Hs.
  unfold BatchOp.on_event. set (b1 := mkBatch _ _ _ _ _ _ _ _). fold b1 in Hs.
  assert (Hdue : (match b_max_delay_ns b1 with
    | Some t => if t <? wrapping_sub (ev_ingest_ns e)
                          (if decide (S (b_len b) = 1%nat) then ev_ingest_ns e else b_first_ns b)
                then true else bool_decide (S (b_len b) = bc_count (b_config b1))
    | None => bool_decide (S (b_len b) = bc_count (b_config b1)) end) = flush_due b evs e).
  { destruct Hh as [_ Hl Hf _ _ Hm]. unfold flush_due. subst b1; simpl. rewrite Hm, Hl.
    destruct (bc_timeout (b_config b)); [|done].
    destruct evs as [|x evs]; simpl; [by case_match|]. rewrite (Hf x) by done. by case_match. }
  rewrite Hdue. destruct (flush_due b evs e).
  - destruct (BatchOp.flush b1) as [b' r] eqn:Hfl.
    destruct (flush_spec b1 _ b' r Hs Hfl) as (?&?&?). eauto 10.
  - eauto 10.
Qed.

Lemma batch_on_signal_spec b evs uid st s :
  holds b evs ->
  exists b' r, BatchOp.on_signal b uid st s = ((b', st, s), Ok r)
    /\ b_config b' = b_config b
    /\ ((holds b' evs /\ r = EAI.default)
        \/ (evs <> [] /\ bc_timeout (b_config b) <> None /\ holds b' []
            /\ exists x, r = EAI.from_event x /\ batch_of evs x)).
Proof.
  intros Hh. unfold BatchOp.on_signal.
  destruct (b_max_delay_ns b) as [d|] eqn:Hd; [|by eauto 10].
  destruct (d <? _); [|by eauto 10]. destruct (b_len b) eqn:Hl; [by eauto 10|].
  destruct (BatchOp.flush b) as [b' r] eqn:Hfl.
  destruct (flush_spec b _ b' r Hh Hfl) as (?&?&?).
  do 2 eexists; split_and!; [done..|]. right. split_and!; try done.
  - intros ->. by rewrite (holds_len _ _ Hh) in Hl.
  - by rewrite <- (holds_delay _ _ Hh), Hd.
Qed.

(** ** Runs of the operator *)
Inductive batch_input : Type :=
| InEvent (e : Event)
| InSignal (s : Event).

Definition input_events (ins : list batch_input) : list Event :=
  omap (fun i => match i with InEvent e => Some e | InSignal _ => None end) ins.

(** Feed events and signals in order; collect the events sent downstream. *)
Fixpoint batch_run (uid : OperatorId) (b : Batch) (ins : list batch_input)
  : Batch * res pipe_error (list Event) :=
  match ins with
  | [] => (b, Ok [])
  | i :: ins =>
      let '(b, r) :=
        match i with
        | InEvent e => let '((b, _), r) := BatchOp.on_event b uid Ports.IN Val.const_null e in (b, r)
        | InSignal s => let '((b, _, _), r) := BatchOp.on_signal b uid Val.const_null s in (b, r)
        end in
      match r with
      | Ok r => let '(b, rs) := batch_run uid b ins in
                (b, let? rs := rs in Ok ((eai_events r).*2 ++ rs))
      | Err e => (b, Err e)
      | Panic => (b, Panic)
      end
  end.

Lemma flush_due_count b evs e :
  bc_timeout (b_config b) = None ->
  flush_due b evs e = bool_decide (S (length evs) = bc_count (b_config b)).
Proof. intros H. unfold flush_due. by rewrite H. Qed.

Lemma flush_due_full b evs e :
  S (length evs) = bc_count (b_config b) -> flush_due b evs e = true.
Proof.
  intros H. unfold flush_due. rewrite bool_decide_true by done.
  destruct (bc_timeout _), (head evs); by rewrite ?orb_true_r.
Qed.

(** The batches sent so far, as groups of input events. *)
Definition batches (b : Batch) (groups : list (list Event)) (outs : list Event) : Prop :=
  Forall2 batch_of groups outs
  /\ Forall (fun g => g <> [] /\ (bc_timeout (b_config b) = None -> length g = bc_count (b_config b))
                      /\ (0 < bc_count (b_config b) -> length g <= bc_count (b_config b)))%nat groups.

Lemma batches_nil b : batches b [] [].
Proof. split; constructor. Qed.

Lemma batches_cons b g gs x outs :
  batch_of g x -> g <> [] ->
  (bc_timeout (b_config b) = None -> length g = bc_count (b_config b)) ->
  (0 < bc_count (b_config b) -> length g <= bc_count (b_config b))%nat ->
  batches b gs outs -> batches b (g :: gs) (x :: outs).
Proof. intros ???? [??]. split; constructor; auto. Qed.

Lemma batches_config b b' gs outs :
  b_config b' = b_config b -> batches b' gs outs -> batches b gs outs.
Proof. unfold batches. by intros ->. Qed.

Lemma batch_run_spec uid ins b pend :
  holds b pend ->
  (0 < bc_count (b_config b) -> length pend < bc_count (b_config b))%nat ->
  exists b' outs groups pend',
    batch_run uid b ins = (b', Ok outs)
    /\ holds b' pend'
    /\ concat groups ++ pend' = pend ++ input_events ins
    /\ batches b groups outs
    /\ (0 < bc_count (b_config b) -> length pend' < bc_count (b_config b))%nat.
Proof.
  revert b pend. induction ins as [|i ins IH]; intros b pend Hh Hlt; simpl.
  { exists b, [], [], pend. split_and!; [done|done|by rewrite app_nil_r|apply batches_nil|done]. }
  destruct i as [e|s].
  - destruct (batch_on_event_spec b pend uid Ports.IN Val.const_null e Hh)
      as (b1&r&->&Hc&Hr). simpl.
    destruct (flush_due b pend e) eqn:Hfl.
    + destruct Hr as (Hh1&x&->&Hx).
      destruct (IH b1 [] Hh1) as (b'&outs&gs&pend'&->&Hh'&Hcat&Hb&Hlt'); [rewrite Hc; simpl; lia|].
      exists b', (x :: outs), ((pend ++ [e]) :: gs), pend'. split_and!; try done.
      * simpl. rewrite <- !app_assoc. f_equal. csimpl. f_equal. exact Hcat.
      * apply batches_cons; [done|by destruct pend| | |by eapply batches_config].
        -- intros Ht. rewrite flush_due_count in Hfl by done. apply bool_decide_eq_true in Hfl.
           rewrite length_app; simpl; lia.
        -- rewrite length_app; simpl; lia.
      * by rewrite <- Hc.
    + destruct Hr as (Hh1&->).
      destruct (IH b1 (pend ++ [e]) Hh1) as (b'&outs&gs&pend'&->&Hh'&Hcat&Hb&Hlt').
      { rewrite Hc, length_app; simpl. intros Hpos. specialize (Hlt Hpos).
        destruct (decide (S (length pend) = bc_count (b_config b))) as [Heq|]; [|lia].
        by rewrite (flush_due_full b pend e Heq) in Hfl. }
      exists b', outs, gs, pend'. split_and!; try done.
      * rewrite Hcat. by rewrite <- app_assoc.
      * by eapply batches_config.
      * by rewrite <- Hc.
  - destruct (batch_on_signal_spec b pend uid Val.const_null s Hh)
      as (b1&r&->&Hc&[[Hh1 ->]|(Hne&Ht&Hh1&x&->&Hx)]); simpl.
    + destruct (IH b1 pend Hh1) as (b'&outs&gs&pend'&->&Hh'&Hcat&Hb&Hlt'); [by rewrite Hc|].
      exists b', outs, gs, pend'. split_and!; try done; [by eapply batches_config|by rewrite <- Hc].
    + destruct (IH b1 [] Hh1) as (b'&outs&gs&pend'&->&Hh'&Hcat&Hb&Hlt'); [rewrite Hc; simpl; lia|].
      exists b', (x :: outs), (pend :: gs), pend'. split_and!; try done.
      * simpl. rewrite <- app_assoc. by f_equal.
      * apply batches_cons; [done..| |by eapply batches_config]. lia.
      * by rewrite <- Hc.
Qed.

Lemma holds_initial uid nid config b :
  BatchOp.node_to_operator uid nid (Some config) = Ok b -> holds b [] /\ b_config b = config.
Proof.
  intros H. simplify_eq/=. split; [|done]. constructor; try done.
  by exists uid, DEFAULT_STREAM_ID, 0.
Qed.

(** C8: for every interleaving of events and signals, a batch operator never fails and loses,
    duplicates or reorders nothing: the groups of events it sent downstream, followed by what
    it still holds, are the input events in order.  Each event sent is a batch whose
    iteration gives back its group's values and metadata, it is transactional when a member
    is, and its id is the join of its members' ids.  Without a timeout every batch has
    exactly [count] members; with one, at most. *)
Theorem batch_conserves uid nid config b ins :
  BatchOp.node_to_operator uid nid (Some config) = Ok b ->
  exists b' outs groups pend,
    batch_run uid b ins = (b', Ok outs)
    /\ holds b' pend
    /\ concat groups ++ pend = input_events ins
    /\ Forall2 batch_of groups outs
    /\ Forall (fun g => g <> [] /\ (bc_timeout config = None -> length g = bc_count config)
                        /\ (0 < bc_count config -> length g <= bc_count config))%nat groups
    /\ (0 < bc_count config -> length pend < bc_count config)%nat.
Proof.
  intros [Hh Hc]%holds_initial.
  destruct (batch_run_spec uid ins b [] Hh) as (b'&outs&gs&pend&?&?&?&[??]&?); [simpl; lia|].
  rewrite Hc in *. exists b', outs, gs, pend. by split_and!.
Qed.

Definition batch_ex_event (pull : Z) : Event :=
  Evt.set_ingest_ns (Evt.set_id Evt.default (EvId.new 1 0 pull pull)) (10 * pull).

Definition batch_ex_op : Batch :=
  mkBatch (mkBatchConfig 2 None) BatchOp.empty_payload 0 None 0 (EvId.new 42 0 0 0) false (mkGen 42 0 1).

Lemma batch_conserves_witness :
  exists b' outs groups pend,
    batch_run 42 batch_ex_op (InEvent <$> [batch_ex_event 1; batch_ex_event 2; batch_ex_event 3]) = (b', Ok outs)
    /\ holds b' pend
    /\ concat groups ++ pend = [batch_ex_event 1; batch_ex_event 2; batch_ex_event 3].
Proof.
  destruct (batch_conserves 42 "b" (mkBatchConfig 2 None) batch_ex_op
    (InEvent <$> [batch_ex_event 1; batch_ex_event 2; batch_ex_event 3]) eq_refl)
    as (b'&outs&gs&pend&H1&H2&H3&_).
  exists b', outs, gs, pend. split_and!; [exact H1 | exact H2 | exact H3].
Defined.

(** The id of a batch of [evs] against the ids of its members. *)
Lemma batch_of_tracks evs e :
  batch_of evs e -> evs <> [] -> Forall (fun x => wf_id (ev_id x)) evs ->
  wf_id (ev_id e) /\ Forall (fun x => EvId.is_tracking (ev_id e) (ev_id x) = true) evs
  /\ exists s t i, forall x, EvId.is_tracking (ev_id e) x = true <->
       in_map (id_map (EvId.new s t i i) ⊔t join_all (ev_id <$> evs))%tremor x.
Proof.
  intros (_&_&_&_&_&s&t&i&->) Hne Hwf.
  assert (Hw : Forall wf_id (ev_id <$> evs)) by by apply Forall_fmap.
  split_and!.
  - by apply track_all_join; [apply wf_new|].
  - apply Forall_forall. intros x Hx. apply track_all_member; [apply wf_new|done|]. by apply list_elem_of_fmap_2.
  - exists s, t, i. intros x. apply track_all_exact; [apply wf_new|done|]. by destruct evs.
Qed.

(** C23: over every interleaving of events and signals, the events that went into a batch the
    operator sent are tracked by the id of that batch, so acknowledging it acknowledges each of
    them at the source; what the batch tracks is exactly the join of their intervals and one
    id of the operator's own.  Every event is in such a batch or still held. *)
Theorem batch_id_tracks_members uid nid config b ins :
  BatchOp.node_to_operator uid nid (Some config) = Ok b ->
  Forall (fun x => wf_id (ev_id x)) (input_events ins) ->
  exists b' outs groups pend,
    batch_run uid b ins = (b', Ok outs)
    /\ concat groups ++ pend = input_events ins /\ length pend = b_len b'
    /\ Forall2 (fun evs e =>
         Forall (fun x => EvId.is_tracking (ev_id e) (ev_id x) = true) evs
         /\ exists s t i, forall x, EvId.is_tracking (ev_id e) x = true <->
              in_map (id_map (EvId.new s t i i) ⊔t join_all (ev_id <$> evs))%tremor x) groups outs.
Proof.
  intros [Hh Hc]%holds_initial Hwf.
  destruct (batch_run_spec uid ins b [] Hh) as (b'&outs&gs&pend&Hrun&Hh'&Hcat&[Hof Hg]&_); [simpl; lia|].
  exists b', outs, gs, pend. split_and!; [done|done|by rewrite (holds_len _ _ Hh')|].
  simpl in Hcat. rewrite <- Hcat in Hwf. apply Forall_app in Hwf as [Hwf _]. clear -Hof Hg Hwf.
  induction Hof as [|evs e gs outs He _ IH]; [constructor|].
  apply Forall_cons in Hg as [[Hne _] Hg]. cbn in Hwf. apply Forall_app in Hwf as [Hw Hwf].
  constructor; [|by apply IH]. destruct (batch_of_tracks evs e He Hne Hw) as (_&?&?). done.
Qed.

Lemma batch_id_tracks_members_witness :
  exists b' e, batch_run 42 batch_ex_op (InEvent <$> [batch_ex_event 7; batch_ex_event 5]) = (b', Ok [e])
    /\ EvId.is_tracking (ev_id e) (EvId.new 1 0 5 5) = true /\ EvId.is_tracking (ev_id e) (EvId.new 1 0 7 7) = true.
Proof.
  destruct (batch_id_tracks_members 42 "b" (mkBatchConfig 2 None) batch_ex_op
    (InEvent <$> [batch_ex_event 7; batch_ex_event 5])) as (b'&outs&gs&pend&Hrun&Hcat&Hl&Ht).
  - reflexivity.
  - repeat constructor; by left.
  - assert (exists e, outs = [e]) as [e ->] by (vm_compute in Hrun; injection Hrun as _ <-; eexists; reflexivity).
    assert (Hp : pend = []) by (vm_compute in Hrun; injection Hrun as <- _; by destruct pend). subst pend.
    inversion Ht as [|evs ? gs' ? [Hm _] Hn]; subst. inversion Hn; subst. cbn in Hcat. rewrite !app_nil_r in Hcat.
    exists b', e. split; [exact Hrun|]. rewrite Hcat in Hm. rewrite !Forall_cons in Hm. destruct Hm as (H7&H5&_).
    split; [exact H5|exact H7].
Defined.
