(* ===== verification/RoundRobin.v ===== *)
(** * The round robin operator

    Models tremor-pipeline/src/op/qos/roundrobin.rs.  The theorems describe which output an
    event takes, that the open outputs are served in rotation, and that the breaker state
    the upstream side sees is whether any output is open. *)
From S2P Require Import Prelude EventId Value Event Common Operator.

Record RROutput : Type := mkRROutput { rro_open : bool; rro_output : string }.

Record RoundRobin : Type := mkRR {
  rr_outputs : list RROutput;
  rr_next : nat;
  rr_first : bool
}.

Module RR.
Section rr.
Context `{HL : Lowercase}.

Definition from_config (outputs : list string) : RoundRobin :=
  mkRR (mkRROutput true <$> outputs) 0 true.

(** [RoundRobinFactory]: [config] holds the configured outputs, if the node has a config. *)
Definition node_to_operator (node_id : string) (config : option (list string))
  : res pipe_error RoundRobin :=
  match config with
  | Some outputs =>
      match outputs with
      | [] => Err (MissingOpConfig node_id)
      | _ => Ok (from_config outputs)
      end
  | None => Err (MissingOpConfig node_id)
  end.

(** The [for n in 0..self.outputs.len()] loop, from [n] with [todo] iterations left. *)
Fixpoint select (outputs : list RROutput) (next n todo : nat) : option (string * nat) :=
  match todo with
  | O => None
  | S todo =>
      let id := ((next + n) mod length outputs)%nat in
      match outputs !! id with
      | Some o => if rro_open o then Some (rro_output o, id) else select outputs next (S n) todo
      | None => None
      end
  end.

Definition on_event (r : RoundRobin) (uid : OperatorId) (port : Port) (state : Value) (event : Event)
  : (RoundRobin * Value) * res pipe_error EventAndInsights :=
  match select (rr_outputs r) (rr_next r) 0 (length (rr_outputs r)) with
  | Some (out, oid) =>
      let event := Evt.set_op_meta event
                     (OpMetaOps.insert (ev_op_meta event) uid (Val.of_u64 (Z.of_nat oid))) in
      ((mkRR (rr_outputs r) (S oid) (rr_first r), state),
       Ok (EAI.from_events [(Ports.of_string out, event)]))
  | None => ((r, state), Ok (EAI.from_events [(Ports.OVERFLOW, event)]))
  end.

Definition any_open (outputs : list RROutput) : bool := existsb rro_open outputs.

Definition handles_signal (r : RoundRobin) : bool := true.

Definition on_signal (r : RoundRobin) (uid : OperatorId) (state : Value) (signal : Event)
  : (RoundRobin * Value * Event) * res pipe_error EventAndInsights :=
  if rr_first r && any_open (rr_outputs r) then
    ((mkRR (rr_outputs r) (rr_next r) false, state, signal),
     Ok (mkEAI [] [Evt.cb_restore (ev_ingest_ns signal)]))
  else ((r, state, signal), Ok EAI.default).

Definition handles_contraflow (r : RoundRobin) : bool := true.

(** The output an insight refers to: [op_meta.get(uid).and_then(as_usize)] in range. *)
Definition traced (outputs : list RROutput) (uid : OperatorId) (insight : Event)
  : option (nat * RROutput) :=
  match OpMetaOps.get (ev_op_meta insight) uid with
  | Some v =>
      match Val.as_u64 v with
      | Some u => let id := Z.to_nat u in (fun o => (id, o)) <$> outputs !! id
      | None => None
      end
  | None => None
  end.

Definition on_contraflow (r : RoundRobin) (uid : OperatorId) (insight : Event) : RoundRobin * Event :=
  let outputs := rr_outputs r in
  let any_were_available := any_open outputs in
  let outputs :=
    match traced outputs uid insight with
    | Some (id, o) =>
        if decide (ev_cb insight = CbTrigger) then <[id := mkRROutput false (rro_output o)]> outputs
        else if decide (ev_cb insight = CbRestore) then <[id := mkRROutput true (rro_output o)]> outputs
        else outputs
    | None => outputs
    end in
  let any_available := any_open outputs in
  let cb :=
    if any_available && negb any_were_available then CbRestore
    else if any_were_available && negb any_available then CbTrigger
    else if Cb.is_cb (ev_cb insight) then CbNone
    else ev_cb insight in
  (mkRR outputs (rr_next r) (rr_first r), Evt.set_cb insight cb).

End rr.
End RR.

#[export] Instance RoundRobin_Operator `{Lowercase} : Operator RoundRobin :=
  mkOperator _ RR.on_event RR.handles_signal RR.on_signal RR.handles_contraflow RR.on_contraflow
    OpDefault.metrics OpDefault.skippable OpDefault.initial_state.

(** ** The rotation *)
Section rotation.
Context `{HL : Lowercase}.

(** The indices in the order the loop visits them. *)
Definition cyc (n next : nat) : list nat := (fun d => (next + d) mod n)%nat <$> seq 0 n.

Definition is_open (outputs : list RROutput) (i : nat) : bool :=
  match outputs !! i with Some o => rro_open o | None => false end.

(** The open outputs in the order they will be served. *)
Definition rotation (r : RoundRobin) : list nat :=
  List.filter (is_open (rr_outputs r)) (cyc (length (rr_outputs r)) (rr_next r)).

Lemma select_filter outputs next n todo :
  (n + todo = length outputs)%nat ->
  RR.select outputs next n todo =
  (fun i => (from_option rro_output EmptyString (outputs !! i), i)) <$>
    head (List.filter (is_open outputs) ((fun d => (next + d) mod length outputs)%nat <$> seq n todo)).
Proof.
  revert n. induction todo as [|todo IH]; intros n Hn; [done|]. csimpl.
  set (id := ((next + n) mod length outputs)%nat).
  assert (Hid : (id < length outputs)%nat) by (apply Nat.mod_upper_bound; lia).
  destruct (lookup_lt_is_Some_2 _ _ Hid) as [o Ho]. unfold is_open at 1. rewrite Ho.
  destruct (rro_open o); simpl; [by rewrite Ho|]. apply IH. lia.
Qed.

Lemma cyc_bound n next i : i ∈ cyc n next -> (i < n)%nat.
Proof.
  unfold cyc. intros (d&->&Hd%elem_of_seq)%list_elem_of_fmap. apply Nat.mod_upper_bound. lia.
Qed.

Lemma seq_split n d : (d < n)%nat -> seq 0 n = seq 0 d ++ d :: seq (S d) (n - S d).
Proof.
  intros Hd. replace n with (d + S (n - S d))%nat at 1 by lia.
  by rewrite seq_app.
Qed.

(** Serving index [i], the [d]-th of the cycle, rotates the cycle past [i]. *)
Lemma cyc_rotate n next d :
  (d < n)%nat ->
  let i := ((next + d) mod n)%nat in
  exists A B, cyc n next = A ++ i :: B /\ cyc n (S i) = B ++ A ++ [i]
    /\ A = (fun k => (next + k) mod n)%nat <$> seq 0 d.
Proof.
  intros Hd i. exists ((fun k => (next + k) mod n)%nat <$> seq 0 d),
    ((fun k => (next + k) mod n)%nat <$> seq (S d) (n - S d)).
  split_and!; [unfold cyc; by rewrite (seq_split n d), fmap_app by done| |done].
  assert (Hi : forall k, ((S i + k) mod n = (next + S d + k) mod n)%nat).
  { intros k. subst i. replace (S ((next + d) mod n) + k)%nat with ((next + d) mod n + (1 + k))%nat by lia.
    rewrite Nat.Div0.add_mod_idemp_l. f_equal. lia. }
  assert (Hs : seq 0 n = seq 0 (n - S d) ++ seq (0 + (n - S d)) d ++ seq (0 + (n - S d) + d) 1).
  { rewrite <- !seq_app. f_equal. lia. }
  unfold cyc. rewrite Hs, !fmap_app. f_equal; [|f_equal].
  - apply list_eq_Forall2, Forall2_fmap_2, Forall2_same_length_lookup.
    split; [by rewrite !length_seq|]. intros k x y. rewrite !lookup_seq. intros [-> ?] [-> ?].
    rewrite Hi. f_equal. lia.
  - apply list_eq_Forall2, Forall2_fmap_2, Forall2_same_length_lookup.
    split; [by rewrite !length_seq|]. intros k x y. rewrite !lookup_seq. intros [-> ?] [-> ?].
    rewrite Hi. replace (next + S d + (0 + (n - S d) + k))%nat with ((next + (0 + k)) + 1 * n)%nat by lia.
    apply Nat.Div0.mod_add.
  - transitivity [((S i + (0 + (n - S d) + d)) mod n)%nat]; [done|]. f_equal. rewrite Hi.
    replace (next + S d + (0 + (n - S d) + d))%nat with ((next + d) + 1 * n)%nat by lia.
    apply Nat.Div0.mod_add.
Qed.

(** The first open index of the cycle is reached after closed ones only. *)
Lemma first_served outs n next i rest :
  List.filter (is_open outs) (cyc n next) = i :: rest ->
  exists d, (d < n)%nat /\ i = ((next + d) mod n)%nat
    /\ List.filter (is_open outs) ((fun k => (next + k) mod n)%nat <$> seq 0 d) = [].
Proof.
  unfold cyc. intros H.
  assert (Hgen : forall len s, List.filter (is_open outs) ((fun k => (next + k) mod n)%nat <$> seq s len) = i :: rest ->
    exists d, (d < len)%nat /\ i = ((next + (s + d)) mod n)%nat
      /\ List.filter (is_open outs) ((fun k => (next + k) mod n)%nat <$> seq s d) = []).
  { clear H. induction len as [|len IH]; intros s H; [done|]. csimpl in H.
    destruct (is_open outs _) eqn:Ho in H.
    - simplify_eq. exists 0%nat. split_and!; [lia|f_equal; lia|done].
    - destruct (IH _ H) as (d&Hd&->&Hf). exists (S d). split_and!; [lia|f_equal; lia|].
      csimpl. by rewrite Ho. }
  destruct (Hgen n 0%nat H) as (d&?&?&?). eauto.
Qed.

(** One event: the head of the rotation is served and moves to its end. *)
Lemma rr_on_event_spec r uid p st e :
  match rotation r with
  | i :: rest =>
      exists o r', rr_outputs r !! i = Some o
        /\ RR.on_event r uid p st e =
             ((r', st), Ok (EAI.from_events [(Ports.of_string (rro_output o),
                Evt.set_op_meta e (<[uid := Val.of_u64 (Z.of_nat i)]> (ev_op_meta e)))]))
        /\ rr_outputs r' = rr_outputs r /\ rr_next r' = S i /\ rotation r' = rest ++ [i]
  | [] => RR.on_event r uid p st e = ((r, st), Ok (EAI.from_events [(Ports.OVERFLOW, e)]))
  end.
Proof.
  unfold RR.on_event. rewrite select_filter by done.
  change (_ <$> seq 0 (length (rr_outputs r))) with (cyc (length (rr_outputs r)) (rr_next r)).
  fold (rotation r). destruct (rotation r) as [|i rest] eqn:Hrot; simpl; [done|].
  unfold rotation in Hrot.
  assert (Hin : i ∈ List.filter (is_open (rr_outputs r)) (cyc (length (rr_outputs r)) (rr_next r)))
    by (rewrite Hrot; set_solver).
  apply list_elem_of_In, filter_In in Hin as [Hin Hopen]. apply list_elem_of_In in Hin.
  pose proof (cyc_bound _ _ _ Hin) as Hlt. destruct (lookup_lt_is_Some_2 _ _ Hlt) as [o Ho].
  rewrite Ho. simpl. do 2 eexists. split_and!; [done..|].
  unfold rotation; simpl.
  (* position of [i] in the cycle: everything before it is closed *)
  destruct (first_served _ _ _ _ _ Hrot) as (d&Hd&->&Hclosed).
  destruct (cyc_rotate _ (rr_next r) d Hd) as (A&B&Hc&Hc'&HA).
  rewrite Hc in Hrot. rewrite Hc', !List.filter_app. subst A. rewrite List.filter_app, Hclosed in Hrot.
  rewrite Hclosed. simpl in *. rewrite Hopen in *. by simplify_eq.
Qed.

(** ** Runs *)
Fixpoint rr_run (uid : OperatorId) (r : RoundRobin) (es : list Event)
  : RoundRobin * res pipe_error (list (Port * Event)) :=
  match es with
  | [] => (r, Ok [])
  | e :: es =>
      match RR.on_event r uid Ports.IN Val.const_null e with
      | ((r, _), Ok out) => let '(r, outs) := rr_run uid r es in
                            (r, let? outs := outs in Ok (eai_events out ++ outs))
      | ((r, _), Err x) => (r, Err x)
      | ((r, _), Panic) => (r, Panic)
      end
  end.

(** Where the [j]-th of a sequence of events goes. *)
Definition rr_route (uid : OperatorId) (r : RoundRobin) (j : nat) (e : Event) : Port * Event :=
  match rotation r !! (j mod length (rotation r))%nat with
  | Some i => (Ports.of_string (from_option rro_output EmptyString (rr_outputs r !! i)),
               Evt.set_op_meta e (<[uid := Val.of_u64 (Z.of_nat i)]> (ev_op_meta e)))
  | None => (Ports.OVERFLOW, e)
  end.

Lemma lookup_rotate {A} (x : A) l j :
  (l ++ [x]) !! (j mod length (l ++ [x]))%nat = (x :: l) !! (S j mod length (x :: l))%nat.
Proof.
  assert (Hlen : length (l ++ [x]) = length (x :: l)) by (rewrite length_app; simpl; lia).
  rewrite Hlen. assert (Hm : length (x :: l) = S (length l)) by done.
  remember (length (x :: l)) as m.
  pose proof (Nat.mod_upper_bound j m ltac:(lia)) as Hj.
  replace (S j mod m)%nat with (S (j mod m) mod m)%nat
    by (rewrite <- (Nat.add_1_l (j mod m)), <- (Nat.add_1_l j); apply Nat.Div0.add_mod_idemp_r).
  destruct (decide (S (j mod m) = m)) as [Heq|Hne].
  - rewrite Heq, Nat.Div0.mod_same. rewrite lookup_app_r by lia.
    by replace (j mod m - length l)%nat with 0%nat by lia.
  - rewrite (Nat.mod_small (S (j mod m))) by lia. cbn. rewrite lookup_app_l; [done|lia].
Qed.

Lemma rr_route_step uid r r' i rest j e :
  rotation r = i :: rest -> rotation r' = rest ++ [i] -> rr_outputs r' = rr_outputs r ->
  rr_route uid r' j e = rr_route uid r (S j) e.
Proof. intros H H' Ho. unfold rr_route. by rewrite H, H', lookup_rotate, Ho. Qed.

(** C17: a round robin operator never fails, and while no breaker changes it serves the open
    outputs in strict rotation: the [j]-th event of any sequence goes to the [j mod m]-th of
    the [m] open outputs, starting with the first open one at or after [next], with that
    output's index recorded in the event's operator metadata.  Without an open output every
    event goes, unchanged, to the overflow port. *)
Theorem roundrobin_rotates uid r es :
  exists r', rr_run uid r es = (r', Ok (imap (rr_route uid r) es))
    /\ rr_outputs r' = rr_outputs r /\ length (rotation r') = length (rotation r).
Proof.
  revert r. induction es as [|e es IH]; intros r; cbn [rr_run]; [by eauto|].
  pose proof (rr_on_event_spec r uid Ports.IN Val.const_null e) as Hs.
  destruct (rotation r) as [|i rest] eqn:Hrot.
  - rewrite Hs. destruct (IH r) as (r'&Hr&Ho&Hl). rewrite Hr. exists r'. simpl.
    split_and!; [|done|by rewrite Hl, Hrot]. do 2 f_equal.
    unfold rr_route. by rewrite Hrot.
  - destruct Hs as (o&r1&Hi&Hev&Ho&Hn&Hrot1). rewrite Hev.
    destruct (IH r1) as (r'&Hr&Ho'&Hl). rewrite Hr. exists r'. simpl. split_and!.
    + rewrite (imap_ext (rr_route uid r1) (rr_route uid r ∘ S) es)
        by (intros; by eapply rr_route_step).
      assert (Hh : rr_route uid r 0 e = (Ports.of_string (rro_output o),
                     Evt.set_op_meta e (<[uid := Val.of_u64 (Z.of_nat i)]> (ev_op_meta e)))).
      { unfold rr_route. rewrite Hrot, Nat.Div0.mod_0_l. simpl. by rewrite Hi. }
      by rewrite <- Hh.
    + congruence.
    + rewrite Hl, Hrot1, length_app; simpl. lia.
Qed.

(** ** The breaker state the upstream side sees *)
Fixpoint rr_contraflow_run (uid : OperatorId) (r : RoundRobin) (ins : list Event) : RoundRobin * list Event :=
  match ins with
  | [] => (r, [])
  | i :: ins => let '(r, i) := RR.on_contraflow r uid i in
                let '(r, out) := rr_contraflow_run uid r ins in (r, i :: out)
  end.

Lemma rr_contraflow_step uid r i r' i' :
  RR.on_contraflow r uid i = (r', i') ->
  upstream_view (RR.any_open (rr_outputs r)) i' = RR.any_open (rr_outputs r')
  /\ (Cb.is_cb (ev_cb i) = false -> i' = i /\ rr_outputs r' = rr_outputs r).
Proof.
  unfold RR.on_contraflow. intros ?; simplify_eq/=. unfold upstream_view; simpl. split.
  - match goal with |- context [RR.any_open ?o && negb _] => set (outs := o) end.
    destruct (RR.any_open outs), (RR.any_open (rr_outputs r)), (ev_cb i); done.
  - intros Hcb. destruct i as [? ? ? ? ? ? cb ? ?]; simpl in *.
    destruct cb; try done; (destruct (RR.traced _ _ _) as [[]|]; simpl;
      destruct (RR.any_open (rr_outputs r)); simpl; unfold Evt.set_cb; done).
Qed.

(** C18: whatever insights arrive from downstream, the last Trigger or Restore passed upstream
    says whether any output is open: sources are paused exactly while no output is available.
    Acknowledgements and failures pass unchanged. *)
Theorem roundrobin_breaker_consistent uid r ins r' outs :
  rr_contraflow_run uid r ins = (r', outs) ->
  fold_left upstream_view outs (RR.any_open (rr_outputs r)) = RR.any_open (rr_outputs r')
  /\ Forall2 (fun i o => Cb.is_cb (ev_cb i) = false -> o = i) ins outs.
Proof.
  revert r r' outs. induction ins as [|i ins IH]; intros r r' outs; cbn [rr_contraflow_run].
  { intros ?; simplify_eq. done. }
  destruct (RR.on_contraflow r uid i) as [r1 i1] eqn:Hstep.
  destruct (rr_contraflow_run uid r1 ins) as [r2 outs1] eqn:Hrun. intros ?; simplify_eq.
  destruct (rr_contraflow_step _ _ _ _ _ Hstep) as [Hv Hp].
  destruct (IH _ _ _ Hrun) as [Hf HF]. split; [cbn [fold_left]; by rewrite Hv|].
  constructor; [by intros [? _]%Hp|done].
Qed.

End rotation.

Definition rr_ex : RoundRobin := RR.from_config ["a"; "b"].
Definition rr_ex_insight (i : Z) (c : CbAction) : Event :=
  Evt.insight c EvId.default 0 {[ 7 := Val.of_u64 i ]}.

Definition rr_ex_insights : list Event :=
  [rr_ex_insight 0 CbTrigger; rr_ex_insight 1 CbTrigger; rr_ex_insight 1 CbAck].

Lemma roundrobin_breaker_consistent_witness :
  ev_cb <$> (rr_contraflow_run 7 rr_ex rr_ex_insights).2 = [CbNone; CbTrigger; CbAck]
  /\ fold_left upstream_view (rr_contraflow_run 7 rr_ex rr_ex_insights).2 true = false.
Proof.
  split; [reflexivity|].
  refine (proj1 (roundrobin_breaker_consistent 7 rr_ex rr_ex_insights
    (rr_contraflow_run 7 rr_ex rr_ex_insights).1 _ _)).
  reflexivity.
Defined.
