(* ===== verification/Backpressure.v ===== *)
(** * The backpressure operator

    Models tremor-pipeline/src/op/qos/backpressure.rs and [is_error_insight] of
    tremor-pipeline/src/op/qos.rs.  The theorems describe the escalation of the delay, that
    every event leaves exactly once, the spacing of events in discard mode, and the circuit
    breaker the upstream side sees in pause mode. *)
From stdpp Require Import sorting.
From S2P Require Import Prelude EventId Value Event Common Operator.

Inductive Method : Type := Discard | Pause.

#[export] Instance Method_eq_dec : EqDecision Method.
Proof. solve_decision. Defined.

Record BpConfig : Type := mkBpConfig {
  bpc_timeout : Z;
  bpc_steps : list Z;
  bpc_method : Method
}.

Record Backpressure : Type := mkBp {
  bp_config : BpConfig;
  bp_backoff : Z;
  bp_next : Z;
  bp_steps : list Z
}.

(** Of qos.rs. *)
Definition is_error_insight (insight : Event) (timeout : Z) : bool :=
  let meta := vm_meta (ev_data insight) in
  bool_decide (is_Some (Val.get "error" meta))
  || bool_decide (ev_cb insight = CbFail)
  || bool_decide (ev_cb insight = CbTrigger)
  || match Val.get_u64 "time" meta with Some v => timeout <? v | None => false end.

Module BP.

Definition default_steps : list Z := [50; 100; 250; 500; 1000; 5000; 10000].

Definition from_config (config : BpConfig) : Backpressure :=
  mkBp config 0 0 ((fun v => u64 (v * 1000000)) <$> bpc_steps config).

Definition node_to_operator (node_id : string) (config : option BpConfig)
  : res pipe_error Backpressure :=
  match config with
  | Some config => Ok (from_config config)
  | None => Err (MissingOpConfig node_id)
  end.

(** The loop of [next_backoff], [b] being the accumulator. *)
Fixpoint next_backoff_from (b : Z) (steps : list Z) (current : Z) : Z :=
  match steps with
  | [] => b
  | backoff :: steps =>
      if current <? backoff then backoff else next_backoff_from backoff steps current
  end.

Definition next_backoff (steps : list Z) (current : Z) : Z := next_backoff_from 0 steps current.

Definition update_backoff (o : Backpressure) (ingest_ns : Z) : Backpressure :=
  let backoff := next_backoff (bp_steps o) (bp_backoff o) in
  mkBp (bp_config o) backoff (wrapping_add ingest_ns backoff) (bp_steps o).

Definition reset (o : Backpressure) : Backpressure := mkBp (bp_config o) 0 0 (bp_steps o).

Definition has_backoff (o : Backpressure) : bool := 0 <? bp_backoff o.

Definition on_event (o : Backpressure) (uid : OperatorId) (port : Port) (state : Value) (event : Event)
  : (Backpressure * Value) * res pipe_error EventAndInsights :=
  let event := Evt.set_op_meta event (OpMetaOps.insert (ev_op_meta event) uid Val.const_null) in
  let event := Evt.set_transactional event true in
  let '(o, output) :=
    if bp_next o <=? ev_ingest_ns event then
      (mkBp (bp_config o) (bp_backoff o) (wrapping_add (ev_ingest_ns event) (bp_backoff o)) (bp_steps o),
       Ports.OUT)
    else if decide (bpc_method (bp_config o) = Pause) then (o, Ports.OUT)
    else (o, Ports.OVERFLOW) in
  ((o, state), Ok (EAI.from_events [(output, event)])).

Definition handles_contraflow (o : Backpressure) : bool := true.
Definition handles_signal (o : Backpressure) : bool := true.

Definition on_signal (o : Backpressure) (uid : OperatorId) (state : Value) (signal : Event)
  : (Backpressure * Value * Event) * res pipe_error EventAndInsights :=
  let '(o, insights) :=
    if (0 <? bp_backoff o) && (bp_next o <=? ev_ingest_ns signal) then
      (reset o, if decide (bpc_method (bp_config o) = Pause)
                then [Evt.cb_restore (ev_ingest_ns signal)] else [])
    else (o, []) in
  ((o, state, signal), Ok (mkEAI [] insights)).

Definition on_contraflow (o : Backpressure) (uid : OperatorId) (insight : Event)
  : Backpressure * Event :=
  if negb (OpMetaOps.contains_key (ev_op_meta insight) uid) then (o, insight) else
  let did_apply_backoff := has_backoff o in
  let o :=
    if is_error_insight insight (bpc_timeout (bp_config o)) then update_backoff o (ev_ingest_ns insight)
    else if decide (ev_cb insight = CbAck) then reset o
    else o in
  let does_apply_backoff_now := has_backoff o in
  let cb :=
    if bool_decide (bpc_method (bp_config o) = Pause) && negb did_apply_backoff && does_apply_backoff_now
    then CbTrigger
    else if bool_decide (bpc_method (bp_config o) = Pause) && did_apply_backoff
              && negb does_apply_backoff_now
    then CbRestore
    else if decide (ev_cb insight = CbTrigger) then CbNone
    else ev_cb insight in
  (o, Evt.set_cb insight cb).

End BP.

#[export] Instance Backpressure_Operator : Operator Backpressure :=
  mkOperator _ BP.on_event BP.handles_signal BP.on_signal BP.handles_contraflow BP.on_contraflow
    OpDefault.metrics OpDefault.skippable OpDefault.initial_state.

(** ** Runs *)
Inductive bp_input : Type :=
| BpEvent (e : Event)
| BpSignal (s : Event)
| BpInsight (i : Event).

(** One input: the new operator, the events sent on and the insights sent upstream. *)
Definition bp_step (uid : OperatorId) (o : Backpressure) (i : bp_input)
  : Backpressure * list (Port * Event) * list Event :=
  match i with
  | BpEvent e =>
      match BP.on_event o uid Ports.IN Val.const_null e with
      | ((o, _), Ok out) => (o, eai_events out, eai_insights out)
      | ((o, _), _) => (o, [], [])
      end
  | BpSignal s =>
      match BP.on_signal o uid Val.const_null s with
      | ((o, _, _), Ok out) => (o, eai_events out, eai_insights out)
      | ((o, _, _), _) => (o, [], [])
      end
  | BpInsight i => let '(o, i) := BP.on_contraflow o uid i in (o, [], [i])
  end.

Fixpoint bp_run (uid : OperatorId) (o : Backpressure) (ins : list bp_input)
  : Backpressure * list (Port * Event) * list Event :=
  match ins with
  | [] => (o, [], [])
  | i :: ins =>
      let '(o, evs, up) := bp_step uid o i in
      let '(o, evs', up') := bp_run uid o ins in
      (o, evs ++ evs', up ++ up')
  end.

Definition bp_events (ins : list bp_input) : list Event :=
  omap (fun i => match i with BpEvent e => Some e | _ => None end) ins.

(** What the operator does to an event that passes. *)
Definition bp_mark (uid : OperatorId) (e : Event) : Event :=
  Evt.set_transactional (Evt.set_op_meta e (<[uid := Val.const_null]> (ev_op_meta e))) true.

Lemma bp_step_config uid o i : bp_config (bp_step uid o i).1.1 = bp_config o
  /\ bp_steps (bp_step uid o i).1.1 = bp_steps o.
Proof.
  destruct i as [e|s|i]; simpl.
  - unfold BP.on_event; simpl. repeat case_match; simplify_eq; done.
  - unfold BP.on_signal; simpl. repeat case_match; simplify_eq; done.
  - unfold BP.on_contraflow. repeat (case_match || case_decide); simplify_eq; done.
Qed.

Lemma bp_step_events uid o i :
  match i with
  | BpEvent e => exists p, (bp_step uid o i).1.2 = [(p, bp_mark uid e)]
      /\ (bpc_method (bp_config o) = Pause -> p = Ports.OUT)
  | _ => (bp_step uid o i).1.2 = []
  end.
Proof.
  destruct i as [e|s|i]; simpl.
  - unfold BP.on_event; simpl. destruct (_ <=? _); [by eauto|].
    destruct (decide (bpc_method (bp_config o) = Pause)); simpl; eauto; eexists; split; done.
  - unfold BP.on_signal; simpl. by destruct (_ && _).
  - by destruct (BP.on_contraflow o uid i).
Qed.

(** C22: backpressure loses and duplicates nothing: over any interleaving of events, signals
    and insights every event leaves the operator exactly once, in order, only marked with the
    operator's id and as transactional; in pause mode every one of them leaves through [out],
    none through [overflow]. *)
Theorem backpressure_conserves uid o ins :
  (bp_run uid o ins).1.2.*2 = bp_mark uid <$> bp_events ins
  /\ (bpc_method (bp_config o) = Pause -> Forall (fun p => p.1 = Ports.OUT) (bp_run uid o ins).1.2).
Proof.
  revert o. induction ins as [|i ins IH]; intros o; cbn [bp_run]; [by split|].
  pose proof (bp_step_config uid o i) as [Hc _]. pose proof (bp_step_events uid o i) as He.
  destruct (bp_step uid o i) as [[o1 evs] up]; simpl in *.
  destruct (IH o1) as [Hm Hp]. destruct (bp_run uid o1 ins) as [[o2 evs2] up2]; simpl in *.
  rewrite fmap_app, Hm. rewrite Hc in Hp. unfold bp_events in *.
  destruct i as [e|s|i]; csimpl.
  - destruct He as (p&->&Hpo). split; [done|]. intros HP. constructor; [by apply Hpo|by apply Hp].
  - by subst.
  - by subst.
Qed.

(** ** Escalation *)
Definition bp_error (uid : OperatorId) (o : Backpressure) (i : Event) : Prop :=
  OpMetaOps.contains_key (ev_op_meta i) uid = true
  /\ is_error_insight i (bpc_timeout (bp_config o)) = true.

Lemma next_backoff_from_skip b l1 l2 c :
  Forall (fun s => s <= c) l1 ->
  BP.next_backoff_from b (l1 ++ l2) c = BP.next_backoff_from (default b (last l1)) l2 c.
Proof.
  intros H. revert b. induction H as [|s l Hs _ IH]; intros b; [done|]. cbn [app BP.next_backoff_from].
  assert ((c <? s) = false) as -> by lia. rewrite IH, last_cons. by destruct (last l).
Qed.

(** The delay after [k] errors: the [k]-th step, or the last one. *)
Definition bp_level (steps : list Z) (k : nat) : Z := default 0 (last (take k steps)).

Lemma sorted_take_last steps k x s :
  StronglySorted Z.lt steps -> last (take k steps) = Some x -> s ∈ take k steps -> s <= x.
Proof.
  rewrite <- (take_drop k steps) at 1. intros Hs%StronglySorted_app_1_l.
  intros [l Hl]%last_Some. rewrite Hl in *. intros [Hin| ->%list_elem_of_singleton]%elem_of_app; [|done].
  assert (s < x); [|lia]. apply (StronglySorted_app_1_elem_of _ _ _ _ _ Hs); set_solver.
Qed.

Lemma next_backoff_level steps k :
  StronglySorted Z.lt steps -> Forall (fun s => 0 < s) steps ->
  BP.next_backoff steps (bp_level steps k) = bp_level steps (S k).
Proof.
  intros Hs Hpos. unfold BP.next_backoff.
  rewrite <- (take_drop k steps) at 1. rewrite next_backoff_from_skip.
  2:{ apply Forall_forall. intros s Hin. unfold bp_level. destruct (last (take k steps)) as [x|] eqn:Hx.
      - simpl. by eapply sorted_take_last.
      - apply last_None in Hx. rewrite Hx in Hin. by apply not_elem_of_nil in Hin. }
  fold (bp_level steps k). destruct (drop k steps) as [|y l] eqn:Hd.
  { assert (length steps <= k)%nat.
    { destruct (decide (length steps <= k)%nat); [done|].
      assert (length (drop k steps) = length (@nil Z)) as Hl by by rewrite Hd. rewrite length_drop in Hl.
      simpl in *; lia. }
    simpl. unfold bp_level. by rewrite !take_ge by lia. }
  assert (Hy : steps !! k = Some y).
  { rewrite <- (Nat.add_0_r k), <- lookup_drop, Hd. done. }
  assert (bp_level steps (S k) = y) as ->.
  { unfold bp_level. by rewrite (take_S_r _ _ _ Hy), last_snoc. }
  cbn [BP.next_backoff_from].
  assert (bp_level steps k < y) as Hlt.
  { unfold bp_level. destruct (last (take k steps)) as [x|] eqn:Hx; cbn [default].
    - apply last_Some in Hx as [l' Hl']. rewrite <- (take_drop k steps), Hl', Hd in Hs.
      apply (StronglySorted_app_1_elem_of _ _ _ _ _ Hs); set_solver.
    - rewrite Forall_lookup in Hpos. by eapply Hpos. }
  assert ((bp_level steps k <? y) = true) as -> by lia. done.
Qed.

(** The delay that follows [current]: the first configured step above it, the last step when
    there is none. *)
Definition step_above (steps : list Z) (current : Z) : Z :=
  match List.find (fun s => current <? s) steps with
  | Some s => s
  | None => default 0 (last steps)
  end.

Lemma next_backoff_above steps current : BP.next_backoff steps current = step_above steps current.
Proof.
  assert (Hgen : forall b, BP.next_backoff_from b steps current =
    match List.find (fun s => current <? s) steps with Some s => s | None => default b (last steps) end).
  2:{ apply Hgen. }
  induction steps as [|s steps IH]; intros b; cbn [BP.next_backoff_from List.find]; [done|].
  destruct (current <? s); [done|]. rewrite IH, last_cons. by destruct (List.find _ steps), (last steps).
Qed.

Lemma iter_level steps k n :
  StronglySorted Z.lt steps -> Forall (fun s => 0 < s) steps ->
  Nat.iter n (step_above steps) (bp_level steps k) = bp_level steps (k + n).
Proof.
  intros Hs Hpos. induction n as [|n IH]; [by rewrite Nat.add_0_r|]. cbn [Nat.iter nat_rect].
  change (nat_rect _ _ _ n) with (Nat.iter n (step_above steps) (bp_level steps k)).
  rewrite IH, <- next_backoff_above, next_backoff_level by done. f_equal. lia.
Qed.

Lemma error_run uid ins i : forall o, Forall (bp_error uid o) (ins ++ [i]) ->
  let o' := (bp_run uid o (BpInsight <$> ins ++ [i])).1.1 in
  bp_backoff o' = Nat.iter (S (length ins)) (step_above (bp_steps o)) (bp_backoff o)
  /\ bp_next o' = wrapping_add (ev_ingest_ns i) (bp_backoff o').
Proof.
  induction ins as [|j ins IH]; intros o Herr; apply Forall_cons in Herr as [[Hkey Herr] Hrest];
    cbn [app fmap list_fmap bp_run bp_step length]; unfold BP.on_contraflow; rewrite Hkey, Herr; cbn.
  - by rewrite next_backoff_above.
  - destruct (IH (BP.update_backoff o (ev_ingest_ns j))) as [IH1 IH2]; [done|].
    destruct (bp_run _ _ _) as [[o2 ?] ?] eqn:Hrun; cbn in IH1, IH2 |- *. split; [|done].
    rewrite IH1, next_backoff_above. change (step_above ?s (nat_rect _ ?x ?f ?n)) with (Nat.iter (S n) (step_above s) x).
    by rewrite <- Nat.iter_succ_r.
Qed.

(** C20: every error insight of an event that passed the operator moves the delay to the first
    configured step above it, or to the last step when there is none, and the delay counts from
    the last of these insights, whatever the configured steps are.  When the steps are positive
    and increasing, and no delay was in force, [k] consecutive errors therefore leave it at the
    [k]-th step, the last if there are fewer. *)
Theorem backpressure_escalates uid o ins i :
  Forall (bp_error uid o) (ins ++ [i]) ->
  exists o', (bp_run uid o (BpInsight <$> ins ++ [i])).1.1 = o'
    /\ bp_backoff o' = Nat.iter (S (length ins)) (step_above (bp_steps o)) (bp_backoff o)
    /\ bp_next o' = wrapping_add (ev_ingest_ns i) (bp_backoff o')
    /\ (bp_backoff o = 0 -> StronglySorted Z.lt (bp_steps o) -> Forall (fun s => 0 < s) (bp_steps o) ->
         bp_backoff o' = bp_level (bp_steps o) (S (length ins))).
Proof.
  intros Herr. destruct (error_run uid ins i o Herr) as [Hb Hn]. eexists. split; [done|]. split; [done|]. split; [done|].
  intros H0 Hs Hpos. rewrite Hb, H0. apply (iter_level _ 0); done.
Qed.

(** ** The circuit breaker in pause mode *)

(** The inputs after which the upstream view is the operator's: events, signals, and insights
    that are no Restore ([backpressure_rewrites] says what those do) and no Trigger of an event
    that did not pass the operator (which goes upstream as it is). *)
Definition bp_tracked (uid : OperatorId) (i : bp_input) : Prop :=
  match i with
  | BpInsight i => ev_cb i <> CbRestore
      /\ (ev_cb i = CbTrigger -> OpMetaOps.contains_key (ev_op_meta i) uid = true)
  | _ => True
  end.

Lemma bp_step_view uid o i :
  bpc_method (bp_config o) = Pause -> bp_tracked uid i ->
  fold_left upstream_view (bp_step uid o i).2 (negb (BP.has_backoff o))
  = negb (BP.has_backoff (bp_step uid o i).1.1).
Proof.
  intros HP Ht. destruct i as [e|s|i]; simpl in *.
  - unfold BP.on_event, BP.has_backoff; simpl. repeat case_match; simplify_eq; done.
  - unfold BP.on_signal, BP.has_backoff. rewrite (decide_True _ _ HP).
    destruct (0 <? bp_backoff o) eqn:Hb, (bp_next o <=? ev_ingest_ns s); simpl; rewrite ?Hb; done.
  - destruct Ht as [Hr Hk]. unfold BP.on_contraflow.
    destruct (OpMetaOps.contains_key (ev_op_meta i) uid); cbn [negb].
    2:{ unfold upstream_view; cbn. destruct (ev_cb i); try done. by specialize (Hk eq_refl). }
    set (o' := if is_error_insight _ _ then _ else _).
    assert (bp_config o' = bp_config o) as -> by (subst o'; repeat case_match; done).
    rewrite (bool_decide_true _ HP). unfold upstream_view; simpl.
    destruct (BP.has_backoff o), (BP.has_backoff o'); simpl; try done;
      destruct (decide (ev_cb i = CbTrigger)); try done; by destruct (ev_cb i).
Qed.

(** C19: in pause mode, when the sources see an open circuit breaker exactly if no backoff is in
    force at the start, they do so at the end of every interleaving of events, ticks and insights
    in which no Restore arrives from downstream (it is passed on while the backoff stays) and no
    Trigger of an event that did not pass the operator (it is passed on without a backoff). *)
Theorem backpressure_breaker_consistent uid o ins :
  bpc_method (bp_config o) = Pause -> Forall (bp_tracked uid) ins ->
  let '(o', _, up) := bp_run uid o ins in
  fold_left upstream_view up (negb (BP.has_backoff o)) = negb (BP.has_backoff o').
Proof.
  intros HP Hin. revert o HP. induction Hin as [|i ins Hi _ IH]; intros o HP; cbn [bp_run]; [done|].
  pose proof (bp_step_config uid o i) as [Hc _]. pose proof (bp_step_view uid o i HP Hi) as Hv.
  destruct (bp_step uid o i) as [[o1 evs] up]; simpl in *.
  specialize (IH o1 ltac:(congruence)). destruct (bp_run uid o1 ins) as [[o2 evs2] up2].
  by rewrite fold_left_app, Hv.
Qed.

(** C35: what pause mode does to guaranteed delivery insights.  The failure that starts a
    backoff reaches the sources as a Trigger and the acknowledgement that ends one as a
    Restore, so the event they stand for is never failed or acknowledged at its source; a
    Restore from downstream is passed on although the backoff stays in force. *)
Theorem backpressure_rewrites uid o i :
  bpc_method (bp_config o) = Pause ->
  OpMetaOps.contains_key (ev_op_meta i) uid = true ->
  (ev_cb i = CbFail -> bp_backoff o = 0 -> 0 < BP.next_backoff (bp_steps o) 0 ->
     ev_cb (BP.on_contraflow o uid i).2 = CbTrigger)
  /\ (ev_cb i = CbAck -> is_error_insight i (bpc_timeout (bp_config o)) = false -> 0 < bp_backoff o ->
     ev_cb (BP.on_contraflow o uid i).2 = CbRestore)
  /\ (ev_cb i = CbRestore -> is_error_insight i (bpc_timeout (bp_config o)) = false ->
     BP.on_contraflow o uid i = (o, i)).
Proof.
  intros HP Hk. unfold BP.on_contraflow. rewrite Hk; simpl. split_and!.
  - intros Hf H0 Hn. assert (is_error_insight i (bpc_timeout (bp_config o)) = true) as ->.
    { unfold is_error_insight. rewrite (bool_decide_true (ev_cb i = CbFail)) by done.
      by rewrite orb_true_r. }
    unfold BP.has_backoff; simpl. rewrite H0, bool_decide_true by done.
    assert ((0 <? BP.next_backoff (bp_steps o) 0) = true) as -> by lia. done.
  - intros Ha -> Hb. rewrite (decide_True _ _ Ha). unfold BP.has_backoff; simpl.
    assert ((0 <? bp_backoff o) = true) as -> by lia. by rewrite bool_decide_true.
  - intros Hr ->. rewrite Hr, decide_False, decide_False by done.
    destruct (BP.has_backoff o); rewrite !andb_false_r; f_equal; by destruct i; simpl in *; subst.
Qed.

(** ** Spacing in discard mode *)
Definition passed (outs : list (Port * Event)) : list Event :=
  omap (fun p => if decide (p.1 = Ports.OUT) then Some p.2 else None) outs.

Lemma bp_event_discard uid o e :
  bpc_method (bp_config o) = Discard ->
  is_u64 (ev_ingest_ns e + bp_backoff o) ->
  bp_step uid o (BpEvent e) =
    if bp_next o <=? ev_ingest_ns e
    then (mkBp (bp_config o) (bp_backoff o) (ev_ingest_ns e + bp_backoff o) (bp_steps o),
          [(Ports.OUT, bp_mark uid e)], [])
    else (o, [(Ports.OVERFLOW, bp_mark uid e)], []).
Proof.
  intros Hd Hu. cbn [bp_step]. unfold BP.on_event; simpl. rewrite Hd, wrapping_add_small by done.
  by destruct (_ <=? _).
Qed.

(** C21: in discard mode, over events between which no insight and no tick changes the backoff
    [b], two events let through are at least [b] apart (event time), the first not before the
    deadline in force at the start; and an event is discarded only before that deadline or within
    [b] of one let through before it. *)
Theorem backpressure_discard_spacing uid o es :
  bpc_method (bp_config o) = Discard -> 0 <= bp_backoff o ->
  Forall (fun e => is_u64 (ev_ingest_ns e + bp_backoff o)) es ->
  let outs := (bp_run uid o (BpEvent <$> es)).1.2 in
  Sorted (fun e e' => ev_ingest_ns e + bp_backoff o <= ev_ingest_ns e') (passed outs)
  /\ (forall e, head (passed outs) = Some e -> bp_next o <= ev_ingest_ns e)
  /\ (forall i e, outs !! i = Some (Ports.OVERFLOW, e) ->
        ev_ingest_ns e < bp_next o
        \/ exists j e', (j < i)%nat /\ outs !! j = Some (Ports.OUT, e')
             /\ ev_ingest_ns e < ev_ingest_ns e' + bp_backoff o).
Proof.
  intros Hd Hb Hes. revert o Hd Hb Hes. induction es as [|e es IH]; intros o Hd Hb Hes; [done|].
  apply Forall_cons in Hes as [He Hes]. cbn [fmap list_fmap bp_run].
  rewrite (bp_event_discard uid o e Hd He).
  destruct (Z.leb_spec (bp_next o) (ev_ingest_ns e)) as [Hle|Hgt].
  - destruct (IH (mkBp (bp_config o) (bp_backoff o) (ev_ingest_ns e + bp_backoff o) (bp_steps o)))
      as (Hs&Hh&Hov); [done..|].
    destruct (bp_run _ _ _) as [[o2 outs] up]; csimpl in *. unfold passed; csimpl. split_and!.
    + constructor; [done|]. fold (passed outs). destruct (passed outs); constructor. by apply Hh.
    + intros ? [= <-]. done.
    + intros [|i] x Hx; simplify_eq/=. destruct (Hov i x Hx) as [Hlt|(j&e'&?&?&?)]; right.
      * exists 0%nat, (bp_mark uid e). split_and!; [lia|done|done].
      * exists (S j), e'. split_and!; [lia|done|done].
  - destruct (IH o Hd Hb Hes) as (Hs&Hh&Hov).
    destruct (bp_run _ _ _) as [[o2 outs] up]; csimpl in *. unfold passed; csimpl. split_and!; [done..|].
    intros [|i] x Hx; simplify_eq/=; [by left|].
    destruct (Hov i x Hx) as [Hlt|(j&e'&?&?&?)]; [by left|right]. exists (S j), e'. split_and!; [lia|done|done].
Qed.

(** ** Witnesses *)
Definition bp_ex (m : Method) : Backpressure := BP.from_config (mkBpConfig 100 [1; 10] m).
Definition bp_ex_insight (ns : Z) (c : CbAction) : Event :=
  Evt.insight c EvId.default ns {[ 7 := Val.const_null ]}.
Definition bp_ex_event (ns : Z) : Event := Evt.set_ingest_ns Evt.default ns.

Lemma backpressure_escalates_witness :
  (exists o', (bp_run 7 (bp_ex Discard)
                (BpInsight <$> [bp_ex_insight 1 CbFail; bp_ex_insight 2 CbFail] ++ [bp_ex_insight 3 CbFail])).1.1 = o'
    /\ bp_backoff o' = 10000000 /\ bp_next o' = wrapping_add 3 (bp_backoff o'))
  /\ exists o', (bp_run 7 (BP.from_config (mkBpConfig 100 [10; 5; 20] Discard))
                  (BpInsight <$> [bp_ex_insight 1 CbFail] ++ [bp_ex_insight 2 CbFail])).1.1 = o'
       /\ bp_backoff o' = 20000000.
Proof.
  split.
  - destruct (backpressure_escalates 7 (bp_ex Discard)
      [bp_ex_insight 1 CbFail; bp_ex_insight 2 CbFail] (bp_ex_insight 3 CbFail)) as (o'&Ho&_&Hn&Hl).
    + repeat constructor; vm_compute; reflexivity.
    + exists o'. split; [exact Ho|]. split; [|exact Hn]. apply Hl; [reflexivity|repeat constructor; lia..].
  - destruct (backpressure_escalates 7 (BP.from_config (mkBpConfig 100 [10; 5; 20] Discard))
      [bp_ex_insight 1 CbFail] (bp_ex_insight 2 CbFail)) as (o'&Ho&Hb&_).
    + repeat constructor; vm_compute; reflexivity.
    + exists o'. split; [exact Ho|exact Hb].
Defined.

Lemma backpressure_breaker_consistent_witness :
  fold_left upstream_view
    (bp_run 7 (bp_ex Pause) [BpInsight (bp_ex_insight 1 CbFail); BpSignal (bp_ex_event 2)]).2 true = false.
Proof.
  apply (backpressure_breaker_consistent 7 (bp_ex Pause)
    [BpInsight (bp_ex_insight 1 CbFail); BpSignal (bp_ex_event 2)]).
  - reflexivity.
  - repeat constructor; discriminate.
Defined.

Lemma backpressure_rewrites_witness :
  ev_cb (BP.on_contraflow (bp_ex Pause) 7 (bp_ex_insight 1 CbFail)).2 = CbTrigger.
Proof.
  apply (backpressure_rewrites 7 (bp_ex Pause) (bp_ex_insight 1 CbFail)); reflexivity.
Defined.

Definition bp_ex_slow : Backpressure := BP.update_backoff (bp_ex Discard) 0.

Lemma backpressure_discard_spacing_witness :
  fst <$> (bp_run 7 bp_ex_slow (BpEvent <$> [bp_ex_event 1; bp_ex_event 1000000; bp_ex_event 1000001])).1.2
    = [Ports.OVERFLOW; Ports.OUT; Ports.OVERFLOW]
  /\ Sorted (fun e e' => ev_ingest_ns e + 1000000 <= ev_ingest_ns e')
      (passed (bp_run 7 bp_ex_slow
                 (BpEvent <$> [bp_ex_event 1; bp_ex_event 1000000; bp_ex_event 1000001])).1.2).
Proof.
  split; [reflexivity|].
  apply (backpressure_discard_spacing 7 bp_ex_slow [bp_ex_event 1; bp_ex_event 1000000; bp_ex_event 1000001]).
  - reflexivity.
  - vm_compute. discriminate.
  - repeat constructor; vm_compute; discriminate.
Defined.
