(* ===== verification/BasicOps.v ===== *)
(** * The simple operators

    Models the operators passthrough (op/identity/passthrough.rs), counter
    (op/generic/counter.rs), history (op/debug/history.rs), percentile
    (op/qos/percentile.rs), bucket (op/grouper/bucket.rs), script (op/trickle/script.rs) and
    the select without windows (op/trickle/simple_select.rs) of tremor-pipeline/src. *)
From Stdlib Require Import SpecFloat.
From S2P Require Import Prelude EventId Value Event Common Operator Backpressure.

(** ** Passthrough *)
Inductive Passthrough : Type := mkPassthrough.

Module PassthroughOp.

Definition on_event (o : Passthrough) (uid : OperatorId) (port : Port) (state : Value) (event : Event)
  : (Passthrough * Value) * res pipe_error EventAndInsights := ((o, state), Ok (EAI.from_event event)).
Definition skippable (o : Passthrough) : bool := true.

End PassthroughOp.

#[export] Instance Passthrough_Operator : Operator Passthrough :=
  mkOperator _ PassthroughOp.on_event OpDefault.handles_signal OpDefault.on_signal
    OpDefault.handles_contraflow OpDefault.on_contraflow OpDefault.metrics PassthroughOp.skippable
    OpDefault.initial_state.

(** ** Counter *)
Inductive Counter : Type := mkCounter.

Module CounterOp.

Definition on_event (o : Counter) (uid : OperatorId) (port : Port) (state : Value) (event : Event)
  : (Counter * Value) * res pipe_error EventAndInsights :=
  let new_state : res pipe_error Value :=
    if Val.is_null state then Ok (Val.of_u64 1)
    else let? n := ok_or (ErrorMsg "Expected number for state") (Val.as_u64 state) in
         Ok (Val.of_u64 (wrapping_add n 1)) in
  match new_state with
  | Ok state =>
      let v := Val.try_insert "event" (vm_value (ev_data event))
                 (Val.try_insert "count" state Val.object) in
      ((o, state), Ok (EAI.from_event (Evt.set_data event (mkVM v (vm_meta (ev_data event))))))
  | Err e => ((o, state), Err e)
  | Panic => ((o, state), Panic)
  end.

End CounterOp.

#[export] Instance Counter_Operator : Operator Counter :=
  mkOperator _ CounterOp.on_event OpDefault.handles_signal OpDefault.on_signal
    OpDefault.handles_contraflow OpDefault.on_contraflow OpDefault.metrics OpDefault.skippable
    OpDefault.initial_state.

(** ** History *)
Record History : Type := mkHistory { h_op : string; h_name : string }.

Module HistoryOp.

Definition node_to_operator (node_id : string) (config : option History) : res pipe_error History :=
  ok_or (MissingOpConfig node_id) config.

(** [format!("evt: {}({id})", op)] *)
Definition entry (prefix : string) (o : History) (id : EventId) : Value :=
  VString (prefix +:+ h_op o +:+ "(" +:+ EvId.display id +:+ ")").

(** Append to the history array, or start it when the field is missing or no array. *)
Definition record_entry (o : History) (v : Value) (meta : Value) : Value :=
  match meta with
  | VObject obj =>
      match obj_get (h_name o) obj with
      | Some (VArray history) => VObject (obj_insert (h_name o) (VArray (history ++ [v])) obj)
      | _ => VObject (obj_insert (h_name o) (VArray [v]) obj)
      end
  | _ => meta
  end.

Definition record_on (prefix : string) (o : History) (event : Event) : Event :=
  Evt.set_data event
    (mkVM (vm_value (ev_data event))
       (record_entry o (entry prefix o (ev_id event)) (vm_meta (ev_data event)))).

Definition on_event (o : History) (uid : OperatorId) (port : Port) (state : Value) (event : Event)
  : (History * Value) * res pipe_error EventAndInsights :=
  ((o, state), Ok (EAI.from_event (record_on "evt: " o event))).

Definition handles_signal (o : History) : bool := true.

Definition on_signal (o : History) (uid : OperatorId) (state : Value) (signal : Event)
  : (History * Value * Event) * res pipe_error EventAndInsights :=
  ((o, state, record_on "sig: " o signal), Ok EAI.default).

End HistoryOp.

#[export] Instance History_Operator : Operator History :=
  mkOperator _ HistoryOp.on_event HistoryOp.handles_signal HistoryOp.on_signal
    OpDefault.handles_contraflow OpDefault.on_contraflow OpDefault.metrics OpDefault.skippable
    OpDefault.initial_state.

(** ** Percentile

    Floating point is IEEE binary64, round to nearest even. *)
Definition f64_of_Z (z : Z) : spec_float := binary_normalize 53 1024 z 0 false.
Definition f64_add := SFadd 53 1024.
Definition f64_sub := SFsub 53 1024.
Definition f64_div := SFdiv 53 1024.
Definition f64_lt := SFltb.

Record Percentile : Type := mkPercentile {
  pc_timeout : Z;
  pc_step_down : spec_float;
  pc_step_up : spec_float;
  pc_perc : spec_float
}.

Module PercentileOp.

Definition zero : spec_float := f64_of_Z 0.
Definition one : spec_float := f64_of_Z 1.

Definition from_config (timeout : Z) (step_down step_up : spec_float) : Percentile :=
  mkPercentile timeout step_down step_up one.

Definition set_perc (o : Percentile) (perc : spec_float) : Percentile :=
  mkPercentile (pc_timeout o) (pc_step_down o) (pc_step_up o) perc.

(** The pseudo random number of an event. *)
Definition rand (ingest_ns : Z) : spec_float :=
  f64_div (f64_of_Z (ingest_ns mod 65535)) (f64_of_Z 65535).

Definition on_event (o : Percentile) (uid : OperatorId) (port : Port) (state : Value) (event : Event)
  : (Percentile * Value) * res pipe_error EventAndInsights :=
  let event := Evt.set_op_meta event (OpMetaOps.insert (ev_op_meta event) uid Val.const_null) in
  let event := Evt.set_transactional event true in
  let r := rand (ev_ingest_ns event) in
  if f64_lt (pc_perc o) r then ((o, state), Ok (EAI.from_events [(Ports.OVERFLOW, event)]))
  else ((o, state), Ok (EAI.from_event event)).

Definition handles_contraflow (o : Percentile) : bool := true.

Definition on_contraflow (o : Percentile) (uid : OperatorId) (insight : Event) : Percentile * Event :=
  if negb (OpMetaOps.contains_key (ev_op_meta insight) uid) then (o, insight)
  else if is_error_insight insight (pc_timeout o) then
    let perc := f64_sub (pc_perc o) (pc_step_down o) in
    (set_perc o (if f64_lt perc zero then zero else perc), insight)
  else
    let perc := f64_add (pc_perc o) (pc_step_up o) in
    (set_perc o (if f64_lt one perc then one else perc), insight).

End PercentileOp.

#[export] Instance Percentile_Operator : Operator Percentile :=
  mkOperator _ PercentileOp.on_event OpDefault.handles_signal OpDefault.on_signal
    PercentileOp.handles_contraflow PercentileOp.on_contraflow OpDefault.metrics OpDefault.skippable
    OpDefault.initial_state.

(** ** Bucket

    The time window and the LRU cache are third party crates: [time_window] and [cache] are
    their types.  [inc_t] counts an event and says whether it still fits the rate;
    [get_mut] gives access to a cached entry: its value and how to write it back. *)
Section bucket.
Context {time_window cache : Type}.
Variable tw_new : Z -> Z -> Z -> time_window.
Variable inc_t : time_window -> Z -> time_window * bool.
Variable lru_new : Z -> cache.
Variable get_mut : string -> cache -> option (time_window * (time_window -> cache)).
Variable put : string -> time_window -> cache -> cache.
Variable encode : Value -> string.

Record Rate : Type := mkRate { r_rate : Z; r_time_range : Z; r_windows : Z }.

Record Bucket : Type := mkBucket { bk_cache : cache; bk_pass : Z; bk_overflow : Z }.

Definition Rate_from_meta (meta : Value) : option Rate :=
  match Val.get_u64 "rate" meta with
  | Some rate =>
      Some (mkRate rate (default 1000 (Val.get_u64 "time_range" meta))
              (default 100 (Val.get_u64 "windows" meta)))
  | None => None
  end.

Definition Bucket_new (cardinality : Z) : Bucket :=
  mkBucket (lru_new (if decide (cardinality = 0) then 1000 else cardinality)) 0 0.

(** The end of [on_event]: count the event in the window [w] of the class. *)
Definition Grouper_count (buckets : gmap string Bucket) (class : string) (groups : Bucket)
    (state : Value) (event : Event) (w : time_window) (write : time_window -> cache)
  : (gmap string Bucket * Value) * res pipe_error EventAndInsights :=
  let '(w, fits) := inc_t w (ev_ingest_ns event) in
  if fits then
    ((<[class := mkBucket (write w) (wrapping_add (bk_pass groups) 1) (bk_overflow groups)]> buckets,
      state), Ok (EAI.from_event event))
  else
    ((<[class := mkBucket (write w) (bk_pass groups) (wrapping_add (bk_overflow groups) 1)]> buckets,
      state), Ok (EAI.from_events [(Ports.OVERFLOW, event)])).

Definition Grouper_on_event (buckets : gmap string Bucket) (uid : OperatorId) (port : Port)
    (state : Value) (event : Event)
  : (gmap string Bucket * Value) * res pipe_error EventAndInsights :=
  let meta := vm_meta (ev_data event) in
  match Val.get_str "class" meta with
  | None => ((buckets, state), Ok (EAI.from_events [(Ports.ERR, event)]))
  | Some class =>
      let groups := match buckets !! class with
                    | Some b => b
                    | None => Bucket_new (default 1000 (Val.get_u64 "cardinality" meta))
                    end in
      let buckets := <[class := groups]> buckets in
      let dimensions := encode (default Val.const_null (Val.get "dimensions" meta)) in
      let use := Grouper_count buckets class groups state event in
      match get_mut dimensions (bk_cache groups) with
      | Some (w, write) => use w write
      | None =>
          match Rate_from_meta meta with
          | None => ((buckets, state), Ok (EAI.from_events [(Ports.ERR, event)]))
          | Some rate =>
              if decide (r_windows rate = 0) then ((buckets, state), Panic) else
              let c := put dimensions
                         (tw_new (r_windows rate) (r_time_range rate / r_windows rate) (r_rate rate))
                         (bk_cache groups) in
              match get_mut dimensions c with
              | Some (w, write) => use w write
              | None => ((buckets, state), Panic)
              end
          end
      end
  end.

Definition Grouper_metrics (buckets : gmap string Bucket) (tags : Tags) (timestamp : Z)
  : res pipe_error (list Value) :=
  let emit := fun '((tags, res) : Tags * list Value) '((class, b) : string * Bucket) =>
    let tags := obj_insert "class" (VString class) tags in
    let tags := obj_insert "action" (VString "pass") tags in
    let res := res ++ [value_count "bucketing" tags (bk_pass b) timestamp] in
    let tags := obj_insert "action" (VString (Ports.borrow Ports.OVERFLOW)) tags in
    (tags, res ++ [value_count "bucketing" tags (bk_overflow b) timestamp]) in
  Ok (fold_left emit (map_to_list buckets) (tags, [])).2.

End bucket.
Arguments Bucket : clear implicits.

(** ** Script

    The operator is modelled over any script: [s_run] is the main script's and [s_named] the
    named scripts' evaluation ([Script::run]), from the event context (ingest time and
    origin), the event's value, the node state and the event's metadata to their new values
    and the outcome; an error is given by its rendered message. *)
Inductive Return : Type :=
| EmitEvent (port : option Port)
| Emit (value : Value) (port : option Port)
| Drop.

Notation EventContext := (Z * option EventOriginUri)%type.
Notation script_fn := (EventContext -> Value -> Value -> Value -> (Value * Value * Value) * (Return + string))%type.

Record Script : Type := mkScript {
  s_run : script_fn;
  s_named : Port -> option script_fn;
  s_state : option Value
}.

Module ScriptOp.

Definition initial_state (o : Script) : Value := default Val.const_null (s_state o).

(** The event becomes an error record that holds the event. *)
Definition error_event (s : string) (v : Value) : Value :=
  Val.try_insert "event" v (VObject [("error", VString s)]).

Definition on_event (o : Script) (uid : OperatorId) (port : Port) (state : Value) (event : Event)
  : (Script * Value) * res pipe_error EventAndInsights :=
  let context := (ev_ingest_ns event, ev_origin_uri event) in
  let v := vm_value (ev_data event) in
  let m := vm_meta (ev_data event) in
  let script := if decide (port = Ports.IN) then Some (s_run o) else s_named o port in
  let '(v, state, m, dst_port) :=
    match script with
    | None =>
        (error_event ("unknown port: `" +:+ Ports.borrow port +:+ "`") v, state, m, Some Ports.ERR)
    | Some script =>
        match script context v state m with
        | ((v, state, m), inl (EmitEvent port)) => (v, state, m, Some (default Ports.OUT port))
        | ((v, state, m), inl (Emit value port)) => (value, state, m, Some (default Ports.OUT port))
        | ((v, state, m), inl Drop) => (v, state, m, None)
        | ((v, state, m), inr s) => (error_event s v, state, m, Some Ports.ERR)
        end
    end in
  let event := Evt.set_data event (mkVM v m) in
  ((o, state), Ok match dst_port with
                  | Some port => EAI.from_events [(port, event)]
                  | None => EAI.default
                  end).

End ScriptOp.

#[export] Instance Script_Operator : Operator Script :=
  mkOperator _ ScriptOp.on_event OpDefault.handles_signal OpDefault.on_signal
    OpDefault.handles_contraflow OpDefault.on_contraflow OpDefault.metrics OpDefault.skippable
    ScriptOp.initial_state.

(** ** Simple select

    A guard expression is its evaluation ([guard.run]) to a value or an error. *)
Notation guard_fn := (EventContext -> Value -> Value -> Value -> res pipe_error Value)%type.

Record SimpleSelect : Type := mkSimpleSelect {
  ss_where : option guard_fn;
  ss_having : option guard_fn
}.

Module SimpleSelectOp.

(** Whether the event passes the clause; a guard that is no boolean is an error. *)
Definition passes (guard : option guard_fn) (ctx : EventContext) (data state meta : Value)
  : res pipe_error bool :=
  match guard with
  | None => Ok true
  | Some guard =>
      let? test := guard ctx data state meta in
      ok_or (ErrorMsg "guard not bool") (Val.as_bool test)
  end.

Definition on_event (o : SimpleSelect) (uid : OperatorId) (port : Port) (state : Value) (event : Event)
  : (SimpleSelect * Value) * res pipe_error EventAndInsights :=
  let ctx := (ev_ingest_ns event, ev_origin_uri event) in
  let data := vm_value (ev_data event) in
  let meta := vm_meta (ev_data event) in
  ((o, state),
   let? w := passes (ss_where o) ctx data state meta in
   if negb w then Ok EAI.default else
   let? h := passes (ss_having o) ctx data state meta in
   if negb h then Ok EAI.default else
   Ok (EAI.from_event event)).

End SimpleSelectOp.

#[export] Instance SimpleSelect_Operator : Operator SimpleSelect :=
  mkOperator _ SimpleSelectOp.on_event OpDefault.handles_signal OpDefault.on_signal
    OpDefault.handles_contraflow OpDefault.on_contraflow OpDefault.metrics OpDefault.skippable
    OpDefault.initial_state.

(** ** Theorems *)
Fixpoint counter_run (state : Value) (es : list Event) : Value * list (option Value) :=
  match es with
  | [] => (state, [])
  | e :: es =>
      match CounterOp.on_event mkCounter 0 Ports.IN state e with
      | ((_, state), Ok out) =>
          let '(state, outs) := counter_run state es in
          (state, ((fun p => vm_value (ev_data p.2)) <$> head (eai_events out)) :: outs)
      | ((_, state), _) => let '(state, outs) := counter_run state es in (state, None :: outs)
      end
  end.

Lemma counter_run_from es k :
  is_u64 k -> counter_run (Val.of_u64 k) es =
    (Val.of_u64 (u64 (k + Z.of_nat (length es))),
     imap (fun i e => Some (VObject [("count", Val.of_u64 (u64 (k + (1 + Z.of_nat i))));
                                     ("event", vm_value (ev_data e))])) es).
Proof.
  revert k. induction es as [|e es IH]; intros k Hk; cbn [counter_run];
    [simpl; by rewrite Z.add_0_r, u64_id|].
  cbn. fold (Val.of_u64 (wrapping_add k 1)). rewrite IH by apply u64_range. unfold wrapping_add. simpl.
  rewrite u64_add_l. replace (k + 1 + Z.of_nat (length es)) with (k + Z.of_nat (S (length es))) by lia.
  do 2 f_equal. apply imap_ext. intros i x _. unfold compose. rewrite u64_add_l.
  by replace (k + 1 + (1 + Z.of_nat i)) with (k + (1 + Z.of_nat (S i))) by lia.
Qed.

(** A counter numbers the events it sees 1, 2, 3, ... (modulo 2^64) and wraps each of
    them, unchanged, next to its number. *)
Theorem counter_numbers es :
  counter_run Val.const_null es =
  (if es then Val.const_null else Val.of_u64 (u64 (Z.of_nat (length es))),
   imap (fun i e => Some (VObject [("count", Val.of_u64 (u64 (1 + Z.of_nat i)));
                                   ("event", vm_value (ev_data e))])) es).
Proof.
  destruct es as [|e es]; [done|]. cbn [counter_run]. cbn. fold (Val.of_u64 1).
  rewrite counter_run_from by (unfold is_u64; lia). simpl.
  replace (u64 (1 + Z.of_nat (length es))) with (u64 (Z.of_nat (S (length es)))) by (f_equal; lia).
  do 2 f_equal. apply imap_ext. intros i x _. unfold compose.
  by replace (1 + Z.of_nat (S i)) with (1 + (1 + Z.of_nat i)) by lia.
Qed.

(** *** Bucket accounting *)
Section bucket_theorems.
Context {time_window cache : Type}.
Variable tw_new : Z -> Z -> Z -> time_window.
Variable inc_t : time_window -> Z -> time_window * bool.
Variable lru_new : Z -> cache.
Variable get_mut : string -> cache -> option (time_window * (time_window -> cache)).
Variable put : string -> time_window -> cache -> cache.
Variable encode : Value -> string.
Notation grouper_on_event := (Grouper_on_event tw_new inc_t lru_new get_mut put encode).

(** Documented behaviour of the LRU cache: an entry just put is there. *)
Definition lru_put_get : Prop := forall k v c, is_Some (get_mut k (put k v c)).

(** The counters of a class: passed and overflowed events, zero for an unseen class. *)
Definition counts (buckets : gmap string (Bucket cache)) (class : string) : Z * Z :=
  match buckets !! class with Some b => (bk_pass b, bk_overflow b) | None => (0, 0) end.

Definition class_of (e : Event) : option string := Val.get_str "class" (vm_meta (ev_data e)).

(** How an output adds to the counters of a class. *)
Definition counted (class : string) (c : Z * Z) (out : Port * Event) : Z * Z :=
  if decide (class_of out.2 = Some class) then
    if decide (out.1 = Ports.OUT) then (wrapping_add c.1 1, c.2)
    else if decide (out.1 = Ports.OVERFLOW) then (c.1, wrapping_add c.2 1)
    else c
  else c.

Fixpoint bucket_run (buckets : gmap string (Bucket cache)) (es : list Event)
  : gmap string (Bucket cache) * res pipe_error (list (Port * Event)) :=
  match es with
  | [] => (buckets, Ok [])
  | e :: es =>
      match grouper_on_event buckets 0 Ports.IN Val.const_null e with
      | ((buckets, _), Ok out) =>
          let '(buckets, r) := bucket_run buckets es in
          (buckets, let? outs := r in Ok (eai_events out ++ outs))
      | ((buckets, _), Err x) => (buckets, Err x)
      | ((buckets, _), Panic) => (buckets, Panic)
      end
  end.

(** An event whose metadata asks for zero windows. *)
Definition zero_windows (e : Event) : bool :=
  bool_decide (Val.get_u64 "windows" (vm_meta (ev_data e)) = Some 0).

Lemma counts_insert buckets class b c :
  counts (<[class := b]> buckets) c =
  if decide (c = class) then (bk_pass b, bk_overflow b) else counts buckets c.
Proof.
  unfold counts. destruct (decide (c = class)) as [->|]; [by rewrite lookup_insert_eq|].
  by rewrite lookup_insert_ne.
Qed.

Lemma bucket_count_spec buckets class groups e w write :
  class_of e = Some class -> counts buckets class = (bk_pass groups, bk_overflow groups) ->
  exists buckets' p, Grouper_count inc_t (<[class := groups]> buckets) class groups Val.const_null e w write
      = ((buckets', Val.const_null), Ok (EAI.from_events [(p, e)]))
    /\ forall c, counts buckets' c = counted c (counts buckets c) (p, e).
Proof.
  intros Hclass Hg. unfold Grouper_count, counted; simpl. rewrite Hclass.
  destruct (inc_t w (ev_ingest_ns e)) as [w' []]; eexists _, _; (split; [done|]); intros c;
    rewrite !counts_insert; destruct (decide (c = class)) as [->|];
    rewrite ?decide_True, ?decide_False by congruence; rewrite ?Hg; done.
Qed.

Lemma bucket_step (Hlru : lru_put_get) buckets e :
  zero_windows e = false ->
  exists buckets' p, grouper_on_event buckets 0 Ports.IN Val.const_null e
      = ((buckets', Val.const_null), Ok (EAI.from_events [(p, e)]))
    /\ forall class, counts buckets' class = counted class (counts buckets class) (p, e).
Proof.
  intros Hz. unfold Grouper_on_event. fold (class_of e).
  destruct (class_of e) as [class|] eqn:Hclass.
  2:{ eexists _, _. split; [done|]. intros. unfold counted; simpl. by rewrite Hclass, decide_False. }
  set (groups := match buckets !! class with Some b => b | None => _ end). cbv zeta.
  assert (Hg : counts buckets class = (bk_pass groups, bk_overflow groups)).
  { unfold counts. subst groups. by destruct (buckets !! class). }
  destruct (get_mut _ (bk_cache groups)) as [[w write]|]; [by apply bucket_count_spec|].
  destruct (Rate_from_meta _) as [rate|] eqn:Hrate.
  2:{ eexists _, Ports.ERR. split; [done|]. intros c. unfold counted; simpl.
      rewrite counts_insert. destruct (decide (c = class)) as [->|]; by repeat case_decide. }
  rewrite decide_False.
  2:{ intros Hw. unfold Rate_from_meta in Hrate. repeat case_match; simplify_eq.
      unfold zero_windows in Hz. apply bool_decide_eq_false in Hz. simpl in Hw.
      destruct (Val.get_u64 "windows" _); simpl in Hw; subst; [done|lia]. }
  destruct (Hlru (encode (default Val.const_null (Val.get "dimensions" (vm_meta (ev_data e)))))
    (tw_new (r_windows rate) (r_time_range rate / r_windows rate) (r_rate rate)) (bk_cache groups))
    as [[w write] ->].
  by apply bucket_count_spec.
Qed.

(** C25: the bucket operator drops and changes no event: each one leaves exactly once, in
    order, through [out], [overflow] or [err]; and after any run the per class counters it
    reports have advanced by exactly the events of that class sent to [out] and to
    [overflow].  The events must not ask for zero windows. *)
Theorem bucket_accounting buckets es :
  lru_put_get -> Forall (fun e => zero_windows e = false) es ->
  exists buckets' outs, bucket_run buckets es = (buckets', Ok outs)
    /\ outs.*2 = es
    /\ forall class, counts buckets' class = fold_left (counted class) outs (counts buckets class).
Proof.
  intros Hlru Hes. revert buckets. induction Hes as [|e es He _ IH]; intros buckets; [by eexists _, []|].
  destruct (bucket_step Hlru buckets e He) as (b1&p&Hstep&Hc).
  destruct (IH b1) as (b2&outs&Hrun&Ho&Hc2).
  exists b2, ((p, e) :: outs). cbn [bucket_run]. rewrite Hstep, Hrun. split_and!; [done|csimpl; by rewrite Ho|].
  intros class. rewrite Hc2. cbn [fold_left]. by rewrite Hc.
Qed.

(** C40: an event of a new dimension whose metadata says [windows: 0] (and gives a rate)
    panics the operator: the division of the time range is not guarded. *)
Theorem bucket_zero_windows_panics buckets e class rate :
  class_of e = Some class -> Val.get_u64 "rate" (vm_meta (ev_data e)) = Some rate ->
  zero_windows e = true ->
  (forall b, buckets !! class = Some b ->
     get_mut (encode (default Val.const_null (Val.get "dimensions" (vm_meta (ev_data e))))) (bk_cache b) = None) ->
  (forall n k, get_mut k (lru_new n) = None) ->
  (grouper_on_event buckets 0 Ports.IN Val.const_null e).2 = Panic.
Proof.
  intros Hclass Hrate Hz%bool_decide_eq_true Hb Hnew. unfold Grouper_on_event. fold (class_of e). rewrite Hclass.
  set (groups := match buckets !! class with Some b => b | None => _ end).
  assert (Hg : get_mut (encode (default Val.const_null (Val.get "dimensions" (vm_meta (ev_data e))))) (bk_cache groups) = None).
  { subst groups. destruct (buckets !! class) as [b|]; [by apply Hb|apply Hnew]. }
  rewrite Hg. unfold Rate_from_meta. rewrite Hrate, Hz. done.
Qed.
End bucket_theorems.

(** A cache that holds everything and a window that counts to its rate. *)
Definition ex_get_mut (k : string) (c : gmap string (Z * Z))
  : option ((Z * Z) * (Z * Z -> gmap string (Z * Z))) := (fun w => (w, fun w' => <[k := w']> c)) <$> c !! k.
Definition ex_put (k : string) (w : Z * Z) (c : gmap string (Z * Z)) : gmap string (Z * Z) := <[k := w]> c.
Definition ex_inc_t (w : Z * Z) (ns : Z) : (Z * Z) * bool :=
  if w.1 <? w.2 then ((w.1 + 1, w.2), true) else (w, false).
Definition bucket_ex_event (windows : Z) : Event :=
  Evt.set_data Evt.default
    (mkVM Val.const_null (VObject [("class", VString "c"); ("rate", Val.of_u64 1);
                                   ("windows", Val.of_u64 windows)])).

Lemma bucket_accounting_witness :
  exists buckets' outs,
    bucket_run (fun _ _ r => (0, r)) ex_inc_t (fun _ => ∅) ex_get_mut ex_put (fun _ => EmptyString) ∅
      [bucket_ex_event 1; bucket_ex_event 1] = (buckets', Ok outs)
    /\ outs.*2 = [bucket_ex_event 1; bucket_ex_event 1]
    /\ forall class, counts buckets' class = fold_left (counted class) outs (counts (cache:=gmap string (Z * Z)) ∅ class).
Proof.
  apply (bucket_accounting (fun _ _ r => (0, r)) ex_inc_t (fun _ => ∅) ex_get_mut ex_put (fun _ => EmptyString)).
  - intros k v c. unfold ex_get_mut, ex_put. rewrite lookup_insert_eq. simpl. eauto.
  - repeat constructor.
Defined.

Lemma bucket_zero_windows_panics_witness :
  (Grouper_on_event (fun _ _ r => (0, r)) ex_inc_t (fun _ => ∅) ex_get_mut ex_put (fun _ => EmptyString)
     ∅ 0 Ports.IN Val.const_null (bucket_ex_event 0)).2 = Panic.
Proof.
  apply (bucket_zero_windows_panics (fun _ _ r => (0, r)) ex_inc_t (fun _ => ∅) ex_get_mut ex_put
    (fun _ => EmptyString) ∅ (bucket_ex_event 0) "c" 1).
  - reflexivity.
  - reflexivity.
  - reflexivity.
  - intros b Hb. rewrite lookup_empty in Hb. discriminate.
  - intros n k. unfold ex_get_mut. by rewrite lookup_empty.
Defined.
