(* ===== verification/Graph.v ===== *)
(** * The executable graph

    Models tremor-pipeline/src/executable_graph.rs: the operator nodes of a running pipeline,
    the event stack, event, signal and contra flow, the graph optimiser, and the part of
    tremor-pipeline/src/query.rs that builds the graph from nodes and edges.

    [stack] is the Rust [Vec] with its end first.  Hash maps are finite maps; a loop over a
    hash map visits the entries in the order of [map_to_list] (Rust's order is unspecified).
    The metrics channel is the list of messages sent. *)
From S2P Require Import Prelude EventId Value Event Common Operator.

Inductive NodeKind : Type :=
| KInput
| KOutput (port : Port)
| KOperator
| KSelect
| KScript.

Module Kind.
Definition skippable (k : NodeKind) : bool :=
  match k with KOperator | KSelect | KScript => true | _ => false end.
End Kind.

Record NodeMetrics : Type := mkNM {
  nm_inputs : gmap Port Z;
  nm_outputs : gmap Port Z
}.

Module NM.

Definition default : NodeMetrics := mkNM ∅ ∅.

Definition inc_input_n (m : NodeMetrics) (input : Port) (increment : Z) : NodeMetrics :=
  mkNM (<[input := wrapping_add (from_option id 0 (nm_inputs m !! input)) increment]> (nm_inputs m)) (nm_outputs m).
Definition inc_input (m : NodeMetrics) (input : Port) : NodeMetrics := inc_input_n m input 1.

Definition inc_output_n (m : NodeMetrics) (output : Port) (increment : Z) : NodeMetrics :=
  mkNM (nm_inputs m) (<[output := wrapping_add (from_option id 0 (nm_outputs m !! output)) increment]> (nm_outputs m)).
Definition inc_output (m : NodeMetrics) (output : Port) : NodeMetrics := inc_output_n m output 1.

(** The values and the tags left behind (they are shared with the caller). *)
Definition to_value (m : NodeMetrics) (metric_name : string) (tags : Tags) (timestamp : Z)
  : Tags * list Value :=
  let emit := fun '((tags, res) : Tags * list Value) '((k, v) : Port * Z) =>
    let tags := obj_insert "port" (VString (Ports.borrow k)) tags in
    (tags, res ++ [value_count metric_name tags v timestamp]) in
  let tags := obj_insert "direction" (VString "input") tags in
  let '(tags, res) := fold_left emit (map_to_list (nm_inputs m)) (tags, []) in
  let tags := obj_insert "direction" (VString "output") tags in
  fold_left emit (map_to_list (nm_outputs m)) (tags, res).

End NM.

(** The return of a graph execution. *)
Notation Returns := (list (Port * Event)) (only parsing).

Section graph.
Context {O : Type} `{Operator O}.

Record OperatorNode : Type := mkNode {
  n_id : string;
  n_kind : NodeKind;
  n_op_type : string;
  n_op : O;
  n_uid : OperatorId
}.

Record ExecutableGraph : Type := mkGraph {
  g_id : string;
  g_graph : list OperatorNode;
  g_states : list Value;
  g_inputs : gmap Port nat;
  g_stack : list (nat * Port * Event);
  g_signalflow : list nat;
  g_contraflow : list nat;
  g_port_indexes : gmap (nat * Port) (list (nat * Port));
  g_metrics : list NodeMetrics;
  g_last_metrics : Z;
  g_metric_interval : option Z;
  g_metrics_channel : list Value;
  g_outputs : gmap Port nat;
  g_insights : list (nat * Event)
}.

End graph.
Arguments OperatorNode O : clear implicits.
Arguments ExecutableGraph O : clear implicits.

Notation GM O := (M (ExecutableGraph O) pipe_error).

(** ** [impl Operator for OperatorNode]: the operator run with the node's own id *)
Module Node.
Section node.
Context {O : Type} `{Operator O}.

Definition set_op (n : OperatorNode O) (o : O) : OperatorNode O :=
  mkNode (n_id n) (n_kind n) (n_op_type n) o (n_uid n).

Definition on_event (n : OperatorNode O) (uid : OperatorId) (port : Port) (state : Value) (event : Event)
  : (OperatorNode O * Value) * res pipe_error EventAndInsights :=
  let '((o, state), r) := on_event (n_op n) (n_uid n) port state event in ((set_op n o, state), r).

Definition handles_signal (n : OperatorNode O) : bool := handles_signal (n_op n).

Definition on_signal (n : OperatorNode O) (uid : OperatorId) (state : Value) (signal : Event)
  : (OperatorNode O * Value * Event) * res pipe_error EventAndInsights :=
  let '((o, state, signal), r) := on_signal (n_op n) (n_uid n) state signal in
  ((set_op n o, state, signal), r).

Definition handles_contraflow (n : OperatorNode O) : bool := handles_contraflow (n_op n).

Definition on_contraflow (n : OperatorNode O) (uid : OperatorId) (contraevent : Event)
  : OperatorNode O * Event :=
  let '(o, e) := on_contraflow (n_op n) (n_uid n) contraevent in (set_op n o, e).

Definition metrics (n : OperatorNode O) (tags : Tags) (timestamp : Z) : res pipe_error (list Value) :=
  metrics (n_op n) tags timestamp.
Definition skippable (n : OperatorNode O) : bool := skippable (n_op n).
Definition initial_state (n : OperatorNode O) : Value := initial_state (n_op n).

End node.
End Node.

#[export] Instance OperatorNode_Operator {O} `{Operator O} : Operator (OperatorNode O) :=
  mkOperator _ Node.on_event Node.handles_signal Node.on_signal Node.handles_contraflow
    Node.on_contraflow Node.metrics Node.skippable Node.initial_state.

Module Graph.
Section ops.
Context {O : Type} `{HO : Operator O}.
Notation G := (ExecutableGraph O).

(** *** Field updates *)
Definition set_nodes (g : G) (graph : list (OperatorNode O)) (states : list Value) : G :=
  mkGraph (g_id g) graph states (g_inputs g) (g_stack g) (g_signalflow g) (g_contraflow g)
    (g_port_indexes g) (g_metrics g) (g_last_metrics g) (g_metric_interval g) (g_metrics_channel g)
    (g_outputs g) (g_insights g).
Definition set_stack (g : G) (stack : list (nat * Port * Event)) : G :=
  mkGraph (g_id g) (g_graph g) (g_states g) (g_inputs g) stack (g_signalflow g) (g_contraflow g)
    (g_port_indexes g) (g_metrics g) (g_last_metrics g) (g_metric_interval g) (g_metrics_channel g)
    (g_outputs g) (g_insights g).
Definition set_metrics (g : G) (metrics : list NodeMetrics) : G :=
  mkGraph (g_id g) (g_graph g) (g_states g) (g_inputs g) (g_stack g) (g_signalflow g) (g_contraflow g)
    (g_port_indexes g) metrics (g_last_metrics g) (g_metric_interval g) (g_metrics_channel g)
    (g_outputs g) (g_insights g).
Definition set_sent (g : G) (last : Z) (sent : list Value) : G :=
  mkGraph (g_id g) (g_graph g) (g_states g) (g_inputs g) (g_stack g) (g_signalflow g) (g_contraflow g)
    (g_port_indexes g) (g_metrics g) last (g_metric_interval g) sent (g_outputs g) (g_insights g).
Definition set_insights (g : G) (insights : list (nat * Event)) : G :=
  mkGraph (g_id g) (g_graph g) (g_states g) (g_inputs g) (g_stack g) (g_signalflow g) (g_contraflow g)
    (g_port_indexes g) (g_metrics g) (g_last_metrics g) (g_metric_interval g) (g_metrics_channel g)
    (g_outputs g) insights.
Definition set_wiring (g : G) (inputs : gmap Port nat) (signalflow contraflow : list nat)
    (port_indexes : gmap (nat * Port) (list (nat * Port))) : G :=
  mkGraph (g_id g) (g_graph g) (g_states g) inputs (g_stack g) signalflow contraflow
    port_indexes (g_metrics g) (g_last_metrics g) (g_metric_interval g) (g_metrics_channel g)
    (g_outputs g) (g_insights g).

Definition output_exists (g : G) (port : Port) : bool := bool_decide (is_Some (g_outputs g !! port)).
Definition input_exists (g : G) (port : Port) : bool := bool_decide (is_Some (g_inputs g !! port)).

(** *** Event flow *)
Definition inc_metric (idx : nat) (f : NodeMetrics -> NodeMetrics) : GM O unit :=
  g ← m_get;
  m ← m_lift (unchecked (g_metrics g !! idx));
  m_put (set_metrics g (<[idx := f m]> (g_metrics g))).

Definition push (idx : nat) (in_port : Port) (event : Event) : GM O unit :=
  m_modify (fun g => set_stack g ((idx, in_port, event) :: g_stack g)).

(** The targets are visited in order; that the last one takes the event and the others a
    clone makes no difference here. *)
Definition enqueue_events (idx : nat) (events : list (Port * Event)) : GM O unit :=
  m_for events (fun '(out_port, event) =>
    g ← m_get;
    match g_port_indexes g !! (idx, out_port) with
    | Some dsts =>
        m_for dsts (fun '(idx, in_port) =>
          _ ← inc_metric idx (fun m => NM.inc_input m in_port);
          push idx in_port event)
    | None => mret tt
    end).

Definition send_metrics (metric_name : string) (tags : Tags) (ingest_ns : Z) : GM O unit :=
  g ← m_get;
  let step := fun (acc : res pipe_error (Tags * list Value)) '((i, m) : nat * NodeMetrics) =>
    let? (tags, sent) := acc in
    let? node := unchecked (g_graph g !! i) in
    let tags := obj_insert "node" (VString (n_id node)) tags in
    let sent := sent ++ match metrics node tags ingest_ns with Ok l => l | _ => [] end in
    let '(tags, values) := NM.to_value m metric_name tags ingest_ns in
    Ok (tags, sent ++ values) in
  r ← m_lift (fold_left step (imap pair (g_metrics g)) (Ok (tags, [])));
  m_put (set_sent g (g_last_metrics g) (g_metrics_channel g ++ r.2)).

(** The loop of [signalflow] over the nodes in [ids]. *)
Fixpoint signalflow_loop (ids : list nat) (signal : Event) (has_events : bool) : GM O bool :=
  match ids with
  | [] => mret has_events
  | i :: ids =>
      g ← m_get;
      op ← m_lift (unchecked (g_graph g !! i));
      state ← m_lift (unchecked (g_states g !! i));
      let '((op, state, signal), r) := on_signal op (n_uid op) state signal in
      _ ← m_put (set_nodes g (<[i := op]> (g_graph g)) (<[i := state]> (g_states g)));
      out ← m_lift r;
      _ ← m_modify (fun g => set_insights g (g_insights g ++ (pair i <$> eai_insights out)));
      _ ← enqueue_events i (eai_events out);
      signalflow_loop ids signal (has_events || negb (bool_decide (eai_events out = [])))
  end.

Definition signalflow (signal : Event) : GM O bool :=
  g ← m_get;
  signalflow_loop (g_signalflow g) signal false.

(** A graph and the returns collected so far. *)
Notation GR := (G * Returns)%type.

Definition on_graph {A} (m : GM O A) : M GR pipe_error A := fun '(g, returns) =>
  let '(g, r) := m g in ((g, returns), r).

Definition run_node (idx : nat) (port : Port) (event : Event) : M GR pipe_error unit :=
  '(g, returns) ← m_get;
  node ← m_lift (unchecked (g_graph g !! idx));
  match n_kind node with
  | KOutput port => m_put (g, returns ++ [(port, event)])
  | _ =>
      state ← m_lift (unchecked (g_states g !! idx));
      let '((node, state), r) := on_event node (n_uid node) port state event in
      _ ← m_put (set_nodes g (<[idx := node]> (g_graph g)) (<[idx := state]> (g_states g)), returns);
      out ← m_lift r;
      _ ← on_graph (m_for (eai_events out) (fun '(out_port, _) =>
            inc_metric idx (fun m => NM.inc_output m out_port)));
      _ ← on_graph (m_modify (fun g => set_insights g (g_insights g ++ (pair idx <$> eai_insights out))));
      on_graph (enqueue_events idx (eai_events out))
  end.

Definition next : M GR pipe_error bool :=
  '(g, returns) ← m_get;
  match g_stack g with
  | (idx, port, event) :: stack =>
      _ ← m_put (set_stack g stack, returns);
      _ ← match ev_kind event with
          | Some _ => _ ← on_graph (signalflow event); mret tt
          | None => run_node idx port event
          end;
      '(g, _) ← m_get;
      mret (negb (bool_decide (g_stack g = [])))
  | [] => mret false
  end.

(** The [while] loop; [None] when [fuel] runs out. *)
Fixpoint run (fuel : nat) (s : GR) : option (GR * res pipe_error unit) :=
  match fuel with
  | 0%nat => None
  | S fuel =>
      match next s with
      | (s, Ok true) => run fuel s
      | ((g, returns), Ok false) => Some ((g, rev returns), Ok tt)
      | ((g, returns), Err e) => Some ((set_stack g [], returns), Err e)
      | (s, Panic) => Some (s, Panic)
      end
  end.

Definition enqueue (fuel : nat) (stream_name : Port) (event : Event) (s : GR)
  : option (GR * res pipe_error unit) :=
  let send : GM O unit :=
    g ← m_get;
    if match g_metric_interval g with
       | Some ival => ival <? wrapping_sub (ev_ingest_ns event) (g_last_metrics g)
       | None => false
       end
    then
      _ ← send_metrics "events" [("pipeline", VString (g_id g))] (ev_ingest_ns event);
      m_modify (fun g => set_sent g (ev_ingest_ns event) (g_metrics_channel g))
    else mret tt in
  let prepare : M GR pipe_error unit :=
    _ ← on_graph send;
    '(g, returns) ← m_get;
    input ← m_lift (ok_or (InvalidInputStreamName (Ports.borrow stream_name) (g_id g))
                      (g_inputs g !! stream_name));
    on_graph (push input stream_name event) in
  match prepare s with
  | (s, Ok _) => run fuel s
  | (s, Err e) => Some (s, Err e)
  | (s, Panic) => Some (s, Panic)
  end.

Definition enqueue_signal (fuel : nat) (signal : Event) (s : GR)
  : option (GR * res pipe_error unit) :=
  match on_graph (signalflow signal) s with
  | (s, Ok true) => run fuel s
  | (s, Ok false) => Some (s, Ok tt)
  | (s, Err e) => Some (s, Err e)
  | (s, Panic) => Some (s, Panic)
  end.

(** *** Contraflow *)
Fixpoint contraflow_loop (ids : list nat) (skip_to : option nat) (insight : Event) (g : G)
  : res pipe_error (G * Event) :=
  match ids with
  | [] => Ok (g, insight)
  | idx :: ids =>
      match skip_to with
      | None =>
          let? op := unchecked (g_graph g !! idx) in
          let '(op, insight) := on_contraflow op (n_uid op) insight in
          contraflow_loop ids None insight (set_nodes g (<[idx := op]> (g_graph g)) (g_states g))
      | Some s =>
          if decide (s = idx) then contraflow_loop ids None insight g
          else contraflow_loop ids skip_to insight g
      end
  end.

Definition contraflow (skip_to : option nat) (insight : Event) (g : G) : res pipe_error (G * Event) :=
  contraflow_loop (g_contraflow g) skip_to insight g.

(** *** The optimiser *)
Definition is_skippable (g : G) (id : nat) : bool :=
  match g_graph g !! id with Some n => skippable n | None => false end.

(** The [for] loop over the inputs: [todo] is what is left of the iteration. *)
Fixpoint optimize_inputs (todo : list (Port * nat)) (g : G) : G * option unit :=
  match todo with
  | [] => (g, Some tt)
  | (input_name, target) :: todo =>
      match g_graph g !! target with
      | None => (g, None)
      | Some target_node =>
          let target :=
            if skippable target_node then
              match List.filter (fun e => bool_decide (e.1.1 = target)) (map_to_list (g_port_indexes g)) with
              | [(_, [(next_id, next_input)])] =>
                  if decide (next_input = input_name) then next_id else target
              | _ => target
              end
            else target in
          optimize_inputs todo
            (set_wiring g (<[input_name := target]> (g_inputs g)) (g_signalflow g) (g_contraflow g)
               (g_port_indexes g))
      end
  end.

Definition skippables (g : G) : list nat :=
  omap (fun '(id, e) => if skippable e && Kind.skippable (n_kind e) then Some id else None)
    (imap pair (g_graph g)).

(** All the targets node [id] sends to, over all its ports. *)
Definition outputs_of (pi : gmap (nat * Port) (list (nat * Port))) (id : nat) : list (nat * Port) :=
  concat (omap (fun e => if decide (e.1.1 = id) then Some e.2 else None) (map_to_list pi)).

(** The outlets that connect to node [id]. *)
Definition inputs_of (pi : gmap (nat * Port) (list (nat * Port))) (id : nat) : list (nat * Port) :=
  omap (fun e => if existsb (fun t => bool_decide (t.1 = id)) e.2 then Some e.1 else None) (map_to_list pi).

(** Replace the connections to [id] by [outputs]. *)
Definition bypass (id : nat) (outputs srcs : list (nat * Port)) : list (nat * Port) :=
  flat_map (fun t => if decide (t.1 = id) then outputs else [t]) srcs.

Fixpoint rewire (id : nat) (outputs : list (nat * Port)) (inputs : list (nat * Port))
    (did_change : bool) (pi : gmap (nat * Port) (list (nat * Port)))
  : gmap (nat * Port) (list (nat * Port)) * option bool :=
  match inputs with
  | [] => (pi, Some did_change)
  | i :: inputs =>
      match pi !! i with
      | None => (pi, None)
      | Some srcs =>
          rewire id outputs inputs
            (did_change || existsb (fun t => bool_decide (t.1 = id)) srcs)
            (<[i := bypass id outputs srcs]> (delete i pi))
      end
  end.

Fixpoint remove_skippables (ids : list nat) (did_change : bool)
    (pi : gmap (nat * Port) (list (nat * Port)))
  : gmap (nat * Port) (list (nat * Port)) * option bool :=
  match ids with
  | [] => (pi, Some did_change)
  | id :: ids =>
      match rewire id (outputs_of pi id) (inputs_of pi id) did_change pi with
      | (pi, Some did_change) => remove_skippables ids did_change pi
      | (pi, None) => (pi, None)
      end
  end.

Definition optimize_ (g : G) : G * option bool :=
  let g := set_wiring g (g_inputs g)
             (List.filter (fun id => negb (is_skippable g id)) (g_signalflow g))
             (List.filter (fun id => negb (is_skippable g id)) (g_contraflow g))
             (g_port_indexes g) in
  match optimize_inputs (map_to_list (g_inputs g)) g with
  | (g, None) => (g, None)
  | (g, Some _) =>
      let '(pi, r) := remove_skippables (skippables g) false (g_port_indexes g) in
      (set_wiring g (g_inputs g) (g_signalflow g) (g_contraflow g) pi, r)
  end.

(** The [while] loop, [i] being the iterations left before it gives up. *)
Fixpoint optimize_loop (i : nat) (g : G) : G * option unit :=
  match optimize_ g with
  | (g, None) => (g, None)
  | (g, Some false) => (g, Some tt)
  | (g, Some true) =>
      match i with
      | 0%nat => (g, None)
      | S i => optimize_loop i g
      end
  end.

Definition optimize (g : G) : G * option unit := optimize_loop 1000 g.

End ops.
End Graph.

(** ** Building the graph from a query's nodes and edges

    [Query::to_executable_graph] from the point where the petgraph graph is complete: the
    nodes are [0 .. n-1], an edge joins an outlet to an inlet.  [to_op] is the resolver that
    creates the operators ([NodeConfig::to_op]) and [is_cyclic_directed] is petgraph's. *)
Module Build.
Section build.
Context {O : Type} `{HO : Operator O} `{HL : Lowercase}.
Variable NodeConfig : Type.
Variable nc_id : NodeConfig -> string.
Variable nc_kind : NodeConfig -> NodeKind.
Variable to_op : NodeConfig -> OperatorId -> res pipe_error (OperatorNode O).
Variable is_cyclic_directed : nat -> list ((nat * Port) * (nat * Port)) -> bool.

Notation Edge := ((nat * Port) * (nat * Port))%type.

(** The loop over the node indices: the graph and the flows, by position. *)
Fixpoint build_nodes (i : nat) (idgen : Z) (nodes : list NodeConfig)
  : res pipe_error (Z * list (OperatorNode O) * list nat * list nat) :=
  match nodes with
  | [] => Ok (idgen, [], [], [])
  | node :: nodes =>
      let '(uid, idgen) := IdGen.next_id idgen in
      let? op := to_op node uid in
      let? (idgen, graph, contraflow, signalflow) := build_nodes (S i) idgen nodes in
      Ok (idgen, op :: graph,
          (if handles_contraflow op then [i] else []) ++ contraflow,
          (if handles_signal op then [i] else []) ++ signalflow)
  end.

Fixpoint build_edges (n : nat) (edges : list Edge) (pi : gmap (nat * Port) (list (nat * Port)))
  : res pipe_error (gmap (nat * Port) (list (nat * Port))) :=
  match edges with
  | [] => Ok pi
  | ((from, from_port), (to, to_port)) :: edges =>
      if decide (from < n)%nat then
        if decide (to < n)%nat then
          build_edges n edges
            match pi !! (from, from_port) with
            | Some connections => <[(from, from_port) := connections ++ [(to, to_port)]]> pi
            | None => <[(from, from_port) := [(to, to_port)]]> pi
            end
        else Err (ErrorMsg "Invalid graph - failed to build connections")
      else Err (ErrorMsg "Invalid graph - failed to build connections")
  end.

(** [externals(Incoming)] and [externals(Outgoing)]: no edge in that direction. *)
Definition external_in (edges : list Edge) (i : nat) : bool :=
  forallb (fun e => negb (bool_decide (e.2.1 = i))) edges.
Definition external_out (edges : list Edge) (i : nat) : bool :=
  forallb (fun e => negb (bool_decide (e.1.1 = i))) edges.

Definition build_inputs (nodes : list NodeConfig) (edges : list Edge) : gmap Port nat :=
  fold_left (fun m '(i, node) =>
    if external_in edges i then
      match nc_kind node with KInput => <[Ports.of_string (nc_id node) := i]> m | _ => m end
    else m) (imap pair nodes) ∅.

Definition build_outputs (nodes : list NodeConfig) (edges : list Edge) : gmap Port nat :=
  fold_left (fun m '(i, node) =>
    if external_out edges i then
      match nc_kind node with KOutput _ => <[Ports.of_string (nc_id node) := i]> m | _ => m end
    else m) (imap pair nodes) ∅.

Definition to_executable (pipeline_id : string) (metric_interval : option Z) (idgen : Z)
    (nodes : list NodeConfig) (edges : list Edge) : res pipe_error (Z * ExecutableGraph O) :=
  if is_cyclic_directed (length nodes) edges then Err CyclicGraphError else
  let? (idgen, graph, contraflow, signalflow) := build_nodes 0 idgen nodes in
  let contraflow := rev contraflow in
  let? port_indexes := build_edges (length nodes) edges ∅ in
  let states := map initial_state graph in
  Ok (idgen,
      mkGraph pipeline_id graph states (build_inputs nodes edges) [] signalflow contraflow
        port_indexes (replicate (length graph) NM.default) 0 metric_interval []
        (build_outputs nodes edges) []).

End build.
End Build.
