(* ===== verification/GraphProps.v ===== *)
(** * Correctness of the executable graph

    Theorems about Graph.v: the unchecked accesses are in range, event processing ends on
    acyclic graphs, leaves the stack empty and returns events in emission order, insights
    visit the right operators, and the graph built from a query has the invariant. *)
From S2P Require Import Prelude EventId Value Event Common Operator Batch RoundRobin Backpressure BasicOps Graph.

(** ** What the graph relies on from its operators *)
Definition plain (e : Event) : Prop := ev_kind e = None.

Class WellBehaved (O : Type) `{Operator O} : Prop := mkWellBehaved {
  wb_event : forall o uid port state e, plain e ->
    match (on_event o uid port state e).2 with
    | Ok out => Forall (fun p => plain p.2) (eai_events out)
    | Err _ => True
    | Panic => False
    end;
  wb_signal : forall o uid state s,
    match (on_signal o uid state s).2 with
    | Ok out => Forall (fun p => plain p.2) (eai_events out)
    | Err _ => True
    | Panic => False
    end
}.

#[export] Instance Passthrough_WellBehaved : WellBehaved Passthrough.
Proof. split; cbn; auto. Qed.

#[export] Instance RoundRobin_WellBehaved `{Lowercase} : WellBehaved RoundRobin.
Proof.
  split; intros; cbn [on_event on_signal RoundRobin_Operator].
  - unfold RR.on_event. destruct (RR.select _ _ _ _) as [[]|]; repeat constructor; done.
  - unfold RR.on_signal. destruct (_ && _); repeat constructor.
Qed.

#[export] Instance Backpressure_WellBehaved : WellBehaved Backpressure.
Proof.
  split; intros; cbn [on_event on_signal Backpressure_Operator].
  - unfold BP.on_event; simpl. destruct (_ <=? _); [|destruct (decide _)]; repeat constructor; done.
  - unfold BP.on_signal; simpl. destruct (_ && _); repeat constructor.
Qed.

#[export] Instance Batch_WellBehaved : WellBehaved Batch.
Proof.
  split; intros; cbn [on_event on_signal Batch_Operator].
  - unfold BatchOp.on_event. match goal with |- context [if ?b then _ else _] => destruct b end.
    + unfold BatchOp.flush. destruct (Gen.next_id _). repeat constructor.
    + constructor.
  - unfold BatchOp.on_signal. destruct (b_max_delay_ns _); [|constructor].
    destruct (_ <? _); [|constructor]. destruct (b_len _); [constructor|].
    unfold BatchOp.flush. destruct (Gen.next_id _). repeat constructor.
Qed.

#[export] Instance OperatorNode_WellBehaved {O} `{WellBehaved O} : WellBehaved (OperatorNode O).
Proof.
  split; intros; cbn [on_event on_signal OperatorNode_Operator].
  - unfold Node.on_event. pose proof (wb_event (n_op o) (n_uid o) port state e) as Hw.
    destruct (on_event (n_op o) (n_uid o) port state e) as [[] ?]. by apply Hw.
  - unfold Node.on_signal. pose proof (wb_signal (n_op o) (n_uid o) state s) as Hw.
    destruct (on_signal (n_op o) (n_uid o) state s) as [[[] ?] ?]. by apply Hw.
Qed.

(** ** The invariant of the graph *)
Section props.
Context {O : Type} `{WB : WellBehaved O}.
Notation G := (ExecutableGraph O).
Notation item := (nat * Port * Event)%type.

Definition in_range (g : G) (i : nat) : Prop := (i < length (g_graph g))%nat.

Record wf_graph (g : G) : Prop := mkWf {
  wf_states : length (g_states g) = length (g_graph g);
  wf_metrics : length (g_metrics g) = length (g_graph g);
  wf_signalflow : Forall (in_range g) (g_signalflow g);
  wf_contraflow : Forall (in_range g) (g_contraflow g);
  wf_targets : map_Forall (fun _ dsts => Forall (fun t => in_range g t.1) dsts) (g_port_indexes g);
  wf_inputs : map_Forall (fun _ i => in_range g i) (g_inputs g);
  wf_stack : Forall (fun x : item => in_range g x.1.1 /\ plain x.2) (g_stack g)
}.

(** What no step changes: the wiring and the nodes' number, kinds, ids and uids. *)
Definition frame (g g' : G) : Prop :=
  length (g_graph g') = length (g_graph g)
  /\ n_kind <$> g_graph g' = n_kind <$> g_graph g
  /\ g_signalflow g' = g_signalflow g /\ g_contraflow g' = g_contraflow g
  /\ g_port_indexes g' = g_port_indexes g /\ g_inputs g' = g_inputs g
  /\ g_outputs g' = g_outputs g.

#[local] Instance frame_preorder : PreOrder frame.
Proof. split; unfold frame; [done|]. intros ??? (?&?&?&?&?&?&?) (?&?&?&?&?&?&?). split_and!; congruence. Qed.

(** The part of the invariant that is not about the stack depends on few fields. *)
Lemma wf_frame g g' :
  wf_graph g -> frame g g' -> length (g_states g') = length (g_states g) ->
  length (g_metrics g') = length (g_metrics g) ->
  Forall (fun x : item => in_range g x.1.1 /\ plain x.2) (g_stack g') -> wf_graph g'.
Proof.
  intros [] (Hl&_&Hs&Hc&Hp&Hi&_) Hst Hm Hstack. unfold in_range in *.
  split; unfold in_range in *; rewrite ?Hs, ?Hc, ?Hp, ?Hi, ?Hl; congruence || done.
Qed.

(** *** Enqueueing the outputs of a node *)
Definition targets (g : G) (idx : nat) (events : list (Port * Event)) : list item :=
  flat_map (fun '(p, e) => (fun t : nat * Port => (t.1, t.2, e)) <$> default [] (g_port_indexes g !! (idx, p)))
    events.

Definition bump (ms : list NodeMetrics) (x : item) : list NodeMetrics :=
  alter (fun m => NM.inc_input m x.1.2) x.1.1 ms.

Definition enqueued (g : G) (xs : list item) : G :=
  Graph.set_stack (Graph.set_metrics g (fold_left bump xs (g_metrics g))) (rev xs ++ g_stack g).

Lemma enqueued_app g xs ys : enqueued (enqueued g xs) ys = enqueued g (xs ++ ys).
Proof.
  unfold enqueued, Graph.set_stack, Graph.set_metrics; simpl.
  by rewrite fold_left_app, rev_app_distr, app_assoc.
Qed.

Lemma enqueued_nil g : enqueued g [] = g.
Proof. by destruct g. Qed.

Lemma length_bumps xs ms : length (fold_left bump xs ms) = length ms.
Proof. revert ms. induction xs as [|x xs IH]; intros ms; [done|]. simpl. rewrite IH. apply length_alter. Qed.

Lemma inc_metric_spec idx f (g : G) :
  (idx < length (g_metrics g))%nat ->
  Graph.inc_metric idx f g = (Graph.set_metrics g (alter f idx (g_metrics g)), Ok tt).
Proof.
  intros [m Hm]%lookup_lt_is_Some_2. unfold Graph.inc_metric, mbind, M_bind, m_get, m_lift, m_put.
  rewrite Hm; simpl. do 2 f_equal. rewrite list_insert_alter. apply list_alter_ext; [|done].
  intros x Hx. by simplify_eq.
Qed.

Lemma push_all_spec (dsts : list (nat * Port)) e (g : G) :
  Forall (fun t => (t.1 < length (g_metrics g))%nat) dsts ->
  m_for dsts (fun '(idx, in_port) =>
    _ ← Graph.inc_metric idx (fun m => NM.inc_input m in_port);
    Graph.push idx in_port e) g
  = (enqueued g ((fun t : nat * Port => (t.1, t.2, e)) <$> dsts), Ok tt).
Proof.
  revert g. induction dsts as [|[i p] dsts IH]; intros g Hd; [by rewrite enqueued_nil|].
  apply Forall_cons in Hd as [Hi Hd]. cbn [m_for].
  unfold mbind at 1, M_bind at 1. unfold mbind at 1, M_bind at 1.
  rewrite inc_metric_spec by done. unfold Graph.push, m_modify at 1.
  rewrite IH by (simpl; by rewrite length_alter).
  f_equal. exact (enqueued_app g [(i, p, e)] ((fun t : nat * Port => (t.1, t.2, e)) <$> dsts)).
Qed.

Lemma enqueue_events_spec idx events (g : G) :
  wf_graph g -> Graph.enqueue_events idx events g = (enqueued g (targets g idx events), Ok tt).
Proof.
  intros Hwf. unfold Graph.enqueue_events.
  assert (Hr : forall p dsts, g_port_indexes g !! (idx, p) = Some dsts ->
    Forall (fun t => (t.1 < length (g_metrics g))%nat) dsts).
  { intros p dsts Hp. rewrite (wf_metrics _ Hwf). by eapply (wf_targets _ Hwf). }
  clear Hwf. revert g Hr. induction events as [|[p e] events IH]; intros g Hr; [by rewrite enqueued_nil|].
  cbn [m_for targets flat_map]. unfold mbind at 1, M_bind at 1. unfold mbind at 1, M_bind at 1, m_get.
  destruct (g_port_indexes g !! (idx, p)) as [dsts|] eqn:Hp; [|by apply IH].
  rewrite push_all_spec by eauto. rewrite <- enqueued_app. apply IH.
  simpl. intros. rewrite length_bumps. eauto.
Qed.

Lemma enqueued_wf g xs :
  wf_graph g -> Forall (fun x : item => in_range g x.1.1 /\ plain x.2) xs -> wf_graph (enqueued g xs).
Proof.
  intros Hwf Hxs. apply (wf_frame g); simpl; [done|by unfold frame|done|apply length_bumps|].
  apply Forall_app. split; [|apply Hwf]. by apply Forall_rev.
Qed.

Lemma targets_ok g idx events :
  wf_graph g -> Forall (fun p => plain p.2) events ->
  Forall (fun x : item => in_range g x.1.1 /\ plain x.2) (targets g idx events).
Proof.
  intros Hwf. induction 1 as [|[p e] events Hp _ IH]; simpl; [done|]. apply Forall_app. split; [|done].
  destruct (g_port_indexes g !! (idx, p)) as [dsts|] eqn:Hpi; [|done].
  apply Forall_fmap. eapply Forall_impl; [by eapply (wf_targets _ Hwf)|]. done.
Qed.

(** *** One operator, updated in place *)
Definition set_node (g : G) (i : nat) (n : OperatorNode O) (st : Value) : G :=
  Graph.set_nodes g (<[i := n]> (g_graph g)) (<[i := st]> (g_states g)).

Lemma set_node_frame g i n n' st :
  g_graph g !! i = Some n -> n_kind n' = n_kind n -> frame g (set_node g i n' st).
Proof.
  intros Hn Hk. unfold frame; simpl. rewrite length_insert. split_and!; try done.
  rewrite list_fmap_insert, Hk. apply list_insert_id. by rewrite list_lookup_fmap, Hn.
Qed.

Lemma set_node_wf g i n n' st :
  wf_graph g -> g_graph g !! i = Some n -> n_kind n' = n_kind n -> wf_graph (set_node g i n' st).
Proof.
  intros Hwf Hn Hk. apply (wf_frame g); [done|by eapply set_node_frame|simpl; apply length_insert|done|apply Hwf].
Qed.

Lemma node_lookup g i : wf_graph g -> in_range g i ->
  exists n st, g_graph g !! i = Some n /\ g_states g !! i = Some st.
Proof.
  intros Hwf Hi. destruct (lookup_lt_is_Some_2 (g_graph g) i Hi) as [n Hn].
  destruct (lookup_lt_is_Some_2 (g_states g) i) as [st Hst]; [by rewrite (wf_states _ Hwf)|]. eauto.
Qed.

Lemma on_event_kind (n : OperatorNode O) uid p st e : n_kind (on_event n uid p st e).1.1 = n_kind n.
Proof. cbn. unfold Node.on_event. by destruct (Operator.on_event (n_op n) _ _ _ _) as [[] ?]. Qed.

Lemma on_signal_kind (n : OperatorNode O) uid st e : n_kind (on_signal n uid st e).1.1.1 = n_kind n.
Proof. cbn. unfold Node.on_signal. by destruct (Operator.on_signal (n_op n) _ _ _) as [[[] ?] ?]. Qed.

(** The counters and insights of a node's output. *)
Definition noted (g : G) (idx : nat) (out : EventAndInsights) : G :=
  Graph.set_insights
    (Graph.set_metrics g
       (fold_left (fun ms p => alter (fun m => NM.inc_output m p.1) idx ms) (eai_events out) (g_metrics g)))
    (g_insights g ++ (pair idx <$> eai_insights out)).

Lemma length_inc_outputs (idx : nat) (events : list (Port * Event)) ms :
  length (fold_left (fun ms p => alter (fun m => NM.inc_output m p.1) idx ms) events ms) = length ms.
Proof. revert ms. induction events as [|x xs IH]; intros ms; [done|]. simpl. rewrite IH. apply length_alter. Qed.

Lemma noted_wf g idx out : wf_graph g -> wf_graph (noted g idx out).
Proof.
  intros Hwf. apply (wf_frame g); simpl; [done|by unfold frame|done|apply length_inc_outputs|apply Hwf].
Qed.

Lemma inc_outputs_spec idx (events : list (Port * Event)) (g : G) :
  (idx < length (g_metrics g))%nat ->
  m_for events (fun '(out_port, _) => Graph.inc_metric idx (fun m => NM.inc_output m out_port)) g =
  (Graph.set_metrics g
     (fold_left (fun ms p => alter (fun m => NM.inc_output m p.1) idx ms) events (g_metrics g)), Ok tt).
Proof.
  revert g. induction events as [|[p e] events IH]; intros g Hi; [by destruct g|].
  cbn [m_for]. unfold mbind at 1, M_bind at 1. rewrite inc_metric_spec by done.
  by rewrite IH by (simpl; by rewrite length_alter).
Qed.

(** The graph after node [idx] processed an event with output [out]. *)
Definition emitted (g : G) (idx : nat) (n : OperatorNode O) (st : Value) (out : EventAndInsights) : G :=
  enqueued (noted (set_node g idx n st) idx out) (targets g idx (eai_events out)).

Lemma run_node_spec g (rets : list (Port * Event)) idx port e n st :
  wf_graph g -> g_graph g !! idx = Some n -> g_states g !! idx = Some st ->
  Graph.run_node idx port e (g, rets) =
  match n_kind n with
  | KOutput p => ((g, rets ++ [(p, e)]), Ok tt)
  | _ =>
      let '((n', st'), r) := on_event n (n_uid n) port st e in
      match r with
      | Ok out => ((emitted g idx n' st' out, rets), Ok tt)
      | Err x => ((set_node g idx n' st', rets), Err x)
      | Panic => ((set_node g idx n' st', rets), Panic)
      end
  end.
Proof.
  intros Hwf Hn Hst. unfold Graph.run_node. unfold mbind at 1, M_bind at 1, m_get.
  unfold mbind at 1, M_bind at 1, m_lift at 1. rewrite Hn. cbn [unchecked].
  assert (Hrest : forall k,
    (state ← m_lift (unchecked (g_states g !! idx));
      let '((node, state), r) := on_event n (n_uid n) port state e in
      _ ← m_put (Graph.set_nodes g (<[idx := node]> (g_graph g)) (<[idx := state]> (g_states g)), rets);
      out ← m_lift r;
      _ ← Graph.on_graph (m_for (eai_events out) (fun '(out_port, _) =>
            Graph.inc_metric idx (fun m => NM.inc_output m out_port)));
      _ ← Graph.on_graph (m_modify (fun g => Graph.set_insights g (g_insights g ++ (pair idx <$> eai_insights out))));
      Graph.on_graph (Graph.enqueue_events idx (eai_events out))) k =
    let '((n', st'), r) := on_event n (n_uid n) port st e in
    match r with
    | Ok out => ((emitted g idx n' st' out, rets), Ok tt)
    | Err x => ((set_node g idx n' st', rets), Err x)
    | Panic => ((set_node g idx n' st', rets), Panic)
    end).
  { intros k. unfold mbind at 1, M_bind at 1, m_lift at 1. rewrite Hst. cbn [unchecked].
    pose proof (on_event_kind n (n_uid n) port st e) as Hk.
    destruct (on_event n (n_uid n) port st e) as [[n' st'] r]; simpl in Hk.
    pose proof (set_node_wf g idx n n' st' Hwf Hn Hk) as Hwf'.
    unfold mbind at 1, M_bind at 1, m_put. fold (set_node g idx n' st').
    unfold mbind at 1, M_bind at 1, m_lift. destruct r as [out|x|]; [|done|done].
    unfold mbind at 1, M_bind at 1, Graph.on_graph at 1.
    rewrite inc_outputs_spec
      by (rewrite (wf_metrics _ Hwf'); simpl; rewrite length_insert; by eapply lookup_lt_Some).
    unfold mbind at 1, M_bind at 1, Graph.on_graph at 1, m_modify.
    unfold Graph.on_graph. match goal with |- context [Graph.enqueue_events idx _ ?x] =>
      change x with (noted (set_node g idx n' st') idx out) end.
    assert (Hnw : wf_graph (noted (set_node g idx n' st') idx out)) by by apply noted_wf.
    pose proof (enqueue_events_spec idx (eai_events out) _ Hnw) as Hs. by rewrite Hs. }
  destruct (n_kind n); [by apply Hrest|done|by apply Hrest..].
Qed.

(** *** Running the stack *)
Notation GR := (G * list (Port * Event))%type.

Lemma next_plain g rets i p e stack :
  g_stack g = (i, p, e) :: stack -> plain e ->
  Graph.next (g, rets) =
  match Graph.run_node i p e (Graph.set_stack g stack, rets) with
  | ((g, rets), Ok _) => ((g, rets), Ok (negb (bool_decide (g_stack g = []))))
  | (s, Err x) => (s, Err x)
  | (s, Panic) => (s, Panic)
  end.
Proof.
  intros Hs He. unfold Graph.next. unfold mbind at 1, M_bind at 1, m_get. rewrite Hs.
  unfold mbind at 1, M_bind at 1, m_put. rewrite He. unfold mbind at 1, M_bind at 1.
  destruct (Graph.run_node i p e _) as [[g' rets'] []]; done.
Qed.

(** What is left to do after a step: nothing once the stack is empty. *)
Definition finish (fuel : nat) (s : GR) : option (GR * res pipe_error unit) :=
  match g_stack s.1 with
  | [] => Some ((s.1, rev s.2), Ok tt)
  | _ => Graph.run fuel s
  end.

Lemma finish_step g rets i p e stack fuel :
  g_stack g = (i, p, e) :: stack -> plain e ->
  finish (S fuel) (g, rets) =
  match Graph.run_node i p e (Graph.set_stack g stack, rets) with
  | (s, Ok _) => finish fuel s
  | ((g, rets), Err x) => Some ((Graph.set_stack g [], rets), Err x)
  | (s, Panic) => Some (s, Panic)
  end.
Proof.
  intros Hs He. unfold finish at 1. simpl g_stack. rewrite Hs. cbn [Graph.run].
  rewrite (next_plain _ _ _ _ _ _ Hs He). destruct (Graph.run_node i p e _) as [[g' rets'] []]; [|done|done].
  unfold finish; simpl. by destruct (g_stack g').
Qed.

(** Edges lead to nodes of smaller rank. *)
Definition acyclic (g : G) (rank : nat -> nat) : Prop :=
  forall i p dsts t, g_port_indexes g !! (i, p) = Some dsts -> t ∈ dsts -> (rank t.1 < rank i)%nat.

(** An operator without state that never fails. *)
Definition stateless (g : G) : Prop :=
  Forall (fun n => forall uid port st e, exists out,
            Operator.on_event (n_op n) uid port st e = ((n_op n, st), Ok out)) (g_graph g).

(** The reference semantics of a graph of stateless operators: where an event that arrives at
    a node ends up, following the edges depth first, in the order of emission. *)
Fixpoint flow (depth : nat) (g : G) (x : item) : list (Port * Event) :=
  match depth with
  | 0%nat => []
  | S depth =>
      match g_graph g !! x.1.1, g_states g !! x.1.1 with
      | Some n, Some st =>
          match n_kind n with
          | KOutput p => [(p, x.2)]
          | _ =>
              match (on_event n (n_uid n) x.1.2 st x.2).2 with
              | Ok out => flat_map (flow depth g) (targets g x.1.1 (eai_events out))
              | _ => []
              end
          end
      | _, _ => []
      end
  end.

Lemma flow_ext depth g g' x :
  g_graph g' = g_graph g -> g_states g' = g_states g -> g_port_indexes g' = g_port_indexes g ->
  flow depth g' x = flow depth g x.
Proof.
  intros Hg Hs Hp. revert x. induction depth as [|d IH]; intros x; [done|]. simpl.
  rewrite Hg, Hs. repeat (case_match; try done).
  all: unfold targets; rewrite Hp; by apply flat_map_ext.
Qed.

Lemma targets_rank g rank i events :
  acyclic g rank -> Forall (fun x : item => (rank x.1.1 < rank i)%nat) (targets g i events).
Proof.
  intros Hac. induction events as [|[p e] events IH]; simpl; [done|]. apply Forall_app. split; [|done].
  destruct (g_port_indexes g !! (i, p)) as [dsts|] eqn:Hp; [|done].
  apply Forall_fmap, Forall_forall. intros t Ht. exact (Hac _ _ _ _ Hp Ht).
Qed.

(** How processing a piece of the stack ends: back at the rest of the stack, or with an
    error and an empty stack. *)
Definition settles (g : G) (rets : list (Port * Event)) (stack : list item)
    (stateless_rets : list (Port * Event)) : Prop :=
  exists n g' rets', wf_graph g' /\ frame g g'
    /\ ((g_stack g' = stack /\ forall f, finish (n + f) (g, rets) = finish f (g', rets'))
        \/ (~ stateless g /\ g_stack g' = []
            /\ exists x, forall f, finish (n + f) (g, rets) = Some ((g', rets'), Err x)))
    /\ (stateless g -> g_graph g' = g_graph g /\ g_states g' = g_states g
          /\ rets' = rets ++ stateless_rets).

Lemma settles_list g rank k rets stack xs :
  (forall x st g rets, (rank x.1.1 < k)%nat -> wf_graph g -> acyclic g rank -> g_stack g = x :: st ->
     settles g rets st (rev (flow k g x))) ->
  Forall (fun x : item => (rank x.1.1 < k)%nat) xs ->
  wf_graph g -> acyclic g rank -> g_stack g = xs ++ stack ->
  settles g rets stack (flat_map (fun x => rev (flow k g x)) xs).
Proof.
  intros Hone Hxs. revert g rets. induction Hxs as [|x xs Hx _ IH]; intros g rets Hwf Hac Hs.
  { exists 0%nat, g, rets. split_and!; [done|done|by left|]. intros _. by rewrite app_nil_r. }
  destruct (Hone x (xs ++ stack) g rets) as (n&g1&rets1&Hwf1&Hfr&Hend&Hst); [done..|].
  destruct Hend as [[Hs1 Hfin]|(Hns&Hs1&x'&Hfin)].
  2:{ exists n, g1, rets1. split_and!; [done|done|right; eauto|done]. }
  assert (Hac1 : acyclic g1 rank).
  { unfold acyclic. destruct Hfr as (_&_&_&_&->&_). done. }
  destruct (IH g1 rets1 Hwf1 Hac1 Hs1) as (m&g2&rets2&Hwf2&Hfr2&Hend2&Hst2).
  exists (n + m)%nat, g2, rets2. split_and!; [done|by etrans| |].
  - destruct Hend2 as [[Hs2 Hfin2]|(Hns2&Hs2&y&Hfin2)].
    + left. split; [done|]. intros f. by rewrite <- Nat.add_assoc, Hfin.
    + right. split_and!; [|done|].
      * intros Hsl. destruct (Hst Hsl) as (Hg&_). apply Hns2. unfold stateless. by rewrite Hg.
      * exists y. intros f. by rewrite <- Nat.add_assoc, Hfin.
  - intros Hsl. destruct (Hst Hsl) as (Hg&Hss&->).
    destruct Hst2 as (Hg2&Hss2&->); [unfold stateless; by rewrite Hg|].
    split_and!; [congruence..|]. rewrite <- app_assoc. do 2 f_equal. simpl. f_equal.
    apply flat_map_ext. intros y. f_equal. apply flow_ext; [done..|]. by destruct Hfr as (_&_&_&_&->&_).
Qed.

Lemma stateless_node g i n st p e :
  stateless g -> g_graph g !! i = Some n ->
  exists out, on_event n (n_uid n) p st e = ((n, st), Ok out).
Proof.
  unfold stateless. intros Hsl Hn. rewrite Forall_lookup in Hsl. destruct (Hsl i n Hn (n_uid n) p st e) as [out Hout].
  exists out. cbn. unfold Node.on_event. rewrite Hout. by destruct n.
Qed.

Lemma flat_map_rev {A B} (f : A -> list B) l : flat_map (fun x => rev (f x)) (rev l) = rev (flat_map f l).
Proof.
  induction l as [|x l IH]; [done|]. simpl. rewrite flat_map_app, rev_app_distr, IH. simpl.
  by rewrite app_nil_r.
Qed.

Lemma emitted_frame g i n n' st st' out :
  wf_graph g -> g_graph g !! i = Some n -> g_states g !! i = Some st ->
  n_kind n' = n_kind n -> Forall (fun p => plain p.2) (eai_events out) ->
  frame g (emitted g i n' st' out) /\ wf_graph (emitted g i n' st' out)
  /\ g_stack (emitted g i n' st' out) = rev (targets g i (eai_events out)) ++ g_stack g.
Proof.
  intros Hwf Hn Hst Hk Hp. split_and!; [by apply (set_node_frame g i n n' st')| |done].
  apply enqueued_wf; [apply noted_wf; by eapply set_node_wf|].
  pose proof (targets_ok g i _ Hwf Hp) as Ht. eapply Forall_impl; [exact Ht|].
  unfold in_range; simpl. intros y. by rewrite length_insert.
Qed.

(** The three ways one stack entry is processed. *)
Lemma pop_wf g st : wf_graph g -> Forall (fun x : item => in_range g x.1.1 /\ plain x.2) st ->
  wf_graph (Graph.set_stack g st).
Proof. intros Hwf Hst. by apply (wf_frame g); [|unfold frame| | |]. Qed.

Lemma finish_event g rets i p e st n s f :
  wf_graph g -> g_stack g = (i, p, e) :: st -> plain e ->
  Forall (fun x : item => in_range g x.1.1 /\ plain x.2) st ->
  g_graph g !! i = Some n -> g_states g !! i = Some s ->
  finish (S f) (g, rets) =
  match n_kind n with
  | KOutput q => finish f (Graph.set_stack g st, rets ++ [(q, e)])
  | _ =>
      let '((n', s'), r) := on_event n (n_uid n) p s e in
      match r with
      | Ok out => finish f (emitted (Graph.set_stack g st) i n' s' out, rets)
      | Err x => Some ((Graph.set_stack (set_node (Graph.set_stack g st) i n' s') [], rets), Err x)
      | Panic => Some ((set_node (Graph.set_stack g st) i n' s', rets), Panic)
      end
  end.
Proof.
  intros Hwf Hs He Hst Hn Hss. rewrite (finish_step _ _ _ _ _ _ _ Hs He).
  rewrite (run_node_spec _ rets i p e n s (pop_wf g st Hwf Hst) Hn Hss).
  destruct (on_event n (n_uid n) p s e) as [[n' s'] [|x|]]; by destruct (n_kind n).
Qed.

Lemma settles_error g rets i st n n' s' x stateless_rets :
  wf_graph (Graph.set_stack g st) -> g_graph g !! i = Some n -> n_kind n' = n_kind n -> ~ stateless g ->
  (forall f, finish (S f) (g, rets) =
     Some ((Graph.set_stack (set_node (Graph.set_stack g st) i n' s') [], rets), Err x)) ->
  settles g rets st stateless_rets.
Proof.
  intros Hwf Hn Hk Hns Hfin. exists 1%nat, (Graph.set_stack (set_node (Graph.set_stack g st) i n' s') []), rets.
  split_and!; [|by apply (set_node_frame (Graph.set_stack g st) i n n' s')| |done].
  - apply pop_wf; [by eapply set_node_wf|done].
  - right. split_and!; [done..|]. exists x. intros f. apply Hfin.
Qed.

Lemma settles_emit g rets rank k i st n n' s s' out :
  (forall x st g rets, (rank x.1.1 < k)%nat -> wf_graph g -> acyclic g rank -> g_stack g = x :: st ->
     settles g rets st (rev (flow k g x))) ->
  (rank i < S k)%nat -> acyclic g rank ->
  wf_graph (Graph.set_stack g st) -> g_graph g !! i = Some n -> g_states g !! i = Some s ->
  n_kind n' = n_kind n -> Forall (fun p => plain p.2) (eai_events out) ->
  (stateless g -> n' = n /\ s' = s) ->
  (forall f, finish (S f) (g, rets) = finish f (emitted (Graph.set_stack g st) i n' s' out, rets)) ->
  settles g rets st (rev (flat_map (flow k g) (targets g i (eai_events out)))).
Proof.
  intros Hone Hr Hac Hwf Hn Hs Hk Hpl Hsl Hfs. set (g1 := emitted _ _ _ _ _) in *.
  destruct (emitted_frame (Graph.set_stack g st) i n n' s s' out) as (Hfr1&Hwf1&Hs1); [done..|].
  destruct (settles_list g1 rank k rets st (rev (targets g i (eai_events out))))
    as (m&g2&rets2&Hwf2&Hfr2&Hend&Hst2); [done| |done|done|done|].
  { apply Forall_rev. eapply Forall_impl; [by apply targets_rank|]. simpl. intros. lia. }
  assert (Hsame : stateless g -> g_graph g1 = g_graph g /\ g_states g1 = g_states g).
  { intros [-> ->]%Hsl. simpl. split; by apply list_insert_id. }
  exists (S m), g2, rets2. split_and!; [done|by etrans| |].
  - destruct Hend as [[Hs2 Hfin]|(Hns&Hs2&y&Hfin)]; [left|right].
    + split; [done|]. intros f. cbn [Nat.add]. by rewrite Hfs.
    + split_and!; [|done|].
      * intros Hg. apply Hns. unfold stateless. by rewrite (proj1 (Hsame Hg)).
      * exists y. intros f. cbn [Nat.add]. by rewrite Hfs.
  - intros Hg. destruct (Hsame Hg) as [Hgg Hgs].
    destruct Hst2 as (?&?&->); [unfold stateless; by rewrite Hgg|]. split_and!; [congruence..|]. f_equal.
    rewrite <- flat_map_rev. apply flat_map_ext. intros. f_equal. by apply flow_ext.
Qed.

Lemma settles_item rank k x st g rets :
  (rank x.1.1 < k)%nat -> wf_graph g -> acyclic g rank -> g_stack g = x :: st ->
  settles g rets st (rev (flow k g x)).
Proof.
  revert x st g rets. induction k as [|k IH]; intros [[i p] e] st g rets Hr Hwf Hac Hs; [simpl in Hr; lia|].
  pose proof (wf_stack _ Hwf) as Hstk. rewrite Hs in Hstk. apply Forall_cons in Hstk as [[Hi He] Hstk].
  simpl in Hr, Hi, He. destruct (node_lookup g i Hwf Hi) as (n&s&Hn&Hss).
  pose proof (fun f => finish_event g rets i p e st n s f Hwf Hs He Hstk Hn Hss) as Hfs.
  pose proof (pop_wf g st Hwf Hstk) as Hwf0.
  pose proof (on_event_kind n (n_uid n) p s e) as Hk. pose proof (wb_event n (n_uid n) p s e He) as Hwb.
  pose proof (stateless_node g i n s p e) as Hsl. cbn [flow fst snd]. rewrite Hn, Hss.
  assert (Hop : (exists q, n_kind n = KOutput q) \/ (forall q, n_kind n <> KOutput q)).
  { destruct (n_kind n); eauto; right; done. }
  destruct Hop as [[q Hq]|Hq].
  { rewrite Hq in *. exists 1%nat, (Graph.set_stack g st), (rets ++ [(q, e)]).
    split_and!; [done|by unfold frame|by left|done]. }
  destruct (on_event n (n_uid n) p s e) as [[n' s'] r] eqn:Hev. cbn [fst snd] in Hk, Hwb |- *.
  assert (Hr' : settles g rets st (rev match r with
    | Ok out => flat_map (flow k g) (targets g i (eai_events out)) | _ => [] end)).
  2:{ destruct (n_kind n) as [| q | | |]; try done. by destruct (Hq q). }
  destruct r as [out|x|]; [| |done].
  - eapply settles_emit; try done.
    + intros Hg. destruct (Hsl Hg Hn) as [out' ?]. by simplify_eq.
    + intros f. rewrite Hfs. destruct (n_kind n); try done. by destruct (Hq port).
  - eapply settles_error; try done.
    + intros Hg. destruct (Hsl Hg Hn) as [out ?]. congruence.
    + intros f. rewrite Hfs. destruct (n_kind n); try done. by destruct (Hq port).
Qed.

(** *** Metrics *)
Lemma send_metrics_spec name tags ns (g : G) :
  wf_graph g -> exists sent,
  Graph.send_metrics name tags ns g = (Graph.set_sent g (g_last_metrics g) (g_metrics_channel g ++ sent), Ok tt).
Proof.
  intros Hwf. unfold Graph.send_metrics, mbind, M_bind, m_get, m_lift, m_put.
  match goal with |- context [fold_left ?f _ _] =>
    assert (Hok : forall l a, Forall (fun x : nat * NodeMetrics => in_range g x.1) l ->
      exists b, fold_left f l (Ok a) = Ok b) end.
  { clear. induction l as [|[i m] l IH]; intros [tags sent] Hl; [by eexists|].
    apply Forall_cons in Hl as [Hi Hl]. cbn [fold_left res_bind].
    destruct (lookup_lt_is_Some_2 (g_graph g) i Hi) as [n Hn]. rewrite Hn. cbn [unchecked res_bind].
    destruct (NM.to_value _ _ _ _) as [tags' values]. by apply IH. }
  destruct (Hok (imap pair (g_metrics g)) (tags, [])) as [[t sent] Hf].
  { apply Forall_lookup. intros i [j m]. rewrite list_lookup_imap. intros (m'&Hm&?)%fmap_Some. simplify_eq/=.
    unfold in_range. rewrite <- (wf_metrics _ Hwf). by eapply lookup_lt_Some. }
  exists sent. by rewrite Hf.
Qed.

Lemma enqueue_spec port e (g : G) rets :
  wf_graph g ->
  exists last sent, forall fuel, Graph.enqueue fuel port e (g, rets) =
    match g_inputs g !! port with
    | Some i =>
        Graph.run fuel (Graph.set_stack (Graph.set_sent g last sent) ((i, port, e) :: g_stack g), rets)
    | None =>
        Some ((Graph.set_sent g last sent, rets), Err (InvalidInputStreamName (Ports.borrow port) (g_id g)))
    end.
Proof.
  intros Hwf. set (send := (g ← m_get;
    if match g_metric_interval g with
       | Some ival => ival <? wrapping_sub (ev_ingest_ns e) (g_last_metrics g)
       | None => false
       end
    then
      _ ← Graph.send_metrics "events" [("pipeline", VString (g_id g))] (ev_ingest_ns e);
      m_modify (fun g => Graph.set_sent g (ev_ingest_ns e) (g_metrics_channel g))
    else mret tt) : GM O unit).
  assert (Hsend : exists last sent, send g = (Graph.set_sent g last sent, Ok tt)).
  { subst send. unfold mbind, M_bind, m_get.
    destruct (match g_metric_interval g with Some _ => _ | None => _ end).
    - destruct (send_metrics_spec "events" [("pipeline", VString (g_id g))] (ev_ingest_ns e) g Hwf) as [sent ->].
      by eexists _, _.
    - exists (g_last_metrics g), (g_metrics_channel g). by destruct g. }
  destruct Hsend as (last&sent&Hsend). exists last, sent. intros fuel.
  unfold Graph.enqueue. unfold mbind at 1, M_bind at 1, Graph.on_graph at 1. fold send. rewrite Hsend.
  unfold mbind, M_bind, m_get, m_lift. simpl. by destruct (g_inputs g !! port).
Qed.

Lemma set_sent_wf g last sent : wf_graph g -> wf_graph (Graph.set_sent g last sent).
Proof. intros Hwf. apply (wf_frame g); [done|by unfold frame|done|done|apply Hwf]. Qed.

(** The stack between two calls is empty; [run] from one entry on it. *)
Lemma run_item g rank i p e rets :
  wf_graph g -> g_stack g = [] -> acyclic g rank -> in_range g i -> plain e ->
  exists n g' rets' r, (forall f, Graph.run (S n + f) (Graph.set_stack g [(i, p, e)], rets) = Some ((g', rets'), r))
    /\ r <> Panic /\ wf_graph g' /\ g_stack g' = [] /\ frame g g'
    /\ (stateless g -> g_graph g' = g_graph g /\ g_states g' = g_states g
          /\ rets' = flow (S (rank i)) g (i, p, e) ++ rev rets /\ r = Ok tt).
Proof.
  intros Hwf Hs Hac Hi He. set (g1 := Graph.set_stack g [(i, p, e)]).
  assert (Hwf1 : wf_graph g1) by (apply pop_wf; [done|by repeat constructor]).
  destruct (settles_item rank (S (rank i)) (i, p, e) [] g1 rets) as (n&g2&rets2&Hwf2&Hfr&Hend&Hst);
    [simpl; lia|done|done|done|].
  assert (Hrun : forall f, Graph.run (S n + f) (g1, rets) = finish (n + S f) (g1, rets)).
  { intros f. unfold finish; cbn [g1 Graph.set_stack g_stack fst]. f_equal. lia. }
  destruct Hend as [[Hs2 Hfin]|(Hns&Hs2&x&Hfin)].
  - exists n, g2, (rev rets2), (Ok tt). split_and!; try done.
    + intros f. rewrite Hrun, Hfin. unfold finish; simpl. by rewrite Hs2.
    + intros Hsl. destruct Hst as (?&?&->); [done|].
      rewrite rev_app_distr, rev_involutive. split_and!; try done. by rewrite (flow_ext _ g).
  - exists n, g2, rets2, (Err x). split_and!; try done. intros f. by rewrite Hrun, Hfin.
Qed.

(** C2: processing an event on an acyclic graph always ends, without panic: for every event,
    state of the operators and input port there is a number of steps after which [enqueue]
    has returned, with the result unaffected by more steps.  It returns Ok or an operator's
    error (or that the port is unknown); in each case the graph's invariant (every unchecked
    access in range) holds again, the wiring is unchanged and the stack is empty. *)
Theorem enqueue_terminates g rank port e rets :
  wf_graph g -> g_stack g = [] -> acyclic g rank -> plain e ->
  exists n g' rets' r, (forall f, Graph.enqueue (n + f) port e (g, rets) = Some ((g', rets'), r))
    /\ r <> Panic /\ wf_graph g' /\ g_stack g' = [] /\ frame g g'.
Proof.
  intros Hwf Hs Hac He. destruct (enqueue_spec port e g rets Hwf) as (last&sent&Henq).
  destruct (g_inputs g !! port) as [i|] eqn:Hi.
  - destruct (run_item (Graph.set_sent g last sent) rank i port e rets) as (n&g'&rets'&r&Hrun&?&?&?&?&_);
      [by apply set_sent_wf|done|done|by eapply (wf_inputs _ Hwf)|done|].
    exists (S n), g', rets', r. split_and!; try done. intros f. by rewrite Henq, Hs, Hrun.
  - exists 0%nat, (Graph.set_sent g last sent), rets, (Err (InvalidInputStreamName (Ports.borrow port) (g_id g))).
    split_and!; try done. by apply set_sent_wf.
Qed.

(** The whole call on a graph of stateless operators. *)
Lemma enqueue_flow g rank port e i :
  wf_graph g -> g_stack g = [] -> acyclic g rank -> plain e -> stateless g ->
  g_inputs g !! port = Some i ->
  exists n g', (forall f, Graph.enqueue (n + f) port e (g, []) =
      Some ((g', flow (S (rank i)) g (i, port, e)), Ok tt))
    /\ g_graph g' = g_graph g /\ g_states g' = g_states g /\ g_stack g' = [].
Proof.
  intros Hwf Hs Hac He Hsl Hi. destruct (enqueue_spec port e g [] Hwf) as (last&sent&Henq). rewrite Hi in Henq.
  destruct (run_item (Graph.set_sent g last sent) rank i port e []) as (n&g'&rets'&r&Hrun&_&_&Hs'&_&Hst);
    [by apply set_sent_wf|done|done|by eapply (wf_inputs _ Hwf)|done|].
  destruct (Hst Hsl) as (Hg&Hst'&->&->).
  exists (S n), g'. split_and!; try done. intros f. rewrite Henq, Hs, Hrun. simpl rev.
  by rewrite app_nil_r, (flow_ext _ g).
Qed.

(** C1: on a graph of stateless operators the run returns exactly the events the reference
    semantics [flow] predicts, in the order of emission: processing from the end of the stack
    and reversing the returns restores the order in which operators emitted the events and
    the edges were declared.  Operators and node states are unchanged. *)
Theorem enqueue_in_order g rank port e i :
  wf_graph g -> g_stack g = [] -> acyclic g rank -> plain e -> stateless g ->
  g_inputs g !! port = Some i ->
  exists n g', (forall f, Graph.enqueue (n + f) port e (g, []) =
      Some ((g', flow (S (rank i)) g (i, port, e)), Ok tt))
    /\ g_graph g' = g_graph g /\ g_states g' = g_states g /\ g_stack g' = [].
Proof. apply enqueue_flow. Qed.

(** *** Signals *)
Lemma set_insights_wf g l : wf_graph g -> wf_graph (Graph.set_insights g l).
Proof. intros Hwf. apply (wf_frame g); [done|by unfold frame|done|done|apply Hwf]. Qed.

Lemma signalflow_step i ids signal b (g : G) n st :
  wf_graph g -> g_graph g !! i = Some n -> g_states g !! i = Some st ->
  Graph.signalflow_loop (i :: ids) signal b g =
  let '((n', st', signal'), r) := on_signal n (n_uid n) st signal in
  match r with
  | Ok out =>
      Graph.signalflow_loop ids signal' (b || negb (bool_decide (eai_events out = [])))
        (enqueued (Graph.set_insights (set_node g i n' st') (g_insights g ++ (pair i <$> eai_insights out)))
           (targets g i (eai_events out)))
  | Err x => (set_node g i n' st', Err x)
  | Panic => (set_node g i n' st', Panic)
  end.
Proof.
  intros Hwf Hn Hst. cbn [Graph.signalflow_loop]. unfold mbind at 1, M_bind at 1, m_get.
  unfold mbind at 1, M_bind at 1, m_lift at 1. rewrite Hn. cbn [unchecked].
  unfold mbind at 1, M_bind at 1, m_lift at 1. rewrite Hst. cbn [unchecked].
  pose proof (on_signal_kind n (n_uid n) st signal) as Hk.
  destruct (on_signal n (n_uid n) st signal) as [[[n' st'] signal'] r]; simpl in Hk.
  unfold mbind at 1, M_bind at 1, m_put. fold (set_node g i n' st').
  unfold mbind at 1, M_bind at 1, m_lift at 1. destruct r as [out|x|]; [|done|done].
  unfold mbind at 1, M_bind at 1, m_modify. unfold mbind at 1, M_bind at 1.
  rewrite enqueue_events_spec; [done|]. apply set_insights_wf. by eapply set_node_wf.
Qed.

Lemma signalflow_loop_wp ids signal b (g : G) :
  wf_graph g -> Forall (in_range g) ids ->
  wp (Graph.signalflow_loop ids signal b) (fun b' g' => wf_graph g' /\ frame g g' /\ (b' = false -> b = false /\ g_stack g' = g_stack g))
     (fun _ g' => wf_graph g' /\ frame g g') g.
Proof.
  revert signal b g. induction ids as [|i ids IH]; intros signal b g Hwf Hids; [by unfold wp; simpl|].
  apply Forall_cons in Hids as [Hi Hids]. destruct (node_lookup g i Hwf Hi) as (n&st&Hn&Hst).
  unfold wp. rewrite (signalflow_step i ids signal b g n st Hwf Hn Hst).
  pose proof (on_signal_kind n (n_uid n) st signal) as Hk. pose proof (wb_signal n (n_uid n) st signal) as Hwb.
  destruct (on_signal n (n_uid n) st signal) as [[[n' st'] signal'] r]; simpl in Hk, Hwb.
  pose proof (set_node_wf g i n n' st' Hwf Hn Hk) as Hwf'.
  pose proof (set_node_frame g i n n' st' Hn Hk) as Hfr.
  destruct r as [out|x|]; [|done|done].
  set (g1 := enqueued _ _).
  assert (Hfr1 : frame g g1) by exact Hfr.
  assert (Hwf1 : wf_graph g1).
  { apply enqueued_wf.
    - by apply set_insights_wf.
    - eapply Forall_impl; [by apply targets_ok|]. unfold in_range; simpl. intros. by rewrite length_insert. }
  assert (Hids1 : Forall (in_range g1) ids).
  { eapply Forall_impl; [exact Hids|]. unfold in_range; simpl. intros. by rewrite length_insert. }
  pose proof (IH signal' (b || negb (bool_decide (eai_events out = []))) g1 Hwf1 Hids1) as Hwp.
  eapply wp_mono; [exact Hwp|..]; simpl.
  - intros b' g2 (?&?&Hb). split_and!; [done|by etrans|]. intros Hb'. destruct (Hb Hb') as [Hor ->].
    apply orb_false_iff in Hor as [-> Hno]. split; [done|].
    apply negb_false_iff, bool_decide_eq_true in Hno. subst g1. rewrite Hno. done.
  - intros ? g2 [? ?]. split; [done|by etrans].
Qed.

(** [run] on any well-formed stack. *)
Lemma run_total g rank depth rets :
  wf_graph g -> acyclic g rank -> (forall i, in_range g i -> (rank i < depth)%nat) ->
  exists n g' rets' r, (forall f, Graph.run (S n + f) (g, rets) = Some ((g', rets'), r))
    /\ r <> Panic /\ wf_graph g' /\ g_stack g' = [] /\ frame g g'
    /\ (stateless g -> g_graph g' = g_graph g /\ g_states g' = g_states g
          /\ rets' = flat_map (flow depth g) (rev (g_stack g)) ++ rev rets /\ r = Ok tt).
Proof.
  intros Hwf Hac Hd.
  destruct (settles_list g rank depth rets [] (g_stack g)) as (n&g2&rets2&Hwf2&Hfr&Hend&Hst).
  - intros. by apply (settles_item rank).
  - eapply Forall_impl; [apply (wf_stack _ Hwf)|]. intros x [Hx _]. by apply Hd.
  - done.
  - done.
  - by rewrite app_nil_r.
  - assert (Hrun : forall f, Graph.run (S n + f) (g, rets) = finish (n + S f) (g, rets)).
    { intros f. unfold finish. replace (S n + f)%nat with (n + S f)%nat by lia. simpl g_stack.
      destruct (g_stack g) as [|x xs] eqn:Hs; [|done]. rewrite Nat.add_succ_r. simpl.
      unfold Graph.next, mbind, M_bind, m_get. by rewrite Hs. }
    destruct Hend as [[Hs2 Hfin]|(Hns&Hs2&x&Hfin)].
    + exists n, g2, (rev rets2), (Ok tt). split_and!; try done.
      * intros f. rewrite Hrun, Hfin. unfold finish; simpl. by rewrite Hs2.
      * intros Hsl. destruct (Hst Hsl) as (?&?&->). split_and!; try done. rewrite rev_app_distr.
        f_equal. rewrite <- (rev_involutive (g_stack g)) at 1. by rewrite flat_map_rev, rev_involutive.
    + exists n, g2, rets2, (Err x). split_and!; try done. intros f. by rewrite Hrun, Hfin.
Qed.

(** What the operators at [ids] answer to a signal, each getting the signal as the one before
    it left it: the operators and states after it, the signal, and the released events.
    [None] when an operator fails. *)
Fixpoint signals (ids : list nat) (signal : Event) (nodes : list (OperatorNode O)) (states : list Value)
  : option (list (OperatorNode O) * list Value * Event * list (nat * list (Port * Event))) :=
  match ids with
  | [] => Some (nodes, states, signal, [])
  | i :: ids =>
      match nodes !! i, states !! i with
      | Some n, Some st =>
          match on_signal n (n_uid n) st signal with
          | ((n', st', signal'), Ok out) =>
              match signals ids signal' (<[i := n']> nodes) (<[i := st']> states) with
              | Some (nodes, states, signal, released) =>
                  Some (nodes, states, signal, (i, eai_events out) :: released)
              | None => None
              end
          | _ => None
          end
      | _, _ => None
      end
  end.

(** Where the released events are headed, in the order of their release. *)
Definition headed (g : G) (released : list (nat * list (Port * Event))) : list item :=
  flat_map (fun r => targets g r.1 r.2) released.

Lemma headed_ext g g' released :
  g_port_indexes g' = g_port_indexes g -> headed g' released = headed g released.
Proof. intros Hp. apply flat_map_ext. intros [i evs]. unfold targets. by rewrite Hp. Qed.

(** Whether an operator released an event, which the code accumulates along the way. *)
Definition any_released (released : list (nat * list (Port * Event))) : bool :=
  existsb (fun r => negb (bool_decide (r.2 = []))) released.

Lemma none_headed g released : any_released released = false -> headed g released = [].
Proof.
  induction released as [|[i evs] released IH]; [done|]. cbn. rewrite orb_false_iff, negb_false_iff.
  intros [->%bool_decide_eq_true Hr]. by apply IH.
Qed.

Lemma signalflow_prefix ids ids' signal b (g : G) nodes states signal' released :
  wf_graph g -> signals ids signal (g_graph g) (g_states g) = Some (nodes, states, signal', released) ->
  exists g', Graph.signalflow_loop (ids ++ ids') signal b g
      = Graph.signalflow_loop ids' signal' (b || any_released released) g'
    /\ wf_graph g' /\ frame g g' /\ g_graph g' = nodes /\ g_states g' = states
    /\ g_stack g' = rev (headed g released) ++ g_stack g.
Proof.
  intros Hwf. revert signal b g Hwf released.
  induction ids as [|i ids IH]; intros signal b g Hwf released; cbn [signals app].
  { intros ?; simplify_eq. exists g. by rewrite orb_false_r. }
  destruct (g_graph g !! i) as [n|] eqn:Hn; [|done]. destruct (g_states g !! i) as [st|] eqn:Hst; [|done].
  rewrite (signalflow_step i (ids ++ ids') signal b g n st Hwf Hn Hst).
  pose proof (on_signal_kind n (n_uid n) st signal) as Hk. pose proof (wb_signal n (n_uid n) st signal) as Hwb.
  destruct (on_signal n (n_uid n) st signal) as [[[n' st'] s1] r]; simpl in Hk, Hwb.
  destruct r as [out|x|]; [|done|done]. destruct (signals ids s1 _ _) as [[[[? ?] ?] rel]|] eqn:Hsig; [|done].
  intros ?; simplify_eq. set (g1 := enqueued _ _).
  assert (Hwf1 : wf_graph g1).
  { apply enqueued_wf; [apply set_insights_wf; by eapply set_node_wf|].
    eapply Forall_impl; [by apply targets_ok|]. unfold in_range; simpl. intros. by rewrite length_insert. }
  destruct (IH s1 (b || negb (bool_decide (eai_events out = []))) g1 Hwf1 rel Hsig)
    as (g2&Heq&Hwf2&Hfr2&Hg&Hs&Hstk).
  exists g2. rewrite Heq. cbn [any_released existsb fst snd]. fold (any_released rel). rewrite orb_assoc.
  split_and!; try done.
  - etrans; [by apply (set_node_frame g i n n' st')|done].
  - rewrite Hstk, (headed_ext g g1) by done. cbn [headed flat_map fst snd].
    by rewrite rev_app_distr, <- app_assoc.
Qed.

Lemma signalflow_whole signal (g : G) nodes states signal' released :
  wf_graph g -> signals (g_signalflow g) signal (g_graph g) (g_states g) = Some (nodes, states, signal', released) ->
  exists g', Graph.signalflow signal g = (g', Ok (any_released released))
    /\ wf_graph g' /\ frame g g' /\ g_graph g' = nodes /\ g_states g' = states
    /\ g_stack g' = rev (headed g released) ++ g_stack g.
Proof.
  intros Hwf Hsig. destruct (signalflow_prefix _ [] signal false g _ _ _ _ Hwf Hsig) as (g'&Heq&?).
  rewrite app_nil_r in Heq. exists g'. split; [|done]. unfold Graph.signalflow, mbind, M_bind, m_get. by rewrite Heq.
Qed.

(** The released events are run in the order of their release. *)
Lemma enqueue_signal_flow g rank depth signal nodes states signal' released :
  wf_graph g -> g_stack g = [] -> acyclic g rank -> (forall i, in_range g i -> (rank i < depth)%nat) ->
  signals (g_signalflow g) signal (g_graph g) (g_states g) = Some (nodes, states, signal', released) ->
  stateless (Graph.set_nodes g nodes states) ->
  exists n g', (forall f, Graph.enqueue_signal (n + f) signal (g, []) =
      Some ((g', flat_map (flow depth (Graph.set_nodes g nodes states)) (headed g released)), Ok tt))
    /\ g_graph g' = nodes /\ g_states g' = states /\ g_stack g' = [].
Proof.
  intros Hwf Hs Hac Hd Hsig Hsl.
  destruct (signalflow_whole signal g _ _ _ _ Hwf Hsig) as (g1&Heq&Hwf1&Hfr1&Hg&Hst&Hstk).
  rewrite Hs, app_nil_r in Hstk. pose proof Hfr1 as (Hl&_&_&_&Hpi&_).
  unfold Graph.enqueue_signal, Graph.on_graph. rewrite Heq. destruct (any_released released) eqn:Hr.
  - destruct (run_total g1 rank depth []) as (n&g2&rets2&r&Hrun&_&_&Hs2&_&Hst2);
      [done|unfold acyclic; by rewrite Hpi|unfold in_range; by rewrite Hl|].
    destruct Hst2 as (?&?&->&->); [unfold stateless; by rewrite Hg|].
    exists (S n), g2. split_and!; [|congruence..|done]. intros f. rewrite Hrun. do 3 f_equal.
    rewrite Hstk, rev_involutive, app_nil_r. apply flat_map_ext. intros y. by apply flow_ext.
  - exists 0%nat, g1. rewrite (none_headed g _ Hr) in *. split_and!; done.
Qed.

(** C16: handling a signal on an acyclic graph ends without panic, keeps the invariant and the
    wiring, and leaves the stack empty when it succeeds.  When the operators succeed on the
    signal and are stateless from then on, every event they released has been processed by
    the operators it was headed to: what is returned is what the reference semantics [flow]
    gives for the released events, in the order of their release. *)
Theorem enqueue_signal_terminates g rank depth signal rets :
  wf_graph g -> g_stack g = [] -> acyclic g rank -> (forall i, in_range g i -> (rank i < depth)%nat) ->
  (exists n g' rets' r, (forall f, Graph.enqueue_signal (n + f) signal (g, rets) = Some ((g', rets'), r))
    /\ r <> Panic /\ wf_graph g' /\ frame g g' /\ (r = Ok tt -> g_stack g' = []))
  /\ (forall nodes states signal' released,
        signals (g_signalflow g) signal (g_graph g) (g_states g) = Some (nodes, states, signal', released) ->
        stateless (Graph.set_nodes g nodes states) ->
        exists n g', (forall f, Graph.enqueue_signal (n + f) signal (g, []) =
            Some ((g', flat_map (flow depth (Graph.set_nodes g nodes states)) (headed g released)), Ok tt))
          /\ g_graph g' = nodes /\ g_states g' = states /\ g_stack g' = []).
Proof.
  intros Hwf Hs Hac Hd. split; [|intros; by eapply enqueue_signal_flow].
  pose proof (signalflow_loop_wp _ signal false g Hwf (wf_signalflow _ Hwf)) as Hwp.
  unfold wp in Hwp. unfold Graph.enqueue_signal, Graph.on_graph, Graph.signalflow.
  unfold mbind, M_bind, m_get.
  destruct (Graph.signalflow_loop (g_signalflow g) signal false g) as [g1 [b|x|]] eqn:Hsf; [| |done].
  2:{ destruct Hwp as [? ?]. by exists 0%nat, g1, rets, (Err x). }
  destruct Hwp as (Hwf1&Hfr1&Hb). pose proof Hfr1 as (Hl&_&_&_&Hpi&_). destruct b.
  - destruct (run_total g1 rank depth rets) as (n&g2&rets2&r&Hrun&?&?&?&?&_);
      [done|unfold acyclic; by rewrite Hpi|unfold in_range; by rewrite Hl|].
    exists (S n), g2, rets2, r. split_and!; try done. by etrans.
  - exists 0%nat, g1, rets, (Ok tt). split_and!; try done. intros _. destruct Hb as [_ ->]; done.
Qed.

(** C33: when an operator fails on a signal, the events that the operators before it released
    for the same signal stay on the stack, whatever their number: [enqueue_signal] returns the
    error without running or clearing them, so they are only processed with whatever event
    comes next. *)
Theorem signal_error_keeps_events g fuel signal rets before j after nodes states signal1 released m st n' st' signal2 x :
  wf_graph g -> g_signalflow g = before ++ j :: after ->
  signals before signal (g_graph g) (g_states g) = Some (nodes, states, signal1, released) ->
  nodes !! j = Some m -> states !! j = Some st ->
  on_signal m (n_uid m) st signal1 = ((n', st', signal2), Err x) ->
  exists g', Graph.enqueue_signal fuel signal (g, rets) = Some ((g', rets), Err x)
    /\ g_stack g' = rev (headed g released) ++ g_stack g.
Proof.
  intros Hwf Hsf Hsig Hm Hst Hom.
  destruct (signalflow_prefix before (j :: after) signal false g _ _ _ _ Hwf Hsig) as (g1&Heq&Hwf1&_&Hg&Hs&Hstk).
  subst nodes states. unfold Graph.enqueue_signal, Graph.on_graph, Graph.signalflow, mbind, M_bind, m_get.
  rewrite Hsf, Heq, (signalflow_step j after signal1 _ g1 m st Hwf1 Hm Hst), Hom.
  eexists. split; [done|]. exact Hstk.
Qed.

(** *** Contraflow *)

(** The operators an insight raised by [skip_to] visits: those behind it in the list. *)
Fixpoint behind (skip_to : option nat) (ids : list nat) : list nat :=
  match skip_to, ids with
  | None, _ => ids
  | Some s, [] => []
  | Some s, i :: ids => if decide (s = i) then ids else behind (Some s) ids
  end.

(** Apply the insight to the operators at [ids], in order. *)
Fixpoint visit (ids : list nat) (insight : Event) (nodes : list (OperatorNode O))
  : list (OperatorNode O) * Event :=
  match ids with
  | [] => (nodes, insight)
  | i :: ids =>
      match nodes !! i with
      | Some n => let '(n, insight) := on_contraflow n (n_uid n) insight in
                  visit ids insight (<[i := n]> nodes)
      | None => visit ids insight nodes
      end
  end.

Lemma contraflow_loop_spec ids skip_to insight (g : G) :
  Forall (in_range g) ids ->
  Graph.contraflow_loop ids skip_to insight g =
  let '(nodes, insight) := visit (behind skip_to ids) insight (g_graph g) in
  Ok (Graph.set_nodes g nodes (g_states g), insight).
Proof.
  revert skip_to insight g. induction ids as [|i ids IH]; intros skip_to insight g Hids.
  { by destruct skip_to, g. }
  apply Forall_cons in Hids as [Hi Hids]. destruct skip_to as [s|]; cbn [Graph.contraflow_loop behind].
  - case_decide; rewrite IH by done; by destruct ids.
  - destruct (lookup_lt_is_Some_2 (g_graph g) i Hi) as [n Hn]. cbn [visit]. rewrite Hn. cbn [unchecked res_bind].
    destruct (on_contraflow n (n_uid n) insight) as [n' insight'].
    rewrite IH; [by destruct ids|].
    eapply Forall_impl; [exact Hids|]. unfold in_range; simpl. intros. by rewrite length_insert.
Qed.

(** An insight on its way over the operators at [ids]: [trace] lists it as each of them gets
    it, and last as it leaves.  Every operator on the way is the one of [nodes], handled once;
    the others stay. *)
Definition travels (ids : list nat) (trace : list Event) (nodes nodes' : list (OperatorNode O)) : Prop :=
  length trace = S (length ids)
  /\ (forall k j, ids !! k = Some j -> exists n n' e e',
        nodes !! j = Some n /\ nodes' !! j = Some n' /\ trace !! k = Some e /\ trace !! S k = Some e'
        /\ on_contraflow n (n_uid n) e = (n', e'))
  /\ (forall j, j ∉ ids -> nodes' !! j = nodes !! j).

Lemma visit_travels ids insight nodes :
  NoDup ids -> Forall (fun i => i < length nodes)%nat ids ->
  exists trace, travels ids trace nodes (visit ids insight nodes).1
    /\ head trace = Some insight /\ last trace = Some (visit ids insight nodes).2.
Proof.
  intros Hnd. revert insight nodes.
  induction Hnd as [|i ids Hi Hnd IH]; intros insight nodes Hr; cbn [visit].
  { exists [insight]. split_and!; [split_and!; [done|by intros []|done]|done|done]. }
  apply Forall_cons in Hr as [[n Hn]%lookup_lt_is_Some_2 Hr]. rewrite Hn.
  destruct (on_contraflow n (n_uid n) insight) as [n1 insight1] eqn:Hon.
  destruct (IH insight1 (<[i := n1]> nodes)) as (trace&(Hlen&Hk&Ho)&Hh&Hl); [by rewrite length_insert|].
  exists (insight :: trace). split_and!; [split_and!| |].
  - simpl. by rewrite Hlen.
  - intros [|k] j Hj; simpl in Hj; simplify_eq.
    + exists n, n1, insight, insight1. split_and!; try done.
      * rewrite Ho by done. apply list_lookup_insert_eq. by eapply lookup_lt_Some.
      * by destruct trace.
    + destruct (Hk k j Hj) as (m&m'&e&e'&Hm&?). exists m, m', e, e'. split; [|done].
      rewrite list_lookup_insert_ne in Hm; [done|]. intros ->. apply Hi. by eapply list_elem_of_lookup_2.
  - intros j [Hji Hj]%not_elem_of_cons. rewrite Ho by done. by apply list_lookup_insert_ne.
  - done.
  - destruct trace; [done|]. exact Hl.
Qed.

(** The operators an insight has to visit: all of them when it comes from outside, those
    behind the operator that raised it, none when that one takes no part. *)
Inductive route (ids : list nat) : option nat -> list nat -> Prop :=
| route_outside : route ids None ids
| route_raised i l1 l2 : ids = l1 ++ i :: l2 -> i ∉ l1 -> route ids (Some i) l2
| route_apart i : i ∉ ids -> route ids (Some i) [].

Lemma behind_route skip_to ids : route ids skip_to (behind skip_to ids).
Proof.
  destruct skip_to as [s|]; [|destruct ids; constructor].
  induction ids as [|i ids IH]; cbn [behind]; [constructor; set_solver|].
  case_decide as Hs; [subst; by apply (route_raised _ _ []); [|set_solver]|].
  remember (behind (Some s) ids) as l eqn:Hl. clear Hl. inversion IH as [|? l1 l2 He Hi|? Hi]; subst.
  - apply (route_raised _ s (i :: l1)); [done|set_solver].
  - apply route_apart. set_solver.
Qed.

Lemma route_sub ids skip_to l : route ids skip_to l -> l `sublist_of` ids.
Proof.
  destruct 1 as [|i l1 l2 -> _|]; [done| |apply sublist_nil_l].
  apply sublist_inserts_l, sublist_cons. done.
Qed.

(** C15: contraflow does not panic, and an insight visits exactly the operators of its route,
    in the order of the contraflow list: from outside all of them, raised by an operator those
    behind it.  Each visited operator gets the insight as the one before it left it, and is
    replaced by what it became; the operators not on the route, the one that raised the
    insight and those in front of it among them, are unchanged, as is everything else of the
    graph. *)
Theorem contraflow_visits g skip_to insight :
  wf_graph g -> NoDup (g_contraflow g) ->
  exists ids trace nodes insight',
    route (g_contraflow g) skip_to ids
    /\ Graph.contraflow skip_to insight g = Ok (Graph.set_nodes g nodes (g_states g), insight')
    /\ travels ids trace (g_graph g) nodes
    /\ head trace = Some insight /\ last trace = Some insight'.
Proof.
  intros Hwf Hnd. pose proof (behind_route skip_to (g_contraflow g)) as Hr.
  pose proof (route_sub _ _ _ Hr) as Hsub.
  destruct (visit_travels (behind skip_to (g_contraflow g)) insight (g_graph g)) as (trace&Ht&Hh&Hl).
  { by eapply sublist_NoDup. }
  { apply Forall_forall. intros i Hi. pose proof (wf_contraflow _ Hwf) as Hc. rewrite Forall_forall in Hc.
    apply Hc. by eapply elem_of_sublist. }
  exists (behind skip_to (g_contraflow g)), trace. unfold Graph.contraflow.
  rewrite contraflow_loop_spec by apply Hwf. destruct (visit _ _ _) as [nodes insight'].
  by exists nodes, insight'.
Qed.
End props.

(** ** The graph built from a query *)
Section build.
Context {O : Type} `{WB : WellBehaved O} `{HL : Lowercase}.
Variable NodeConfig : Type.
Variable nc_id : NodeConfig -> string.
Variable nc_kind : NodeConfig -> NodeKind.
Variable to_op : NodeConfig -> OperatorId -> res pipe_error (OperatorNode O).
Variable is_cyclic_directed : nat -> list ((nat * Port) * (nat * Port)) -> bool.
Notation Edge := ((nat * Port) * (nat * Port))%type.
Notation to_executable := (Build.to_executable NodeConfig nc_id nc_kind to_op is_cyclic_directed).

(** Documented behaviour of petgraph's cycle check: a graph it accepts can be ranked. *)
Definition cycle_check_sound : Prop := forall n edges,
  is_cyclic_directed n edges = false ->
  exists rank : nat -> nat, Forall (fun e : Edge => (rank e.2.1 < rank e.1.1)%nat) edges.

(** The positions, from [i] on, of the nodes that satisfy [f]. *)
Definition positions (f : OperatorNode O -> bool) (i : nat) (l : list (OperatorNode O)) : list nat :=
  omap (fun p => if f p.2 then Some p.1 else None) (imap (fun k n => (i + k, n)%nat) l).

Lemma positions_cons f i n l :
  positions f i (n :: l) = (if f n then [i] else []) ++ positions f (S i) l.
Proof.
  unfold positions. csimpl. rewrite Nat.add_0_r.
  rewrite (imap_ext _ (fun k n => (S i + k, n)%nat)) by (intros; simpl; f_equal; lia).
  by destruct (f n).
Qed.

Lemma elem_of_positions f i l j :
  j ∈ positions f i l <-> (i <= j)%nat /\ exists n, l !! (j - i)%nat = Some n /\ f n = true.
Proof.
  revert i. induction l as [|n l IH]; intros i.
  { unfold positions. simpl. set_solver. }
  rewrite positions_cons, elem_of_app, IH. split.
  - intros [Hj|(Hle&m&Hm&Hf)].
    + destruct (f n) eqn:Hf; [|by apply not_elem_of_nil in Hj]. apply list_elem_of_singleton in Hj as ->.
      split; [lia|]. rewrite Nat.sub_diag. eauto.
    + split; [lia|]. exists m. replace (j - i)%nat with (S (j - S i)) by lia. done.
  - intros (Hle&m&Hm&Hf). destruct (decide (j = i)) as [->|Hne].
    + rewrite Nat.sub_diag in Hm. simplify_eq/=. rewrite Hf. left. by apply list_elem_of_singleton.
    + right. split; [lia|]. exists m. replace (j - i)%nat with (S (j - S i)) in Hm by lia. done.
Qed.

Lemma positions_sorted f i l : Sorted.StronglySorted lt (positions f i l).
Proof.
  revert i. induction l as [|n l IH]; intros i; [constructor|]. rewrite positions_cons.
  destruct (f n); [|apply IH]. constructor; [apply IH|].
  apply Forall_forall. intros j [Hj _]%elem_of_positions. lia.
Qed.

Lemma build_nodes_spec nodes i idgen idgen' graph cf sf :
  Build.build_nodes NodeConfig to_op i idgen nodes = Ok (idgen', graph, cf, sf) ->
  length graph = length nodes /\ cf = positions handles_contraflow i graph
  /\ sf = positions handles_signal i graph.
Proof.
  revert i idgen graph cf sf. induction nodes as [|n nodes IH]; intros i idgen graph cf sf; cbn [Build.build_nodes].
  { intros ?; simplify_eq. done. }
  destruct (IdGen.next_id idgen) as [uid idgen1].
  intros (op&Hop&Hb)%res_bind_Ok. apply res_bind_Ok in Hb as ([[[idg graph1] cf1] sf1]&Hb&?). simplify_eq.
  destruct (IH _ _ _ _ _ Hb) as (Hl&->&->). rewrite !positions_cons. simpl. by rewrite Hl.
Qed.

Lemma build_edges_spec n edges pi pi' :
  Build.build_edges n edges pi = Ok pi' ->
  (forall k, default [] (pi' !! k) =
     default [] (pi !! k) ++ omap (fun e : Edge => if decide (e.1 = k) then Some e.2 else None) edges)
  /\ Forall (fun e : Edge => (e.1.1 < n)%nat /\ (e.2.1 < n)%nat) edges.
Proof.
  revert pi. induction edges as [|[[f fp] [t tp]] edges IH]; intros pi; cbn [Build.build_edges].
  { intros ?; simplify_eq. split; [|done]. intros. csimpl. by rewrite app_nil_r. }
  case_decide; [|done]. case_decide; [|done]. intros [Hk Hr]%IH. split; [|by constructor].
  intros k. rewrite Hk. csimpl.
  destruct (decide ((f, fp) = k)) as [<-|Hne]; destruct (pi !! (f, fp)) as [conns|] eqn:Hpi;
    rewrite ?lookup_insert_eq, ?lookup_insert_ne by done; simpl; rewrite ?Hpi; simpl; by rewrite <- ?app_assoc.
Qed.

Lemma build_io_range (nodes : list NodeConfig) (f : gmap Port nat -> nat * NodeConfig -> gmap Port nat) :
  (forall m x, f m x = m \/ exists p, f m x = <[p := x.1]> m) ->
  map_Forall (fun _ i => (i < length nodes)%nat) (fold_left f (imap pair nodes) ∅).
Proof.
  intros Hf.
  assert (Hgen : forall l (m : gmap Port nat), Forall (fun x : nat * NodeConfig => (x.1 < length nodes)%nat) l ->
    map_Forall (fun _ i => (i < length nodes)%nat) m ->
    map_Forall (fun _ i => (i < length nodes)%nat) (fold_left f l m)).
  { induction l as [|x l IH]; intros m Hl Hm; [done|]. apply Forall_cons in Hl as [Hi Hl].
    cbn [fold_left]. apply IH; [done|]. destruct (Hf m x) as [->|[p ->]]; [done|]. by apply map_Forall_insert_2. }
  apply Hgen; [|apply map_Forall_empty]. apply Forall_lookup. intros i [j node].
  rewrite list_lookup_imap. intros (x&Hx&?)%fmap_Some. simplify_eq/=. by eapply lookup_lt_Some.
Qed.

Lemma build_ok pipeline_id metric_interval idgen nodes edges idgen' (g : ExecutableGraph O) :
  to_executable pipeline_id metric_interval idgen nodes edges = Ok (idgen', g) ->
  wf_graph g /\ g_stack g = [] /\ length (g_graph g) = length nodes
  /\ g_signalflow g = positions handles_signal 0 (g_graph g)
  /\ g_contraflow g = rev (positions handles_contraflow 0 (g_graph g))
  /\ (forall k, default [] (g_port_indexes g !! k) =
       omap (fun e : Edge => if decide (e.1 = k) then Some e.2 else None) edges)
  /\ is_cyclic_directed (length nodes) edges = false.
Proof.
  unfold Build.to_executable. destruct (is_cyclic_directed _ _); [done|].
  intros ([[[idg graph] cf] sf]&Hn&Hb)%res_bind_Ok. apply res_bind_Ok in Hb as (pi&He&?). simplify_eq.
  destruct (build_nodes_spec _ _ _ _ _ _ _ Hn) as (Hl&->&->).
  destruct (build_edges_spec _ _ _ _ He) as [Hk Hr]. simpl.
  assert (Hpos : forall f, Forall (fun i => (i < length graph)%nat) (positions f 0 graph)).
  { intros f. apply Forall_forall. intros j (_&n&Hn'&_)%elem_of_positions.
    rewrite Nat.sub_0_r in Hn'. by eapply lookup_lt_Some. }
  split_and!; try done. split; simpl; unfold in_range; simpl.
  - apply length_map.
  - apply length_replicate.
  - apply Hpos.
  - apply Forall_rev, Hpos.
  - intros k dsts Hd. specialize (Hk k). rewrite Hd, lookup_empty in Hk. simpl in Hk. subst dsts.
    apply Forall_forall. intros t (e&Hin&Ht)%list_elem_of_omap. rewrite Forall_forall in Hr.
    case_decide; simplify_eq. rewrite Hl. by apply Hr.
  - rewrite Hl. apply build_io_range. intros m [i node]. destruct (Build.external_in edges i); [|by left].
    destruct (nc_kind node); eauto.
  - done.
Qed.

(** C9: a query's graph, once built, is sound: every index the executor uses unchecked is in
    range, signals visit exactly the signal handling operators in node order and insights
    the contraflow handling ones in reverse node order, each once, an outlet leads to the
    inlets its edges name, in their order, and (relying on the cycle check) processing of any
    event and any signal on it terminates: there is a ranking of its nodes. *)
Theorem build_sound pipeline_id metric_interval idgen nodes edges idgen' (g : ExecutableGraph O) :
  cycle_check_sound ->
  to_executable pipeline_id metric_interval idgen nodes edges = Ok (idgen', g) ->
  wf_graph g /\ g_stack g = []
  /\ (forall j, j ∈ g_signalflow g <-> exists n, g_graph g !! j = Some n /\ handles_signal n = true)
  /\ (forall j, j ∈ g_contraflow g <-> exists n, g_graph g !! j = Some n /\ handles_contraflow n = true)
  /\ Sorted.StronglySorted lt (g_signalflow g) /\ Sorted.StronglySorted lt (rev (g_contraflow g))
  /\ (forall k, default [] (g_port_indexes g !! k) =
       omap (fun e : Edge => if decide (e.1 = k) then Some e.2 else None) edges)
  /\ exists rank, acyclic g rank.
Proof.
  intros Hcyc (Hwf&Hs&_&Hsf&Hcf&Hpi&Hc)%build_ok. rewrite Hsf, Hcf.
  assert (Hpos : forall f j, j ∈ positions f 0 (g_graph g) <-> exists n, g_graph g !! j = Some n /\ f n = true).
  { intros f j. rewrite elem_of_positions, Nat.sub_0_r. split; [by intros [_ ?]|]. intros. split; [lia|done]. }
  split_and!; try done.
  - intros j. rewrite <- Permutation_rev. apply Hpos.
  - apply positions_sorted.
  - rewrite rev_involutive. apply positions_sorted.
  - destruct (Hcyc _ _ Hc) as [rank Hrank]. exists rank. intros i p dsts t Hd Ht.
    specialize (Hpi (i, p)). rewrite Hd in Hpi. simpl in Hpi. subst dsts.
    apply list_elem_of_omap in Ht as (e&Hin&Ht). case_decide as Hei; simplify_eq.
    rewrite Forall_forall in Hrank. specialize (Hrank e Hin). by rewrite Hei in Hrank.
Qed.
End build.

(** ** Witnesses *)
#[local] Existing Instance ascii_only.

(** in -> pass -> out, with a second edge from the input to the output. *)
Definition ex_node (id : string) (k : NodeKind) (uid : OperatorId) : OperatorNode Passthrough :=
  mkNode id k "passthrough" mkPassthrough uid.
Definition ex_config : list (string * NodeKind) :=
  [("in", KInput); ("pass", KOperator); ("out", KOutput Ports.OUT)].
Definition ex_edges : list ((nat * Port) * (nat * Port)) :=
  [((0%nat, Ports.OUT), (1%nat, Ports.IN)); ((0%nat, Ports.OUT), (2%nat, Ports.IN));
   ((1%nat, Ports.OUT), (2%nat, Ports.IN))].
Definition ex_to_op (c : string * NodeKind) (uid : OperatorId) : res pipe_error (OperatorNode Passthrough) :=
  Ok (ex_node c.1 c.2 uid).
(** A cycle check that accepts graphs whose edges go up. *)
Definition ex_cyclic (n : nat) (edges : list ((nat * Port) * (nat * Port))) : bool :=
  negb (forallb (fun e => bool_decide (e.1.1 < e.2.1)%nat) edges).
Definition ex_build : res pipe_error (Z * ExecutableGraph Passthrough) :=
  Build.to_executable _ fst snd ex_to_op ex_cyclic "main" None 0 ex_config ex_edges.
Definition ex_graph : ExecutableGraph Passthrough :=
  mkGraph "main" [ex_node "in" KInput 1; ex_node "pass" KOperator 2; ex_node "out" (KOutput Ports.OUT) 3]
    [Val.const_null; Val.const_null; Val.const_null] {[ Ports.IN := 0%nat ]} [] [] []
    {[ (0%nat, Ports.OUT) := [(1%nat, Ports.IN); (2%nat, Ports.IN)]; (1%nat, Ports.OUT) := [(2%nat, Ports.IN)] ]}
    (replicate 3 NM.default) 0 None [] {[ Ports.OUT := 2%nat ]} [].
Definition ex_rank (i : nat) : nat := (3 - i)%nat.

Lemma ex_graph_wf : wf_graph ex_graph.
Proof.
  split; unfold in_range; try (repeat constructor; simpl; lia).
  - apply map_Forall_to_list. repeat constructor; simpl; lia.
  - apply map_Forall_singleton. simpl. lia.
Qed.

Lemma ex_graph_acyclic : acyclic ex_graph ex_rank.
Proof.
  intros i p dsts t Hd Ht. assert (Hall : map_Forall (fun k l => Forall (fun t : nat * Port => (ex_rank t.1 < ex_rank k.1)%nat) l)
    (g_port_indexes ex_graph)) by (apply map_Forall_to_list; repeat constructor; simpl; lia).
  specialize (Hall (i, p) dsts Hd). rewrite Forall_forall in Hall. by apply Hall.
Qed.

Lemma enqueue_terminates_witness :
  exists n g' rets' r, (forall f, Graph.enqueue (n + f) Ports.IN Evt.default (ex_graph, []) = Some ((g', rets'), r))
    /\ r <> Panic /\ wf_graph g' /\ g_stack g' = [] /\ frame ex_graph g'.
Proof.
  apply (enqueue_terminates ex_graph ex_rank Ports.IN Evt.default []).
  - apply ex_graph_wf.
  - reflexivity.
  - apply ex_graph_acyclic.
  - reflexivity.
Defined.

Lemma enqueue_in_order_witness :
  exists n g', (forall f, Graph.enqueue (n + f) Ports.IN Evt.default (ex_graph, []) =
      Some ((g', [(Ports.OUT, Evt.default); (Ports.OUT, Evt.default)]), Ok tt))
    /\ g_graph g' = g_graph ex_graph /\ g_states g' = g_states ex_graph /\ g_stack g' = [].
Proof.
  assert (Hf : flow (S (ex_rank 0)) ex_graph (0%nat, Ports.IN, Evt.default)
    = [(Ports.OUT, Evt.default); (Ports.OUT, Evt.default)]) by (vm_compute; reflexivity).
  rewrite <- Hf. apply (enqueue_in_order ex_graph ex_rank Ports.IN Evt.default 0).
  - apply ex_graph_wf.
  - reflexivity.
  - apply ex_graph_acyclic.
  - reflexivity.
  - repeat constructor; intros; eexists; reflexivity.
  - reflexivity.
Defined.

Lemma build_sound_witness :
  exists idgen g, ex_build = Ok (idgen, g) /\ wf_graph g /\ exists rank, acyclic g rank.
Proof.
  exists 3, ex_graph. assert (Hb : ex_build = Ok (3, ex_graph)) by (vm_compute; reflexivity).
  split; [exact Hb|].
  destruct (build_sound (string * NodeKind) fst snd ex_to_op ex_cyclic "main" None 0 ex_config ex_edges 3 ex_graph)
    as (Hwf&_&_&_&_&_&_&Hrank).
  - intros n edges Hc. apply negb_false_iff in Hc.
    exists (fun i => (S (max_list ((fun e => e.2.1) <$> edges)) - i)%nat).
    apply Forall_forall. intros e He. rewrite forallb_forall in Hc.
    pose proof (Hc e (proj1 (list_elem_of_In _ _) He)) as Hlt%bool_decide_eq_true.
    assert (e.2.1 <= max_list ((fun e : (nat * Port) * (nat * Port) => e.2.1) <$> edges))%nat; [|lia].
    apply max_list_elem_of_le, list_elem_of_fmap. eauto.
  - exact Hb.
  - split; [exact Hwf|exact Hrank].
Defined.

(** Operators that release an event on a signal, fail on it, or count the insights they pass. *)
Inductive ex_signal_op : Type := Emits | Fails | Marks (n : nat).
Definition ex_released (uid : OperatorId) : Event := Evt.set_ingest_ns Evt.default uid.
#[local] Instance ex_signal_op_Operator : Operator ex_signal_op :=
  mkOperator _ (fun o _ _ st e => ((o, st), Ok (EAI.from_event e))) (fun _ => true)
    (fun o uid st s => ((o, st, s), match o with
                                    | Emits => Ok (EAI.from_event (ex_released uid))
                                    | Fails => Err (ErrorMsg "signal")
                                    | Marks _ => Ok EAI.default
                                    end))
    (fun _ => true)
    (fun o uid e => match o with
                    | Marks n => (Marks (S n), Evt.set_ingest_ns e (ev_ingest_ns e * 10 + uid))
                    | _ => (o, e)
                    end)
    OpDefault.metrics OpDefault.skippable OpDefault.initial_state.
#[local] Instance ex_signal_op_WellBehaved : WellBehaved ex_signal_op.
Proof. split; [cbn; auto|]. intros []; cbn; auto; repeat constructor. Qed.

Definition ex_op (o : ex_signal_op) (uid : OperatorId) : OperatorNode ex_signal_op :=
  mkNode "op" KOperator "op" o uid.
Definition ex_ops (ops : list (OperatorNode ex_signal_op)) (signalflow contraflow : list nat)
    (edges : gmap (nat * Port) (list (nat * Port))) : ExecutableGraph ex_signal_op :=
  mkGraph "main" ops (replicate (length ops) Val.const_null) ∅ [] signalflow contraflow edges
    (replicate (length ops) NM.default) 0 None [] ∅ [].

Ltac ex_ops_wf :=
  split; unfold in_range; try (repeat constructor; simpl; lia); try apply map_Forall_empty;
  apply map_Forall_to_list; repeat constructor; simpl; lia.

(** Two operators that release an event each: the first one's takes the way over the second. *)
Definition ex_tick_graph : ExecutableGraph ex_signal_op :=
  ex_ops [ex_op Emits 1; ex_op Emits 2; mkNode "out" (KOutput Ports.OUT) "out" Emits 3] [0%nat; 1%nat] []
    {[ (0%nat, Ports.OUT) := [(1%nat, Ports.IN)]; (1%nat, Ports.OUT) := [(2%nat, Ports.IN)] ]}.

Lemma enqueue_signal_terminates_witness :
  exists n g', (forall f, Graph.enqueue_signal (n + f) (Evt.signal_tick 7) (ex_tick_graph, []) =
      Some ((g', [(Ports.OUT, ex_released 1); (Ports.OUT, ex_released 2)]), Ok tt))
    /\ g_stack g' = [].
Proof.
  destruct (enqueue_signal_terminates ex_tick_graph ex_rank 4 (Evt.signal_tick 7) []) as [_ Hflow].
  - ex_ops_wf.
  - reflexivity.
  - intros i p dsts t Hd Ht.
    assert (Hall : map_Forall (fun k l => Forall (fun t : nat * Port => (ex_rank t.1 < ex_rank k.1)%nat) l)
      (g_port_indexes ex_tick_graph)) by (apply map_Forall_to_list; repeat constructor; simpl; lia).
    specialize (Hall (i, p) dsts Hd). rewrite Forall_forall in Hall. by apply Hall.
  - unfold in_range, ex_rank. intros i _. lia.
  - edestruct Hflow as (n&g'&Hn&_&_&Hs); [reflexivity|repeat constructor; intros; eexists; reflexivity|].
    exists n, g'. split; [exact Hn|exact Hs].
Defined.

(** Two operators release an event each before a third one fails. *)
Definition ex_signal_graph : ExecutableGraph ex_signal_op :=
  ex_ops [ex_op Emits 1; ex_op Emits 2; ex_op Fails 3] [0%nat; 1%nat; 2%nat] []
    {[ (0%nat, Ports.OUT) := [(1%nat, Ports.IN)]; (1%nat, Ports.OUT) := [(2%nat, Ports.IN)] ]}.

Lemma signal_error_keeps_events_witness :
  exists g', Graph.enqueue_signal 10 (Evt.signal_tick 7) (ex_signal_graph, []) =
      Some ((g', []), Err (ErrorMsg "signal"))
    /\ g_stack g' = [(2%nat, Ports.IN, ex_released 2); (1%nat, Ports.IN, ex_released 1)].
Proof.
  apply (signal_error_keeps_events ex_signal_graph 10 (Evt.signal_tick 7) [] [0%nat; 1%nat] 2 []
    (g_graph ex_signal_graph) (g_states ex_signal_graph) (Evt.signal_tick 7)
    [(0%nat, [(Ports.OUT, ex_released 1)]); (1%nat, [(Ports.OUT, ex_released 2)])]
    (ex_op Fails 3) Val.const_null (ex_op Fails 3) Val.const_null (Evt.signal_tick 7)).
  - ex_ops_wf.
  - reflexivity.
  - reflexivity.
  - reflexivity.
  - reflexivity.
  - reflexivity.
Defined.

(** An insight raised by the first of three operators passes the two behind it. *)
Definition ex_contra_graph : ExecutableGraph ex_signal_op :=
  ex_ops [ex_op (Marks 0) 1; ex_op (Marks 0) 2; ex_op (Marks 0) 3] [] [2%nat; 1%nat; 0%nat] ∅.

Lemma contraflow_visits_witness :
  exists trace nodes,
    Graph.contraflow (Some 2%nat) (Evt.cb_restore 0) ex_contra_graph =
      Ok (Graph.set_nodes ex_contra_graph nodes (g_states ex_contra_graph), Evt.cb_restore 21)
    /\ travels [1%nat; 0%nat] trace (g_graph ex_contra_graph) nodes
    /\ nodes = [ex_op (Marks 1) 1; ex_op (Marks 1) 2; ex_op (Marks 0) 3].
Proof.
  destruct (contraflow_visits ex_contra_graph (Some 2%nat) (Evt.cb_restore 0))
    as (ids&trace&nodes&insight&Hr&Hc&Ht&_).
  - ex_ops_wf.
  - repeat constructor; rewrite ?elem_of_cons, ?elem_of_nil; intuition discriminate.
  - exists trace, nodes. vm_compute in Hc. injection Hc as <- <-. split_and!; [reflexivity| |reflexivity].
    inversion Hr as [|? l1 l2 He Hi|? Hi]; subst.
    + destruct l1 as [|x l1]; injection He; [intros <-; exact Ht|].
      intros _ <-. exfalso. apply Hi. left.
    + exfalso. apply Hi. left.
Defined.
