(* ===== verification/OptimizeProps.v ===== *)
(** * The optimiser preserves the graph's behaviour

    [ExecutableGraph::optimize] removes pass-through nodes from the wiring.  On acyclic graphs
    of stateless operators whose skippable operators pass every event on through [out], and
    have edges from [out] only, it succeeds after two passes at most, no edge leads to a
    skippable node any more, and every event leads to the same returned events in the same
    order ([optimize_preserves]).  With an edge from another port of a skippable node it does
    not ([optimize_merges_ports]). *)
From S2P Require Import Prelude EventId Value Event Common Operator Batch RoundRobin Backpressure BasicOps Graph GraphProps.

Section wiring.
Notation outlet := (nat * Port)%type.
Notation wiring := (gmap outlet (list outlet)).

(** ** Rewiring around one node *)
Lemma elem_of_inputs_of (pi : wiring) (id : nat) k :
  k ∈ Graph.inputs_of pi id <-> exists l, pi !! k = Some l /\ exists t, t ∈ l /\ t.1 = id.
Proof.
  unfold Graph.inputs_of. rewrite list_elem_of_omap. split.
  - intros ([k' l]&Hin&Hs). destruct (existsb _ _) eqn:He; simplify_eq/=.
    apply elem_of_map_to_list in Hin. exists l. split; [done|].
    apply existsb_exists in He as (t&Ht&Hid). apply bool_decide_eq_true in Hid.
    exists t. split; [by apply list_elem_of_In|done].
  - intros (l&Hk&t&Ht&Hid). exists (k, l). split; [by apply elem_of_map_to_list|]. simpl.
    rewrite (proj2 (existsb_exists _ _)); [done|]. exists t. split; [by apply list_elem_of_In|].
    by apply bool_decide_eq_true.
Qed.

Lemma inputs_of_NoDup (pi : wiring) (id : nat) : NoDup (Graph.inputs_of pi id).
Proof.
  unfold Graph.inputs_of. pose proof (NoDup_fst_map_to_list pi) as Hn. revert Hn.
  generalize (map_to_list pi). intros l. induction l as [|[k d] l IH]; csimpl; [constructor|].
  intros [Hk Hn]%NoDup_cons. destruct (existsb _ _); [|by apply IH].
  constructor; [|by apply IH]. intros ([k' d']&Hin&Hs)%list_elem_of_omap.
  destruct (existsb _ _) in Hs; simplify_eq/=. apply Hk. apply list_elem_of_fmap. by exists (k, d').
Qed.

Lemma bypass_none id outs (l : list outlet) : (forall t, t ∈ l -> t.1 <> id) -> Graph.bypass id outs l = l.
Proof.
  induction l as [|t l IH]; intros Hl; [done|]. unfold Graph.bypass in *. simpl.
  rewrite decide_False by (apply Hl; left). simpl. f_equal. apply IH. intros; apply Hl. by right.
Qed.

Lemma elem_of_bypass id outs (l : list outlet) t :
  t ∈ Graph.bypass id outs l -> (t ∈ l /\ t.1 <> id) \/ (t ∈ outs /\ exists u, u ∈ l /\ u.1 = id).
Proof.
  unfold Graph.bypass. induction l as [|u l IH]; simpl; [set_solver|]. rewrite elem_of_app.
  case_decide; set_solver.
Qed.

(** All connections to the node are replaced by its own, in place. *)
Lemma rewire_spec (id : nat) (outs : list outlet) (b : bool) (pi : wiring) :
  exists b', Graph.rewire id outs (Graph.inputs_of pi id) b pi = (Graph.bypass id outs <$> pi, Some b')
    /\ (Graph.inputs_of pi id = [] -> b' = b).
Proof.
  assert (Hgen : forall inputs (pi : wiring) (b : bool), NoDup inputs -> (forall k, k ∈ inputs -> is_Some (pi !! k)) ->
    exists b' pi', Graph.rewire id outs inputs b pi = (pi', Some b') /\ (inputs = [] -> b' = b)
      /\ forall k, pi' !! k = if decide (k ∈ inputs) then Graph.bypass id outs <$> (pi !! k) else pi !! k).
  { clear b pi. induction inputs as [|i inputs IH]; intros pi b Hnd Hin.
    - exists b, pi. split_and!; [done..|]. intros k. by rewrite decide_False by set_solver.
    - apply NoDup_cons in Hnd as [Hi Hnd]. destruct (Hin i) as [srcs Hsrcs]; [left|].
      cbn [Graph.rewire]. rewrite Hsrcs, insert_delete_eq.
      destruct (IH (<[i := Graph.bypass id outs srcs]> pi) (b || existsb (fun t => bool_decide (t.1 = id)) srcs))
        as (b'&pi'&Hr&_&Hl); [done| |].
      { intros k Hk. rewrite lookup_insert_ne by set_solver. apply Hin. by right. }
      exists b', pi'. split_and!; [done..|]. intros k. rewrite Hl. destruct (decide (k = i)) as [->|Hki].
      + rewrite decide_False by done. rewrite decide_True by set_solver. by rewrite lookup_insert_eq, Hsrcs.
      + rewrite lookup_insert_ne by done. by destruct (decide (k ∈ inputs)), (decide (k ∈ i :: inputs)); set_solver. }
  destruct (Hgen (Graph.inputs_of pi id) pi b) as (b'&pi'&Hr&Hb&Hl); [apply inputs_of_NoDup| |].
  { intros k (l&Hk&_)%elem_of_inputs_of. by exists l. }
  exists b'. split; [|done]. rewrite Hr. f_equal. apply map_eq. intros k. rewrite Hl, lookup_fmap.
  case_decide as Hk; [done|]. destruct (pi !! k) as [l|] eqn:Hpk; [|done]. simpl. f_equal. symmetry.
  apply bypass_none. intros t Ht Hid. apply Hk, elem_of_inputs_of. eauto.
Qed.

(** A node with edges from [out] only. *)
Lemma outputs_of_out (pi : wiring) (id : nat) :
  (forall p, is_Some (pi !! (id, p)) -> p = Ports.OUT) ->
  Graph.outputs_of pi id = default [] (pi !! (id, Ports.OUT)).
Proof.
  intros Hout. unfold Graph.outputs_of. set (f := fun e : outlet * list outlet => _).
  assert (Hno : forall m : wiring, m ⊆ pi -> m !! (id, Ports.OUT) = None -> omap f (map_to_list m) = []).
  { intros m Hm Hn. apply elem_of_nil_inv. intros l ([[i p] l']&Hin&Hf)%list_elem_of_omap.
    apply elem_of_map_to_list in Hin. subst f. simpl in Hf. case_decide; simplify_eq.
    pose proof (lookup_weaken _ _ _ _ Hin Hm) as Hpi. rewrite (Hout p) in Hin by eauto. congruence. }
  destruct (pi !! (id, Ports.OUT)) as [l|] eqn:Hl; simpl; [|by rewrite Hno].
  assert (Hp : omap f (map_to_list pi) ≡ₚ [l]).
  { rewrite <- (insert_delete_id pi _ _ Hl), map_to_list_insert by apply lookup_delete_eq. csimpl.
    subst f. simpl. rewrite decide_True by done. rewrite Hno; [done|apply delete_subseteq|apply lookup_delete_eq]. }
  apply Permutation_singleton_r in Hp. rewrite Hp. simpl. apply app_nil_r.
Qed.
End wiring.

(** ** What rewiring does to the flow of events *)
Section optimize.
Context {O : Type} `{WB : WellBehaved O}.
Notation G := (ExecutableGraph O).
Notation item := (nat * Port * Event)%type.
Notation wiring := (gmap (nat * Port) (list (nat * Port))).

(** Skippable operators pass every event on through [out], have edges from [out] only, and
    output nodes have none. *)
Definition transparent (g : G) : Prop :=
  forall i n, g_graph g !! i = Some n -> skippable n = true ->
    (forall port st e, on_event n (n_uid n) port st e = ((n, st), Ok (EAI.from_event e)))
    /\ (forall p, is_Some (g_port_indexes g !! (i, p)) -> p = Ports.OUT)
    /\ (forall q, n_kind n = KOutput q -> forall p, g_port_indexes g !! (i, p) = None).

Definition at_targets (l : list (nat * Port)) (e : Event) : list item := (fun t => (t.1, t.2, e)) <$> l.

Definition rewired (g : G) (pi : wiring) : G :=
  Graph.set_wiring g (g_inputs g) (g_signalflow g) (g_contraflow g) pi.

Lemma flat_map_ext_in' {A B} (f h : A -> list B) l : (forall x, x ∈ l -> f x = h x) -> flat_map f l = flat_map h l.
Proof.
  induction l as [|x l IH]; intros Hx; [done|]. simpl. f_equal; [apply Hx; left|apply IH]. intros; apply Hx. by right.
Qed.

Lemma elem_of_targets (g : G) i evs x :
  x ∈ targets g i evs -> exists p l, g_port_indexes g !! (i, p) = Some l /\ (x.1.1, x.1.2) ∈ l.
Proof.
  unfold targets. induction evs as [|[p e] evs IH]; simpl; [set_solver|]. rewrite elem_of_app. intros [Hx|?]; [|auto].
  exists p. destruct (g_port_indexes g !! (i, p)) as [l|]; [|by apply elem_of_nil in Hx].
  exists l. split; [done|]. apply list_elem_of_fmap in Hx as ([j q]&->&?). done.
Qed.

(** The depth does not matter once it exceeds the rank. *)
Lemma flow_depth (g : G) rank d : forall d' x,
  acyclic g rank -> (rank x.1.1 < d)%nat -> (rank x.1.1 < d')%nat -> flow d g x = flow d' g x.
Proof.
  induction d as [|d IH]; intros [|d'] x Hac Hd Hd'; try lia. cbn [flow].
  repeat (case_match; try done). all: apply flat_map_ext_in'; intros y (p&l&Hl&Hy)%elem_of_targets.
  all: pose proof (Hac _ _ _ _ Hl Hy) as Hr; simpl in Hr; apply IH; [done|lia|lia].
Qed.

(** An event at a transparent node goes on to the node's targets. *)
Lemma flow_transparent (g : G) rank i n p e d :
  wf_graph g -> acyclic g rank -> transparent g -> g_graph g !! i = Some n -> skippable n = true ->
  (forall q, n_kind n <> KOutput q) -> (rank i < d)%nat ->
  flow d g (i, p, e) = flat_map (flow d g) (at_targets (default [] (g_port_indexes g !! (i, Ports.OUT))) e).
Proof.
  intros Hwf Hac Htr Hn Hsk Hk Hd. destruct d as [|d]; [lia|].
  destruct (Htr i n Hn Hsk) as (Hon&_). destruct (lookup_lt_is_Some_2 (g_states g) i) as [st Hst].
  { rewrite (wf_states _ Hwf). by eapply lookup_lt_Some. }
  assert (Hgo : flat_map (flow d g) (targets g i [(Ports.OUT, e)])
    = flat_map (flow (S d) g) (at_targets (default [] (g_port_indexes g !! (i, Ports.OUT))) e)).
  { cbn [targets flat_map]. rewrite app_nil_r. apply flat_map_ext_in'.
    intros y Hy. apply list_elem_of_fmap in Hy as (t&->&Ht).
    destruct (g_port_indexes g !! (i, Ports.OUT)) as [l|] eqn:Hl; [|by apply elem_of_nil in Ht].
    pose proof (Hac _ _ _ _ Hl Ht). apply (flow_depth g rank); [done|simpl; lia|simpl; lia]. }
  rewrite <- Hgo. cbn [flow fst snd]. rewrite Hn, Hst, Hon.
  destruct (n_kind n) as [|q| | |] eqn:Hkn; try done. by destruct (Hk q).
Qed.

(** Rewiring around a transparent node changes no flow. *)
Lemma bypass_flow (g : G) rank id n d : forall x,
  wf_graph g -> acyclic g rank -> transparent g -> g_graph g !! id = Some n -> skippable n = true ->
  (forall q, n_kind n <> KOutput q) -> (rank x.1.1 < d)%nat ->
  let outs := default [] (g_port_indexes g !! (id, Ports.OUT)) in
  flow d (rewired g (Graph.bypass id outs <$> g_port_indexes g)) x = flow d g x.
Proof.
  induction d as [|d IH]; intros x Hwf Hac Htr Hn Hsk Hk Hd outs; [lia|].
  set (g' := rewired g _). cbn [flow]. change (g_graph g') with (g_graph g). change (g_states g') with (g_states g).
  destruct (g_graph g !! x.1.1) as [m|]; [|done]. destruct (g_states g !! x.1.1) as [st|]; [|done].
  enough (forall evs, flat_map (flow d g') (targets g' x.1.1 evs) = flat_map (flow d g) (targets g x.1.1 evs)) as Hev.
  { destruct (n_kind m); try done; destruct (on_event m _ _ _ _).2; try done; apply Hev. }
  induction evs as [|[p e] evs IHe]; [done|]. unfold targets in *. cbn [flat_map]. rewrite !flat_map_app, IHe. f_equal. clear IHe.
  change (g_port_indexes g') with (Graph.bypass id outs <$> g_port_indexes g). rewrite lookup_fmap.
  destruct (g_port_indexes g !! (x.1.1, p)) as [l|] eqn:Hl; [|done]. change (default [] (Graph.bypass id outs <$> Some l)) with (Graph.bypass id outs l). change (default [] (Some l)) with l.
  assert (Hr : forall t, t ∈ l -> (rank t.1 < d)%nat) by (intros t Ht; pose proof (Hac _ _ _ _ Hl Ht); lia).
  clear Hl. induction l as [|t l IHl]; [done|]. unfold Graph.bypass in *. cbn [flat_map].
  rewrite fmap_app, flat_map_app, fmap_cons. cbn [flat_map]. rewrite IHl by (intros; apply Hr; by right). f_equal.
  pose proof (Hr t ltac:(left)) as Hrt. case_decide as Hid.
  - destruct t as [ti tp]. simpl in Hid, Hrt. subst ti. simpl.
    rewrite (flow_transparent g rank id n tp e d) by done. fold outs. apply flat_map_ext_in'.
    intros y Hy. apply list_elem_of_fmap in Hy as (t&->&Ht). apply IH; try done.
    unfold outs in Ht. destruct (g_port_indexes g !! (id, Ports.OUT)) as [lo|] eqn:Hlo; [|by apply elem_of_nil in Ht].
    pose proof (Hac _ _ _ _ Hlo Ht). simpl. lia.
  - cbn. rewrite app_nil_r. apply IH; done.
Qed.

(** ** The optimiser's invariant

    [g0] is the graph before, [g] the graph so far: nodes and states are the same, the flow
    is the same, and each input leads into the same flow. *)
Variable g0 : G.
Variable rank : nat -> nat.

Definition same_input (port : Port) (i i' : nat) : Prop :=
  forall e, flow (S (rank i')) g0 (i', port, e) = flow (S (rank i)) g0 (i, port, e).

Record inv (g : G) : Prop := mkInv {
  inv_graph : g_graph g = g_graph g0;
  inv_states : g_states g = g_states g0;
  inv_stack : g_stack g = g_stack g0;
  inv_wf : wf_graph g;
  inv_acyclic : acyclic g rank;
  inv_transparent : transparent g;
  inv_flow : forall d x, (rank x.1.1 < d)%nat -> flow d g x = flow d g0 x;
  inv_inputs : forall port, option_Forall2 (same_input port) (g_inputs g0 !! port) (g_inputs g !! port)
}.

Definition removable (id : nat) : Prop :=
  exists n, g_graph g0 !! id = Some n /\ skippable n = true /\ Kind.skippable (n_kind n) = true.

(** No edge leads to one of [ids]. *)
Definition free (pi : wiring) (ids : list nat) : Prop :=
  forall k l t, pi !! k = Some l -> t ∈ l -> t.1 ∉ ids.

Lemma bypass_inv g id gone :
  inv g -> removable id -> free (g_port_indexes g) gone ->
  let pi := Graph.bypass id (default [] (g_port_indexes g !! (id, Ports.OUT))) <$> g_port_indexes g in
  inv (rewired g pi) /\ free pi (id :: gone).
Proof.
  intros Hinv (n&Hn&Hsk&Hk) Hfree. set (outs := default [] _). intros pi. rewrite <- (inv_graph _ Hinv) in Hn.
  assert (Hout : forall t, t ∈ outs -> exists l, g_port_indexes g !! (id, Ports.OUT) = Some l /\ t ∈ l).
  { unfold outs. intros t Ht. destruct (g_port_indexes g !! (id, Ports.OUT)) as [l|]; [by exists l|by apply elem_of_nil in Ht]. }
  assert (Hpi : forall k l, pi !! k = Some l -> exists l0, g_port_indexes g !! k = Some l0 /\
    forall t, t ∈ l -> (t ∈ l0 /\ t.1 <> id) \/ (t ∈ outs /\ exists u, u ∈ l0 /\ u.1 = id)).
  { intros k l Hl. unfold pi in Hl. rewrite lookup_fmap in Hl. apply fmap_Some in Hl as (l0&Hl0&->).
    exists l0. split; [done|]. apply elem_of_bypass. }
  assert (Hac : acyclic (rewired g pi) rank).
  { intros i p l t Hl Ht. destruct (Hpi _ _ Hl) as (l0&Hl0&Hor). destruct (Hor t Ht) as [[Ht0 _]|[Hto (u&Hu&Hid)]].
    - by apply (inv_acyclic _ Hinv i p l0).
    - pose proof (inv_acyclic _ Hinv _ _ _ _ Hl0 Hu). destruct (Hout t Hto) as (lo&Hlo&Htl).
      pose proof (inv_acyclic _ Hinv _ _ _ _ Hlo Htl). subst. lia. }
  split; [split; try apply Hinv; try done|].
  - destruct (inv_wf _ Hinv) as [? ? ? ? Ht ? ?]. split; try done. intros k l Hl. apply Forall_forall. intros t Htl.
    destruct (Hpi _ _ Hl) as (l0&Hl0&Hor). destruct (Hor t Htl) as [[Ht0 _]|[Hto _]].
    + specialize (Ht _ _ Hl0). rewrite Forall_forall in Ht. by apply Ht.
    + destruct (Hout t Hto) as (lo&Hlo&Hto'). specialize (Ht _ _ Hlo). rewrite Forall_forall in Ht. by apply Ht.
  - intros i m Hm Hms. destruct (inv_transparent _ Hinv i m Hm Hms) as (Hon&Hp&Hq). split_and!; [done| |].
    + intros p [l Hl]. destruct (Hpi _ _ Hl) as (l0&Hl0&_). apply Hp. by eexists.
    + intros q Hkq p. change (pi !! (i, p) = None). unfold pi. by rewrite lookup_fmap, (Hq q Hkq p).
  - intros d x Hd. rewrite <- (inv_flow _ Hinv d x Hd). apply (bypass_flow g rank id n); try apply Hinv; try done.
    intros q Hq. by rewrite Hq in Hk.
  - intros k l t Hl Ht. destruct (Hpi _ _ Hl) as (l0&Hl0&Hor). apply not_elem_of_cons.
    destruct (Hor t Ht) as [[Ht0 Hne]|[Hto _]]; [split; [done|by apply (Hfree k l0)]|].
    destruct (Hout t Hto) as (lo&Hlo&Hto'). split; [|by apply (Hfree (id, Ports.OUT) lo)].
    intros Hid. pose proof (inv_acyclic _ Hinv _ _ _ _ Hlo Hto') as Hlt. rewrite Hid in Hlt. lia.
Qed.

Lemma remove_skippables_inv ids : forall g b gone,
  inv g -> Forall removable ids -> free (g_port_indexes g) gone ->
  exists pi b', Graph.remove_skippables ids b (g_port_indexes g) = (pi, Some b')
    /\ inv (rewired g pi) /\ free pi (rev ids ++ gone)
    /\ (free (g_port_indexes g) ids -> b' = b).
Proof.
  induction ids as [|id ids IH]; intros g b gone Hinv Hids Hfree.
  { exists (g_port_indexes g), b. split_and!; try done. by destruct g. }
  apply Forall_cons in Hids as [Hid Hids]. cbn [Graph.remove_skippables].
  destruct Hid as (n&Hn&Hsk&Hk). rewrite outputs_of_out.
  2:{ rewrite <- (inv_graph _ Hinv) in Hn. apply (inv_transparent _ Hinv id n Hn Hsk). }
  destruct (rewire_spec id (default [] (g_port_indexes g !! (id, Ports.OUT))) b (g_port_indexes g)) as (b1&Hr&Hb1).
  rewrite Hr. destruct (bypass_inv g id gone Hinv ltac:(by exists n) Hfree) as [Hinv1 Hfree1].
  destruct (IH _ b1 (id :: gone) Hinv1 Hids Hfree1) as (pi&b'&Hrm&Hinv'&Hfree'&Hb').
  exists pi, b'. split_and!; [done..| |].
  - cbn [rev]. by rewrite <- app_assoc.
  - intros Hf. assert (Hnil : Graph.inputs_of (g_port_indexes g) id = []).
    { apply elem_of_nil_inv. intros k (l&Hl&t&Ht&Htid)%elem_of_inputs_of. apply (Hf k l t Hl Ht). rewrite Htid. left. }
    rewrite Hb', Hb1; [done|done|]. intros k l t Hl Ht Hin.
    change (g_port_indexes (rewired g ?p)) with p in Hl. rewrite lookup_fmap in Hl.
    apply fmap_Some in Hl as (l0&Hl0&->). rewrite bypass_none in Ht.
    + apply (Hf k l0 t Hl0 Ht). by right.
    + intros u Hu Hid. apply (Hf k l0 u Hl0 Hu). rewrite Hid. left.
Qed.

(** *** Inputs *)
Definition with_inputs (g : G) (m : gmap Port nat) : G :=
  Graph.set_wiring g m (g_signalflow g) (g_contraflow g) (g_port_indexes g).

(** An input that leads to a transparent node with one target may lead there directly. *)
Lemma input_step g name target n p next :
  inv g -> g_graph g !! target = Some n -> skippable n = true ->
  g_port_indexes g !! (target, p) = Some [(next, name)] -> same_input name target next /\ in_range g next.
Proof.
  intros Hinv Hn Hsk Hl. destruct (inv_transparent _ Hinv target n Hn Hsk) as (_&Hp&Hq).
  rewrite (Hp p) in Hl by eauto. pose proof (inv_acyclic _ Hinv _ _ _ (next, name) Hl ltac:(left)) as Hr. simpl in Hr.
  split.
  - intros e. rewrite <- !(inv_flow _ Hinv) by (simpl; lia). symmetry.
    rewrite (flow_transparent g rank target n name e);
      [|apply Hinv..|done|done|intros q Hkq; by rewrite (Hq q Hkq) in Hl|lia].
    rewrite Hl. change (at_targets _ e) with [(next, name, e)]. cbn [flat_map]. rewrite app_nil_r. apply (flow_depth g rank); [apply Hinv|simpl; lia|simpl; lia].
  - pose proof (wf_targets _ (inv_wf _ Hinv) _ _ Hl) as Ht. by apply Forall_cons in Ht as [Ht _].
Qed.

Lemma optimize_inputs_inv todo : forall g,
  inv g ->
  Forall (fun x => in_range g x.2 /\ exists i, g_inputs g0 !! x.1 = Some i /\ same_input x.1 i x.2) todo ->
  exists m, Graph.optimize_inputs todo g = (with_inputs g m, Some tt) /\ inv (with_inputs g m).
Proof.
  induction todo as [|[name target] todo IH]; intros g Hinv Htodo.
  { exists (g_inputs g). split; [by destruct g|]. by destruct g. }
  apply Forall_cons in Htodo as [[Hr (i&Hi&Hsame)] Htodo]. cbn [Graph.optimize_inputs fst snd] in *.
  destruct (lookup_lt_is_Some_2 (g_graph g) target Hr) as [n Hn]. rewrite Hn.
  match goal with |- context [Graph.optimize_inputs todo (Graph.set_wiring _ (<[name := ?t]> _) _ _ _)] => set (target' := t) end.
  assert (Htgt : in_range g target' /\ same_input name target target').
  { subst target'. destruct (skippable n) eqn:Hsk; [|done].
    destruct (List.filter _ _) as [|[k [|[next next_in] []]] []] eqn:Hf; try done. case_decide as Hni; [|done]. subst next_in.
    assert (Hin : In (k, [(next, name)]) (List.filter (fun e => bool_decide (e.1.1 = target)) (map_to_list (g_port_indexes g))))
      by (rewrite Hf; left; done).
    apply filter_In in Hin as [Hin Hk%bool_decide_eq_true]. apply list_elem_of_In, elem_of_map_to_list in Hin.
    destruct k as [k p]. simpl in Hk. subst k. destruct (input_step g name target n p next); done. }
  clearbody target'. destruct Htgt as [Hr' Hsame'].
  change (Graph.set_wiring _ _ _ _ _) with (with_inputs g (<[name := target']> (g_inputs g))).
  destruct (IH (with_inputs g (<[name := target']> (g_inputs g)))) as (m&Hm&Hinv'); [| |by exists m].
  - destruct Hinv as [? ? ? [] ? ? Hfl Hins]. split; try done.
    + split; try done. by apply map_Forall_insert_2.
    + intros d x Hd. rewrite <- Hfl by done. by apply flow_ext.
    + intros port. cbn. destruct (decide (port = name)) as [->|Hne].
      * rewrite lookup_insert_eq, Hi. constructor. intros e. by rewrite Hsame', Hsame.
      * rewrite lookup_insert_ne by done. apply Hins.
  - done.
Qed.

(** *** One pass *)
Lemma elem_of_skippables g id :
  g_graph g = g_graph g0 -> id ∈ Graph.skippables g <-> removable id.
Proof.
  intros Hg. unfold Graph.skippables, removable. rewrite list_elem_of_omap, Hg. split.
  - intros ([j n]&Hin&Hs). apply list_elem_of_lookup in Hin as [k Hk].
    rewrite list_lookup_imap in Hk. apply fmap_Some in Hk as (n'&Hn'&Heq). simplify_eq.
    destruct (skippable n') eqn:H1, (Kind.skippable (n_kind n')) eqn:H2; simplify_eq/=. eauto.
  - intros (n&Hn&H1&H2). exists (id, n). split; [|by rewrite H1, H2].
    apply list_elem_of_lookup. exists id. by rewrite list_lookup_imap, Hn.
Qed.

Lemma pass_inv g :
  inv g -> exists g' b, Graph.optimize_ g = (g', Some b) /\ inv g'
    /\ (forall id, removable id -> free (g_port_indexes g') [id])
    /\ ((forall id, removable id -> free (g_port_indexes g) [id]) -> b = false).
Proof.
  intros Hinv. unfold Graph.optimize_. set (g1 := Graph.set_wiring g _ _ _ _).
  assert (Hinv1 : inv g1).
  { destruct Hinv as [? ? ? [] ? ? Hfl ?]. split; try done.
    - split; try done; (eapply incl_Forall; [apply incl_filter|done]).
    - intros d x Hd. rewrite <- Hfl by done. by apply flow_ext. }
  destruct (optimize_inputs_inv (map_to_list (g_inputs g1)) g1 Hinv1) as (m&->&Hinv2).
  { apply Forall_forall. intros [name i] Hin%elem_of_map_to_list. cbn in Hin |- *.
    split; [by apply (wf_inputs _ (inv_wf _ Hinv) name)|].
    pose proof (inv_inputs _ Hinv name) as Hi. rewrite Hin in Hi. inversion Hi; subst. eauto. }
  destruct (remove_skippables_inv (Graph.skippables (with_inputs g1 m)) (with_inputs g1 m) false [] Hinv2)
    as (pi&b&Hrm&Hinv3&Hfree&Hb).
  { apply Forall_forall. intros id Hid. by apply (elem_of_skippables (with_inputs g1 m)); [apply Hinv2|]. }
  { intros ? ? ? ? ?. apply not_elem_of_nil. }
  rewrite Hrm. exists (rewired (with_inputs g1 m) pi), b. split_and!; [done..| |].
  - intros id Hid k l t Hl Ht Hin. apply list_elem_of_singleton in Hin.
    apply (Hfree k l t Hl Ht). rewrite app_nil_r, <- Permutation_rev, Hin.
    apply elem_of_skippables; [apply Hinv2|done].
  - intros Hf. apply Hb. intros k l t Hl Ht Hin. apply elem_of_skippables in Hin; [|apply Hinv2].
    apply (Hf t.1 Hin k l t Hl Ht). left.
Qed.
End optimize.

(** ** Theorems *)
Section theorems.
Context {O : Type} `{WB : WellBehaved O}.
Notation G := (ExecutableGraph O).

Lemma inv_refl (g : G) rank : wf_graph g -> acyclic g rank -> transparent g -> inv g rank g.
Proof. intros. split; try done. intros port. by destruct (g_inputs g !! port); constructor. Qed.

Lemma optimize_inv (g : G) rank :
  wf_graph g -> acyclic g rank -> transparent g ->
  exists g', Graph.optimize g = (g', Some tt) /\ inv g rank g'
    /\ (forall id, removable g id -> free (g_port_indexes g') [id]).
Proof.
  intros Hwf Hac Htr. destruct (pass_inv g rank g (inv_refl g rank Hwf Hac Htr)) as (g1&b&Hp1&Hinv1&Hf1&_).
  unfold Graph.optimize. cbn [Graph.optimize_loop]. rewrite Hp1. destruct b; [|by exists g1].
  destruct (pass_inv g rank g1 Hinv1) as (g2&b&Hp2&Hinv2&Hf2&Hb). rewrite (Hb Hf1) in Hp2.
  cbn [Graph.optimize_loop]. rewrite Hp2. by exists g2.
Qed.

(** C5: the optimiser changes no result.  On an acyclic graph of stateless operators whose
    skippable operators pass events on through [out] and have edges from [out] only, it ends
    with success, no edge leads to a skippable node any more, inputs, nodes and the
    executor's invariant are kept, and every event sent to an input returns the same events
    in the same order as before. *)
Theorem optimize_preserves (g : G) rank :
  wf_graph g -> g_stack g = [] -> acyclic g rank -> stateless g -> transparent g ->
  exists g', Graph.optimize g = (g', Some tt)
    /\ wf_graph g' /\ g_graph g' = g_graph g /\ g_states g' = g_states g /\ acyclic g' rank
    /\ (forall id, removable g id -> free (g_port_indexes g') [id])
    /\ (forall port, is_Some (g_inputs g' !! port) <-> is_Some (g_inputs g !! port))
    /\ (forall port e, plain e -> is_Some (g_inputs g !! port) ->
          exists n g1 g2 rets, forall f,
            Graph.enqueue (n + f) port e (g, []) = Some ((g1, rets), Ok tt)
            /\ Graph.enqueue (n + f) port e (g', []) = Some ((g2, rets), Ok tt)).
Proof.
  intros Hwf Hs Hac Hsl Htr. destruct (optimize_inv g rank Hwf Hac Htr) as (g'&Hopt&Hinv&Hfree).
  exists g'. split_and!; try apply Hinv; try done.
  - intros port. pose proof (inv_inputs _ _ _ Hinv port) as Hi. destruct Hi; split; by eauto.
  - intros port e He [i Hi]. pose proof (inv_inputs _ _ _ Hinv port) as Hi'. rewrite Hi in Hi'.
    inversion Hi' as [? i' Hsame Heq1 Heq2|]; subst. symmetry in Heq2.
    destruct (enqueue_flow g rank port e i) as (n1&g1&Hr1&_); [done..|].
    destruct (enqueue_flow g' rank port e i') as (n2&g2&Hr2&_); try apply Hinv; try done.
    { by rewrite (inv_stack _ _ _ Hinv). }
    { unfold stateless. by rewrite (inv_graph _ _ _ Hinv). }
    exists (n1 + n2)%nat, g1, g2, (flow (S (rank i)) g (i, port, e)). intros f.
    rewrite <- Nat.add_assoc at 1. rewrite Hr1. split; [done|].
    rewrite (Nat.add_comm n1 n2), <- Nat.add_assoc, Hr2, (inv_flow _ _ _ Hinv) by (simpl; lia). by rewrite Hsame.
Qed.
End theorems.

(** ** Edges of the other ports *)
Section merged_ports.
Context {O : Type} `{HO : Operator O}.
Notation G := (ExecutableGraph O).
Notation outlet := (nat * Port)%type.
Notation wiring := (gmap outlet (list outlet)).

Definition edge (pi : wiring) (k t : outlet) : Prop := exists l, pi !! k = Some l /\ t ∈ l.

Lemma bypass_keeps (id : nat) (outs : list outlet) (pi : wiring) (k t : outlet) :
  t.1 <> id -> edge pi k t -> edge (Graph.bypass id outs <$> pi) k t.
Proof.
  intros Ht (l&Hk&Hl). exists (Graph.bypass id outs l). rewrite lookup_fmap, Hk. split; [done|].
  unfold Graph.bypass. apply list_elem_of_In, in_flat_map. exists t. split; [by apply list_elem_of_In|].
  rewrite decide_False by done. by left.
Qed.

Lemma outputs_of_edge (pi : wiring) (id : nat) (p : Port) (t : outlet) : edge pi (id, p) t -> t ∈ Graph.outputs_of pi id.
Proof.
  intros (l&Hk&Hl). unfold Graph.outputs_of. apply list_elem_of_In, in_concat. exists l.
  split; [|by apply list_elem_of_In]. apply list_elem_of_In, list_elem_of_omap. exists ((id, p), l).
  split; [by apply elem_of_map_to_list|]. simpl. by rewrite decide_True.
Qed.

Lemma bypass_joins (id : nat) (q : Port) (outs : list outlet) (pi : wiring) (k t : outlet) :
  edge pi k (id, q) -> t ∈ outs -> edge (Graph.bypass id outs <$> pi) k t.
Proof.
  intros (l&Hk&Hl) Ht. exists (Graph.bypass id outs l). rewrite lookup_fmap, Hk. split; [done|].
  unfold Graph.bypass. apply list_elem_of_In, in_flat_map. exists (id, q). split; [by apply list_elem_of_In|].
  rewrite decide_True by done. by apply list_elem_of_In.
Qed.

Lemma remove_skippables_ok (ids : list nat) (b : bool) (pi : wiring) : exists pi' b', Graph.remove_skippables ids b pi = (pi', Some b').
Proof.
  revert b pi. induction ids as [|id ids IH]; intros b pi; [by do 2 eexists|]. cbn [Graph.remove_skippables].
  destruct (rewire_spec id (Graph.outputs_of pi id) b pi) as (b'&->&_). apply IH.
Qed.

Lemma remove_keeps (ids : list nat) (b : bool) (pi : wiring) (k t : outlet) :
  t.1 ∉ ids -> edge pi k t -> edge (Graph.remove_skippables ids b pi).1 k t.
Proof.
  revert b pi. induction ids as [|id ids IH]; intros b pi Ht He; [done|]. cbn [Graph.remove_skippables].
  apply not_elem_of_cons in Ht as [Hid Ht]. destruct (rewire_spec id (Graph.outputs_of pi id) b pi) as (b'&->&_).
  apply IH; [done|]. by apply bypass_keeps.
Qed.

Lemma remove_joins (ids : list nat) (b : bool) (pi : wiring) (k : outlet) (id : nat) (q p : Port) (t : outlet) :
  id ∈ ids -> t.1 ∉ ids -> edge pi k (id, q) -> edge pi (id, p) t ->
  edge (Graph.remove_skippables ids b pi).1 k t.
Proof.
  revert b pi. induction ids as [|j ids IH]; intros b pi Hid Ht Hk Ho; [by apply elem_of_nil in Hid|].
  apply not_elem_of_cons in Ht as [Hj Ht]. cbn [Graph.remove_skippables].
  destruct (rewire_spec j (Graph.outputs_of pi j) b pi) as (b'&->&_). destruct (decide (id = j)) as [<-|Hne].
  - apply remove_keeps; [done|]. eapply bypass_joins; [done|]. by eapply outputs_of_edge.
  - apply elem_of_cons in Hid as [?|Hid]; [done|]. apply IH; try done; by apply bypass_keeps.
Qed.

(** The inputs are moved, nothing else, and this succeeds when they are in range. *)
Lemma optimize_inputs_wiring todo (g : G) :
  exists m r, Graph.optimize_inputs todo g =
      (Graph.set_wiring g m (g_signalflow g) (g_contraflow g) (g_port_indexes g), r)
    /\ (Forall (fun i => in_range g i.2) todo -> r = Some tt).
Proof.
  revert g. induction todo as [|[name i] todo IH]; intros g.
  { exists (g_inputs g), (Some tt). by destruct g. }
  cbn [Graph.optimize_inputs]. destruct (g_graph g !! i) as [n|] eqn:Hn.
  - set (g1 := Graph.set_wiring _ _ _ _ _). destruct (IH g1) as (m&r&Hm&Hr). rewrite Hm. exists m, r. split; [done|].
    intros [_ Hin]%Forall_cons. by apply Hr.
  - exists (g_inputs g), None. split; [by destruct g|]. intros [Hi _]%Forall_cons. cbn in Hi.
    apply lookup_ge_None in Hn. unfold in_range in Hi. lia.
Qed.

(** One pass keeps the nodes; the wiring is the old one, or that without the skippable nodes
    when the inputs are in range. *)
Lemma optimize_pass (g : G) :
  g_graph (Graph.optimize_ g).1 = g_graph g
  /\ let pi := (Graph.remove_skippables (Graph.skippables g) false (g_port_indexes g)).1 in
     (g_port_indexes (Graph.optimize_ g).1 = g_port_indexes g \/ g_port_indexes (Graph.optimize_ g).1 = pi)
     /\ (wf_graph g -> g_port_indexes (Graph.optimize_ g).1 = pi /\ is_Some (Graph.optimize_ g).2).
Proof.
  unfold Graph.optimize_. set (g1 := Graph.set_wiring g _ _ _ _).
  destruct (optimize_inputs_wiring (map_to_list (g_inputs g1)) g1) as (m&r&->&Hr).
  destruct (remove_skippables_ok (Graph.skippables g) false (g_port_indexes g)) as (pi&b&Hrm).
  assert (Hin : wf_graph g -> r = Some tt).
  { intros Hwf. apply Hr, Forall_forall. intros [name i] Hin%elem_of_map_to_list. by apply (wf_inputs _ Hwf name). }
  unfold Graph.skippables in *. cbn in *. rewrite Hrm. destruct r; cbn.
  - split_and!; [done|by right|done].
  - split_and!; [done|by left|]. intros Hwf. by specialize (Hin Hwf).
Qed.

Lemma optimize_loop_keeps (n : nat) (g : G) (k t : outlet) :
  t.1 ∉ Graph.skippables g -> edge (g_port_indexes g) k t ->
  edge (g_port_indexes (Graph.optimize_loop n g).1) k t.
Proof.
  revert g. induction n as [|n IH]; intros g Ht He; cbn [Graph.optimize_loop];
    destruct (optimize_pass g) as (Hg&Hpi&_); destruct (Graph.optimize_ g) as [g' r]; cbn in Hg, Hpi;
    (assert (He' : edge (g_port_indexes g') k t) by (destruct Hpi as [->| ->]; [done|by apply remove_keeps]));
    destruct r as [[]|]; try done.
  apply IH; [|done]. unfold Graph.skippables in *. by rewrite Hg.
Qed.

(** C34: the optimiser connects whatever sends to a skippable node with the targets of all
    ports of that node, also of ports the node itself never sends to: an event that went to the
    skippable node, and from there through [out] only, reaches what is connected to its other
    ports as well. *)
Theorem optimize_merges_ports (g : G) (k : outlet) (id : nat) (n : OperatorNode O) (q p : Port) (t : outlet) (e : Event) :
  wf_graph g -> g_graph g !! id = Some n -> skippable n = true -> Kind.skippable (n_kind n) = true ->
  edge (g_port_indexes g) k (id, q) -> edge (g_port_indexes g) (id, p) t -> ~ removable g t.1 ->
  (t.1, t.2, e) ∈ targets (Graph.optimize g).1 k.1 [(k.2, e)].
Proof.
  intros Hwf Hn Hs Hk Hin Hout Ht.
  assert (Hid : id ∈ Graph.skippables g) by (apply (elem_of_skippables g g id); [done|by exists n]).
  assert (Htn : t.1 ∉ Graph.skippables g) by (intros Hi; by apply Ht, (elem_of_skippables g g)).
  assert (He : edge (g_port_indexes (Graph.optimize g).1) k t).
  { unfold Graph.optimize. change 1000%nat with (S 999). generalize 999%nat. intros fuel. cbn [Graph.optimize_loop].
    destruct (optimize_pass g) as (Hg&_&Hpi). destruct (Hpi Hwf) as [Hpi' _].
    destruct (Graph.optimize_ g) as [g' r]. cbn in Hg, Hpi'.
    assert (He' : edge (g_port_indexes g') k t) by (rewrite Hpi'; by eapply remove_joins).
    destruct r as [[]|]; try done. apply optimize_loop_keeps; [|done]. unfold Graph.skippables in *. by rewrite Hg. }
  destruct He as (l&Hl&Htl). destruct k as [i p'].
  unfold targets. cbn [flat_map fst snd]. rewrite Hl, app_nil_r. cbn [default]. apply list_elem_of_fmap.
  by exists t.
Qed.
End merged_ports.

(** ** Instances *)
Definition opt_node (id : string) (k : NodeKind) : OperatorNode Passthrough := mkNode id k "passthrough" mkPassthrough 0.

(** in -> stream and c; stream -> a, and from the given port -> b. *)
Definition opt_graph (port : Port) : ExecutableGraph Passthrough :=
  mkGraph "main"
    [opt_node "in" KInput; opt_node "stream" KOperator; opt_node "a" (KOutput (PCustom "a"));
     opt_node "b" (KOutput (PCustom "b")); opt_node "c" (KOutput (PCustom "c"))]
    (replicate 5 Val.const_null) {[ Ports.IN := 0%nat ]} [] [] []
    (<[ (1%nat, port) := [(3%nat, Ports.IN)] ]>
     {[ (0%nat, Ports.OUT) := [(1%nat, Ports.IN); (4%nat, Ports.IN)]; (1%nat, Ports.OUT) := [(2%nat, Ports.IN)] ]})
    (replicate 5 NM.default) 0 None [] ∅ [].

Lemma ex_graph_transparent : transparent ex_graph.
Proof.
  intros i n Hn _.
  assert (Hk : forall p, is_Some (g_port_indexes ex_graph !! (i, p)) -> p = Ports.OUT /\ (i < 2)%nat).
  { intros p [l Hl]. cbn in Hl. rewrite lookup_insert_Some, lookup_singleton_Some in Hl.
    destruct Hl as [[Heq _]|[_ [Heq _]]]; simplify_eq; split; (done || lia). }
  split_and!; [by destruct n as [? ? ? [] ?]|by intros p Hp; apply Hk|].
  intros q Hq p. destruct (g_port_indexes ex_graph !! (i, p)) eqn:Hl; [|done].
  destruct (Hk p) as [_ Hi]; [by eexists|]. destruct i as [|[|i]]; simplify_eq/=; lia.
Qed.

Lemma optimize_preserves_witness :
  exists g', Graph.optimize ex_graph = (g', Some tt)
    /\ exists n g1 g2 rets, forall f,
         Graph.enqueue (n + f) Ports.IN Evt.default (ex_graph, []) = Some ((g1, rets), Ok tt)
         /\ Graph.enqueue (n + f) Ports.IN Evt.default (g', []) = Some ((g2, rets), Ok tt).
Proof.
  destruct (optimize_preserves ex_graph ex_rank) as (g'&Hopt&_&_&_&_&_&_&Hsame).
  - apply ex_graph_wf.
  - reflexivity.
  - apply ex_graph_acyclic.
  - repeat constructor; intros; eexists; reflexivity.
  - apply ex_graph_transparent.
  - exists g'. split; [exact Hopt|]. apply Hsame; [reflexivity|eexists; reflexivity].
Defined.

(** in sends to stream, whose [err] port is connected to b: the optimised graph sends the
    events of in to b, and returns them there. *)
Lemma optimize_merges_ports_witness :
  (3%nat, Ports.IN, Evt.default)
    ∈ targets (Graph.optimize (opt_graph Ports.ERR)).1 0 [(Ports.OUT, Evt.default)]
  /\ (exists g1, Graph.enqueue 10 Ports.IN Evt.default (opt_graph Ports.ERR, []) =
        Some ((g1, [(PCustom "a", Evt.default); (PCustom "c", Evt.default)]), Ok tt))
  /\ exists g2 rets, Graph.enqueue 10 Ports.IN Evt.default ((Graph.optimize (opt_graph Ports.ERR)).1, []) =
       Some ((g2, rets), Ok tt) /\ (PCustom "b", Evt.default) ∈ rets.
Proof.
  split_and!.
  - apply (optimize_merges_ports (opt_graph Ports.ERR) (0%nat, Ports.OUT) 1 (opt_node "stream" KOperator)
      Ports.IN Ports.ERR (3%nat, Ports.IN) Evt.default); try reflexivity.
    + split; unfold in_range; try (repeat constructor; simpl; lia).
      * apply map_Forall_to_list. repeat constructor; simpl; lia.
      * apply map_Forall_singleton. simpl. lia.
    + eexists. split; [reflexivity|]. left.
    + eexists. split; [reflexivity|]. left.
    + intros (n&Hn&_&Hk). injection Hn as <-. discriminate.
  - eexists. vm_compute. reflexivity.
  - do 2 eexists. split; [vm_compute; reflexivity|]. set_solver.
Defined.
