(* ===== verification/Window.v ===== *)
(** * Windows of a select statement

    Models tremor-pipeline/src/op/trickle/window.rs (window implementations, the tilt frames
    of a group, groups) and [window_defn_to_impl] of tremor-pipeline/src/query.rs.

    Expressions and aggregate functions are given by the interfaces [TremorAggrFn] (the trait
    of tremor-script/src/registry.rs) and [ImutRun] (evaluation of an expression, which may
    change the aggregates it emits: the interpreter calls [emit] through a mutable
    reference).  The chain of tilt frames linked by [next] is a list, smallest window first.
    Method results are paired with the state reached, also on errors. *)
From S2P Require Import Prelude EventId Value Event Common Operator BasicOps.

(** [EventContext]: ingest time, origin and cardinality ([panic_on_assert] is always false
    here). *)
Record EventCtx : Type := mkEventCtx {
  ec_at : Z;
  ec_origin_uri : option EventOriginUri;
  ec_cardinality : nat
}.

(** The [args], [group] and [window] keywords. *)
Record Consts : Type := mkConsts {
  c_args : Value;
  c_group : Value;
  c_window : Value
}.

(** An aggregate function with the expressions of its arguments. *)
Record InvokeAggrFn (A X : Type) : Type := mkInvoke {
  ia_invocable : A;
  ia_args : list X
}.
Arguments mkInvoke {A X} _ _.
Arguments ia_invocable {A X} _.
Arguments ia_args {A X} _.

Class TremorAggrFn (A : Type) : Type := mkAggrFn {
  aggr_accumulate : A -> list Value -> A * res pipe_error unit;
  aggr_init : A -> A;
  aggr_merge : A -> A -> A * res pipe_error unit
}.

(** [run_expr x ctx consts aggrs event meta]: the value and the aggregates afterwards. *)
Class ImutRun (A X : Type) : Type := mkImutRun {
  run_expr : X -> EventCtx -> Consts -> list (InvokeAggrFn A X) -> Value -> Value ->
             list (InvokeAggrFn A X) * res pipe_error Value
}.

(** ** Actions of a window *)
Record Actions : Type := mkActions { act_include : bool; act_emit : bool }.

Module Act.

Definition all_true : Actions := mkActions true true.
Definition all_false : Actions := mkActions false false.

(** The reply of a window script: a boolean, or [[emit, include]]. *)
Definition try_from (v : Value) : res pipe_error Actions :=
  match Val.as_bool v with
  | Some true => Ok all_true
  | Some false => Ok all_false
  | None =>
      match Val.as_array v ≫= mapM Val.as_bool with
      | Some [emit; include] => Ok (mkActions include emit)
      | Some _ => Err (ScriptError "An array as return value needs to be a two-element array of booleans with the form `[emit, include]`")
      | None => Err (ScriptError "this can't be used as a window reply")
      end
  end.

End Act.

(** ** Window implementations

    The scripts of a window: [run] may change the event, the state and the metadata,
    [run_imut] changes nothing. *)
Record WindowScript : Type := mkWindowScript {
  ws_run : script_fn;
  ws_run_imut : EventContext -> Value -> Value -> Value -> Return + string
}.

Inductive WindowKind : Type := Sliding | Tumbling.

Record WindowDefinition : Type := mkWindowDefinition {
  wd_kind : WindowKind;
  wd_params : res pipe_error Value;
  wd_script : option WindowScript;
  wd_tick_script : option WindowScript;
  wd_state : option Value
}.

Record TumblingOnState : Type := mkTOS {
  tos_initial_state : Value;
  tos_max_groups : Z;
  tos_script : WindowScript;
  tos_tick_script : option WindowScript;
  tos_state : Value
}.

Record TumblingOnTime : Type := mkTOT {
  tot_next_window : option Z;
  tot_max_groups : Z;
  tot_interval : Z;
  tot_script : option WindowDefinition
}.

Record TumblingOnNumber : Type := mkTON {
  ton_count : Z;
  ton_max_groups : Z;
  ton_size : Z;
  ton_next_eviction : Z;
  ton_script : option WindowDefinition
}.

Inductive Impl : Type :=
| ICount (w : TumblingOnNumber)
| ITime (w : TumblingOnTime)
| IState (w : TumblingOnState).

(** What a data based window reads from the event: the script's value as an integer. *)
Definition window_datum (script : option WindowDefinition) (dflt : Z) (data : ValueAndMeta)
    (ingest_ns : Z) (origin_uri : option EventOriginUri) : res pipe_error Z :=
  match script ≫= wd_script with
  | None => Ok dflt
  | Some script =>
      match ws_run_imut script (ingest_ns, origin_uri) (vm_value data) Val.const_null (vm_meta data) with
      | inr e => Err (ScriptError e)
      | inl r =>
          ok_or (ScriptError "Data based window didn't provide a valid value")
            match r with
            | Emit value _ => Val.as_u64 value
            | EmitEvent _ => Val.as_u64 (vm_value data)
            | Drop => None
            end
      end
  end.

Module OnState.

Definition reset (w : TumblingOnState) : TumblingOnState :=
  mkTOS (tos_initial_state w) (tos_max_groups w) (tos_script w) (tos_tick_script w) (tos_initial_state w).

Definition from_stmt (state : Value) (max_groups : Z) (script : WindowScript)
    (tick_script : option WindowScript) : TumblingOnState :=
  mkTOS state max_groups script tick_script state.

Definition set_state (w : TumblingOnState) (state : Value) : TumblingOnState :=
  mkTOS (tos_initial_state w) (tos_max_groups w) (tos_script w) (tos_tick_script w) state.

(** The actions a script's outcome stands for, on the event as the script left it. *)
Definition actions (r : Return + string) (event : Value) : res pipe_error Actions :=
  match r with
  | inr e => Err (ScriptError e)
  | inl (Emit value _) => Act.try_from value
  | inl (EmitEvent _) => Act.try_from event
  | inl Drop => Err (ScriptError "State based window didn't provide a boolean return")
  end.

Definition on_event (w : TumblingOnState) (data : ValueAndMeta) (ingest_ns : Z)
    (origin_uri : option EventOriginUri) : (TumblingOnState * ValueAndMeta) * res pipe_error Actions :=
  let '((event, state, meta), r) :=
    ws_run (tos_script w) (ingest_ns, origin_uri) (vm_value data) (tos_state w) (vm_meta data) in
  ((set_state w state, mkVM event meta), actions r event).

Definition on_tick (w : TumblingOnState) (ns : Z) : TumblingOnState * res pipe_error Actions :=
  match tos_tick_script w with
  | Some tick_script =>
      let '((event, state, _), r) :=
        ws_run tick_script (ns, None) Val.const_null (tos_state w) Val.const_null in
      (set_state w state, actions r event)
  | None => (w, Ok Act.all_false)
  end.

End OnState.

Module OnTime.

Definition reset (w : TumblingOnTime) : TumblingOnTime :=
  mkTOT None (tot_max_groups w) (tot_interval w) (tot_script w).

Definition from_stmt (interval max_groups : Z) (script : option WindowDefinition) : TumblingOnTime :=
  mkTOT None max_groups interval script.

Definition get_window_event (w : TumblingOnTime) (time : Z) : TumblingOnTime * Actions :=
  let opened := mkTOT (Some (wrapping_add time (tot_interval w))) (tot_max_groups w) (tot_interval w)
                  (tot_script w) in
  match tot_next_window w with
  | None => (opened, Act.all_false)
  | Some next_window =>
      if next_window <=? time then (opened, mkActions false true) else (w, Act.all_false)
  end.

Definition on_event (w : TumblingOnTime) (data : ValueAndMeta) (ingest_ns : Z)
    (origin_uri : option EventOriginUri) : TumblingOnTime * res pipe_error Actions :=
  match window_datum (tot_script w) ingest_ns data ingest_ns origin_uri with
  | Ok time => let '(w, a) := get_window_event w time in (w, Ok a)
  | Err e => (w, Err e)
  | Panic => (w, Panic)
  end.

(** Ticks are ignored when a script gives the time. *)
Definition on_tick (w : TumblingOnTime) (ns : Z) : TumblingOnTime * res pipe_error Actions :=
  match tot_script w with
  | None => let '(w, a) := get_window_event w ns in (w, Ok a)
  | Some _ => (w, Ok Act.all_false)
  end.

End OnTime.

Module OnNumber.

Definition reset (w : TumblingOnNumber) : TumblingOnNumber :=
  mkTON 0 (ton_max_groups w) (ton_size w) 0 (ton_script w).

Definition from_stmt (size max_groups : Z) (script : option WindowDefinition) : TumblingOnNumber :=
  mkTON 0 max_groups size 0 script.

Definition set_count (w : TumblingOnNumber) (count : Z) : TumblingOnNumber :=
  mkTON count (ton_max_groups w) (ton_size w) (ton_next_eviction w) (ton_script w).

Definition on_event (w : TumblingOnNumber) (data : ValueAndMeta) (ingest_ns : Z)
    (origin_uri : option EventOriginUri) : TumblingOnNumber * res pipe_error Actions :=
  match window_datum (ton_script w) 1 data ingest_ns origin_uri with
  | Ok count =>
      let new_count := wrapping_add (ton_count w) count in
      if ton_size w <=? new_count
      then (set_count w (new_count - ton_size w), Ok Act.all_true)
      else (set_count w new_count, Ok Act.all_false)
  | Err e => (w, Err e)
  | Panic => (w, Panic)
  end.

(** The default method of the trait. *)
Definition on_tick (w : TumblingOnNumber) (ns : Z) : TumblingOnNumber * res pipe_error Actions :=
  (w, Ok Act.all_false).

End OnNumber.

Module WImpl.

Definition DEFAULT_MAX_GROUPS : Z := 2 ^ 64 - 1.

Definition reset (w : Impl) : Impl :=
  match w with
  | ITime w => ITime (OnTime.reset w)
  | ICount w => ICount (OnNumber.reset w)
  | IState w => IState (OnState.reset w)
  end.

Definition on_event (w : Impl) (data : ValueAndMeta) (ingest_ns : Z)
    (origin_uri : option EventOriginUri) : (Impl * ValueAndMeta) * res pipe_error Actions :=
  match w with
  | ITime w => let '(w, r) := OnTime.on_event w data ingest_ns origin_uri in ((ITime w, data), r)
  | ICount w => let '(w, r) := OnNumber.on_event w data ingest_ns origin_uri in ((ICount w, data), r)
  | IState w => let '((w, data), r) := OnState.on_event w data ingest_ns origin_uri in ((IState w, data), r)
  end.

Definition on_tick (w : Impl) (ns : Z) : Impl * res pipe_error Actions :=
  match w with
  | ITime w => let '(w, r) := OnTime.on_tick w ns in (ITime w, r)
  | ICount w => let '(w, r) := OnNumber.on_tick w ns in (ICount w, r)
  | IState w => let '(w, r) := OnState.on_tick w ns in (IState w, r)
  end.

Definition max_groups (w : Impl) : Z :=
  match w with
  | ITime w => tot_max_groups w
  | ICount w => ton_max_groups w
  | IState w => tos_max_groups w
  end.

(** [window_defn_to_impl] of query.rs. *)
Definition window_defn_to_impl (d : WindowDefinition) : res pipe_error Impl :=
  match wd_kind d with
  | Sliding => Err (ErrorMsg "Sliding windows are not yet implemented")
  | Tumbling =>
      let script := if wd_script d then Some d else None in
      let? params := wd_params d in
      let max_groups := default DEFAULT_MAX_GROUPS (Val.get_u64 "max_groups" params) in
      match Val.get_u64 "interval" params, Val.get_u64 "size" params, wd_state d with
      | Some interval, None, None => Ok (ITime (OnTime.from_stmt interval max_groups script))
      | None, Some size, None => Ok (ICount (OnNumber.from_stmt size max_groups script))
      | None, None, Some state =>
          match script ≫= wd_script with
          | None => Err (ErrorMsg "Script is required for `state` type windows")
          | Some script => Ok (IState (OnState.from_stmt state max_groups script (wd_tick_script d)))
          end
      | None, None, None =>
          Err (ErrorMsg "Bad window configuration, either `size`, `interval`, or `state` is required.")
      | _, _, _ =>
          Err (ErrorMsg "Bad window configuration, only one of `size`, `interval`, or `state` is allowed.")
      end
  end.

End WImpl.

(** ** Groups and their tilt frames *)
Record Window : Type := mkWindow { win_impl : Impl; win_name : string }.

Record GroupWindow (A X : Type) : Type := mkGroupWindow {
  gw_name : Value;
  gw_window : Impl;
  gw_aggrs : list (InvokeAggrFn A X);
  gw_id : EventId;
  gw_event_id_gen : EventIdGenerator;
  gw_transactional : bool;
  gw_holds_data : bool
}.
Arguments mkGroupWindow {A X} _ _ _ _ _ _ _.
Arguments gw_name {A X} _.
Arguments gw_window {A X} _.
Arguments gw_aggrs {A X} _.
Arguments gw_id {A X} _.
Arguments gw_event_id_gen {A X} _.
Arguments gw_transactional {A X} _.
Arguments gw_holds_data {A X} _.

(** A group: its value and its frames ([None] is the empty list). *)
Record Group (A X : Type) : Type := mkGroup {
  grp_value : Value;
  grp_windows : list (GroupWindow A X)
}.
Arguments mkGroup {A X} _ _.
Arguments grp_value {A X} _.
Arguments grp_windows {A X} _.

(** The select clause and the context of one evaluation. *)
Record SelectCtx (X : Type) : Type := mkSelectCtx {
  sc_target : X;
  sc_having : option X;
  sc_ctx : EventCtx;
  sc_event_id : EventId;
  sc_ingest_ns : Z;
  sc_op_meta : OpMeta;
  sc_origin_uri : option EventOriginUri;
  sc_transactional : bool
}.
Arguments mkSelectCtx {X} _ _ _ _ _ _ _ _.
Arguments sc_target {X} _.
Arguments sc_having {X} _.
Arguments sc_ctx {X} _.
Arguments sc_event_id {X} _.
Arguments sc_ingest_ns {X} _.
Arguments sc_op_meta {X} _.
Arguments sc_origin_uri {X} _.
Arguments sc_transactional {X} _.

(** What a call shares with its caller by mutable reference: the context, the event's data
    and the vector of emitted events. *)
Record Shared (X : Type) : Type := mkShared {
  sh_ctx : SelectCtx X;
  sh_data : ValueAndMeta;
  sh_events : list (Port * Event)
}.
Arguments mkShared {X} _ _ _.
Arguments sh_ctx {X} _.
Arguments sh_data {X} _.
Arguments sh_events {X} _.

Section select.
Context {A X : Type} `{TremorAggrFn A} `{ImutRun A X}.
Notation Aggrs := (list (InvokeAggrFn A X)).

(** [run_guard]; a guard evaluates with the aggregates of its environment. *)
Definition run_guard (guard : option X) (ctx : EventCtx) (consts : Consts) (aggrs : Aggrs)
    (data meta : Value) : Aggrs * res pipe_error bool :=
  match guard with
  | None => (aggrs, Ok true)
  | Some guard =>
      let '(aggrs, r) := run_expr guard ctx consts aggrs data meta in
      (aggrs, let? test := r in ok_or (ScriptError "guard is not a boolean") (Val.as_bool test))
  end.

(** The select clause, filtered by the having clause. *)
Definition execute_select_and_having (ctx : SelectCtx X) (consts : Consts) (aggrs : Aggrs)
    (data : ValueAndMeta) : Aggrs * res pipe_error (option (Port * Event)) :=
  match run_expr (sc_target ctx) (sc_ctx ctx) consts aggrs (vm_value data) (vm_meta data) with
  | (aggrs, Ok result) =>
      let '(aggrs, r) := run_guard (sc_having ctx) (sc_ctx ctx) consts aggrs result (vm_meta data) in
      (aggrs,
       let? having := r in
       Ok (if (having : bool)
           then Some (Ports.OUT,
                  mkEvent (sc_event_id ctx) (mkVM result (vm_meta data)) (sc_ingest_ns ctx)
                    (sc_origin_uri ctx) (ev_kind Evt.default) false (ev_cb Evt.default)
                    (sc_op_meta ctx) (sc_transactional ctx))
           else None))
  | (aggrs, Err e) => (aggrs, Err e)
  | (aggrs, Panic) => (aggrs, Panic)
  end.

End select.

(** Field updates. *)
Definition set_event_id {X} (c : SelectCtx X) (id : EventId) : SelectCtx X :=
  mkSelectCtx (sc_target c) (sc_having c) (sc_ctx c) id (sc_ingest_ns c) (sc_op_meta c)
    (sc_origin_uri c) (sc_transactional c).
Definition set_transactional {X} (c : SelectCtx X) (t : bool) : SelectCtx X :=
  mkSelectCtx (sc_target c) (sc_having c) (sc_ctx c) (sc_event_id c) (sc_ingest_ns c) (sc_op_meta c)
    (sc_origin_uri c) t.
Definition set_window (c : Consts) (w : Value) : Consts := mkConsts (c_args c) (c_group c) w.
Definition set_group (c : Consts) (g : Value) : Consts := mkConsts (c_args c) g (c_window c).

Module Frame.
Section frame.
Context {A X : Type} `{TremorAggrFn A} `{ImutRun A X}.
Notation Aggrs := (list (InvokeAggrFn A X)).

Definition set_impl (w : GroupWindow A X) (i : Impl) : GroupWindow A X :=
  mkGroupWindow (gw_name w) i (gw_aggrs w) (gw_id w) (gw_event_id_gen w) (gw_transactional w) (gw_holds_data w).
Definition set_aggrs (w : GroupWindow A X) (aggrs : Aggrs) : GroupWindow A X :=
  mkGroupWindow (gw_name w) (gw_window w) aggrs (gw_id w) (gw_event_id_gen w) (gw_transactional w) (gw_holds_data w).

(** One frame per window, each with a stream id of its own. *)
Fixpoint from_windows (aggrs : Aggrs) (operator_id : OperatorId) (ws : list (Z * Window))
  : list (GroupWindow A X) :=
  match ws with
  | [] => []
  | (stream_id, w) :: ws =>
      let '(id, event_id_gen) := Gen.next_id (Gen.for_operator_with_stream operator_id stream_id) in
      mkGroupWindow (VString (win_name w)) (win_impl w) aggrs id event_id_gen false false
        :: from_windows aggrs operator_id ws
  end.

Definition init_aggr (a : InvokeAggrFn A X) : InvokeAggrFn A X :=
  mkInvoke (aggr_init (ia_invocable a)) (ia_args a).

(** Resets aggregates and transactionality, not the id. *)
Definition reset (w : GroupWindow A X) : GroupWindow A X :=
  mkGroupWindow (gw_name w) (gw_window w) (init_aggr <$> gw_aggrs w) (gw_id w) (gw_event_id_gen w) false false.

(** What recording data does before the aggregates see it. *)
Definition mark (w : GroupWindow A X) (ctx : SelectCtx X) : GroupWindow A X :=
  mkGroupWindow (gw_name w) (gw_window w) (gw_aggrs w) (EvId.track (gw_id w) (sc_event_id ctx))
    (gw_event_id_gen w) (gw_transactional w || sc_transactional ctx) true.

(** The arguments of one aggregate, evaluated without aggregates. *)
Fixpoint run_args (args : list X) (ctx : EventCtx) (consts : Consts) (data : ValueAndMeta)
  : res pipe_error (list Value) :=
  match args with
  | [] => Ok []
  | x :: args =>
      let? v := (run_expr x ctx consts ([] : Aggrs) (vm_value data) (vm_meta data)).2 in
      let? vs := run_args args ctx consts data in
      Ok (v :: vs)
  end.

(** The loop over the aggregates stops at the first error. *)
Fixpoint accumulate_aggrs (aggrs : Aggrs) (ctx : EventCtx) (consts : Consts) (data : ValueAndMeta)
  : Aggrs * res pipe_error unit :=
  match aggrs with
  | [] => ([], Ok tt)
  | a :: aggrs =>
      match run_args (ia_args a) ctx consts data with
      | Ok argv =>
          match aggr_accumulate (ia_invocable a) argv with
          | (i, Ok _) => let '(aggrs, r) := accumulate_aggrs aggrs ctx consts data in
                         (mkInvoke i (ia_args a) :: aggrs, r)
          | (i, Err e) => (mkInvoke i (ia_args a) :: aggrs, Err e)
          | (i, Panic) => (mkInvoke i (ia_args a) :: aggrs, Panic)
          end
      | Err e => (a :: aggrs, Err e)
      | Panic => (a :: aggrs, Panic)
      end
  end.

Definition accumulate (w : GroupWindow A X) (ctx : SelectCtx X) (consts : Consts) (data : ValueAndMeta)
  : GroupWindow A X * res pipe_error unit :=
  let w := mark w ctx in
  let '(aggrs, r) := accumulate_aggrs (gw_aggrs w) (sc_ctx ctx) (set_window consts (gw_name w)) data in
  (set_aggrs w aggrs, r).

Fixpoint merge_aggrs (this prev : Aggrs) : Aggrs * res pipe_error unit :=
  match this, prev with
  | a :: this, p :: prev =>
      match aggr_merge (ia_invocable a) (ia_invocable p) with
      | (i, Ok _) => let '(this, r) := merge_aggrs this prev in (mkInvoke i (ia_args a) :: this, r)
      | (i, Err e) => (mkInvoke i (ia_args a) :: this, Err e)
      | (i, Panic) => (mkInvoke i (ia_args a) :: this, Panic)
      end
  | _, _ => (this, Ok tt)
  end.

Definition merge (w : GroupWindow A X) (ctx : SelectCtx X) (prev : Aggrs)
  : GroupWindow A X * res pipe_error unit :=
  let w := mark w ctx in
  let '(aggrs, r) := merge_aggrs (gw_aggrs w) prev in
  (set_aggrs w aggrs, r).

Definition reset_event_id (w : GroupWindow A X) : EventId * GroupWindow A X :=
  let '(new_id, gen) := Gen.next_id (gw_event_id_gen w) in
  (gw_id w, mkGroupWindow (gw_name w) (gw_window w) (gw_aggrs w) new_id gen (gw_transactional w) (gw_holds_data w)).

(** The state of a call on one frame: the frame, the frames after it and what is shared. *)
Definition St : Type := GroupWindow A X * list (GroupWindow A X) * Shared X.
Definition FM := M St pipe_error.

(** The window decides what to do; it may change the data. *)
Definition m_window : FM Actions := fun '(w, next, sh) =>
  let '((i, data), r) :=
    WImpl.on_event (gw_window w) (sh_data sh) (sc_ingest_ns (sh_ctx sh)) (sc_origin_uri (sh_ctx sh)) in
  ((set_impl w i, next, mkShared (sh_ctx sh) data (sh_events sh)), r).

(** A root frame accumulates the event, a later one merges the previous frame's data. *)
Definition m_record (consts : Consts) (prev : option (bool * Aggrs)) : FM unit := fun '(w, next, sh) =>
  match prev with
  | Some (had_data, prev) =>
      if (had_data : bool)
      then let '(w, r) := merge w (sh_ctx sh) prev in ((w, next, sh), r)
      else ((w, next, sh), Ok tt)
  | None => let '(w, r) := accumulate w (sh_ctx sh) consts (sh_data sh) in ((w, next, sh), r)
  end.

(** The id and transactionality recorded so far move to the context. *)
Definition m_take_id : FM unit := fun '(w, next, sh) =>
  let '(id, w) := reset_event_id w in
  let ctx := set_transactional (set_event_id (sh_ctx sh) id) (gw_transactional w) in
  ((w, next, mkShared ctx (sh_data sh) (sh_events sh)), Ok tt).

Definition m_emit (consts : Consts) : FM unit := fun '(w, next, sh) =>
  if gw_holds_data w then
    let '(aggrs, r) :=
      execute_select_and_having (sh_ctx sh) (set_window consts (gw_name w)) (gw_aggrs w) (sh_data sh) in
    match r with
    | Ok (Some port_and_event) =>
        ((set_aggrs w aggrs, next, mkShared (sh_ctx sh) (sh_data sh) (sh_events sh ++ [port_and_event])), Ok tt)
    | Ok None => ((set_aggrs w aggrs, next, sh), Ok tt)
    | Err e => ((set_aggrs w aggrs, next, sh), Err e)
    | Panic => ((set_aggrs w aggrs, next, sh), Panic)
    end
  else ((w, next, sh), Ok tt).

Definition m_reset : FM unit := fun '(w, next, sh) => ((reset w, next, sh), Ok tt).

(** [GroupWindow::on_event] on a non-empty chain of frames. *)
Fixpoint on_event (ws : list (GroupWindow A X)) (consts : Consts) (prev : option (bool * Aggrs))
    (can_remove : bool) (sh : Shared X) {struct ws}
  : (list (GroupWindow A X) * Shared X) * res pipe_error bool :=
  match ws with
  | [] => (([], sh), Ok can_remove)
  | w :: next =>
      let m_next : FM bool := fun '(w, _, sh) =>
        match next with
        | [] => ((w, [], sh), Ok can_remove)
        | _ :: _ =>
            if can_remove then
              let '((next', sh), r) := on_event next consts (Some (gw_holds_data w, gw_aggrs w)) can_remove sh in
              ((w, next', sh), r)
            else ((w, next, sh), Ok false)
        end in
      let body : FM bool :=
        window_event ← m_window;
        _ ← (if act_include window_event then m_record consts prev else mret tt);
        can_remove ←
          (if act_emit window_event then
             _ ← m_take_id;
             _ ← m_emit consts;
             can_remove ← m_next;
             _ ← m_reset;
             mret can_remove
           else mret can_remove);
        if act_include window_event then mret can_remove
        else _ ← m_record consts prev; mret false in
      let '((w, next, sh), r) := body (w, next, sh) in
      ((w :: next, sh), r)
  end.

End frame.
End Frame.

Module Grp.
Section grp.
Context {A X : Type} `{TremorAggrFn A} `{ImutRun A X}.

(** Every frame and its window start over; ids are kept. *)
Definition reset (g : Group A X) : Group A X :=
  mkGroup (grp_value g)
    ((fun w => Frame.set_impl (Frame.reset w) (WImpl.reset (gw_window w))) <$> grp_windows g).

Definition on_event (g : Group A X) (ctx : SelectCtx X) (consts : Consts) (data : ValueAndMeta)
    (events : list (Port * Event))
  : (Group A X * ValueAndMeta * list (Port * Event)) * res pipe_error bool :=
  let run := set_group consts (grp_value g) in
  match grp_windows g with
  | _ :: _ =>
      let '((ws, sh), r) := Frame.on_event (grp_windows g) run None true (mkShared ctx data events) in
      ((mkGroup (grp_value g) ws, sh_data sh, sh_events sh), r)
  | [] =>
      match (execute_select_and_having ctx run ([] : list (InvokeAggrFn A X)) data).2 with
      | Ok (Some port_and_event) => ((g, data, events ++ [port_and_event]), Ok true)
      | Ok None => ((g, data, events), Ok true)
      | Err e => ((g, data, events), Err e)
      | Panic => ((g, data, events), Panic)
      end
  end.

End grp.
End Grp.
