(* ===== verification/Select.v ===== *)
(** * The select operator

    Models tremor-pipeline/src/op/trickle/select.rs: [Select] with its groups, and what it
    uses of tremor-script: the generation of groups ([GroupBy], interpreter.rs) and their
    keys ([sorted_serialize], utils.rs).  The encoding of a single JSON string, number or
    literal is a parameter ([encode]).  [groups] is a hash map; the order in which a tick
    visits it is an argument of [on_signal_in]. *)
From stdpp Require Import sorting.
From Stdlib Require Import Strings.Ascii.
From S2P Require Import Prelude EventId Value Event Common Operator BasicOps Window.

(** ** Group keys *)
Section serialize.
Variable encode : Value -> string.

Fixpoint join_with (sep : string) (l : list string) : string :=
  match l with
  | [] => ""
  | [s] => s
  | s :: l => s +:+ sep +:+ join_with sep l
  end.

Definition key_le (a b : string * string) : Prop := String.leb a.1 b.1 = true.

#[local] Instance key_le_dec a b : Decision (key_le a b).
Proof. unfold key_le. apply _. Defined.

(** Objects are written with their keys in order.  The text is written piece by piece from
    strings, so that the check for UTF-8 at the end never fails. *)
Fixpoint sorted_serialize (j : Value) : string :=
  match j with
  | VStatic _ | VString _ | VBytes _ => encode j
  | VArray a => "[" +:+ join_with "," (sorted_serialize <$> a) +:+ "]"
  | VObject o =>
      let fields := merge_sort key_le ((fun '(k, v) => (k, sorted_serialize v)) <$> o) in
      "{" +:+ join_with "," ((fun '(k, s) => encode (VString k) +:+ ":" +:+ s) <$> fields) +:+ "}"
  end.
End serialize.

(** ** Generation of groups *)
Inductive GroupBy (X : Type) : Type :=
| GExpr (expr : X)
| GSet (items : list (GroupBy X))
| GEach (expr : X).
Arguments GExpr {X} _.
Arguments GSet {X} _.
Arguments GEach {X} _.

Section groups.
Context {A X : Type} `{TremorAggrFn A} `{ImutRun A X}.

Definition NO_CONSTS : Consts := mkConsts Val.const_null Val.const_null Val.const_null.

(** A [set] runs its items in order; the first error ends it. *)
Definition run_items {Y} (f : Y -> list (list Value) -> res pipe_error (list (list Value))) :=
  fix go (items : list Y) (groups : list (list Value)) : res pipe_error (list (list Value)) :=
    match items with
    | [] => Ok groups
    | item :: items => let? groups := f item groups in go items groups
    end.

Fixpoint generate_groups_inner (g : GroupBy X) (ctx : EventCtx) (event meta : Value)
    (groups : list (list Value)) : res pipe_error (list (list Value)) :=
  let run x := (run_expr x ctx NO_CONSTS ([] : list (InvokeAggrFn A X)) event meta).2 in
  match g with
  | GExpr expr =>
      let? v := run expr in
      Ok match groups with
         | [] => [[v]]
         | _ => (fun g => g ++ [v]) <$> groups
         end
  | GSet items => run_items (fun item groups => generate_groups_inner item ctx event meta groups) items groups
  | GEach expr =>
      let? v := run expr in
      match Val.as_array v with
      | None => Err (ScriptError "need an array")
      | Some each =>
          Ok match groups with
             | [] => (fun e => [e]) <$> each
             | _ => g ← groups; (fun e => g ++ [e]) <$> each
             end
      end
  end.

Definition generate_groups (g : GroupBy X) (ctx : EventCtx) (event meta : Value)
  : res pipe_error (list (list Value)) := generate_groups_inner g ctx event meta [].

End groups.

(** ** The operator *)
Record SelectStmt (A X : Type) : Type := mkSelectStmt {
  st_target : X;
  st_where : option X;
  st_having : option X;
  st_group_by : option (GroupBy X);
  st_aggregates : list (InvokeAggrFn A X)
}.
Arguments mkSelectStmt {A X} _ _ _ _ _.
Arguments st_target {A X} _.
Arguments st_where {A X} _.
Arguments st_having {A X} _.
Arguments st_group_by {A X} _.
Arguments st_aggregates {A X} _.

Record Select (A X : Type) : Type := mkSelect {
  sel_stmt : SelectStmt A X;
  sel_consts : Consts;
  sel_windows : list Window;
  sel_groups : gmap string (Group A X);
  sel_dflt_group : Group A X;
  sel_max_groups : Z
}.
Arguments mkSelect {A X} _ _ _ _ _ _.
Arguments sel_stmt {A X} _.
Arguments sel_consts {A X} _.
Arguments sel_windows {A X} _.
Arguments sel_groups {A X} _.
Arguments sel_dflt_group {A X} _.
Arguments sel_max_groups {A X} _.

(** [Res]: what an event leads to. *)
Inductive Res : Type :=
| RsEvent
| RsNone
| RsData (d : EventAndInsights).

Module Sel.
Section sel.
Context {A X : Type} `{TremorAggrFn A} `{ImutRun A X} (encode : Value -> string).

Definition set_groups (s : Select A X) (groups : gmap string (Group A X)) : Select A X :=
  mkSelect (sel_stmt s) (sel_consts s) (sel_windows s) groups (sel_dflt_group s) (sel_max_groups s).
Definition set_dflt (s : Select A X) (g : Group A X) : Select A X :=
  mkSelect (sel_stmt s) (sel_consts s) (sel_windows s) (sel_groups s) g (sel_max_groups s).
Definition set_consts (s : Select A X) (c : Consts) : Select A X :=
  mkSelect (sel_stmt s) c (sel_windows s) (sel_groups s) (sel_dflt_group s) (sel_max_groups s).

(** The part of a window's name after the last [::]. *)
Fixpoint ident_name_from (last : string) (fqwn : string) : string :=
  match fqwn with
  | String ":"%char (String ":"%char rest) => ident_name_from rest rest
  | String _ rest => ident_name_from last rest
  | EmptyString => last
  end.
Definition ident_name (fqwn : string) : string := ident_name_from fqwn fqwn.

(** The least [max_groups] of the windows, 0 without windows. *)
Definition min_max_groups (ws : list Window) : Z :=
  match ws with
  | [] => 0
  | w :: ws => fold_left (fun m w => Z.min m (WImpl.max_groups (win_impl w))) ws (WImpl.max_groups (win_impl w))
  end.

Definition from_stmt (operator_uid : OperatorId) (windows : list (string * Impl))
    (stmt : SelectStmt A X) (consts : Consts) : Select A X :=
  let windows := (fun '(fqwn, i) => mkWindow i (ident_name fqwn)) <$> windows in
  let windows_itr := imap (fun i w => (Z.of_nat i, w)) windows in
  mkSelect stmt consts windows ∅
    (mkGroup Val.const_null (Frame.from_windows (st_aggregates stmt) operator_uid windows_itr))
    (min_max_groups windows).

Definition into_insights (r : Res) (event : Event) : EventAndInsights :=
  match r with
  | RsEvent => EAI.from_event event
  | RsNone => EAI.default
  | RsData data => data
  end.

(** The state of [on_event]: the operator, the event's data and the events emitted. *)
Definition St : Type := Select A X * ValueAndMeta * list (Port * Event).
Definition SM := M St pipe_error.

(** One group of the event: a known group runs and is removed when it holds nothing; for
    an unknown one the default group runs, and is copied when it holds data. *)
Definition run_group (event : Event) (group_value : Value) : SM unit := fun '(s, data, events) =>
  let group_str := sorted_serialize encode group_value in
  let cardinality := size (sel_groups s) in
  let ctx := mkEventCtx (ev_ingest_ns event) (ev_origin_uri event) cardinality in
  let sel_ctx := mkSelectCtx (st_target (sel_stmt s)) (st_having (sel_stmt s)) ctx (ev_id event)
                   (ev_ingest_ns event) (ev_op_meta event) (ev_origin_uri event) (ev_transactional event) in
  match sel_groups s !! group_str with
  | Some g =>
      let '((g, data, events), r) := Grp.on_event g sel_ctx (sel_consts s) data events in
      match r with
      | Ok true => ((set_groups s (delete group_str (sel_groups s)), data, events), Ok tt)
      | Ok false => ((set_groups s (<[group_str := g]> (sel_groups s)), data, events), Ok tt)
      | Err e => ((set_groups s (<[group_str := g]> (sel_groups s)), data, events), Err e)
      | Panic => ((set_groups s (<[group_str := g]> (sel_groups s)), data, events), Panic)
      end
  | None =>
      let dflt := mkGroup (Val.try_push (VString group_str) group_value) (grp_windows (sel_dflt_group s)) in
      let '((g, data, events), r) := Grp.on_event dflt sel_ctx (sel_consts s) data events in
      match r with
      | Ok true => ((set_dflt s g, data, events), Ok tt)
      | Ok false =>
          if decide (sel_max_groups s <= Z.of_nat cardinality)
          then ((set_dflt s g, data, events), Err (ScriptError "Maxmimum amount of groups reached"))
          else ((set_dflt (set_groups s (<[group_str := g]> (sel_groups s))) (Grp.reset g), data, events), Ok tt)
      | Err e => ((set_dflt s g, data, events), Err e)
      | Panic => ((set_dflt s g, data, events), Panic)
      end
  end.

(** The body run on the event's data. *)
Definition process (event : Event) : SM Res :=
  '(s, data, _) ← m_get;
  let stmt := sel_stmt s in
  let ctx := mkEventCtx (ev_ingest_ns event) (ev_origin_uri event) (size (sel_groups s)) in
  let no_aggrs : list (InvokeAggrFn A X) := [] in
  pass ← m_lift (run_guard (st_where stmt) ctx (sel_consts s) no_aggrs (vm_value data) (vm_meta data)).2;
  if negb pass then mret RsNone else
  match st_group_by stmt, sel_windows s with
  | None, [] =>
      let consts := set_group (sel_consts s) (VArray [Val.const_null; VString "[null]"]) in
      _ ← m_put (set_consts s consts, data, []);
      value ← m_lift (run_expr (st_target stmt) ctx consts no_aggrs (vm_value data) (vm_meta data)).2;
      having ← m_lift (run_guard (st_having stmt) ctx consts no_aggrs value (vm_meta data)).2;
      if (having : bool)
      then _ ← m_put (set_consts s consts, mkVM value (vm_meta data), []); mret RsEvent
      else mret RsNone
  | group_by, _ =>
      group_values ←
        match group_by with
        | Some g => groups ← m_lift (generate_groups g ctx (vm_value data) (vm_meta data));
                    mret (VArray <$> groups)
        | None => mret [VArray [Val.const_null]]
        end;
      _ ← m_for group_values (run_group event);
      '(_, _, events) ← m_get;
      mret (RsData (EAI.from_events events))
  end.

Definition on_event (s : Select A X) (uid : OperatorId) (port : Port) (state : Value) (event : Event)
  : (Select A X * Value) * res pipe_error EventAndInsights :=
  let '((s, data, _), r) := process event (s, ev_data event, []) in
  ((s, state), let? x := r in Ok (into_insights x (Evt.set_data event data))).

(** *** Ticks

    The state of the loop over the groups: the groups, the shared data, the events emitted
    and the keys to remove. *)
Definition TickSt : Type := gmap string (Group A X) * ValueAndMeta * list (Port * Event) * list string.

Definition tick_group (s : Select A X) (consts : Consts) (ingest_ns : Z) (cardinality : nat)
    (group_str : string) : M TickSt pipe_error unit := fun '(groups, data, events, to_remove) =>
  match groups !! group_str with
  | None | Some (mkGroup _ []) => ((groups, data, events, to_remove), Ok tt)
  | Some (mkGroup value (w :: next)) =>
      let '(i, r) := WImpl.on_tick (gw_window w) ingest_ns in
      let w := Frame.set_impl w i in
      let put w next := <[group_str := mkGroup value (w :: next)]> groups in
      match r with
      | Err e => ((put w next, data, events, to_remove), Err e)
      | Panic => ((put w next, data, events, to_remove), Panic)
      | Ok window_event =>
          if act_emit window_event then
            let '(outgoing_event_id, w) := Frame.reset_event_id w in
            let run := mkConsts (c_args consts) value (gw_name w) in
            let ectx := mkEventCtx ingest_ns None cardinality in
            let ctx := mkSelectCtx (st_target (sel_stmt s)) (st_having (sel_stmt s)) ectx outgoing_event_id
                         ingest_ns ∅ None (gw_transactional w) in
            match Frame.m_emit run (w, next, mkShared ctx data events) with
            | ((w, next, sh), Err e) => ((put w next, sh_data sh, sh_events sh, to_remove), Err e)
            | ((w, next, sh), Panic) => ((put w next, sh_data sh, sh_events sh, to_remove), Panic)
            | ((w, next, sh), Ok _) =>
                let '((next, sh), r) :=
                  Frame.on_event next run (Some (gw_holds_data w, gw_aggrs w)) true sh in
                match r with
                | Err e => ((put w next, sh_data sh, sh_events sh, to_remove), Err e)
                | Panic => ((put w next, sh_data sh, sh_events sh, to_remove), Panic)
                | Ok can_remove =>
                    ((put (Frame.reset w) next, sh_data sh, sh_events sh,
                      if (can_remove : bool) then to_remove ++ [group_str] else to_remove), Ok tt)
                end
            end
          else ((put w next, data, events, to_remove), Ok tt)
      end
  end.

(** [on_signal] with the groups visited in the order of [keys].  An error leaves the groups as
    they are at that point, none removed, and the events emitted so far are dropped. *)
Definition on_signal_in (keys : list string) (s : Select A X) (uid : OperatorId) (state : Value)
    (signal : Event) : (Select A X * Value * Event) * res pipe_error EventAndInsights :=
  if negb (bool_decide (ev_kind signal = Some SigTick)) || (if sel_windows s then true else false)
     || bool_decide (size (sel_groups s) = 0%nat)
  then ((s, state, signal), Ok EAI.default)
  else
    let consts := mkConsts Val.const_null Val.const_null Val.const_null in
    let s := set_consts s consts in
    let '((groups, _, events, to_remove), r) :=
      m_for keys (tick_group s consts (ev_ingest_ns signal) (size (sel_groups s)))
        (sel_groups s, mkVM Val.const_null Val.object, [], []) in
    match r with
    | Ok _ => ((set_groups s (foldr delete groups to_remove), state, signal), Ok (EAI.from_events events))
    | Err e => ((set_groups s groups, state, signal), Err e)
    | Panic => ((set_groups s groups, state, signal), Panic)
    end.

Definition on_signal (s : Select A X) : OperatorId -> Value -> Event ->
    (Select A X * Value * Event) * res pipe_error EventAndInsights :=
  on_signal_in (map_to_list (sel_groups s)).*1 s.

Definition handles_signal (s : Select A X) : bool := true.

End sel.
End Sel.

Definition Select_Operator {A X} `{TremorAggrFn A} `{ImutRun A X} (encode : Value -> string)
  : Operator (Select A X) :=
  mkOperator _ (Sel.on_event encode) Sel.handles_signal Sel.on_signal OpDefault.handles_contraflow
    OpDefault.on_contraflow OpDefault.metrics OpDefault.skippable OpDefault.initial_state.
