(* ===== verification/WindowProps.v ===== *)
(** * Windows and groups: theorems

    What tumbling count windows promise, for any expression language and any lawful aggregate
    functions: an abstract machine ([feed]) that cuts the events into consecutive groups of
    the product of the sizes ([feed_run_tumbles]), and the simulation of it by the tilt frames
    of a group ([frames_feed], [group_feed]).  SelectProps.v lifts this to the operator. *)
From S2P Require Import Prelude EventId Value Event Common Operator BasicOps Window Select.

(** ** Lawful aggregates

    [aggr_holds a l]: the state [a] aggregates the argument vectors [l], in order.
    Accumulating adds a vector, merging adds those of the other state, [init] forgets all. *)
Class LawfulAggr (A : Type) `{TremorAggrFn A} : Type := mkLawfulAggr {
  aggr_holds : A -> list (list Value) -> Prop;
  holds_init a : aggr_holds (aggr_init a) [];
  holds_accumulate a l argv : aggr_holds a l ->
    exists a', aggr_accumulate a argv = (a', Ok tt) /\ aggr_holds a' (l ++ [argv]);
  holds_merge a b l l' : aggr_holds a l -> aggr_holds b l' ->
    exists a', aggr_merge a b = (a', Ok tt) /\ aggr_holds a' (l ++ l')
}.

(** Expressions whose evaluation succeeds; emitting an aggregate does not change what it
    holds. *)
Class TotalRun (A X : Type) `{LawfulAggr A} `{ImutRun A X} : Type := mkTotalRun {
  total_run x ctx consts (aggrs : list (InvokeAggrFn A X)) v m :
    exists aggrs' r, run_expr x ctx consts aggrs v m = (aggrs', Ok r)
      /\ Forall2 (fun a a' => ia_args a' = ia_args a
                   /\ forall l, aggr_holds (ia_invocable a) l -> aggr_holds (ia_invocable a') l) aggrs aggrs'
}.

(** ** The abstract machine of tumbling count windows

    A frame: its size, how often it was fed since it last emitted, and the events it holds. *)
Record frame_abs : Type := mkFA { fa_size : Z; fa_count : Z; fa_items : list Event }.

Definition fa_empty (a : frame_abs) : bool := match fa_items a with [] => true | _ => false end.

(** Feeding [x] to a chain of frames: a full frame emits what it holds and feeds the next
    one with it.  The second component is what the first frames emit, in their order. *)
Fixpoint feed (st : list frame_abs) (x : list Event) : list frame_abs * list (list Event) :=
  match st with
  | [] => ([], [])
  | mkFA n c l :: st =>
      if n <=? c + 1 then
        let '(st', em) := feed st (l ++ x) in (mkFA n 0 [] :: st', (l ++ x) :: em)
      else (mkFA n (c + 1) (l ++ x) :: st, [])
  end.

Fixpoint feed_run (st : list frame_abs) (xs : list (list Event)) : list frame_abs * list (list (list Event)) :=
  match xs with
  | [] => (st, [])
  | x :: xs => let '(st, em) := feed st x in
               let '(st, ems) := feed_run st xs in (st, em :: ems)
  end.

Definition fresh (sizes : list Z) : list frame_abs := (fun n => mkFA n 0 []) <$> sizes.

Definition singletons (es : list Event) : list (list Event) := (fun e => [e]) <$> es.

(** What the frame at [k] emits over a run. *)
Definition level (k : nat) (ems : list (list (list Event))) : list (list Event) := omap (.!! k) ems.

Lemma feed_run_level_S a st xs k :
  level (S k) (feed_run (a :: st) xs).2 = level k (feed_run st (level 0 (feed_run (a :: st) xs).2)).2.
Proof.
  revert a st. induction xs as [|x xs IH]; intros [n c l] st; [done|].
  cbn [feed_run feed]. destruct (n <=? c + 1).
  - destruct (feed st (l ++ x)) as [st' em] eqn:Hf. specialize (IH (mkFA n 0 []) st').
    destruct (feed_run (_ :: st') xs) as [st2 ems]. unfold level in *. csimpl in *.
    rewrite Hf. destruct (feed_run st' _) as [st3 ems3]. csimpl. by rewrite IH.
  - specialize (IH (mkFA n (c + 1) (l ++ x)) st).
    destruct (feed_run (_ :: st) xs) as [st2 ems]. unfold level in *. csimpl in *. by rewrite IH.
Qed.

(** One frame fed with groups of [m] events emits consecutive groups of [size * m]. *)
Lemma feed_run_head n c l st xs m :
  0 <= c < n -> Z.of_nat (length l) = c * m -> Forall (fun x => Z.of_nat (length x) = m) xs ->
  let gs := level 0 (feed_run (mkFA n c l :: st) xs).2 in
  Forall (fun g => Z.of_nat (length g) = n * m) gs
  /\ exists rest, concat gs ++ rest = l ++ concat xs /\ (0 < m -> Z.of_nat (length rest) < n * m).
Proof.
  intros Hc Hl Hxs. revert c l st Hc Hl. induction Hxs as [|x xs Hx Hxs IH]; intros c l st Hc Hl.
  { split; [constructor|]. exists l. cbn. rewrite app_nil_r. split; [done|nia]. }
  cbn [feed_run feed]. destruct (n <=? c + 1) eqn:Hn.
  - destruct (feed st (l ++ x)) as [st' em]. destruct (IH 0 [] st') as [Hg (rest&Hr&Hlt)]; [lia|simpl; lia|].
    destruct (feed_run (_ :: st') xs) as [st2 ems]. unfold level in *. csimpl in *.
    split; [constructor; [rewrite length_app; nia|done]|]. exists rest. split; [|done].
    rewrite <- app_assoc, Hr. by rewrite app_assoc.
  - destruct (IH (c + 1) (l ++ x) st) as [Hg (rest&Hr&Hlt)]; [lia|rewrite length_app; nia|].
    destruct (feed_run (_ :: st) xs) as [st2 ems]. unfold level in *. csimpl in *.
    split; [done|]. exists rest. split; [|done]. by rewrite Hr, app_assoc.
Qed.

Definition product (sizes : list Z) : Z := foldr Z.mul 1 sizes.

Lemma length_concat_uniform {A} (xs : list (list A)) m :
  Forall (fun x => Z.of_nat (length x) = m) xs -> Z.of_nat (length (concat xs)) = m * Z.of_nat (length xs).
Proof. induction 1 as [|x xs Hx _ IH]; simpl; [lia|]. rewrite length_app. lia. Qed.

(** The frame at [k] emits consecutive groups of the product of the sizes up to it. *)
Lemma feed_run_tumbles sizes xs m k :
  Forall (fun n => 0 < n) sizes -> 0 < m -> Forall (fun x => Z.of_nat (length x) = m) xs -> (k < length sizes)%nat ->
  let gs := level k (feed_run (fresh sizes) xs).2 in
  Forall (fun g => Z.of_nat (length g) = product (take (S k) sizes) * m) gs
  /\ exists rest, concat gs ++ rest = concat xs
       /\ Z.of_nat (length rest) < product (take (S k) sizes) * m.
Proof.
  intros Hs. revert xs m k. induction Hs as [|n sizes Hn Hs IH]; intros xs m k Hm Hxs Hk; [simpl in Hk; lia|].
  destruct (feed_run_head n 0 [] (fresh sizes) xs m) as [Hg (rest&Hr&Hlt)]; [lia|simpl; lia|done|].
  change (fresh (n :: sizes)) with (mkFA n 0 [] :: fresh sizes).
  destruct k as [|k]; cbn [take product foldr].
  { cbn zeta. rewrite Z.mul_1_r. split; [done|]. exists rest. split; [done|]. by apply Hlt. }
  rewrite feed_run_level_S. set (gs1 := level 0 _) in *.
  destruct (IH gs1 (n * m) k ltac:(nia) Hg) as [Hg' (rest'&Hr'&Hlt')]; [simpl in Hk; lia|].
  fold (product (take (S k) sizes)). set (P := product (take (S k) sizes)) in *.
  split; [eapply Forall_impl; [exact Hg'|]; simpl; intros; nia|].
  exists (rest' ++ rest). rewrite app_assoc, Hr'. split; [done|].
  apply (f_equal length) in Hr'. rewrite length_app in Hr'. rewrite length_app.
  pose proof (length_concat_uniform _ _ Hg'). pose proof (length_concat_uniform _ _ Hg).
  set (q := level k _) in *. specialize (Hlt Hm).
  assert (Z.of_nat (length rest') = (n * m) * (Z.of_nat (length gs1) - P * Z.of_nat (length q))) as Hd by nia.
  set (d := Z.of_nat (length gs1) - _) in *. assert (d <= P - 1) by nia. nia.
Qed.

(** ** What a frame holds *)
Section frames.
Context {A X : Type} `{Htot : TotalRun A X}.
Notation Aggrs := (list (InvokeAggrFn A X)).
(** The argument expressions of the statement's aggregates. *)
Variable args : list (list X).

(** [vs]: the argument vectors of the event [e], one per aggregate. *)
Definition args_of (e : Event) (vs : list (list Value)) : Prop :=
  exists ctx consts, ec_at ctx = ev_ingest_ns e /\ ec_origin_uri ctx = ev_origin_uri e
    /\ Forall2 (fun xs v => Frame.run_args xs ctx consts (ev_data e) = Ok v) args vs.

(** The aggregates hold the argument vectors of exactly these events, in order. *)
Definition aggrs_hold (aggrs : Aggrs) (vss : list (list (list Value))) : Prop :=
  ia_args <$> aggrs = args
  /\ forall k a, aggrs !! k = Some a -> aggr_holds (ia_invocable a) ((fun vs => nth k vs []) <$> vss).

Definition aggregates (aggrs : Aggrs) (items : list Event) : Prop :=
  exists vss, Forall2 args_of items vss /\ aggrs_hold aggrs vss.

(** An id that covers the events. *)
Definition covers (id : EventId) (items : list Event) : Prop :=
  wf_id id /\ Forall (fun e => in_map (id_map id) (ev_id e)) items
  /\ (items <> [] -> tracked_pull_ids id <> []).

Definition content (w : GroupWindow A X) (items : list Event) : Prop :=
  covers (gw_id w) items
  /\ gw_transactional w = existsb ev_transactional items
  /\ gw_holds_data w = negb (fa_empty (mkFA 0 0 items))
  /\ aggregates (gw_aggrs w) items.

(** The context passes the events [x] on. *)
Definition passes_on (ctx : SelectCtx X) (x : list Event) : Prop :=
  wf_id (sc_event_id ctx) /\ Forall (fun e => in_map (id_map (sc_event_id ctx)) (ev_id e)) x
  /\ sc_transactional ctx = existsb ev_transactional x.

(** What is recorded: the root's event, or what the previous frame holds. *)
Definition source_ok (sh : Shared X) (prev : option (bool * Aggrs)) (x : list Event) : Prop :=
  match prev with
  | None => exists e, x = [e] /\ ec_at (sc_ctx (sh_ctx sh)) = ev_ingest_ns e
              /\ ec_origin_uri (sc_ctx (sh_ctx sh)) = ev_origin_uri e /\ sh_data sh = ev_data e
  | Some (had_data, aggrs) => had_data = true /\ aggregates aggrs x
  end.

Lemma run_args_total xs ctx consts data : exists vs, Frame.run_args xs ctx consts data = Ok vs.
Proof.
  induction xs as [|x xs [vs IH]]; [by eexists|]. cbn [Frame.run_args].
  destruct (total_run x ctx consts [] (vm_value data) (vm_meta data)) as (?&v&->&_). simpl.
  rewrite IH. by eexists.
Qed.

Lemma accumulate_aggrs_hold aggrs vss ctx consts data :
  aggrs_hold aggrs vss ->
  exists aggrs' vs, Frame.accumulate_aggrs aggrs ctx consts data = (aggrs', Ok tt)
    /\ Forall2 (fun xs v => Frame.run_args xs ctx consts data = Ok v) args vs
    /\ aggrs_hold aggrs' (vss ++ [vs]).
Proof.
  intros [Hargs Hh].
  enough (forall off : nat,
    (forall k a, aggrs !! k = Some a -> aggr_holds (ia_invocable a) ((fun vs => nth (off + k) vs []) <$> vss)) ->
    exists aggrs' vs, Frame.accumulate_aggrs aggrs ctx consts data = (aggrs', Ok tt)
      /\ ia_args <$> aggrs' = ia_args <$> aggrs
      /\ Forall2 (fun xs v => Frame.run_args xs ctx consts data = Ok v) (ia_args <$> aggrs) vs
      /\ forall k a, aggrs' !! k = Some a ->
           aggr_holds (ia_invocable a) (((fun vs => nth (off + k) vs []) <$> vss) ++ [nth k vs []])) as Hgen.
  { destruct (Hgen 0%nat Hh) as (aggrs'&vs&Heq&Ha&Hv&Hk). exists aggrs', vs. rewrite <- Hargs.
    split_and!; [done..|]. split; [congruence|]. intros k a Hka. rewrite fmap_app. csimpl.
    by apply Hk. }
  clear Hargs Hh. induction aggrs as [|a aggrs IH]; intros off Hh.
  { exists [], []. split_and!; done. }
  destruct (run_args_total (ia_args a) ctx consts data) as [v Hv].
  destruct (holds_accumulate (ia_invocable a) _ v (Hh 0%nat a eq_refl)) as (i&Hi&Hi').
  destruct (IH (S off)) as (aggrs'&vs&Heq&Ha&Hvs&Hk).
  { intros k b Hb. specialize (Hh (S k) b Hb). by rewrite Nat.add_succ_r in Hh. }
  exists (mkInvoke i (ia_args a) :: aggrs'), (v :: vs). cbn [Frame.accumulate_aggrs].
  rewrite Hv, Hi, Heq. csimpl. split_and!; [done|by rewrite Ha|by constructor|].
  intros [|k] b Hb; simplify_eq/=; [done|]. specialize (Hk k b Hb). by rewrite Nat.add_succ_r.
Qed.

Lemma merge_aggrs_hold aggrs prev vss vss' :
  aggrs_hold aggrs vss -> aggrs_hold prev vss' ->
  exists aggrs', Frame.merge_aggrs aggrs prev = (aggrs', Ok tt) /\ aggrs_hold aggrs' (vss ++ vss').
Proof.
  intros [Hargs Hh] [Hargs' Hh'].
  enough (forall off : nat, ia_args <$> aggrs = ia_args <$> prev ->
    (forall k a, aggrs !! k = Some a -> aggr_holds (ia_invocable a) ((fun vs => nth (off + k) vs []) <$> vss)) ->
    (forall k a, prev !! k = Some a -> aggr_holds (ia_invocable a) ((fun vs => nth (off + k) vs []) <$> vss')) ->
    exists aggrs', Frame.merge_aggrs aggrs prev = (aggrs', Ok tt)
      /\ ia_args <$> aggrs' = ia_args <$> aggrs
      /\ forall k a, aggrs' !! k = Some a ->
           aggr_holds (ia_invocable a) ((fun vs => nth (off + k) vs []) <$> vss ++ vss')) as Hgen.
  { destruct (Hgen 0%nat) as (aggrs'&Heq&Ha&Hk); [congruence|done..|]. exists aggrs'. split; [done|].
    split; [congruence|done]. }
  clear Hargs Hh Hargs' Hh'. revert prev. induction aggrs as [|a aggrs IH]; intros [|p prev] off Hargs Hh Hh';
    simplify_eq/=; [by exists []|].
  destruct (holds_merge _ _ _ _ (Hh 0%nat a eq_refl) (Hh' 0%nat p eq_refl)) as (i&Hi&Hi').
  destruct (IH prev (S off)) as (aggrs'&Heq&Ha&Hk); [done| | |].
  { intros k b Hb. specialize (Hh (S k) b Hb). by rewrite Nat.add_succ_r in Hh. }
  { intros k b Hb. specialize (Hh' (S k) b Hb). by rewrite Nat.add_succ_r in Hh'. }
  exists (mkInvoke i (ia_args a) :: aggrs'). rewrite Hi, Heq. csimpl.
  split_and!; [done|by rewrite Ha|]. intros [|k] b Hb; simplify_eq/=; [by rewrite fmap_app|].
  specialize (Hk k b Hb). by rewrite Nat.add_succ_r.
Qed.

Lemma covers_track id items ctx x :
  covers id items -> passes_on ctx x -> covers (EvId.track id (sc_event_id ctx)) (items ++ x).
Proof.
  intros (Hw&Hin&_) (Hwx&Hinx&_). destruct (track_join _ _ Hw Hwx) as [Hw' Hmap].
  split_and!; [done| |intros _; by apply tracked_not_nil].
  rewrite Hmap. apply Forall_app. split; (eapply Forall_impl; [eassumption|]); simpl; intros e.
  - apply in_map_join_l.
  - apply in_map_join_r.
Qed.

(** Recording adds the events to what the frame holds. *)
Lemma record_content consts prev w next sh items x :
  content w items -> passes_on (sh_ctx sh) x -> x <> [] -> source_ok sh prev x ->
  exists w', Frame.m_record consts prev (w, next, sh) = ((w', next, sh), Ok tt)
    /\ content w' (items ++ x) /\ gw_window w' = gw_window w
    /\ gw_id w' = EvId.track (gw_id w) (sc_event_id (sh_ctx sh)).
Proof.
  intros (Hc&Ht&Hh&vss&Hvss&Ha) Hp Hx Hs.
  assert (Hcontent : forall aggrs, aggregates aggrs (items ++ x) ->
    content (Frame.set_aggrs (Frame.mark w (sh_ctx sh)) aggrs) (items ++ x)).
  { intros aggrs Hagg. split_and!; [by apply covers_track| | |done]; cbn.
    - rewrite Ht, existsb_app. f_equal. apply Hp.
    - destruct items; simpl; [by destruct x|done]. }
  destruct prev as [[had prev]|]; cbn [source_ok] in Hs.
  - destruct Hs as (->&vss'&Hvss'&Ha'). unfold Frame.m_record, Frame.merge.
    destruct (merge_aggrs_hold (gw_aggrs w) prev vss vss' Ha Ha') as (aggrs'&Heq&Ha2).
    cbn [Frame.mark gw_aggrs]. rewrite Heq. eexists. split; [done|].
    split; [|done]. apply Hcontent. exists (vss ++ vss'). split; [by apply Forall2_app|done].
  - destruct Hs as (e&->&Hat&Hor&Hd). unfold Frame.m_record, Frame.accumulate.
    cbn [Frame.mark gw_aggrs gw_name].
    destruct (accumulate_aggrs_hold (gw_aggrs w) vss (sc_ctx (sh_ctx sh)) (set_window consts (gw_name w)) (sh_data sh) Ha)
      as (aggrs'&vs&Heq&Hvs&Ha2).
    rewrite Heq. eexists. split; [done|]. split; [|done]. apply Hcontent. exists (vss ++ [vs]).
    split; [|done]. apply Forall2_app; [done|]. constructor; [|constructor].
    eexists _, _. split_and!; [done..|]. by rewrite <- Hd.
Qed.

(** An event emitted for [items]: its id tracks each of them, it is transactional when one of
    them is, and its value is the select clause on aggregates that hold them all. *)
Definition emitted (target : X) (items : list Event) (pe : Port * Event) : Prop :=
  pe.1 = Ports.OUT /\ ev_is_batch pe.2 = false /\ wf_id (ev_id pe.2)
  /\ Forall (fun e => EvId.is_tracking (ev_id pe.2) (ev_id e) = true) items
  /\ ev_transactional pe.2 = existsb ev_transactional items
  /\ exists aggrs ctx consts v m, aggregates aggrs items
       /\ (run_expr target ctx consts aggrs v m).2 = Ok (vm_value (ev_data pe.2)).

Lemma aggregates_same aggrs aggrs' items :
  Forall2 (fun a a' : InvokeAggrFn A X => ia_args a' = ia_args a
            /\ forall l, aggr_holds (ia_invocable a) l -> aggr_holds (ia_invocable a') l) aggrs aggrs' ->
  aggregates aggrs items -> aggregates aggrs' items.
Proof.
  intros Hsame (vss&Hv&Hargs&Hh). exists vss. split; [done|]. split.
  - rewrite <- Hargs. clear -Hsame. induction Hsame as [|a a' l l' [Ha _] _ IH]; csimpl; [done|].
    by rewrite Ha, IH.
  - intros k a' Ha'. destruct (Forall2_lookup_r _ _ _ _ _ Hsame Ha') as (a&Ha&_&Hi). by apply Hi, Hh.
Qed.

(** Taking the id and emitting. *)
Lemma emit_content consts w next sh items :
  content w items -> items <> [] -> sc_having (sh_ctx sh) = None ->
  exists w' ctx' pe,
    Frame.m_emit consts (Frame.m_take_id (w, next, sh)).1
      = ((w', next, mkShared ctx' (sh_data sh) (sh_events sh ++ [pe])), Ok tt)
    /\ emitted (sc_target (sh_ctx sh)) items pe /\ passes_on ctx' items
    /\ sc_having ctx' = None /\ sc_target ctx' = sc_target (sh_ctx sh)
    /\ gw_holds_data w' = true /\ aggregates (gw_aggrs w') items
    /\ gw_window w' = gw_window w /\ wf_id (gw_id w').
Proof.
  intros ((Hw&Hin&Hne)&Ht&Hh&Ha) Hi Hhav.
  assert (Hhd : gw_holds_data w = true) by (rewrite Hh; by destruct items).
  set (ctx := set_transactional (set_event_id (sh_ctx sh) (gw_id w)) (gw_transactional w)).
  destruct (total_run (sc_target ctx) (sc_ctx ctx) (set_window consts (gw_name w)) (gw_aggrs w)
    (vm_value (sh_data sh)) (vm_meta (sh_data sh))) as (aggrs'&r&Hr&Hsame).
  exists (Frame.set_aggrs (Frame.reset_event_id w).2 aggrs'), ctx, (Ports.OUT,
    mkEvent (gw_id w) (mkVM r (vm_meta (sh_data sh))) (sc_ingest_ns ctx) (sc_origin_uri ctx) None false CbNone
      (sc_op_meta ctx) (gw_transactional w)).
  split.
  { unfold Frame.m_take_id, Frame.m_emit. cbn. rewrite Hhd.
    unfold execute_select_and_having. fold ctx. change (gw_name _) with (gw_name w) in *.
    cbn [gw_aggrs gw_name] in *. rewrite Hr. cbn [ctx set_transactional set_event_id sc_having].
    rewrite Hhav. reflexivity. }
  split_and!; try done; cbn.
  - split_and!; try done; cbn.
    + eapply Forall_impl; [exact Hin|]. simpl. intros e He. apply is_tracking_map; auto.
    + exists (gw_aggrs w), (sc_ctx ctx), (set_window consts (gw_name w)), (vm_value (sh_data sh)), (vm_meta (sh_data sh)).
      split; [done|]. change (sc_target (sh_ctx sh)) with (sc_target ctx). by rewrite Hr.
  - by eapply aggregates_same.
  - apply wf_new.
Qed.

(** ** Simulation *)
Definition models (w : GroupWindow A X) (a : frame_abs) : Prop :=
  (exists mg ne, gw_window w = ICount (mkTON (fa_count a) mg (fa_size a) ne None))
  /\ 0 <= fa_count a < fa_size a /\ fa_size a < 2 ^ 64 /\ content w (fa_items a).

Lemma reset_models w n items mg ne :
  gw_window w = ICount (mkTON 0 mg n ne None) -> 0 < n < 2 ^ 64 -> wf_id (gw_id w) ->
  aggregates (gw_aggrs w) items -> models (Frame.reset w) (mkFA n 0 []).
Proof.
  intros Hw Hn Hid (vss&_&Hargs&_). split_and!; try (simpl; lia); [by exists mg, ne|].
  split_and!; try done. exists []. split; [constructor|]. cbn. split.
  - rewrite <- Hargs. clear. generalize (gw_aggrs w). intros l. induction l as [|b l IH]; csimpl; [done|]. by rewrite IH.
  - intros k a. rewrite list_lookup_fmap. intros (b&Hb&->)%fmap_Some. apply holds_init.
Qed.

Lemma window_count w a next sh :
  models w a -> exists w' act, Frame.m_window (w, next, sh) = ((w', next, sh), Ok act)
    /\ content w' (fa_items a)
    /\ (if fa_size a <=? fa_count a + 1
        then act = Act.all_true /\ exists mg ne, gw_window w' = ICount (mkTON 0 mg (fa_size a) ne None)
        else act = Act.all_false /\ exists mg ne, gw_window w' = ICount (mkTON (fa_count a + 1) mg (fa_size a) ne None)).
Proof.
  intros ((mg&ne&Hw)&Hc&Hn&Hcon). unfold Frame.m_window. rewrite Hw. cbn.
  unfold OnNumber.on_event. cbn. rewrite wrapping_add_small by (unfold is_u64; lia).
  destruct (fa_size a <=? fa_count a + 1) eqn:Hle; cbn; (do 2 eexists); (split; [by destruct sh|]);
    (split; [done|]); (split; [done|]); exists mg, ne; unfold OnNumber.set_count; cbn; [|done].
  do 2 f_equal. lia.
Qed.

Definition all_empty (st : list frame_abs) : bool := forallb fa_empty st.

(** A chain of count frames runs the abstract machine; it may be removed exactly when it is
    left empty. *)
Lemma frames_feed st : forall ws x prev sh consts,
  Forall2 models ws st -> x <> [] -> passes_on (sh_ctx sh) x -> source_ok sh prev x ->
  sc_having (sh_ctx sh) = None ->
  exists ws' ctx' evs,
    Frame.on_event ws consts prev true sh
      = ((ws', mkShared ctx' (sh_data sh) (sh_events sh ++ evs)), Ok (all_empty (feed st x).1))
    /\ Forall2 models ws' (feed st x).1
    /\ Forall2 (emitted (sc_target (sh_ctx sh))) (feed st x).2 evs.
Proof.
  induction st as [|a st IH]; intros ws x prev sh consts Hws Hx Hp Hs Hhav; inversion Hws as [|w ? next ? Hw Hnext]; subst.
  { exists [], (sh_ctx sh), []. rewrite app_nil_r. by destruct sh. }
  destruct a as [n c l]. destruct (window_count w (mkFA n c l) next sh Hw) as (w1&act&Hwin&Hcon&Hact).
  destruct Hw as (_&Hc&Hn&_). cbn [fa_size fa_count fa_items] in *. cbn [Frame.on_event feed].
  unfold mbind, M_bind. rewrite Hwin.
  destruct (record_content consts prev w1 next sh l x) as (w2&Hrec&Hcon2&Hwin2&_); [done..|].
  destruct (n <=? c + 1) eqn:Hle; destruct Hact as [-> (mg&ne&Hw1)]; cbn [act_include act_emit Act.all_true Act.all_false].
  - rewrite Hrec. assert (l ++ x <> []) as Hlx by (by destruct l).
    destruct (emit_content consts w2 next sh (l ++ x)) as (w3&ctx3&pe&Hem&Hpe&Hp3&Hhav3&Htgt3&Hh3&Ha3&Hw3&Hid3); [done..|].
    assert (Hok : (Frame.m_take_id (w2, next, sh)).2 = Ok tt) by done.
    destruct (Frame.m_take_id (w2, next, sh)) as [s3 r3]. cbn in Hem, Hok. subst r3. rewrite Hem.
    destruct (IH next (l ++ x) (Some (gw_holds_data w3, gw_aggrs w3)) (mkShared ctx3 (sh_data sh) (sh_events sh ++ [pe])) consts)
      as (next'&ctx'&evs&Hon&Hm&Hev); [done..|].
    cbn [sh_ctx sh_data sh_events] in *. destruct (feed st (l ++ x)) as [st' em]. cbn [fst snd] in *.
    exists (Frame.reset w3 :: next'), ctx', (pe :: evs).
    assert (models (Frame.reset w3) (mkFA n 0 [])).
    { eapply (reset_models w3 n (l ++ x)); [by rewrite Hw3, Hwin2, Hw1|lia|done..]. }
    split_and!; [|by constructor|constructor; [done|by rewrite <- Htgt3]].
    destruct next as [|w' next]; [|by rewrite Hon, <- app_assoc].
    cbn in Hon. injection Hon as <- <- Hevs Hemp. rewrite Hevs, <- app_assoc. by rewrite Hemp.
  - unfold mret, M_ret. cbn beta iota zeta. rewrite Hrec. exists (w2 :: next), (sh_ctx sh), []. rewrite app_nil_r. cbn.
    split_and!; [|constructor; [|done]|constructor].
    + destruct sh. cbn. by destruct l, x.
    + split_and!; cbn; try lia; [|done]. exists mg, ne. by rewrite Hwin2.
Qed.

(** A frame that does not fill up only tracks and keeps its generator. *)
Lemma frame_not_full w a next x prev sh consts :
  models w a -> fa_count a + 1 < fa_size a -> x <> [] -> passes_on (sh_ctx sh) x -> source_ok sh prev x ->
  exists w', Frame.on_event (w :: next) consts prev true sh = ((w' :: next, sh), Ok false)
    /\ models w' (mkFA (fa_size a) (fa_count a + 1) (fa_items a ++ x))
    /\ gw_id w' = EvId.track (gw_id w) (sc_event_id (sh_ctx sh)).
Proof.
  intros Hw Hlt Hx Hp Hs. destruct (window_count w a next sh Hw) as (w1&act&Hwin&Hcon&Hact).
  destruct (fa_size a <=? fa_count a + 1) eqn:Hle; [lia|]. destruct Hact as [-> (mg&ne&Hw1)].
  destruct (record_content consts prev w1 next sh (fa_items a) x) as (w2&Hrec&Hcon2&Hwin2&Hid); [done..|].
  exists w2. cbn [Frame.on_event]. unfold mbind, M_bind. rewrite Hwin.
  cbn [act_include act_emit Act.all_false]. unfold mret, M_ret. cbn beta iota zeta. rewrite Hrec.
  split; [done|]. split.
  - destruct Hw as (_&Hc&Hn&_). split_and!; cbn; try lia; [|done]. exists mg, ne. by rewrite Hwin2.
  - rewrite Hid. f_equal. unfold Frame.m_window in Hwin. destruct (WImpl.on_event _ _ _ _) as [[i d] r].
    by injection Hwin as <- _.
Qed.

(** ** One group *)
Definition event_ctx (target : X) (card : nat) (e : Event) : SelectCtx X :=
  mkSelectCtx target None (mkEventCtx (ev_ingest_ns e) (ev_origin_uri e) card) (ev_id e)
    (ev_ingest_ns e) (ev_op_meta e) (ev_origin_uri e) (ev_transactional e).

Lemma group_feed g st target card consts e events :
  Forall2 models (grp_windows g) st -> st <> [] -> wf_id (ev_id e) ->
  exists g' evs,
    Grp.on_event g (event_ctx target card e) consts (ev_data e) events
      = ((g', ev_data e, events ++ evs), Ok (all_empty (feed st [e]).1))
    /\ Forall2 models (grp_windows g') (feed st [e]).1
    /\ Forall2 (emitted target) (feed st [e]).2 evs.
Proof.
  intros Hm Hne Hid. unfold Grp.on_event. inversion Hm as [Hnil|w a ws st' Hw Hws Heq]; [congruence|].
  destruct (frames_feed st (grp_windows g) [e] None (mkShared (event_ctx target card e) (ev_data e) events)
    (set_group consts (grp_value g))) as (ws'&ctx'&evs&Hon&Hm'&Hev); [done..| | |done|].
  - split_and!; [done|constructor; [apply in_map_own, Hid|constructor]|].
    cbn. by rewrite orb_false_r.
  - by exists e.
  - rewrite <- Heq in Hon. rewrite Hon. eexists (mkGroup (grp_value g) ws'), evs.
    subst st. split_and!; done.
Qed.

(** The machine is fresh again once it is empty. *)
Lemma feed_all_empty st x :
  x <> [] -> all_empty (feed st x).1 = true -> (feed st x).1 = fresh (fa_size <$> st).
Proof.
  revert x. induction st as [|[n c l] st IH]; intros x Hx; [done|]. cbn [feed].
  destruct (n <=? c + 1).
  - specialize (IH (l ++ x)). destruct (feed st (l ++ x)) as [st' em]. cbn in *. intros Hemp.
    unfold fresh in *. csimpl. f_equal. apply IH; [by destruct l|done].
  - cbn. by destruct l, x.
Qed.

Lemma feed_sizes st x : fa_size <$> (feed st x).1 = fa_size <$> st.
Proof.
  revert x. induction st as [|[n c l] st IH]; intros x; [done|]. cbn [feed].
  destruct (n <=? c + 1); [|done]. specialize (IH (l ++ x)). destruct (feed st (l ++ x)). csimpl in *.
  by rewrite IH.
Qed.

Lemma fresh_sizes sizes : fa_size <$> fresh sizes = sizes.
Proof. unfold fresh. induction sizes as [|n sizes IH]; csimpl; [done|]. by rewrite IH. Qed.

(** Resetting a group makes all its frames fresh, though not their ids. *)
Lemma group_reset_models g st :
  Forall2 models (grp_windows g) st ->
  Forall2 models (grp_windows (Grp.reset g)) (fresh (fa_size <$> st)).
Proof.
  intros Hm. destruct g as [v ws]. cbn in *. induction Hm as [|w a ws st Hw Hm IH]; csimpl; [constructor|].
  constructor; [|done]. destruct Hw as ((mg&ne&Hw)&Hc&Hn&(Hid&_&_)&_&_&Ha).
  change (models (Frame.reset (Frame.set_impl w (WImpl.reset (gw_window w)))) (mkFA (fa_size a) 0 [])).
  eapply (reset_models _ (fa_size a) (fa_items a)); [by rewrite Hw|lia|done|done].
Qed.
End frames.

Section fresh_frames.
Context {A X : Type} `{Htot : TotalRun A X}.

(** A count window of the given size, without a script. *)
Definition count_window (w : Window) (n : Z) : Prop :=
  exists mg, win_impl w = ICount (OnNumber.from_stmt n mg None).

Lemma from_windows_models (aggrs : list (InvokeAggrFn A X)) uid ws sizes :
  Forall (fun a => aggr_holds (ia_invocable a) []) aggrs ->
  Forall2 count_window ws.*2 sizes -> Forall (fun n => 0 < n < 2 ^ 64) sizes ->
  Forall2 (models (ia_args <$> aggrs)) (Frame.from_windows aggrs uid ws) (fresh sizes).
Proof.
  intros Ha. revert sizes. induction ws as [|[i w] ws IH]; intros sizes Hws Hs; csimpl in *;
    inversion Hws as [|? n ? sizes' [mg Hw] Hws']; subst; [constructor|].
  inversion Hs as [|? ? Hn Hs']; subst. constructor; [|by apply IH].
  split_and!; cbn; try lia; [by exists mg, 0|]. split_and!; try done; [by split_and!; [apply wf_new|constructor|]|].
  exists []. split; [constructor|]. split; [done|]. intros k a Hk. rewrite Forall_lookup in Ha. by apply (Ha k).
Qed.
End fresh_frames.
