(* ===== verification/SelectProps.v ===== *)
(** * The select operator: theorems

    A select statement with count windows treats each group key on its own
    ([select_groups_tumble]), and three places where the code falls short: the event that opens
    the next time window is not tracked ([time_boundary_untracked]), a refused group's data
    goes into the next new group ([refused_group_leaks]), and new groups share the id of the
    default group ([new_groups_share_ids]). *)
From S2P Require Import Prelude EventId Value Event Common Operator BasicOps Window Select WindowProps.

(** ** The abstract operator

    Each key has a machine of its own, fresh when the key is new. *)
Section spec.
Variable sizes : list Z.
Notation pending := (gmap string (list frame_abs)).

Definition machine (pend : pending) (k : string) : list frame_abs := default (fresh sizes) (pend !! k).

Fixpoint spec_run (pend : pending) (kes : list (string * Event)) : pending * list (string * list (list Event)) :=
  match kes with
  | [] => (pend, [])
  | (k, e) :: kes =>
      let '(st, em) := feed (machine pend k) [e] in
      let '(pend, ems) := spec_run (<[k := st]> pend) kes in
      (pend, (k, em) :: ems)
  end.

Definition of_key {B} (k : string) (l : list (string * B)) : list B :=
  omap (fun p => if decide (p.1 = k) then Some p.2 else None) l.

(** What a key emits depends on the events of that key alone. *)
Lemma spec_run_key pend kes k :
  of_key k (spec_run pend kes).2 = (feed_run (machine pend k) (singletons (of_key k kes))).2.
Proof.
  revert pend. induction kes as [|[k' e] kes IH]; intros pend; [done|].
  cbn [spec_run]. destruct (feed (machine pend k') [e]) as [st em] eqn:Hf.
  specialize (IH (<[k' := st]> pend)). destruct (spec_run _ kes) as [pend' ems].
  unfold of_key, machine in *. csimpl in *. case_decide as Hk.
  - subst k'. rewrite lookup_insert_eq in IH. csimpl. rewrite Hf. cbn in IH.
    destruct (feed_run st _) as [st' ems']. csimpl. by rewrite IH.
  - by rewrite lookup_insert_ne in IH.
Qed.

Lemma spec_run_app pend kes1 kes2 :
  (spec_run pend (kes1 ++ kes2)).2 = (spec_run pend kes1).2 ++ (spec_run (spec_run pend kes1).1 kes2).2
  /\ (spec_run pend (kes1 ++ kes2)).1 = (spec_run (spec_run pend kes1).1 kes2).1.
Proof.
  revert pend. induction kes1 as [|[k e] kes1 IH]; intros pend; [done|].
  cbn [spec_run app]. destruct (feed (machine pend k) [e]) as [st em].
  specialize (IH (<[k := st]> pend)). destruct (spec_run _ kes1) as [p1 e1].
  destruct (spec_run (<[k := st]> pend) (kes1 ++ kes2)) as [p2 e2]. cbn in *.
  destruct IH as [-> ->]. done.
Qed.
End spec.

Section select.
Context {A X : Type} `{Htot : TotalRun A X}.
Variable encode : Value -> string.
Variable stmt : SelectStmt A X.
Variable sizes : list Z.
(** The keys the operator may meet. *)
Variable keys : gset string.
Notation args := (ia_args <$> st_aggregates stmt).

(** The operator's groups run the machines of their keys; the default group is fresh. *)
Definition sel_ok (s : Select A X) (pend : gmap string (list frame_abs)) : Prop :=
  sel_stmt s = stmt /\ Z.of_nat (size keys) <= sel_max_groups s /\ dom (sel_groups s) ⊆ keys
  /\ sel_windows s <> []
  /\ Forall2 (models args) (grp_windows (sel_dflt_group s)) (fresh sizes)
  /\ forall k, match sel_groups s !! k with
               | Some g => Forall2 (models args) (grp_windows g) (machine sizes pend k)
               | None => machine sizes pend k = fresh sizes
               end
     /\ fa_size <$> machine sizes pend k = sizes.

Lemma sel_ok_update s pend k st :
  sel_ok s pend -> fa_size <$> st = sizes -> k ∈ keys ->
  forall groups dflt,
  Forall2 (models args) (grp_windows dflt) (fresh sizes) ->
  (forall k', k' <> k -> groups !! k' = sel_groups s !! k') ->
  match groups !! k with
  | Some g => Forall2 (models args) (grp_windows g) st
  | None => st = fresh sizes
  end ->
  sel_ok (Sel.set_dflt (Sel.set_groups s groups) dflt) (<[k := st]> pend).
Proof.
  intros (Hst&Hmax&Hdom&Hwin&_&Hg) Hsz Hk groups dflt Hd Hne Hgk. split_and!; try done; cbn.
  - intros k' Hk'. destruct (decide (k' = k)) as [->|Hkk]; [done|].
    apply Hdom. rewrite elem_of_dom in *. by rewrite <- Hne.
  - intros k'. unfold machine. destruct (decide (k' = k)) as [->|Hkk].
    + by rewrite lookup_insert_eq.
    + rewrite lookup_insert_ne, Hne by done. apply Hg.
Qed.

Hypothesis Hhaving : st_having stmt = None.
Hypothesis Hsizes : sizes <> [].

(** An unknown key runs the default group. *)
Lemma run_group_new s e gv events st :
  let k := sorted_serialize encode gv in
  sel_stmt s = stmt -> sel_groups s !! k = None -> wf_id (ev_id e) ->
  Forall2 (models args) (grp_windows (sel_dflt_group s)) st -> st <> [] ->
  exists g evs,
    Sel.run_group encode e gv (s, ev_data e, events) =
      (if all_empty (feed st [e]).1 then ((Sel.set_dflt s g, ev_data e, events ++ evs), Ok tt)
       else if decide (sel_max_groups s <= Z.of_nat (size (sel_groups s)))
       then ((Sel.set_dflt s g, ev_data e, events ++ evs), Err (ScriptError "Maxmimum amount of groups reached"))
       else ((Sel.set_dflt (Sel.set_groups s (<[k := g]> (sel_groups s))) (Grp.reset g), ev_data e, events ++ evs), Ok tt))
    /\ Forall2 (models args) (grp_windows g) (feed st [e]).1
    /\ Forall2 (emitted args (st_target stmt)) (feed st [e]).2 evs.
Proof.
  intros k Hst Hk Hid Hm Hne. unfold Sel.run_group. fold k. rewrite Hk, Hst, Hhaving.
  set (card := size (sel_groups s)).
  change (mkSelectCtx _ None _ _ _ _ _ _) with (event_ctx (st_target stmt) card e). set (dflt := mkGroup _ _).
  destruct (group_feed args dflt st (st_target stmt) card (sel_consts s) e events) as (g'&evs&->&Hm'&Hev); [done..|].
  exists g', evs. split; [|done]. by destruct (all_empty _).
Qed.

Lemma run_group_spec s pend data events event gv :
  let k := sorted_serialize encode gv in
  sel_ok s pend -> data = ev_data event -> wf_id (ev_id event) -> k ∈ keys ->
  exists s' evs, Sel.run_group encode event gv (s, data, events) = ((s', data, events ++ evs), Ok tt)
    /\ sel_ok s' (spec_run sizes pend [(k, event)]).1
    /\ Forall2 (emitted args (st_target stmt)) (concat (spec_run sizes pend [(k, event)]).2.*2) evs.
Proof.
  intros k Hok -> Hid Hk. unfold Sel.run_group. fold k.
  destruct (id Hok) as (Hst&Hmax&Hdom&Hwin&Hd&Hg). specialize (Hg k) as [Hgk Hsz].
  cbn [spec_run]. set (st := machine sizes pend k) in *.
  assert (Hne : st <> []) by (intros Heq; by rewrite Heq in Hsz).
  pose proof (feed_all_empty st [event] ltac:(done)) as Hemp.
  assert (Hsz' : fa_size <$> (feed st [event]).1 = sizes) by by rewrite feed_sizes.
  rewrite Hst, Hhaving. rewrite Hsz in Hemp.
  set (card := size (sel_groups s)).
  change (mkSelectCtx _ None _ _ _ _ _ _) with (event_ctx (st_target stmt) card event).
  destruct (sel_groups s !! k) as [g|] eqn:Hlk.
  - destruct (group_feed args g st (st_target stmt) card (sel_consts s) event events) as (g'&evs&->&Hm&Hev); [done..|].
    pose proof (sel_ok_update s pend k (feed st [event]).1 Hok Hsz' Hk) as Hupd.
    destruct (feed st [event]) as [st' em]. cbn in *.
    fold (all_empty st'). destruct (all_empty st') eqn:He.
    + exists (Sel.set_dflt (Sel.set_groups s (delete k (sel_groups s))) (sel_dflt_group s)), evs.
      split; [by destruct s|split; [|by rewrite app_nil_r]].
      apply Hupd; [done|intros; by rewrite lookup_delete_ne|]. rewrite lookup_delete_eq. by apply Hemp.
    + exists (Sel.set_dflt (Sel.set_groups s (<[k := g']> (sel_groups s))) (sel_dflt_group s)), evs.
      split; [by destruct s|split; [|by rewrite app_nil_r]].
      apply Hupd; [done|intros; by rewrite lookup_insert_ne|]. by rewrite lookup_insert_eq.
  - rewrite Hgk in *. clear Hgk.
    destruct (run_group_new s event gv events (fresh sizes)) as (g'&evs&Hrun&Hm&Hev); [done..|].
    unfold Sel.run_group in Hrun. fold k card in Hrun. rewrite Hlk, Hst, Hhaving in Hrun.
    change (mkSelectCtx _ None _ _ _ _ _ _) with (event_ctx (st_target stmt) card event) in Hrun.
    rewrite Hrun. clear Hrun.
    pose proof (sel_ok_update s pend k (feed (fresh sizes) [event]).1 Hok Hsz' Hk) as Hupd.
    pose proof (group_reset_models args g' _ Hm) as Hres. rewrite Hsz' in Hres.
    destruct (feed (fresh sizes) [event]) as [st' em]. cbn in *.
    fold (all_empty st'). destruct (all_empty st') eqn:He.
    + exists (Sel.set_dflt (Sel.set_groups s (sel_groups s)) g'), evs.
      split; [by destruct s|split; [|by rewrite app_nil_r]].
      apply Hupd; [by rewrite <- Hemp|done|]. rewrite Hlk. by apply Hemp.
    + assert (card < size keys)%nat.
      { apply (Nat.lt_le_trans _ (size ({[k]} ∪ dom (sel_groups s)))); [|apply subseteq_size; set_solver].
        rewrite size_union, size_singleton, size_dom; [unfold card; lia|].
        assert (k ∉ dom (sel_groups s)) by (by apply not_elem_of_dom). set_solver. }
      rewrite decide_False by lia.
      exists (Sel.set_dflt (Sel.set_groups s (<[k := g']> (sel_groups s))) (Grp.reset g')), evs.
      split; [by destruct s|split; [|by rewrite app_nil_r]].
      apply Hupd; [done|intros; by rewrite lookup_insert_ne|]. by rewrite lookup_insert_eq.
Qed.

(** The group values of an event, whatever the number of groups. *)
Definition group_values (e : Event) (card : nat) : res pipe_error (list Value) :=
  match st_group_by stmt with
  | Some g =>
      let? groups := generate_groups g (mkEventCtx (ev_ingest_ns e) (ev_origin_uri e) card)
                       (vm_value (ev_data e)) (vm_meta (ev_data e)) in
      Ok (VArray <$> groups)
  | None => Ok [VArray [Val.const_null]]
  end.

(** The keys of an event, each with the event. *)
Definition keyed (e : Event) (gvs : list Value) : list (string * Event) :=
  (fun gv => (sorted_serialize encode gv, e)) <$> gvs.

Lemma run_groups_spec event gvs s pend data events :
  sel_ok s pend -> data = ev_data event -> wf_id (ev_id event) ->
  Forall (fun ke => ke.1 ∈ keys) (keyed event gvs) ->
  exists s' evs, m_for gvs (Sel.run_group encode event) (s, data, events) = ((s', data, events ++ evs), Ok tt)
    /\ sel_ok s' (spec_run sizes pend (keyed event gvs)).1
    /\ Forall2 (emitted args (st_target stmt)) (concat (spec_run sizes pend (keyed event gvs)).2.*2) evs.
Proof.
  revert s pend events. induction gvs as [|gv gvs IH]; intros s pend events Hok Hd Hid Hk.
  { exists s, []. rewrite app_nil_r. by split_and!. }
  unfold keyed in Hk. rewrite fmap_cons, Forall_cons in Hk. destruct Hk as [Hk Hks].
  destruct (run_group_spec s pend data events event gv Hok Hd Hid Hk) as (s1&evs1&Hr1&Hok1&Hev1).
  destruct (IH s1 _ (events ++ evs1) Hok1 Hd Hid Hks) as (s2&evs2&Hr2&Hok2&Hev2).
  exists s2, (evs1 ++ evs2). cbn [m_for]. unfold mbind, M_bind. rewrite Hr1, Hr2, app_assoc.
  unfold keyed. rewrite fmap_cons. fold (keyed event gvs).
  destruct (spec_run_app sizes pend [(sorted_serialize encode gv, event)] (keyed event gvs)) as [He Hp].
  cbn [app] in He, Hp. rewrite He, Hp. split; [done|]. split; [done|].
  rewrite fmap_app, concat_app. by apply Forall2_app.
Qed.

Hypothesis Hwhere : st_where stmt = None.

Lemma on_event_groups uid port state s e gvs :
  sel_stmt s = stmt -> sel_windows s <> [] -> (forall card, group_values e card = Ok gvs) ->
  Sel.on_event encode s uid port state e =
    (let '((s', _, evs), r) := m_for gvs (Sel.run_group encode e) (s, ev_data e, []) in
     ((s', state), let? _ := r in Ok (EAI.from_events evs))).
Proof.
  clear Hhaving Hsizes. intros Hst Hwin Hgv.
  unfold Sel.on_event, Sel.process, mbind, M_bind, m_get, m_lift, mret, M_ret, group_values in Hgv |- *.
  rewrite Hst, Hwhere. specialize (Hgv (size (sel_groups s))). cbn beta iota. cbn [run_guard snd negb].
  destruct (st_group_by stmt) as [g|].
  - destruct (generate_groups g _ _ _) as [groups| |]; simplify_eq/=.
    by destruct (m_for _ _ _) as [[[s' d] evs] []].
  - destruct (sel_windows s); [done|]. simplify_eq. cbn beta iota.
    by destruct (m_for _ _ _) as [[[s' d] evs] []].
Qed.

Lemma on_event_spec uid port state s pend e gvs :
  sel_ok s pend -> wf_id (ev_id e) -> (forall card, group_values e card = Ok gvs) ->
  Forall (fun ke => ke.1 ∈ keys) (keyed e gvs) ->
  exists s' evs, Sel.on_event encode s uid port state e = ((s', state), Ok (EAI.from_events evs))
    /\ sel_ok s' (spec_run sizes pend (keyed e gvs)).1
    /\ Forall2 (emitted args (st_target stmt)) (concat (spec_run sizes pend (keyed e gvs)).2.*2) evs.
Proof.
  intros Hok Hid Hgv Hks.
  destruct (run_groups_spec e gvs s pend (ev_data e) [] Hok eq_refl Hid Hks) as (s'&evs&Hrun&Hok'&Hev).
  exists s', evs. split; [|done]. destruct Hok as (Hst&_&_&Hwin&_).
  by rewrite (on_event_groups uid port state s e gvs), Hrun.
Qed.
End select.

(** ** The select operator over a run of events *)
Section runs.
Context {A X : Type} `{Htot : TotalRun A X}.
Variable encode : Value -> string.

Fixpoint select_run (uid : OperatorId) (s : Select A X) (es : list Event)
  : Select A X * res pipe_error (list (list (Port * Event))) :=
  match es with
  | [] => (s, Ok [])
  | e :: es =>
      match Sel.on_event encode s uid Ports.IN Val.const_null e with
      | ((s, _), Ok out) =>
          let '(s, r) := select_run uid s es in (s, let? outs := r in Ok (eai_events out :: outs))
      | ((s, _), Err x) => (s, Err x)
      | ((s, _), Panic) => (s, Panic)
      end
  end.

(** All events with their keys, in order. *)
Definition all_keyed (gvs : Event -> list Value) (es : list Event) : list (string * Event) :=
  e ← es; keyed encode e (gvs e).

Lemma select_run_spec stmt sizes keys uid gvs es : forall s pend,
  st_where stmt = None -> st_having stmt = None -> sizes <> [] ->
  sel_ok stmt sizes keys s pend -> Forall (fun e => wf_id (ev_id e)) es ->
  (forall e card, e ∈ es -> group_values stmt e card = Ok (gvs e)) ->
  Forall (fun ke => ke.1 ∈ keys) (all_keyed gvs es) ->
  exists s' outs emissions, select_run uid s es = (s', Ok outs)
    /\ concat emissions = (spec_run sizes pend (all_keyed gvs es)).2
    /\ Forall2 (fun em out => Forall2 (emitted (ia_args <$> st_aggregates stmt) (st_target stmt)) (concat em.*2) out)
         emissions outs.
Proof.
  induction es as [|e es IH]; intros s pend Hw Hh Hs Hok Hid Hgv Hks.
  { exists s, [], []. split_and!; [done..|constructor]. }
  rewrite Forall_cons in Hid. destruct Hid as [Hide Hid].
  unfold all_keyed in Hks. rewrite bind_cons, Forall_app in Hks. destruct Hks as [Hke Hks].
  destruct (on_event_spec encode stmt sizes keys Hh Hs Hw uid Ports.IN Val.const_null s pend e (gvs e))
    as (s1&evs&Hon&Hok1&Hev); [done..|by intros card; apply Hgv; left|done|].
  destruct (IH s1 _ Hw Hh Hs Hok1 Hid) as (s2&outs&ems&Hrun&Hcon&Hems); [intros; apply Hgv; by right|done|].
  exists s2, (evs :: outs), ((spec_run sizes pend (keyed encode e (gvs e))).2 :: ems).
  cbn [select_run]. rewrite Hon, Hrun. split; [done|]. split; [|by constructor].
  cbn [concat]. rewrite Hcon. unfold all_keyed. rewrite bind_cons. symmetry. apply spec_run_app.
Qed.

Lemma from_stmt_ok uid ws stmt consts sizes keys :
  Forall2 (fun w n => exists mg, w.2 = ICount (OnNumber.from_stmt n mg None)) ws sizes ->
  Forall (fun n => 0 < n < 2 ^ 64) sizes -> sizes <> [] ->
  Forall (fun a => aggr_holds (ia_invocable a) []) (st_aggregates stmt) ->
  Z.of_nat (size keys) <= sel_max_groups (Sel.from_stmt uid ws stmt consts) ->
  sel_ok stmt sizes keys (Sel.from_stmt uid ws stmt consts) ∅.
Proof.
  intros Hws Hs Hne Ha Hmax. split_and!; try done; cbn.
  - destruct Hws; [done|discriminate].
  - apply from_windows_models; [done| |done]. clear -Hws.
    enough (forall off : nat, Forall2 count_window
      (imap (fun i w => (Z.of_nat (off + i), w)) ((fun '(fqwn, i) => mkWindow i (Sel.ident_name fqwn)) <$> ws)).*2 sizes) as Hoff
      by apply (Hoff 0%nat).
    induction Hws as [|[name w] n ws sizes [mg Hw] _ IH]; intros off; csimpl; [constructor|].
    constructor; [by exists mg|]. specialize (IH (S off)).
    erewrite imap_ext; [exact IH|]. intros i x _. simpl. do 2 f_equal. lia.
  - intros k. rewrite lookup_empty. split; [done|]. apply fresh_sizes.
Qed.

(** C3: a select with count windows as tilt frames, without where and having clauses and with
    aggregate functions and expressions that do not fail ([LawfulAggr], [TotalRun]), handles
    every group key on its own.  Over any events, as long as the keys are no more than
    [max_groups], no call fails; for every
    key the frame at [j] emits an event exactly when it holds the product of the sizes up to
    [j] events of that key, namely the next consecutive ones: none is lost, repeated or mixed
    with another key's.  The emitted event's id tracks each of them (and may track others, see
    [new_groups_share_ids]), it is transactional when
    one of them is, and its value is the select clause on aggregates that hold exactly the
    arguments of these events. *)
Theorem select_groups_tumble uid ws stmt consts sizes gvs es :
  st_where stmt = None -> st_having stmt = None -> sizes <> [] ->
  Forall2 (fun w n => exists mg, w.2 = ICount (OnNumber.from_stmt n mg None)) ws sizes ->
  Forall (fun n => 0 < n < 2 ^ 64) sizes ->
  Forall (fun a => aggr_holds (ia_invocable a) []) (st_aggregates stmt) ->
  Forall (fun e => wf_id (ev_id e)) es ->
  (forall e card, e ∈ es -> group_values stmt e card = Ok (gvs e)) ->
  let kes := all_keyed gvs es in
  Z.of_nat (size (list_to_set kes.*1 : gset string)) <= sel_max_groups (Sel.from_stmt uid ws stmt consts) ->
  exists s' outs emissions,
    select_run uid (Sel.from_stmt uid ws stmt consts) es = (s', Ok outs)
    /\ Forall2 (fun em out => Forall2 (emitted (ia_args <$> st_aggregates stmt) (st_target stmt)) (concat em.*2) out)
         emissions outs
    /\ forall k j, (j < length sizes)%nat ->
         let gs := level j (of_key k (concat emissions)) in
         Forall (fun g => Z.of_nat (length g) = product (take (S j) sizes)) gs
         /\ exists rest, concat gs ++ rest = of_key k kes
              /\ Z.of_nat (length rest) < product (take (S j) sizes).
Proof.
  intros Hw Hh Hs Hws Hsz Ha Hid Hgv kes Hmax. set (keys := list_to_set kes.*1 : gset string) in *.
  destruct (select_run_spec stmt sizes keys uid gvs es _ ∅ Hw Hh Hs
    (from_stmt_ok uid ws stmt consts sizes keys Hws Hsz Hs Ha Hmax) Hid Hgv) as (s'&outs&ems&Hrun&Hcon&Hem).
  { apply Forall_forall. intros ke Hke. subst keys. apply elem_of_list_to_set, list_elem_of_fmap. eauto. }
  exists s', outs, ems. split; [done|]. split; [done|]. intros k j Hj. cbn zeta.
  rewrite Hcon, spec_run_key. unfold machine. rewrite lookup_empty. cbn [default from_option].
  destruct (feed_run_tumbles sizes (singletons (of_key k kes)) 1 j) as [Hg Hr]; [|lia| |done|].
  - eapply Forall_impl; [exact Hsz|]. simpl. lia.
  - apply Forall_fmap, Forall_forall. done.
  - rewrite Z.mul_1_r in *. split; [done|]. destruct Hr as (rest&Hr&Hl). exists rest. split; [|done].
    fold kes. cbn in Hr |- *. rewrite Hr. unfold singletons. clear.
    induction (of_key k kes) as [|e l IH]; csimpl; [done|]. by rewrite IH.
Qed.
End runs.

(** ** An instance

    One aggregate that collects its arguments; expressions read the event, a field of it or
    what the first aggregate collected. *)
Inductive ex_expr : Type := ExEvent | ExField (k : string) | ExCollected.

#[export] Instance ex_aggr : TremorAggrFn (list (list Value)) :=
  mkAggrFn _ (fun a v => (a ++ [v], Ok tt)) (fun _ => []) (fun a b => (a ++ b, Ok tt)).

#[export] Instance ex_run : ImutRun (list (list Value)) ex_expr :=
  mkImutRun _ _ (fun x _ _ aggrs v _ =>
    (aggrs, Ok match x with
               | ExEvent => v
               | ExField k => default Val.const_null (Val.get k v)
               | ExCollected => VArray (VArray <$> from_option ia_invocable [] (head aggrs))
               end)).

#[export] Instance ex_lawful : LawfulAggr (list (list Value)).
Proof.
  refine (mkLawfulAggr _ _ (fun a l => a = l) _ _ _); [done|..].
  - intros a l v ->. by eexists.
  - intros a b l l' -> ->. by eexists.
Defined.

#[export] Instance ex_total : TotalRun (list (list Value)) ex_expr.
Proof.
  constructor. intros x ctx consts aggrs v m. do 2 eexists. split; [reflexivity|].
  induction aggrs; by constructor.
Defined.

Definition ex_stmt (group : option (GroupBy ex_expr)) : SelectStmt (list (list Value)) ex_expr :=
  mkSelectStmt ExCollected None None group [mkInvoke [] [ExEvent]].

Definition ex_encode (v : Value) : string := match v with VString s => s | _ => "null" end.

(** An event of pull [n] with the group field [g]. *)
Definition ex_event (n ns : Z) (g : string) : Event :=
  Evt.set_ingest_ns (Evt.set_data (Evt.set_id Evt.default (EvId.new 1 0 n n)) (mkVM (VObject [("g", VString g)]) Val.object)) ns.

Definition ex_group : option (GroupBy ex_expr) := Some (GExpr (ExField "g")).

Definition ex_gvs (e : Event) : list Value :=
  [VArray [default Val.const_null (Val.get "g" (vm_value (ev_data e)))]].

Definition ex_count (n : Z) : Impl := ICount (OnNumber.from_stmt n WImpl.DEFAULT_MAX_GROUPS None).

Definition ex_events : list Event :=
  [ex_event 1 1 "a"; ex_event 2 2 "b"; ex_event 3 3 "a"; ex_event 4 4 "a"; ex_event 5 5 "a"].

Definition ex_select : Select (list (list Value)) ex_expr :=
  Sel.from_stmt 7 [("w2", ex_count 2); ("w4", ex_count 2)] (ex_stmt ex_group) NO_CONSTS.

Lemma select_groups_tumble_witness :
  exists s' outs (emissions : list (list (string * list (list Event)))),
    select_run ex_encode 7 ex_select ex_events = (s', Ok outs)
    /\ length <$> outs = [0; 0; 1; 0; 2]%nat
    /\ Forall2 (fun em out => Forall2 (emitted [[ExEvent]] ExCollected) (concat em.*2) out) emissions outs.
Proof.
  destruct (select_groups_tumble ex_encode 7 [("w2", ex_count 2); ("w4", ex_count 2)] (ex_stmt ex_group) NO_CONSTS
    [2; 2] ex_gvs ex_events) as (s'&outs&ems&Hrun&Hem&_).
  - reflexivity.
  - reflexivity.
  - discriminate.
  - repeat constructor; eexists; reflexivity.
  - repeat constructor.
  - repeat constructor.
  - repeat constructor; left; reflexivity.
  - intros e card _. reflexivity.
  - vm_compute. discriminate.
  - exists s', outs, ems. split; [exact Hrun|]. split; [|exact Hem].
    assert (Hl : length <$> (match (select_run ex_encode 7 ex_select ex_events).2 with Ok o => o | _ => [] end)
                 = [0; 0; 1; 0; 2]%nat) by (vm_compute; reflexivity).
    unfold ex_select in Hl. rewrite Hrun in Hl. exact Hl.
Defined.

(** ** Where windows fall short *)
Section flaws.
Context {A X : Type} `{Htot : TotalRun A X}.
Variable encode : Value -> string.

(** The frame after an event beyond its time window: it emitted, and recorded the event under
    the id it had before. *)
Lemma time_boundary_step (w : GroupWindow A X) t nw v e target card consts :
  gw_window w = ITime t -> tot_script t = None -> tot_next_window t = Some nw -> nw <= ev_ingest_ns e ->
  gw_holds_data w = true ->
  exists w' evs,
    Grp.on_event (mkGroup v [w]) (event_ctx target card e) consts (ev_data e) []
      = ((mkGroup v [w'], ev_data e, evs), Ok false)
    /\ gw_holds_data w' = true /\ gw_transactional w' = gw_transactional w
    /\ gw_id w' = EvId.track (Gen.next_id (gw_event_id_gen w)).1 (gw_id w).
Proof.
  intros Hw Hsc Hnw Hle Hh. unfold Grp.on_event. cbn [grp_windows grp_value Frame.on_event].
  unfold mbind, M_bind, Frame.m_window. cbn [sh_data sh_ctx event_ctx sc_ingest_ns sc_origin_uri sh_events].
  rewrite Hw. cbn [WImpl.on_event]. unfold OnTime.on_event, window_datum. rewrite Hsc. cbn [mbind option_bind].
  unfold OnTime.get_window_event. rewrite Hnw, (proj2 (Z.leb_le _ _) Hle).
  unfold mret, M_ret, Frame.m_take_id, Frame.m_emit, Frame.m_reset, Frame.m_record, Frame.reset_event_id, Gen.next_id.
  cbn -[execute_select_and_having Frame.accumulate EvId.track]. rewrite Hh. unfold execute_select_and_having.
  destruct (total_run target (mkEventCtx (ev_ingest_ns e) (ev_origin_uri e) card)
    (set_window (set_group consts v) (gw_name w)) (gw_aggrs w) (vm_value (ev_data e)) (vm_meta (ev_data e)))
    as (aggrs'&r&Hr&_).
  cbn -[Frame.accumulate EvId.track] in Hr |- *. rewrite Hr. cbn -[Frame.accumulate EvId.track].
  destruct (accumulate_aggrs_hold (ia_args <$> (Frame.init_aggr <$> aggrs')) (Frame.init_aggr <$> aggrs') []
    (mkEventCtx (ev_ingest_ns e) (ev_origin_uri e) card) (set_window (set_group consts v) (gw_name w)) (ev_data e))
    as (aggrs2&vs&Hacc&_&_).
  { split; [done|]. intros k a. rewrite list_lookup_fmap. intros (b&_&->)%fmap_Some. apply holds_init. }
  unfold Frame.accumulate. cbn -[EvId.track] in Hacc |- *. rewrite Hacc. do 2 eexists. split; [reflexivity|].
  split_and!; done.
Qed.

(** C30: at the boundary of a time window the event that opens the next window is not tracked.
    The old window's id replaces the event's id in the context before the event is recorded,
    so the new window tracks the events already emitted and not the one it holds; and it is
    transactional when the old window was, whatever the event is. *)
Theorem time_boundary_untracked (w : GroupWindow A X) t nw v e target card consts :
  gw_window w = ITime t -> tot_script t = None -> tot_next_window t = Some nw -> nw <= ev_ingest_ns e ->
  wf_id (gw_id w) -> tracked_pull_ids (gw_id w) <> [] -> gw_holds_data w = true ->
  EvId.is_tracking (gw_id w) (ev_id e) = false ->
  (source_id (ev_id e), stream_id (ev_id e)) <> (gen_source (gw_event_id_gen w), gen_stream (gw_event_id_gen w)) ->
  exists w' evs,
    Grp.on_event (mkGroup v [w]) (event_ctx target card e) consts (ev_data e) []
      = ((mkGroup v [w'], ev_data e, evs), Ok false)
    /\ gw_holds_data w' = true
    /\ EvId.is_tracking (gw_id w') (ev_id e) = false
    /\ (forall x, EvId.is_tracking (gw_id w) x = true -> EvId.is_tracking (gw_id w') x = true)
    /\ gw_transactional w' = gw_transactional w.
Proof.
  intros Hw Hsc Hnw Hle Hwf Hne Hh Hun Hst.
  destruct (time_boundary_step w t nw v e target card consts) as (w'&evs&Hon&Hh'&Ht'&Hid); [done..|].
  exists w', evs. split; [done|]. split; [done|]. rewrite Hid. clear Hid. set (gid := (Gen.next_id _).1).
  destruct (track_join gid (gw_id w)) as [Hwf' Hmap]; [apply wf_new|done|].
  pose proof (is_tracking_map (EvId.track gid (gw_id w))) as Hin.
  specialize (fun x => Hin x Hwf' (tracked_not_nil _ _ (wf_new _ _ _ _))) as Hin'. rewrite Hmap in Hin'.
  split_and!; [| |done].
  - apply not_true_is_false. rewrite Hin'. intros (lo&hi&Hl&Hr'). rewrite lookup_join in Hl.
    assert (id_map gid !! (source_id (ev_id e), stream_id (ev_id e)) = None) as Hgid.
    { change (id_map gid) with (single (own gid)). rewrite lookup_single, decide_False; [done|]. exact Hst. }
    rewrite Hgid in Hl. apply not_true_iff_false in Hun. apply Hun, is_tracking_map; [done..|].
    exists lo, hi. destruct (id_map (gw_id w) !! _); [|done]. by simplify_eq.
  - intros x Hx. apply Hin', in_map_join_r. by apply is_tracking_in_map.
Qed.

(** C31: a new group that is refused because [max_groups] is reached is not ignored: the
    default group has recorded its event and is not reset.  The next event of any other new
    group is taken for the second one of its window: with a window of two, the call that
    should have been refused too succeeds and emits an event made of both groups. *)
Theorem refused_group_leaks stmt (s : Select A X) uid state e1 e2 gv1 gv2 :
  sel_stmt s = stmt -> st_where stmt = None -> st_having stmt = None -> sel_windows s <> [] ->
  Forall2 (models (ia_args <$> st_aggregates stmt)) (grp_windows (sel_dflt_group s)) (fresh [2]) ->
  sel_max_groups s <= Z.of_nat (size (sel_groups s)) ->
  wf_id (ev_id e1) -> wf_id (ev_id e2) ->
  (forall card, group_values stmt e1 card = Ok [gv1]) -> (forall card, group_values stmt e2 card = Ok [gv2]) ->
  sel_groups s !! sorted_serialize encode gv1 = None -> sel_groups s !! sorted_serialize encode gv2 = None ->
  exists s1 s2 x out,
    Sel.on_event encode s uid Ports.IN state e1 = ((s1, state), Err x)
    /\ Sel.on_event encode s1 uid Ports.IN state e2 = ((s2, state), Ok (EAI.from_events [out]))
    /\ emitted (ia_args <$> st_aggregates stmt) (st_target stmt) [e1; e2] out.
Proof.
  intros Hst Hw Hh Hwin Hm Hmax Hid1 Hid2 Hg1 Hg2 Hk1 Hk2.
  destruct (run_group_new encode stmt Hh s e1 gv1 [] (fresh [2])) as (g1&evs1&Hr1&Hm1&Hev1); [done..|].
  change (feed (fresh [2]) [e1]) with ([mkFA 2 1 [e1]], @nil (list Event)) in *. cbn [fst all_empty forallb fa_empty andb] in Hr1, Hm1.
  rewrite decide_True in Hr1 by done.
  destruct (run_group_new encode stmt Hh (Sel.set_dflt s g1) e2 gv2 [] [mkFA 2 1 [e1]]) as (g2&evs2&Hr2&Hm2&Hev2); [done..|].
  change (feed [mkFA 2 1 [e1]] [e2]) with ([mkFA 2 0 []], [[e1; e2]]) in *. cbn [fst snd all_empty forallb fa_empty andb] in Hr2, Hev2.
  inversion Hev2 as [|? out ? ? Hout Hnil]; subst. inversion Hnil; subst.
  do 3 eexists. exists out. split_and!; [| |exact Hout].
  - rewrite (on_event_groups encode (sel_stmt s) Hw uid Ports.IN state s e1 [gv1]) by done.
    cbn [m_for]. unfold mbind, M_bind. by rewrite Hr1.
  - rewrite (on_event_groups encode (sel_stmt s) Hw uid Ports.IN state (Sel.set_dflt s g1) e2 [gv2]) by done.
    cbn [m_for]. unfold mbind, M_bind. rewrite Hr2. reflexivity.
Qed.
(** A new group of a single frame that does not fill up. *)
Lemma run_group_first stmt (s : Select A X) e gv w n events :
  let k := sorted_serialize encode gv in
  sel_stmt s = stmt -> st_having stmt = None -> sel_groups s !! k = None -> wf_id (ev_id e) ->
  grp_windows (sel_dflt_group s) = [w] -> models (ia_args <$> st_aggregates stmt) w (mkFA n 0 []) -> 1 < n ->
  Z.of_nat (size (sel_groups s)) < sel_max_groups s ->
  exists v w',
    Sel.run_group encode e gv (s, ev_data e, events) =
      ((Sel.set_dflt (Sel.set_groups s (<[k := mkGroup v [w']]> (sel_groups s))) (Grp.reset (mkGroup v [w'])),
        ev_data e, events), Ok tt)
    /\ models (ia_args <$> st_aggregates stmt) w' (mkFA n 1 [e])
    /\ gw_id w' = EvId.track (gw_id w) (ev_id e).
Proof.
  intros k Hst Hh Hk Hid Hw Hm Hn Hmax. unfold Sel.run_group. fold k. rewrite Hk, Hst, Hh.
  change (mkSelectCtx _ None _ _ _ _ _ _) with (event_ctx (st_target stmt) (size (sel_groups s)) e).
  unfold Grp.on_event. cbn [grp_windows grp_value]. rewrite Hw. set (v := Val.try_push _ _).
  destruct (frame_not_full (ia_args <$> st_aggregates stmt) w (mkFA n 0 []) [] [e] None
    (mkShared (event_ctx (st_target stmt) (size (sel_groups s)) e) (ev_data e) events) (set_group (sel_consts s) v))
    as (w'&Hon&Hm'&Hid'); [done|simpl; lia|done| |by exists e|].
  - split_and!; [done|constructor; [apply in_map_own, Hid|constructor]|cbn; by rewrite orb_false_r].
  - rewrite Hon. cbn [sh_data sh_events]. rewrite decide_False by lia. by exists v, w'.
Qed.

(** C32: groups share the id of the default group.  Copying the default group for a new key
    does not renew its id, and resetting it keeps it, so of two groups opened one after the
    other the second tracks the first one's event too, though it does not hold it, and both
    will be emitted under the same event id. *)
Theorem new_groups_share_ids stmt uid name n mg consts state e1 e2 gv1 gv2 :
  let s := Sel.from_stmt uid [(name, ICount (OnNumber.from_stmt n mg None))] stmt consts in
  let k1 := sorted_serialize encode gv1 in let k2 := sorted_serialize encode gv2 in
  st_where stmt = None -> st_having stmt = None -> 1 < n < 2 ^ 64 -> 1 < mg ->
  Forall (fun a => aggr_holds (ia_invocable a) []) (st_aggregates stmt) ->
  wf_id (ev_id e1) -> wf_id (ev_id e2) -> k1 <> k2 ->
  (forall card, group_values stmt e1 card = Ok [gv1]) -> (forall card, group_values stmt e2 card = Ok [gv2]) ->
  exists s1 s2 v1 v2 w1 w2,
    Sel.on_event encode s uid Ports.IN state e1 = ((s1, state), Ok EAI.default)
    /\ Sel.on_event encode s1 uid Ports.IN state e2 = ((s2, state), Ok EAI.default)
    /\ sel_groups s2 !! k1 = Some (mkGroup v1 [w1]) /\ sel_groups s2 !! k2 = Some (mkGroup v2 [w2])
    /\ content (ia_args <$> st_aggregates stmt) w1 [e1] /\ content (ia_args <$> st_aggregates stmt) w2 [e2]
    /\ EvId.is_tracking (gw_id w2) (ev_id e1) = true
    /\ (source_id (gw_id w1), stream_id (gw_id w1), event_id (gw_id w1))
       = (source_id (gw_id w2), stream_id (gw_id w2), event_id (gw_id w2)).
Proof.
  intros s k1 k2 Hw Hh Hn Hmg Ha Hid1 Hid2 Hk Hg1 Hg2.
  assert (Hm : Forall2 (models (ia_args <$> st_aggregates stmt)) (grp_windows (sel_dflt_group s)) (fresh [n])).
  { apply from_windows_models; [done| |constructor; [lia|constructor]]. constructor; [by exists mg|constructor]. }
  cbn in Hm. apply Forall2_cons in Hm as [Hm _]. set (w0 := mkGroupWindow _ _ _ _ _ _ _) in Hm.
  destruct (run_group_first stmt s e1 gv1 w0 n []) as (v1&w1&Hr1&Hm1&Hi1); [done..|lia|change (Z.of_nat (size (∅ : gmap string (Group A X))) < mg); rewrite map_size_empty; lia|].
  set (s1 := Sel.set_dflt _ _) in Hr1.
  destruct (run_group_first stmt s1 e2 gv2 (Frame.set_impl (Frame.reset w1) (WImpl.reset (gw_window w1))) n [])
    as (v2&w2&Hr2&Hm2&Hi2); [done|done| |done|done| |lia| |].
  { cbn. by rewrite lookup_insert_ne. }
  { pose proof (group_reset_models _ (mkGroup v1 [w1]) [mkFA n 1 [e1]] ltac:(constructor; [exact Hm1|constructor])) as Hres.
    cbn in Hres. by apply Forall2_cons in Hres as [Hres _]. }
  { cbn. rewrite insert_empty, map_size_singleton. cbn. lia. }
  set (s2 := Sel.set_dflt _ _) in Hr2. cbn in Hi2. rewrite Hi1 in Hi2. exists s1, s2, v1, v2, w1, w2. split_and!.
  - rewrite (on_event_groups encode stmt Hw uid Ports.IN state s e1 [gv1]) by done.
    cbn [m_for]. unfold mbind, M_bind. by rewrite Hr1.
  - rewrite (on_event_groups encode stmt Hw uid Ports.IN state s1 e2 [gv2]) by done.
    cbn [m_for]. unfold mbind, M_bind. by rewrite Hr2.
  - cbn. rewrite lookup_insert_ne by done. apply lookup_insert_eq.
  - cbn. apply lookup_insert_eq.
  - apply Hm1.
  - apply Hm2.
  - rewrite Hi2. apply (track_all_member (gw_id w0) [ev_id e1; ev_id e2]); [apply wf_new|constructor; [done|constructor; [done|constructor]]|left].
  - assert (Htr : forall a b, (source_id (EvId.track a b), stream_id (EvId.track a b), event_id (EvId.track a b))
                              = (source_id a, stream_id a, event_id a)).
    { intros a b. unfold EvId.track. by destruct (EvId.is_same_stream _ _ _). }
    by rewrite Hi1, Hi2, !Htr.
Qed.
End flaws.

(** *** Instances of the flaws *)
Definition ex_time_frame : GroupWindow (list (list Value)) ex_expr :=
  mkGroupWindow (VString "w") (ITime (mkTOT (Some 10) 100 10 None)) [mkInvoke [[VString "x"]] [ExEvent]]
    (EvId.track (EvId.new 7 0 0 0) (EvId.new 1 0 1 1)) (mkGen 7 0 1) false true.

Lemma time_boundary_untracked_witness :
  exists w' evs,
    Grp.on_event (mkGroup Val.const_null [ex_time_frame]) (event_ctx ExCollected 0 (ex_event 2 12 "a")) NO_CONSTS
      (ev_data (ex_event 2 12 "a")) []
      = ((mkGroup Val.const_null [w'], ev_data (ex_event 2 12 "a"), evs), Ok false)
    /\ EvId.is_tracking (gw_id w') (EvId.new 1 0 2 2) = false.
Proof.
  destruct (time_boundary_untracked ex_time_frame (mkTOT (Some 10) 100 10 None) 10 Val.const_null
    (ex_event 2 12 "a") ExCollected 0 NO_CONSTS) as (w'&evs&Hon&_&Hun&_).
  - reflexivity.
  - reflexivity.
  - reflexivity.
  - vm_compute. discriminate.
  - apply wf_track; apply wf_new.
  - vm_compute. discriminate.
  - reflexivity.
  - vm_compute. reflexivity.
  - vm_compute. discriminate.
  - exists w', evs. split; [exact Hon|exact Hun].
Defined.

(** A select that may hold no group at all. *)
Definition ex_full : Select (list (list Value)) ex_expr :=
  Sel.from_stmt 7 [("w", ICount (OnNumber.from_stmt 2 0 None))] (ex_stmt ex_group) NO_CONSTS.

Lemma refused_group_leaks_witness :
  exists s1 s2 x out,
    Sel.on_event ex_encode ex_full 7 Ports.IN Val.const_null (ex_event 1 1 "a") = ((s1, Val.const_null), Err x)
    /\ Sel.on_event ex_encode s1 7 Ports.IN Val.const_null (ex_event 2 2 "b")
       = ((s2, Val.const_null), Ok (EAI.from_events [out]))
    /\ emitted [[ExEvent]] ExCollected [ex_event 1 1 "a"; ex_event 2 2 "b"] out.
Proof.
  apply (refused_group_leaks ex_encode (ex_stmt ex_group) ex_full 7 Val.const_null (ex_event 1 1 "a") (ex_event 2 2 "b")
    (VArray [VString "a"]) (VArray [VString "b"])).
  - reflexivity.
  - reflexivity.
  - reflexivity.
  - discriminate.
  - apply from_windows_models.
    + constructor; [reflexivity|constructor].
    + constructor; [eexists; reflexivity|constructor].
    + constructor; [lia|constructor].
  - vm_compute. discriminate.
  - apply wf_new.
  - apply wf_new.
  - reflexivity.
  - reflexivity.
  - reflexivity.
  - reflexivity.
Defined.

Lemma new_groups_share_ids_witness :
  exists s1 s2 w2,
    Sel.on_event ex_encode (Sel.from_stmt 7 [("w", ex_count 2)] (ex_stmt ex_group) NO_CONSTS) 7 Ports.IN Val.const_null
      (ex_event 1 1 "a") = ((s1, Val.const_null), Ok EAI.default)
    /\ Sel.on_event ex_encode s1 7 Ports.IN Val.const_null (ex_event 2 2 "b") = ((s2, Val.const_null), Ok EAI.default)
    /\ content [[ExEvent]] w2 [ex_event 2 2 "b"]
    /\ EvId.is_tracking (gw_id w2) (EvId.new 1 0 1 1) = true.
Proof.
  destruct (new_groups_share_ids ex_encode (ex_stmt ex_group) 7 "w" 2 WImpl.DEFAULT_MAX_GROUPS NO_CONSTS Val.const_null
    (ex_event 1 1 "a") (ex_event 2 2 "b") (VArray [VString "a"]) (VArray [VString "b"]))
    as (s1&s2&v1&v2&w1&w2&H1&H2&_&_&_&Hc&Ht&_).
  - reflexivity.
  - reflexivity.
  - lia.
  - vm_compute. reflexivity.
  - constructor; [reflexivity|constructor].
  - apply wf_new.
  - apply wf_new.
  - vm_compute. discriminate.
  - reflexivity.
  - reflexivity.
  - exists s1, s2, w2. split; [exact H1|]. split; [exact H2|]. split; [exact Hc|exact Ht].
Defined.
