(* ===== verification/SelectSafe.v ===== *)
(** * The select operator in the executor

    The select operator keeps the contract the executable graph asks of its operators
    ([WellBehaved]): when evaluation does not panic neither does the operator, whatever its
    windows and groups, and everything it emits on events and ticks is an ordinary event.  So
    the executor's theorems hold for graphs with selects. *)
From S2P Require Import Prelude EventId Value Event Common Operator BasicOps Graph GraphProps Window Select.

(** Evaluation that may fail but does not panic. *)
Class NoPanic (A X : Type) `{TremorAggrFn A} `{ImutRun A X} : Prop := mkNoPanic {
  np_run x ctx consts aggrs v m : (run_expr x ctx consts aggrs v m).2 <> Panic;
  np_accumulate a argv : (aggr_accumulate a argv).2 <> Panic;
  np_merge a b : (aggr_merge a b).2 <> Panic
}.

Section safe.
Context {A X : Type} `{NP : NoPanic A X}.
Notation Aggrs := (list (InvokeAggrFn A X)).

Definition plain_out (p : Port * Event) : Prop := plain p.2.

Lemma run_guard_safe guard ctx consts (aggrs : Aggrs) v m : (run_guard guard ctx consts aggrs v m).2 <> Panic.
Proof.
  unfold run_guard. destruct guard as [x|]; [|done]. pose proof (np_run x ctx consts aggrs v m) as Hx.
  destruct (run_expr _ _ _ _ _ _) as [? []]; [|done..]. simpl. by destruct (Val.as_bool _).
Qed.

Lemma execute_safe ctx consts (aggrs : Aggrs) data :
  match (execute_select_and_having ctx consts aggrs data).2 with
  | Ok (Some pe) => plain_out pe
  | Panic => False
  | _ => True
  end.
Proof.
  unfold execute_select_and_having. pose proof (np_run (sc_target ctx) (sc_ctx ctx) consts aggrs (vm_value data) (vm_meta data)) as Hx.
  destruct (run_expr _ _ _ _ _ _) as [aggrs' [r| |]]; [|done..].
  pose proof (run_guard_safe (sc_having ctx) (sc_ctx ctx) consts aggrs' r (vm_meta data)) as Hg.
  destruct (run_guard _ _ _ _ _ _) as [? [[]| |]]; done.
Qed.

Lemma run_args_safe xs ctx consts data : Frame.run_args (A := A) xs ctx consts data <> Panic.
Proof.
  induction xs as [|x xs IH]; [done|]. cbn [Frame.run_args].
  pose proof (np_run x ctx consts ([] : Aggrs) (vm_value data) (vm_meta data)) as Hx.
  destruct (run_expr _ _ _ _ _ _).2; [|done..]. simpl. by destruct (Frame.run_args _ _ _ _).
Qed.

Lemma accumulate_safe (aggrs : Aggrs) ctx consts data : (Frame.accumulate_aggrs aggrs ctx consts data).2 <> Panic.
Proof.
  induction aggrs as [|a aggrs IH]; [done|]. cbn [Frame.accumulate_aggrs].
  pose proof (run_args_safe (ia_args a) ctx consts data). destruct (Frame.run_args _ _ _ _) as [argv| |]; [|done..].
  pose proof (np_accumulate (ia_invocable a) argv). destruct (aggr_accumulate _ _) as [? []]; [|done..].
  by destruct (Frame.accumulate_aggrs _ _ _ _).
Qed.

Lemma merge_safe (this prev : Aggrs) : (Frame.merge_aggrs this prev).2 <> Panic.
Proof.
  revert prev. induction this as [|a this IH]; intros [|p prev]; try done. cbn [Frame.merge_aggrs].
  pose proof (np_merge (ia_invocable a) (ia_invocable p)). destruct (aggr_merge _ _) as [? []]; [|done..].
  specialize (IH prev). by destruct (Frame.merge_aggrs _ _).
Qed.

(** ** Frames *)
Definition all_plain (s : Frame.St (A := A) (X := X)) : Prop := Forall plain_out (sh_events s.2).

Lemma datum_safe script dflt data ns uri : window_datum script dflt data ns uri <> Panic.
Proof.
  unfold window_datum. destruct (script ≫= wd_script); [|done]. destruct (ws_run_imut _ _ _ _ _) as [r|]; [|done].
  by destruct (match r with Emit _ _ => _ | _ => _ end).
Qed.

Lemma actions_safe r event : OnState.actions r event <> Panic.
Proof.
  destruct r as [[]|]; simpl; try done; unfold Act.try_from;
    repeat (case_match; try done).
Qed.

Lemma impl_safe w data ns uri : (WImpl.on_event w data ns uri).2 <> Panic.
Proof.
  destruct w as [w|w|w]; cbn [WImpl.on_event].
  - unfold OnNumber.on_event. pose proof (datum_safe (ton_script w) 1 data ns uri).
    destruct (window_datum _ _ _ _ _); [|done..]. by destruct (_ <=? _).
  - unfold OnTime.on_event. pose proof (datum_safe (tot_script w) ns data ns uri).
    destruct (window_datum _ _ _ _ _); [|done..]. by destruct (OnTime.get_window_event _ _).
  - unfold OnState.on_event. destruct (ws_run _ _ _ _ _) as [[[event state] meta] r]. simpl. apply actions_safe.
Qed.

Lemma window_wp s : all_plain s -> wp Frame.m_window (fun _ => all_plain) (fun _ _ => True) s.
Proof.
  destruct s as [[w next] sh]. unfold wp, Frame.m_window. intros Hs.
  pose proof (impl_safe (gw_window w) (sh_data sh) (sc_ingest_ns (sh_ctx sh)) (sc_origin_uri (sh_ctx sh))).
  by destruct (WImpl.on_event _ _ _ _) as [[? ?] []].
Qed.

Lemma record_wp consts prev s : all_plain s -> wp (Frame.m_record consts prev) (fun _ => all_plain) (fun _ _ => True) s.
Proof.
  destruct s as [[w next] sh]. unfold wp, Frame.m_record, Frame.merge, Frame.accumulate. intros Hs.
  destruct prev as [[[] prev]|]; [|done|].
  - pose proof (merge_safe (gw_aggrs (Frame.mark w (sh_ctx sh))) prev). by destruct (Frame.merge_aggrs _ _) as [? []].
  - pose proof (accumulate_safe (gw_aggrs (Frame.mark w (sh_ctx sh))) (sc_ctx (sh_ctx sh))
      (set_window consts (gw_name (Frame.mark w (sh_ctx sh)))) (sh_data sh)).
    by destruct (Frame.accumulate_aggrs _ _ _ _) as [? []].
Qed.

Lemma emit_wp consts s : all_plain s -> wp (Frame.m_emit consts) (fun _ => all_plain) (fun _ _ => True) s.
Proof.
  destruct s as [[w next] sh]. unfold wp, Frame.m_emit. intros Hs. destruct (gw_holds_data w); [|done].
  pose proof (execute_safe (sh_ctx sh) (set_window consts (gw_name w)) (gw_aggrs w) (sh_data sh)) as He.
  destruct (execute_select_and_having _ _ _ _) as [aggrs [[pe|]| |]]; try done.
  unfold all_plain in *. cbn. apply Forall_app. by repeat constructor.
Qed.

Lemma frames_safe ws : forall consts prev can_remove sh,
  Forall plain_out (sh_events sh) ->
  let '((_, sh'), r) := Frame.on_event (A := A) ws consts prev can_remove sh in
  r <> Panic /\ (forall b, r = Ok b -> Forall plain_out (sh_events sh')).
Proof.
  induction ws as [|w next IH]; intros consts prev can_remove sh Hsh; [done|]. cbn [Frame.on_event].
  match goal with |- context [mbind ?k ?m (w, next, sh)] => set (body := mbind k m) end.
  enough (Hwp : wp body (fun _ => all_plain) (fun _ _ => True) (w, next, sh)).
  { unfold wp in Hwp. destruct (body (w, next, sh)) as [[[w' next'] sh'] []]; [|done..]. split; [done|]. by intros. }
  subst body. apply wp_bind. eapply wp_mono; [by apply window_wp| |done]. intros act s1 Hs1.
  apply wp_bind. eapply wp_mono with (Q := fun _ => all_plain) (X := fun _ _ => True); [| |done].
  { destruct (act_include act); [by apply record_wp|done]. }
  intros ? s2 Hs2. apply wp_bind. eapply wp_mono with (Q := fun _ => all_plain) (X := fun _ _ => True); [| |done].
  - destruct (act_emit act); [|done]. apply wp_bind.
    assert (Ht : wp Frame.m_take_id (fun _ => all_plain) (fun (_ : pipe_error) _ => True) s2) by (by destruct s2 as [[? ?] ?]).
    eapply wp_mono; [exact Ht| |done]. intros ? s3 Hs3. apply wp_bind. eapply wp_mono; [by apply emit_wp| |done].
    intros ? s4 Hs4. apply wp_bind. eapply wp_mono with (Q := fun _ => all_plain) (X := fun _ _ => True); [| |done].
    + destruct s4 as [[w4 n4] sh4]. unfold wp. destruct next as [|w' next]; [done|]. destruct can_remove; [|done].
      specialize (IH consts (Some (gw_holds_data w4, gw_aggrs w4)) true sh4 Hs4).
      destruct (Frame.on_event _ _ _ _ _) as [[next' sh'] [b| |]]; [|done|by destruct IH]. by apply (proj2 IH b).
    + intros b s5 Hs5. apply wp_bind. by destruct s5 as [[? ?] ?].
  - intros b s6 Hs6. destruct (act_include act); [done|]. apply wp_bind.
    eapply wp_mono; [by apply record_wp| |done]. by intros.
Qed.

(** ** Groups and the operator *)
Lemma group_safe (g : Group A X) ctx consts data events :
  Forall plain_out events ->
  let '((_, _, events'), r) := Grp.on_event g ctx consts data events in
  r <> Panic /\ (forall b, r = Ok b -> Forall plain_out events').
Proof.
  intros He. unfold Grp.on_event. destruct (grp_windows g) as [|w ws].
  - pose proof (execute_safe ctx (set_group consts (grp_value g)) ([] : Aggrs) data) as Hx.
    destruct (execute_select_and_having _ _ _ _).2 as [[pe|]| |]; try done.
    split; [done|]. intros b _. apply Forall_app. by repeat constructor.
  - pose proof (frames_safe (w :: ws) (set_group consts (grp_value g)) None true (mkShared ctx data events) He) as Hf.
    by destruct (Frame.on_event _ _ _ _ _) as [[? ?] ?].
Qed.

Variable encode : Value -> string.

Definition sel_plain (s : Sel.St (A := A) (X := X)) : Prop := Forall plain_out s.2.

Lemma run_group_wp event gv s :
  sel_plain s -> wp (Sel.run_group encode event gv) (fun _ => sel_plain) (fun _ _ => True) s.
Proof.
  destruct s as [[s data] events]. intros Hs. unfold wp, Sel.run_group.
  destruct (sel_groups s !! _) as [g|].
  - match goal with |- context [Grp.on_event ?g ?c ?k ?d ?e] => pose proof (group_safe g c k d e Hs) as Hg;
      destruct (Grp.on_event g c k d e) as [[[? ?] ?] [[]| |]] end; try done; try (by destruct Hg); by eapply Hg.
  - match goal with |- context [Grp.on_event ?g ?c ?k ?d ?e] => pose proof (group_safe g c k d e Hs) as Hg;
      destruct (Grp.on_event g c k d e) as [[[? ?] ?] [[]| |]] end; try done; try (by destruct Hg); try case_decide; try done; by eapply Hg.
Qed.

Lemma groups_safe : forall gb ctx v m groups, generate_groups_inner (A := A) (X := X) gb ctx v m groups <> Panic.
Proof.
  fix IH 1. intros gb ctx v m groups.
  assert (Hrun : forall x, (run_expr x ctx NO_CONSTS ([] : Aggrs) v m).2 <> Panic) by (intros x; apply np_run).
  destruct gb as [x|items|x]; cbn [generate_groups_inner].
  - specialize (Hrun x). by destruct (run_expr _ _ _ _ _ _).2.
  - clear Hrun. revert groups. induction items as [|i items IHi]; intros groups; [done|]. cbn [run_items].
    pose proof (IH i ctx v m groups) as Hi. destruct (generate_groups_inner i ctx v m groups); [apply IHi|done..].
  - specialize (Hrun x). destruct (run_expr _ _ _ _ _ _).2; [|done..]. simpl. by destruct (Val.as_array _).
Qed.

Lemma wp_lift {S E B} (r : res E B) (Q : B -> S -> Prop) (Y : E -> S -> Prop) s :
  r <> Panic -> (forall b, Q b s) -> (forall e, Y e s) -> wp (m_lift r) Q Y s.
Proof. intros Hr HQ HY. unfold wp, m_lift. by destruct r. Qed.

Lemma process_wp event s :
  s.2 = [] ->
  wp (Sel.process encode event) (fun r _ => match r with RsData d => Forall plain_out (eai_events d) | _ => True end)
    (fun _ _ => True) s.
Proof.
  destruct s as [[s data] evs]. intros Hs. simpl in Hs. subst evs. unfold Sel.process. apply wp_bind. unfold wp at 1, m_get.
  apply wp_bind, wp_lift; [apply run_guard_safe| |done]. intros pass. destruct (negb pass); [done|].
  assert (Hloop : forall gvs, wp (_ ← m_for gvs (Sel.run_group encode event); '(_, _, events) ← m_get;
      mret (RsData (EAI.from_events events)))
    (fun r _ => match r with RsData d => Forall plain_out (eai_events d) | _ => True end) (fun _ _ => True) (s, data, [])).
  { intros gvs. apply wp_bind. eapply wp_mono.
    - apply (wp_for sel_plain); [constructor|]. intros x s' _ Hs'. by apply run_group_wp.
    - intros _ [[s' d'] evs'] Hp. exact Hp.
    - done. }
  destruct (st_group_by (sel_stmt s)) as [gb|]; [|destruct (sel_windows s) as [|w ws]].
  - apply wp_bind, wp_bind, wp_lift; [apply groups_safe| |done]. intros groups. apply Hloop.
  - apply wp_bind. unfold wp at 1, m_put. apply wp_bind, wp_lift; [apply np_run| |done]. intros value.
    apply wp_bind, wp_lift; [apply run_guard_safe| |done]. intros having. by destruct having.
  - apply wp_bind. apply Hloop.
Qed.

(** ** Ticks *)
Lemma tick_safe w ns : (WImpl.on_tick w ns).2 <> Panic.
Proof.
  destruct w as [w|w|w]; cbn [WImpl.on_tick]; [done| |].
  - unfold OnTime.on_tick. destruct (tot_script w); [done|]. by destruct (OnTime.get_window_event _ _).
  - unfold OnState.on_tick. destruct (tos_tick_script w); [|done].
    destruct (ws_run _ _ _ _ _) as [[[event state] meta] r]. simpl. apply actions_safe.
Qed.

Definition tick_plain (s : Sel.TickSt (A := A) (X := X)) : Prop := Forall plain_out s.1.2.

Lemma tick_group_wp s consts ns card k t :
  tick_plain t -> wp (Sel.tick_group s consts ns card k) (fun _ => tick_plain) (fun _ _ => True) t.
Proof.
  destruct t as [[[groups data] events] rm]. intros Ht. unfold wp, Sel.tick_group.
  destruct (groups !! k) as [[value [|w next]]|]; [done| |done].
  pose proof (tick_safe (gw_window w) ns) as Hw. destruct (WImpl.on_tick _ _) as [i [act| |]]; [|done..].
  destruct (act_emit act); [|done]. destruct (Frame.reset_event_id _) as [id w1].
  match goal with |- context [Frame.m_emit ?c ?st] =>
    pose proof (emit_wp c st Ht) as He; unfold wp in He; destruct (Frame.m_emit c st) as [[[w2 next2] sh2] [[]| |]] end; [|done..].
  match goal with |- context [Frame.on_event ?a ?b ?c ?d ?e] => pose proof (frames_safe a b c d e He) as Hf;
    destruct (Frame.on_event a b c d e) as [[? ?] [cr| |]] end; [|done|by destruct Hf].
  by apply (proj2 Hf cr).
Qed.
End safe.

(** A select keeps the executor's contract, over all its windows and groups. *)
#[export] Instance Select_WellBehaved {A X} `{NoPanic A X} (encode : Value -> string) :
  @WellBehaved (Select A X) (Select_Operator encode).
Proof.
  split.
  - intros s uid port state e He. cbn [on_event Select_Operator]. unfold Sel.on_event.
    pose proof (process_wp encode e (s, ev_data e, []) eq_refl) as Hp. unfold wp in Hp.
    destruct (Sel.process encode e _) as [[[s' data] evs] [[| |d]| |]]; simpl; try done.
    repeat constructor. by destruct e.
  - intros s uid state sig. cbn [on_signal Select_Operator]. unfold Sel.on_signal, Sel.on_signal_in.
    destruct (_ || _); [constructor|].
    match goal with |- context [m_for ?l ?f ?st] =>
      assert (Hw : wp (m_for l f) (fun _ => tick_plain) (fun _ _ => True) st) end.
    { apply wp_for; [constructor|]. intros k t _ Ht. by apply tick_group_wp. }
    unfold wp in Hw. destruct (m_for _ _ _) as [[[[groups data] events] rm] []]; done.
Qed.
