(* ===== verification/Bytes.v ===== *)
(** * Bytes

    Byte strings as the pre- and postprocessors use them: big endian 64 bit integers
    ([byteorder::BigEndian]), slices and decimal numbers. *)
From Stdlib Require Strings.Byte NArith.
From S2P Require Import Prelude Value.

Notation bytes := (list byte) (only parsing).

Definition Z_of_byte (b : byte) : Z := Z.of_N (Byte.to_N b).
Definition byte_of_Z (z : Z) : byte := default Byte.x00 (Byte.of_N (Z.to_N (z mod 256))).

Lemma Z_of_byte_range b : 0 <= Z_of_byte b < 256.
Proof. unfold Z_of_byte. pose proof (Byte.to_N_bounded b). lia. Qed.

Lemma byte_of_Z_of_byte b : byte_of_Z (Z_of_byte b) = b.
Proof.
  unfold byte_of_Z. rewrite Z.mod_small by apply Z_of_byte_range. unfold Z_of_byte.
  by rewrite N2Z.id, Byte.of_to_N.
Qed.

Lemma Z_of_byte_of_Z z : Z_of_byte (byte_of_Z z) = z mod 256.
Proof.
  unfold byte_of_Z, Z_of_byte. pose proof (Z.mod_pos_bound z 256 ltac:(lia)) as Hb.
  destruct (Byte.of_N (Z.to_N (z mod 256))) as [b|] eqn:He.
  - simpl. apply Byte.to_of_N in He. rewrite He. lia.
  - apply Byte.of_N_None_iff in He. lia.
Qed.

(** ** Big endian integers of [n] bytes *)
Fixpoint to_be (n : nat) (z : Z) : bytes :=
  match n with
  | O => []
  | S n => byte_of_Z (Z.shiftr z (8 * Z.of_nat n)) :: to_be n z
  end.

Fixpoint read_be (acc : Z) (l : bytes) : Z :=
  match l with
  | [] => acc
  | b :: l => read_be (Z.shiftl acc 8 + Z_of_byte b) l
  end.

Definition write_u64 (z : Z) : bytes := to_be 8 z.
(** [BigEndian::read_u64]: the first eight bytes of a slice that has them. *)
Definition read_u64 (l : bytes) : Z := read_be 0 (take 8 l).

Lemma length_to_be n z : length (to_be n z) = n.
Proof. induction n as [|n IH]; simpl; [done|]. by rewrite IH. Qed.

Lemma read_be_to_be n acc z :
  read_be acc (to_be n z) = Z.shiftl acc (8 * Z.of_nat n) + z mod 2 ^ (8 * Z.of_nat n).
Proof.
  revert acc. induction n as [|n IH]; intros acc; cbn [to_be read_be].
  { rewrite Z.shiftl_0_r, Z.mod_1_r. lia. }
  rewrite IH, Z_of_byte_of_Z, !Z.shiftl_mul_pow2, Z.shiftr_div_pow2 by lia.
  replace (8 * Z.of_nat (S n)) with (8 + 8 * Z.of_nat n) by lia.
  rewrite Z.pow_add_r by lia. set (p := 2 ^ (8 * Z.of_nat n)). change (2 ^ 8) with 256.
  assert (0 < p) by (apply Z.pow_pos_nonneg; lia).
  rewrite (Z.mul_comm 256 p), Z.rem_mul_r by lia. ring.
Qed.

Lemma read_write_u64 z l : is_u64 z -> read_u64 (write_u64 z ++ l) = z.
Proof.
  intros Hz. unfold read_u64, write_u64.
  rewrite take_app_length' by (by rewrite length_to_be). rewrite read_be_to_be. rewrite Z.shiftl_0_l.
  by apply Z.mod_small.
Qed.

(** ** Slices *)

(** [data.get(a..b)] and [data.get(a..)]. *)
Definition get_range (data : bytes) (a b : nat) : option bytes :=
  if decide (a <= b <= length data)%nat then Some (take (b - a) (drop a data)) else None.
Definition get_from (data : bytes) (a : nat) : option bytes :=
  if decide (a <= length data)%nat then Some (drop a data) else None.

(** [memchr_iter]: the positions of [needle], counted from [i]. *)
Fixpoint memchr_iter (i : nat) (needle : byte) (data : bytes) : list nat :=
  match data with
  | [] => []
  | b :: data =>
      if decide (b = needle) then i :: memchr_iter (S i) needle data
      else memchr_iter (S i) needle data
  end.

(** ** Decimal numbers *)
Definition is_digit (b : byte) : bool := (48 <=? Z_of_byte b) && (Z_of_byte b <=? 57).

(** [usize::to_string], most significant digit first; [fuel] bounds the digits. *)
Fixpoint digits (fuel : nat) (n : nat) (acc : bytes) : bytes :=
  match fuel with
  | O => acc
  | S fuel =>
      let acc := byte_of_Z (48 + Z.of_nat (n mod 10)) :: acc in
      match (n / 10)%nat with
      | O => acc
      | n => digits fuel n acc
      end
  end.
Definition to_string (n : nat) : bytes := digits (S n) n [].

Fixpoint parse_digits (acc : Z) (l : bytes) : option Z :=
  match l with
  | [] => Some acc
  | b :: l =>
      if is_digit b then
        let acc := acc * 10 + (Z_of_byte b - 48) in
        if acc <? 2 ^ 32 then parse_digits acc l else None
      else None
  end.

(** [str::parse::<u32>]: an optional plus sign and at least one digit, below 2^32. *)
Definition parse_u32 (l : bytes) : option Z :=
  match l with
  | [] => None
  | b :: rest =>
      if decide (b = Byte.x2b) then
        match rest with [] => None | _ => parse_digits 0 rest end
      else parse_digits 0 l
  end.

(** [u8::is_ascii_whitespace]: space, tab, line feed, form feed and carriage return. *)
Definition is_ascii_whitespace (b : byte) : bool :=
  bool_decide (b ∈ [Byte.x20; Byte.x09; Byte.x0a; Byte.x0c; Byte.x0d]).

Lemma digit_byte k : (k < 10)%nat ->
  is_digit (byte_of_Z (48 + Z.of_nat k)) = true
  /\ Z_of_byte (byte_of_Z (48 + Z.of_nat k)) = 48 + Z.of_nat k.
Proof.
  intros Hk. unfold is_digit. rewrite Z_of_byte_of_Z, Z.mod_small by lia. split; [|done].
  apply andb_true_iff. split; lia.
Qed.

(** The value of a digit string. *)
Fixpoint value_of (acc : Z) (l : bytes) : Z :=
  match l with [] => acc | b :: l => value_of (acc * 10 + (Z_of_byte b - 48)) l end.

Lemma value_of_acc acc l : 0 <= acc -> Forall (fun b => is_digit b = true) l -> acc <= value_of acc l.
Proof.
  intros Ha Hl. revert acc Ha. induction Hl as [|b l Hb _ IH]; intros acc Ha; simpl; [lia|].
  unfold is_digit in Hb. apply andb_true_iff in Hb as [H1 H2].
  specialize (IH (acc * 10 + (Z_of_byte b - 48)) ltac:(lia)). lia.
Qed.

Lemma parse_digits_value acc l :
  0 <= acc -> Forall (fun b => is_digit b = true) l -> value_of acc l < 2 ^ 32 ->
  parse_digits acc l = Some (value_of acc l).
Proof.
  intros Ha Hl. revert acc Ha. induction Hl as [|b l Hb Hl IH]; intros acc Ha Hv; cbn [parse_digits value_of] in *; [done|].
  rewrite Hb. pose proof Hb as Hb'. unfold is_digit in Hb'. apply andb_true_iff in Hb' as [H1 H2].
  pose proof (value_of_acc (acc * 10 + (Z_of_byte b - 48)) l ltac:(lia) Hl).
  assert ((acc * 10 + (Z_of_byte b - 48) <? 2 ^ 32) = true) as -> by lia. apply IH; lia.
Qed.

Lemma digits_spec fuel n acc :
  (n < fuel)%nat -> exists l, digits fuel n acc = l ++ acc /\ l <> [] /\ Forall (fun b => is_digit b = true) l
    /\ forall a, value_of a (l ++ acc) = value_of (a * 10 ^ Z.of_nat (length l) + Z.of_nat n) acc.
Proof.
  revert n acc. induction fuel as [|fuel IH]; intros n acc Hn; [lia|]. cbn [digits].
  destruct (digit_byte (n mod 10)) as [Hd Hz]; [by apply Nat.mod_upper_bound|].
  set (b := byte_of_Z _) in *. pose proof (Nat.div_mod_eq n 10) as Hdm.
  destruct (n / 10)%nat as [|q] eqn:Hq.
  - exists [b]. split_and!; [done|done|by repeat constructor|]. intros a. simpl. f_equal. rewrite Hz.
    change (10 ^ Z.pos 1) with 10. lia.
  - destruct (IH (S q) (b :: acc)) as (l&Hl&Hne&Hf&Hv).
    { assert (S q < n)%nat; [|lia]. rewrite <- Hq. apply Nat.div_lt; [|lia]. destruct n; [done|lia]. }
    exists (l ++ [b]). rewrite Hl, <- app_assoc. split_and!; [done|by destruct l|apply Forall_app; by repeat constructor|].
    intros a. simpl. rewrite Hv. simpl. f_equal. rewrite length_app. simpl length.
    rewrite Nat2Z.inj_add, Z.pow_add_r by lia. rewrite Hz. change (10 ^ Z.of_nat 1) with 10. lia.
Qed.

(** The printed number is parsed back, and holds neither whitespace nor a sign. *)
Lemma to_string_digits n :
  Forall (fun b => is_digit b = true) (to_string n) /\ to_string n <> [] /\ value_of 0 (to_string n) = Z.of_nat n.
Proof.
  unfold to_string. destruct (digits_spec (S n) n []) as (l&Hl&Hne&Hf&Hv); [lia|].
  rewrite app_nil_r in Hl. rewrite Hl. split_and!; [done..|]. specialize (Hv 0). rewrite app_nil_r in Hv.
  by rewrite Hv.
Qed.

Lemma parse_to_string n : Z.of_nat n < 2 ^ 32 -> parse_u32 (to_string n) = Some (Z.of_nat n).
Proof.
  intros Hn. destruct (to_string_digits n) as (Hf&Hne&Hv). unfold parse_u32.
  destruct (to_string n) as [|b l] eqn:Hs; [done|]. rewrite decide_False.
  - rewrite parse_digits_value; [by rewrite Hv|lia|done|lia].
  - intros ->. inversion_clear Hf as [|?? Hb _]. done.
Qed.

Lemma digit_not_whitespace b : is_digit b = true -> is_ascii_whitespace b = false.
Proof. by destruct b. Qed.
