(* ===== verification/Processors.v ===== *)
(** * Preprocessors and postprocessors

    Models src/preprocessor.rs, src/postprocessor.rs and the processors under
    src/preprocessor and src/postprocessor that the repository implements itself: separate,
    length-prefixed, textual-length-prefixed, remove-empty, ingest-ns, gelf-chunking and
    chunk, and the chains that run and finish them.  Base64 and the compression codecs are
    third party functions; they appear as an opaque stateless processor. *)
From S2P Require Import Prelude Value Bytes.

Inductive proc_error : Type :=
| ProcMsg (msg : string)
| InvalidConfiguration (what msg : string)
| MissingConfiguration (what : string)
| InvalidInputData (msg : string)
| DiscardedFragment (len total max_length : nat)
| InvalidGelfHeader (len : nat) (initial : option (byte * byte))
| TooManyChunks (n : nat)
| NotFoundProcessor (name : string).

(** ** The traits *)
Class Preprocessor (P : Type) : Type := mkPreprocessor {
  pre_process : P -> Z -> bytes -> (P * Z) * res proc_error (list bytes);
  pre_finish : P -> option bytes -> P * res proc_error (list bytes)
}.

Class Postprocessor (P : Type) : Type := mkPostprocessor {
  post_process : P -> Z -> Z -> bytes -> P * res proc_error (list bytes);
  post_finish : P -> option bytes -> P * res proc_error (list bytes)
}.

(** The default [finish] of both traits. *)
Definition default_finish {P} (p : P) (data : option bytes) : P * res proc_error (list bytes) := (p, Ok []).

(** ** separate (preprocessor) *)
Record Separate : Type := mkSeparate {
  sp_separator : byte;
  sp_max_length : option nat;
  sp_buffer : bytes;
  sp_is_buffered : bool;
  sp_parts_per_chunk : nat
}.

Module Sep.

Definition DEFAULT_SEPARATOR : byte := Byte.x0a.
Definition DEFAULT_BUF_SIZE : nat := 8192.
Definition INITIAL_PARTS_PER_CHUNK : nat := 64.

Definition set_buffer (s : Separate) (b : bytes) : Separate :=
  mkSeparate (sp_separator s) (sp_max_length s) b (sp_is_buffered s) (sp_parts_per_chunk s).
Definition set_parts (s : Separate) (n : nat) : Separate :=
  mkSeparate (sp_separator s) (sp_max_length s) (sp_buffer s) (sp_is_buffered s) n.

Definition new (separator : byte) (max_length : nat) (is_buffered : bool) : Separate :=
  let max_length := match max_length with 0%nat => None | n => Some n end in
  mkSeparate separator max_length [] is_buffered INITIAL_PARTS_PER_CHUNK.

Definition default : Separate := new DEFAULT_SEPARATOR DEFAULT_BUF_SIZE true.

(** The configuration as it is after deserialisation: separator, max_length, buffered. *)
Definition from_config (config : option (bytes * option nat * bool)) : res proc_error Separate :=
  match config with
  | Some (separator, max_length, buffered) =>
      match separator with
      | [separator] => Ok (new separator (from_option id 0%nat max_length) buffered)
      | _ => Err (InvalidConfiguration "split preprocessor" "Invalid separator, must be 1 byte.")
      end
  | None => Ok default
  end.

Definition exceeds_max_length (s : Separate) (len : nat) : bool :=
  match sp_max_length s with Some max => bool_decide (max < len)%nat | None => false end.

Definition is_valid_chunk (s : Separate) (v : bytes) : bool := negb (exceeds_max_length s (length v)).

Definition save_fragment (s : Separate) (v : bytes) : Separate * res proc_error unit :=
  let total := (length (sp_buffer s) + length v)%nat in
  if exceeds_max_length s total then
    (set_buffer s [], Err (DiscardedFragment (length v) total (from_option id 0%nat (sp_max_length s))))
  else (set_buffer s (sp_buffer s ++ v), Ok tt).

Definition complete_fragment (s : Separate) (v : bytes) : Separate * res proc_error bytes :=
  let total := (length (sp_buffer s) + length v)%nat in
  if exceeds_max_length s total then
    (set_buffer s [], Err (DiscardedFragment (length v) total (from_option id 0%nat (sp_max_length s))))
  else (set_buffer s [], Ok (sp_buffer s ++ v)).

(** The loop over the remaining split points of the buffered mode. *)
Fixpoint fragments (s : Separate) (data : bytes) (last_idx : nat) (points : list nat) (events : list bytes)
  : res proc_error (nat * list bytes) :=
  match points with
  | [] => Ok (last_idx, events)
  | p :: points =>
      let? fragment := ok_or (InvalidInputData "Out of bounds") (get_range data last_idx p) in
      let events := if is_valid_chunk s fragment then events ++ [fragment] else events in
      fragments s data (S p) points events
  end.

(** The loop of the unbuffered mode. *)
Fixpoint unbuffered (s : Separate) (data : bytes) (last_idx : nat) (points : list nat) (events : list bytes)
  : res proc_error (nat * list bytes) :=
  match points with
  | [] => Ok (last_idx, events)
  | p :: points =>
      if negb (exceeds_max_length s (p - last_idx)%nat) then
        let? part := ok_or (InvalidInputData "Out of bounds") (get_range data last_idx p) in
        unbuffered s data (S p) points (events ++ [part])
      else unbuffered s data (S p) points events
  end.

(** Code of [process] that runs on the processor's own state. *)
Notation SM := (M Separate proc_error).

Definition process_buffered (data : bytes) (points : list nat) : SM (list bytes) :=
  match points with
  | first :: points =>
      first_fragment ← m_lift (ok_or (InvalidInputData "Out of bounds") (get_range data 0 first));
      s ← m_get;
      events ← (if negb (bool_decide (sp_buffer s = [])) then
                  e ← m_call (fun s => complete_fragment s first_fragment); mret [e]
                else mret (if is_valid_chunk s first_fragment then [first_fragment] else []));
      s ← m_get;
      '(last_idx, events) ← m_lift (fragments s data (S first) points events);
      _ ← (if decide (last_idx <= length data)%nat then
             rest ← m_lift (ok_or (InvalidInputData "Out of bounds") (get_from data last_idx));
             m_call (fun s => save_fragment s rest)
           else mret tt);
      mret events
  | [] =>
      _ ← m_call (fun s => save_fragment s data);
      mret []
  end.

Definition process_unbuffered (data : bytes) (points : list nat) : SM (list bytes) :=
  s ← m_get;
  '(last_idx, events) ← m_lift (unbuffered s data 0 points []);
  if decide (last_idx <= length data)%nat then
    rest ← m_lift (ok_or (InvalidInputData "Out of bounds") (get_from data last_idx));
    mret (events ++ [rest])
  else mret events.

Definition process_data (data : bytes) : SM (list bytes) :=
  s ← m_get;
  let points := memchr_iter 0 (sp_separator s) data in
  events ← (if sp_is_buffered s then process_buffered data points else process_unbuffered data points);
  _ ← m_modify (fun s => set_parts s (Nat.max (sp_parts_per_chunk s) (length events)));
  mret events.

Definition process (s : Separate) (ingest_ns : Z) (data : bytes)
  : (Separate * Z) * res proc_error (list bytes) :=
  let '(s, r) := process_data data s in ((s, ingest_ns), r).

Definition finish (s : Separate) (data : option bytes) : Separate * res proc_error (list bytes) :=
  match data with
  | Some data =>
      match process_data data s with
      | (s, Ok processed) =>
          if negb (bool_decide (sp_buffer s = [])) then (set_buffer s [], Ok (processed ++ [sp_buffer s]))
          else (s, Ok processed)
      | r => r
      end
  | None =>
      if negb (bool_decide (sp_buffer s = [])) then (set_buffer s [], Ok [sp_buffer s]) else (s, Ok [])
  end.

End Sep.

#[export] Instance Separate_Preprocessor : Preprocessor Separate := mkPreprocessor _ Sep.process Sep.finish.

(** ** length-prefixed and textual-length-prefixed (preprocessors) *)
Record LengthPrefixed : Type := mkLP { lp_len : option Z; lp_buffer : bytes }.

Module LenPre.

Definition default : LengthPrefixed := mkLP None [].

(** The first half of the loop body: complete the message whose length is known.  [None] is
    the [break] when it is not there yet. *)
Definition take_part (s : LengthPrefixed) (res : list bytes) : option (LengthPrefixed * list bytes) :=
  match lp_len s with
  | Some l =>
      if l <=? Z.of_nat (length (lp_buffer s)) then
        Some (mkLP None (drop (Z.to_nat l) (lp_buffer s)), res ++ [take (Z.to_nat l) (lp_buffer s)])
      else None
  | None => Some (s, res)
  end.

(** The [loop]; every iteration but the first consumes eight bytes, so the number of bytes
    bounds the iterations. *)
Fixpoint loop (fuel : nat) (s : LengthPrefixed) (res : list bytes) : LengthPrefixed * list bytes :=
  match fuel with
  | O => (s, res)
  | S fuel =>
      match take_part s res with
      | None => (s, res)
      | Some (s, res) =>
          if decide (8 < length (lp_buffer s))%nat then
            loop fuel (mkLP (Some (read_u64 (lp_buffer s))) (drop 8 (lp_buffer s))) res
          else (s, res)
      end
  end.

Definition process (s : LengthPrefixed) (ingest_ns : Z) (data : bytes)
  : (LengthPrefixed * Z) * res proc_error (list bytes) :=
  let s := mkLP (lp_len s) (lp_buffer s ++ data) in
  let '(s, res) := loop (S (length (lp_buffer s))) s [] in ((s, ingest_ns), Ok res).

End LenPre.

#[export] Instance LengthPrefixed_Preprocessor : Preprocessor LengthPrefixed :=
  mkPreprocessor _ LenPre.process default_finish.

Record TextualLengthPrefixed : Type := mkTLP { tlp : LengthPrefixed }.

Module TextPre.

Definition default : TextualLengthPrefixed := mkTLP LenPre.default.

(** [iter().enumerate().find(is_ascii_whitespace)]: the bytes before it and those from it on. *)
Fixpoint find_whitespace (l : bytes) : option (bytes * bytes) :=
  match l with
  | [] => None
  | b :: l' =>
      if is_ascii_whitespace b then Some ([], l)
      else match find_whitespace l' with
           | Some (pre, post) => Some (b :: pre, post)
           | None => None
           end
  end.

Fixpoint loop (fuel : nat) (s : LengthPrefixed) (res : list bytes)
  : LengthPrefixed * Prelude.res proc_error (list bytes) :=
  match fuel with
  | O => (s, Ok res)
  | S fuel =>
      match LenPre.take_part s res with
      | None => (s, Ok res)
      | Some (s, res) =>
          match find_whitespace (lp_buffer s) with
          | Some (buf, rest) =>
              match parse_u32 buf with
              | Some l => loop fuel (mkLP (Some l) (drop 1 rest)) res
              | None => (mkLP (lp_len s) rest, Err (ProcMsg "invalid digit found in string"))
              end
          | None => (s, Ok res)
          end
      end
  end.

Definition process (s : TextualLengthPrefixed) (ingest_ns : Z) (data : bytes)
  : (TextualLengthPrefixed * Z) * res proc_error (list bytes) :=
  let s := mkLP (lp_len (tlp s)) (lp_buffer (tlp s) ++ data) in
  let '(s, r) := loop (S (length (lp_buffer s))) s [] in ((mkTLP s, ingest_ns), r).

End TextPre.

#[export] Instance TextualLengthPrefixed_Preprocessor : Preprocessor TextualLengthPrefixed :=
  mkPreprocessor _ TextPre.process default_finish.

(** ** remove-empty and ingest-ns (preprocessors) *)
Inductive RemoveEmpty : Type := mkRemoveEmpty.
Inductive ExtractIngestTs : Type := mkExtractIngestTs.

Module SimplePre.

Definition remove_empty (p : RemoveEmpty) (ingest_ns : Z) (data : bytes)
  : (RemoveEmpty * Z) * res proc_error (list bytes) :=
  ((p, ingest_ns), Ok match data with [] => [] | _ => [data] end).

Definition extract_ingest_ts (p : ExtractIngestTs) (ingest_ns : Z) (data : bytes)
  : (ExtractIngestTs * Z) * res proc_error (list bytes) :=
  match get_from data 8 with
  | Some d => ((p, read_u64 data), Ok [d])
  | None => ((p, ingest_ns), Err (ProcMsg "Extract Ingest Ts Preprocessor: < 8 byte"))
  end.

End SimplePre.

#[export] Instance RemoveEmpty_Preprocessor : Preprocessor RemoveEmpty :=
  mkPreprocessor _ SimplePre.remove_empty default_finish.
#[export] Instance ExtractIngestTs_Preprocessor : Preprocessor ExtractIngestTs :=
  mkPreprocessor _ SimplePre.extract_ingest_ts default_finish.

(** ** gelf-chunking (preprocessor) *)
Record GelfMsgs : Type := mkGelfMsgs {
  gm_count : Z;
  gm_stored : Z;
  gm_bytes : nat;
  gm_segments : list (option bytes)
}.

Record GelfSegment : Type := mkGelfSegment {
  gs_id : Z;
  gs_seq : Z;
  gs_count : Z;
  gs_data : bytes
}.

Record GelfChunking : Type := mkGelfChunking {
  gc_buffer : gmap Z GelfMsgs;
  gc_last_buffer : gmap Z GelfMsgs;
  gc_last_swap : Z
}.

Module GelfPre.

Definition FIVE_SEC : Z := 5000000000.
Definition default : GelfChunking := mkGelfChunking ∅ ∅ 0.

(** [random_id] is the id the operating system's generator gives an uncompressed message. *)
Definition decode_gelf (random_id : Z) (bin : bytes) : res proc_error GelfSegment :=
  match bin with
  | Byte.x1f :: Byte.x3c :: rest => Ok (mkGelfSegment random_id 0 1 rest)
  | Byte.x1e :: Byte.x0f :: b2 :: b3 :: b4 :: b5 :: b6 :: b7 :: b8 :: b9 :: seq :: count :: rest =>
      let id := Z.shiftl (Z_of_byte b2) 56 + Z.shiftl (Z_of_byte b3) 48 + Z.shiftl (Z_of_byte b4) 40
              + Z.shiftl (Z_of_byte b5) 32 + Z.shiftl (Z_of_byte b6) 24 + Z.shiftl (Z_of_byte b7) 16
              + Z.shiftl (Z_of_byte b8) 8 + Z_of_byte b9 in
      Ok (mkGelfSegment id (Z_of_byte seq) (Z_of_byte count) rest)
  | Byte.x7b :: _ :: _ => Ok (mkGelfSegment 0 0 1 bin)
  | a :: b :: _ => Err (InvalidGelfHeader (length bin) (Some (a, b)))
  | [v] => Err (InvalidGelfHeader 1 (Some (v, Byte.x00)))
  | [] => Err (InvalidGelfHeader 0 None)
  end.

Fixpoint assemble (segments : list (option bytes)) (result : bytes) : option bytes :=
  match segments with
  | [] => Some result
  | Some v :: segments => assemble segments (result ++ v)
  | None :: _ => None
  end.

(** The code for a key that is known, in one buffer: the buffer and the message if complete. *)
Definition occupied (buffer : gmap Z GelfMsgs) (key : Z) (m : GelfMsgs) (idx : nat) (data : bytes)
  : gmap Z GelfMsgs * option bytes :=
  match gm_segments m !! idx with
  | Some None =>
      let m := mkGelfMsgs (gm_count m) ((gm_stored m + 1) mod 256) (gm_bytes m + length data)
                 (<[idx := Some data]> (gm_segments m)) in
      if decide (gm_stored m = gm_count m) then (delete key buffer, assemble (gm_segments m) [])
      else (<[key := m]> buffer, None)
  | _ => (delete key buffer, None)
  end.

Definition enqueue (g : GelfChunking) (ingest_ns : Z) (msg : GelfSegment) : GelfChunking * option bytes :=
  let g :=
    if FIVE_SEC <? wrapping_sub ingest_ns (gc_last_swap g) then mkGelfChunking ∅ (gc_buffer g) ingest_ns
    else g in
  if decide (gs_count msg = 1) then (g, Some (gs_data msg)) else
  let idx := Z.to_nat (gs_seq msg) in
  let key := gs_id msg in
  match gc_buffer g !! key with
  | None =>
      match gc_last_buffer g !! key with
      | Some m =>
          let '(last, r) := occupied (gc_last_buffer g) key m idx (gs_data msg) in
          (mkGelfChunking (gc_buffer g) last (gc_last_swap g), r)
      | None =>
          let count := gs_count msg in
          let segments := replicate (Z.to_nat count) None in
          if decide (idx < Z.to_nat count)%nat then
            let m := mkGelfMsgs count 1 (length (gs_data msg)) (<[idx := Some (gs_data msg)]> segments) in
            if decide (gm_stored m = gm_count m) then (g, assemble (gm_segments m) [])
            else (mkGelfChunking (<[key := m]> (gc_buffer g)) (gc_last_buffer g) (gc_last_swap g), None)
          else (g, None)
      end
  | Some m =>
      let '(buffer, r) := occupied (gc_buffer g) key m idx (gs_data msg) in
      (mkGelfChunking buffer (gc_last_buffer g) (gc_last_swap g), r)
  end.

Definition process_with (random_id : Z) (g : GelfChunking) (ingest_ns : Z) (data : bytes)
  : (GelfChunking * Z) * res proc_error (list bytes) :=
  match decode_gelf random_id data with
  | Ok msg =>
      match enqueue g ingest_ns msg with
      | (g, Some data) => ((g, ingest_ns), Ok [data])
      | (g, None) => ((g, ingest_ns), Ok [])
      end
  | Err e => ((g, ingest_ns), Err e)
  | Panic => ((g, ingest_ns), Panic)
  end.

(** The id of an uncompressed message is never looked up (its count is 1), so any will do. *)
Definition process : GelfChunking -> Z -> bytes -> (GelfChunking * Z) * res proc_error (list bytes) :=
  process_with 0.

End GelfPre.

#[export] Instance GelfChunking_Preprocessor : Preprocessor GelfChunking :=
  mkPreprocessor _ GelfPre.process default_finish.

(** ** Postprocessors *)
Inductive SeparatePost : Type := mkSeparatePost (separator : byte).
Inductive LengthPrefixedPost : Type := mkLengthPrefixedPost.
Inductive TextualLengthPrefixedPost : Type := mkTextualLengthPrefixedPost.
Inductive IngestNs : Type := mkIngestNs.
Record Gelf : Type := mkGelf { ge_id : Z; ge_chunk_size : nat }.
Record Chunk : Type := mkChunk { ck_max_bytes : nat; ck_chunk : bytes }.

Module Post.

Definition separate_from_config (config : option bytes) : res proc_error SeparatePost :=
  match config with
  | Some [separator] => Ok (mkSeparatePost separator)
  | Some _ => Err (InvalidConfiguration "separate postprocessor" "Invalid separator, must be 1 byte.")
  | None => Ok (mkSeparatePost Sep.DEFAULT_SEPARATOR)
  end.

Definition separate (p : SeparatePost) (ingres_ns egress_ns : Z) (data : bytes)
  : SeparatePost * res proc_error (list bytes) :=
  let 'mkSeparatePost separator := p in (p, Ok [data ++ [separator]]).

Definition length_prefixed (p : LengthPrefixedPost) (ingres_ns egress_ns : Z) (data : bytes)
  : LengthPrefixedPost * res proc_error (list bytes) :=
  (p, Ok [write_u64 (Z.of_nat (length data)) ++ data]).

Definition textual_length_prefixed (p : TextualLengthPrefixedPost) (ingres_ns egress_ns : Z) (data : bytes)
  : TextualLengthPrefixedPost * res proc_error (list bytes) :=
  (p, Ok [to_string (length data) ++ Byte.x20 :: data]).

Definition ingest_ns (p : IngestNs) (ingres_ns egress_ns : Z) (data : bytes)
  : IngestNs * res proc_error (list bytes) :=
  (p, Ok [write_u64 ingres_ns ++ data]).

Definition gelf_default : Gelf := mkGelf 0 8192.

(** [slice::chunks]: pieces of [n] bytes, the last one shorter; [fuel] bounds their number. *)
Fixpoint chunks_of (fuel n : nat) (data : bytes) : list bytes :=
  match fuel with
  | O => []
  | S fuel =>
      match data with
      | [] => []
      | _ => take n data :: chunks_of fuel n (drop n data)
      end
  end.

Definition gelf_frame (id : Z) (n i : nat) (chunk : bytes) : bytes :=
  [Byte.x1e; Byte.x0f] ++ write_u64 id ++ [byte_of_Z (Z.of_nat i); byte_of_Z (Z.of_nat n)] ++ chunk.

(** [self.chunk_size - 12]: below 12 it wraps around to a size above that of any slice, which
    makes one chunk of all the data. *)
Definition chunk_len (p : Gelf) (data : bytes) : nat :=
  if decide (ge_chunk_size p < 12)%nat then length data else (ge_chunk_size p - 12)%nat.

(** [chunks] panics on a size of 0. *)
Definition encode_gelf (p : Gelf) (data : bytes) : Gelf * res proc_error (list bytes) :=
  if decide (ge_chunk_size p = 12)%nat then (p, Panic) else
  let chunks := chunks_of (length data) (chunk_len p data) data in
  let n := length chunks in
  let id := ge_id p in
  if decide (128 < n)%nat then (p, Err (TooManyChunks n))
  else (mkGelf (wrapping_add id 1) (ge_chunk_size p), Ok (imap (gelf_frame id n) chunks)).

Definition gelf (p : Gelf) (ingest_ns egest_ns : Z) (data : bytes) : Gelf * res proc_error (list bytes) :=
  encode_gelf p data.

Definition chunk_new (max_bytes : nat) : Chunk := mkChunk max_bytes [].

Definition chunk_from_config (config : option nat) : res proc_error Chunk :=
  match config with
  | Some 0%nat => Err (InvalidConfiguration "chunk postprocessor" "`max_bytes` must be > 0")
  | Some max_bytes => Ok (chunk_new max_bytes)
  | None => Err (MissingConfiguration "chunk postprocessor")
  end.

Definition chunk (p : Chunk) (ingres_ns egress_ns : Z) (data : bytes) : Chunk * res proc_error (list bytes) :=
  let new_len := (length (ck_chunk p) + length data)%nat in
  if decide (ck_max_bytes p < length data)%nat then (p, Ok [])
  else if decide (ck_max_bytes p < new_len)%nat then (mkChunk (ck_max_bytes p) data, Ok [ck_chunk p])
  else if decide (new_len = ck_max_bytes p) then (mkChunk (ck_max_bytes p) [], Ok [ck_chunk p ++ data])
  else (mkChunk (ck_max_bytes p) (ck_chunk p ++ data), Ok []).

Definition chunk_finish (p : Chunk) (data : option bytes) : Chunk * res proc_error (list bytes) :=
  let output := ck_chunk p in
  let p := mkChunk (ck_max_bytes p) [] in
  let data := default [] data in
  (p, Ok match output, data with
         | [], [] => []
         | [], _ => if decide (ck_max_bytes p < length data)%nat then [] else [data]
         | _, [] => [output]
         | _, _ =>
             if decide (ck_max_bytes p < length data)%nat then [output]
             else if decide (ck_max_bytes p < length output + length data)%nat then [output; data]
             else [output ++ data]
         end).

End Post.

#[export] Instance SeparatePost_Postprocessor : Postprocessor SeparatePost :=
  mkPostprocessor _ Post.separate default_finish.
#[export] Instance LengthPrefixedPost_Postprocessor : Postprocessor LengthPrefixedPost :=
  mkPostprocessor _ Post.length_prefixed default_finish.
#[export] Instance TextualLengthPrefixedPost_Postprocessor : Postprocessor TextualLengthPrefixedPost :=
  mkPostprocessor _ Post.textual_length_prefixed default_finish.
#[export] Instance IngestNs_Postprocessor : Postprocessor IngestNs := mkPostprocessor _ Post.ingest_ns default_finish.
#[export] Instance Gelf_Postprocessor : Postprocessor Gelf := mkPostprocessor _ Post.gelf default_finish.
#[export] Instance Chunk_Postprocessor : Postprocessor Chunk := mkPostprocessor _ Post.chunk Post.chunk_finish.

(** ** Any processor, and the lookup by name

    [PreOpaque] and [PostOpaque] stand for base64 and (de)compression: a function of the
    data, given by the third party crate. *)
Inductive AnyPre : Type :=
| PreSeparate (p : Separate)
| PreLengthPrefixed (p : LengthPrefixed)
| PreTextual (p : TextualLengthPrefixed)
| PreRemoveEmpty (p : RemoveEmpty)
| PreIngestTs (p : ExtractIngestTs)
| PreGelf (p : GelfChunking)
| PreOpaque (f : bytes -> res proc_error bytes).

Inductive AnyPost : Type :=
| PostSeparate (p : SeparatePost)
| PostLengthPrefixed (p : LengthPrefixedPost)
| PostTextual (p : TextualLengthPrefixedPost)
| PostIngestNs (p : IngestNs)
| PostGelf (p : Gelf)
| PostChunk (p : Chunk)
| PostOpaque (f : bytes -> res proc_error bytes).

Module Any.

(** Wrap the state a processor returns. *)
Definition wrap {P Q R} (f : P -> Q) (r : P * R) : Q * R := let '(p, x) := r in (f p, x).
Definition wrap_ns {P Q R} (f : P -> Q) (r : (P * Z) * R) : (Q * Z) * R := let '((p, ns), x) := r in ((f p, ns), x).

Definition opaque (f : bytes -> res proc_error bytes) (data : bytes) : res proc_error (list bytes) :=
  let? d := f data in Ok [d].

Definition process (p : AnyPre) (ns : Z) (data : bytes) : (AnyPre * Z) * res proc_error (list bytes) :=
  match p with
  | PreSeparate p => wrap_ns PreSeparate (pre_process p ns data)
  | PreLengthPrefixed p => wrap_ns PreLengthPrefixed (pre_process p ns data)
  | PreTextual p => wrap_ns PreTextual (pre_process p ns data)
  | PreRemoveEmpty p => wrap_ns PreRemoveEmpty (pre_process p ns data)
  | PreIngestTs p => wrap_ns PreIngestTs (pre_process p ns data)
  | PreGelf p => wrap_ns PreGelf (pre_process p ns data)
  | PreOpaque f => ((p, ns), opaque f data)
  end.

Definition finish (p : AnyPre) (data : option bytes) : AnyPre * res proc_error (list bytes) :=
  match p with
  | PreSeparate p => wrap PreSeparate (pre_finish p data)
  | PreLengthPrefixed p => wrap PreLengthPrefixed (pre_finish p data)
  | PreTextual p => wrap PreTextual (pre_finish p data)
  | PreRemoveEmpty p => wrap PreRemoveEmpty (pre_finish p data)
  | PreIngestTs p => wrap PreIngestTs (pre_finish p data)
  | PreGelf p => wrap PreGelf (pre_finish p data)
  | PreOpaque f => default_finish p data
  end.

Definition post_process' (p : AnyPost) (ns egress : Z) (data : bytes) : AnyPost * res proc_error (list bytes) :=
  match p with
  | PostSeparate p => wrap PostSeparate (post_process p ns egress data)
  | PostLengthPrefixed p => wrap PostLengthPrefixed (post_process p ns egress data)
  | PostTextual p => wrap PostTextual (post_process p ns egress data)
  | PostIngestNs p => wrap PostIngestNs (post_process p ns egress data)
  | PostGelf p => wrap PostGelf (post_process p ns egress data)
  | PostChunk p => wrap PostChunk (post_process p ns egress data)
  | PostOpaque f => (p, opaque f data)
  end.

Definition post_finish' (p : AnyPost) (data : option bytes) : AnyPost * res proc_error (list bytes) :=
  match p with
  | PostSeparate p => wrap PostSeparate (post_finish p data)
  | PostLengthPrefixed p => wrap PostLengthPrefixed (post_finish p data)
  | PostTextual p => wrap PostTextual (post_finish p data)
  | PostIngestNs p => wrap PostIngestNs (post_finish p data)
  | PostGelf p => wrap PostGelf (post_finish p data)
  | PostChunk p => wrap PostChunk (post_finish p data)
  | PostOpaque f => default_finish p data
  end.

End Any.

#[export] Instance AnyPre_Preprocessor : Preprocessor AnyPre := mkPreprocessor _ Any.process Any.finish.
#[export] Instance AnyPost_Postprocessor : Postprocessor AnyPost := mkPostprocessor _ Any.post_process' Any.post_finish'.

(** ** Lookup and chains *)
Module PreChain.

(** The options a preprocessor's configuration can hold, after deserialisation: those of
    separate, and the decompression algorithm. *)
Record PreprocessorConfig : Type := mkPreConfig {
  prc_name : string;
  prc_separate : option (bytes * option nat * bool);
  prc_algorithm : option string
}.

Definition lookup_with_config (base64_decode : bytes -> res proc_error bytes)
    (decompress : option string -> res proc_error (bytes -> res proc_error bytes))
    (config : PreprocessorConfig) : res proc_error AnyPre :=
  let name := prc_name config in
  if decide (name = "separate") then let? s := Sep.from_config (prc_separate config) in Ok (PreSeparate s)
  else if decide (name = "base64") then Ok (PreOpaque base64_decode)
  else if decide (name = "decompress") then let? f := decompress (prc_algorithm config) in Ok (PreOpaque f)
  else if decide (name = "remove-empty") then Ok (PreRemoveEmpty mkRemoveEmpty)
  else if decide (name = "gelf-chunking") then Ok (PreGelf GelfPre.default)
  else if decide (name = "ingest-ns") then Ok (PreIngestTs mkExtractIngestTs)
  else if decide (name = "length-prefixed") then Ok (PreLengthPrefixed LenPre.default)
  else if decide (name = "textual-length-prefixed") then Ok (PreTextual TextPre.default)
  else Err (NotFoundProcessor name).

Section chain.
Context {P : Type} `{Preprocessor P}.

(** One preprocessor on every piece of data, in order. *)
Fixpoint process_all (pp : P) (ns : Z) (data : list bytes) (data1 : list bytes)
  : (P * Z) * res proc_error (list bytes) :=
  match data with
  | [] => ((pp, ns), Ok data1)
  | d :: data =>
      match pre_process pp ns d with
      | ((pp, ns), Ok r) => process_all pp ns data (data1 ++ r)
      | ((pp, ns), Err e) => ((pp, ns), Err e)
      | ((pp, ns), Panic) => ((pp, ns), Panic)
      end
  end.

Fixpoint preprocess_loop (pps : list P) (ns : Z) (data : list bytes)
  : (list P * Z) * res proc_error (list bytes) :=
  match pps with
  | [] => (([], ns), Ok data)
  | pp :: pps =>
      match process_all pp ns data [] with
      | ((pp, ns), Ok data) =>
          let '((pps, ns), r) := preprocess_loop pps ns data in ((pp :: pps, ns), r)
      | ((pp, ns), r) => ((pp :: pps, ns), r)
      end
  end.

Definition preprocess (pps : list P) (ingest_ns : Z) (data : bytes)
  : (list P * Z) * res proc_error (list bytes) := preprocess_loop pps ingest_ns [data].

Fixpoint finish_all (pp : P) (data : list bytes) (data1 : list bytes) : P * res proc_error (list bytes) :=
  match data with
  | [] => (pp, Ok data1)
  | d :: data =>
      match pre_finish pp (Some d) with
      | (pp, Ok r) => finish_all pp data (data1 ++ r)
      | r => r
      end
  end.

Fixpoint finish_tail (pps : list P) (data : list bytes) : list P * res proc_error (list bytes) :=
  match pps with
  | [] => ([], Ok data)
  | pp :: pps =>
      match finish_all pp data [] with
      | (pp, Ok data) => let '(pps, r) := finish_tail pps data in (pp :: pps, r)
      | (pp, r) => (pp :: pps, r)
      end
  end.

Definition finish (pps : list P) : list P * res proc_error (list bytes) :=
  match pps with
  | [] => ([], Ok [])
  | head :: tail =>
      match pre_finish head None with
      | (head, Ok data) => let '(tail, r) := finish_tail tail data in (head :: tail, r)
      | (head, r) => (head :: tail, r)
      end
  end.

End chain.
End PreChain.

Module PostChain.

Record PostprocessorConfig : Type := mkPostConfig {
  poc_name : string;
  poc_separator : option bytes;
  poc_max_bytes : option nat;
  poc_algorithm : option (string * option Z)
}.

Definition lookup_with_config (base64_encode : bytes -> res proc_error bytes)
    (compress : option (string * option Z) -> res proc_error (bytes -> res proc_error bytes))
    (config : PostprocessorConfig) : res proc_error AnyPost :=
  let name := poc_name config in
  if decide (name = "chunk") then let? c := Post.chunk_from_config (poc_max_bytes config) in Ok (PostChunk c)
  else if decide (name = "compress") then let? f := compress (poc_algorithm config) in Ok (PostOpaque f)
  else if decide (name = "separate") then
    let? s := Post.separate_from_config (poc_separator config) in Ok (PostSeparate s)
  else if decide (name = "base64") then Ok (PostOpaque base64_encode)
  else if decide (name = "ingest-ns") then Ok (PostIngestNs mkIngestNs)
  else if decide (name = "length-prefixed") then Ok (PostLengthPrefixed mkLengthPrefixedPost)
  else if decide (name = "gelf-chunking") then Ok (PostGelf Post.gelf_default)
  else if decide (name = "textual-length-prefixed") then Ok (PostTextual mkTextualLengthPrefixedPost)
  else Err (NotFoundProcessor name).

Section chain.
Context {P : Type} `{Postprocessor P}.

Fixpoint process_all (pp : P) (ns egress : Z) (data : list bytes) (data1 : list bytes)
  : P * res proc_error (list bytes) :=
  match data with
  | [] => (pp, Ok data1)
  | d :: data =>
      match post_process pp ns egress d with
      | (pp, Ok r) => process_all pp ns egress data (data1 ++ r)
      | r => r
      end
  end.

Fixpoint postprocess_loop (pps : list P) (ns egress : Z) (data : list bytes)
  : list P * res proc_error (list bytes) :=
  match pps with
  | [] => ([], Ok data)
  | pp :: pps =>
      match process_all pp ns egress data [] with
      | (pp, Ok data) => let '(pps, r) := postprocess_loop pps ns egress data in (pp :: pps, r)
      | (pp, r) => (pp :: pps, r)
      end
  end.

(** [egress_ns] is the wall clock, read once per call. *)
Definition postprocess (pps : list P) (ingres_ns egress_ns : Z) (data : bytes)
  : list P * res proc_error (list bytes) := postprocess_loop pps ingres_ns egress_ns [data].

Fixpoint finish_all (pp : P) (data : list bytes) (data1 : list bytes) : P * res proc_error (list bytes) :=
  match data with
  | [] => (pp, Ok data1)
  | d :: data =>
      match post_finish pp (Some d) with
      | (pp, Ok r) => finish_all pp data (data1 ++ r)
      | r => r
      end
  end.

Fixpoint finish_tail (pps : list P) (data : list bytes) : list P * res proc_error (list bytes) :=
  match pps with
  | [] => ([], Ok data)
  | pp :: pps =>
      match finish_all pp data [] with
      | (pp, Ok data) => let '(pps, r) := finish_tail pps data in (pp :: pps, r)
      | (pp, r) => (pp :: pps, r)
      end
  end.

Definition finish (pps : list P) : list P * res proc_error (list bytes) :=
  match pps with
  | [] => ([], Ok [])
  | head :: tail =>
      match post_finish head None with
      | (head, Ok data) => let '(tail, r) := finish_tail tail data in (head :: tail, r)
      | (head, r) => (head :: tail, r)
      end
  end.

End chain.
End PostChain.
