(* ===== verification/SeparateProps.v ===== *)
(** * Correctness of the separate processors

    The preprocessor of src/preprocessor/separate.rs against a reference split: the events do
    not depend on how the stream is cut into chunks, they invert the postprocessor, and the
    length limit bounds everything that is buffered or emitted. *)
From S2P Require Import Prelude Value Bytes Processors.

(** ** The reference: the complete lines of a byte string and what follows them *)
Fixpoint split (sep : byte) (l : bytes) : list bytes * bytes :=
  match l with
  | [] => ([], [])
  | b :: l =>
      let '(ls, rest) := split sep l in
      if decide (b = sep) then ([] :: ls, rest)
      else match ls with
           | [] => ([], b :: rest)
           | x :: ls => ((b :: x) :: ls, rest)
           end
  end.

(** Put [cur] in front of the first line. *)
Definition prepend (cur : bytes) (r : list bytes * bytes) : list bytes * bytes :=
  match r with
  | ([], rest) => ([], cur ++ rest)
  | (x :: ls, rest) => ((cur ++ x) :: ls, rest)
  end.

Lemma split_app sep cur l : sep ∉ cur -> split sep (cur ++ l) = prepend cur (split sep l).
Proof.
  induction cur as [|b cur IH]; intros Hc; [simpl; by destruct (split sep l) as [[] ?]|].
  apply not_elem_of_cons in Hc as [Hb Hc]. cbn [app split]. rewrite IH by done.
  destruct (split sep l) as [[|x ls] rest]; simpl; by rewrite decide_False.
Qed.

Lemma split_line sep cur l :
  sep ∉ cur -> split sep (cur ++ sep :: l) = (cur :: (split sep l).1, (split sep l).2).
Proof.
  intros Hc. rewrite split_app by done. cbn [split]. destruct (split sep l) as [ls rest].
  rewrite decide_True by done. simpl. by rewrite app_nil_r.
Qed.

Lemma split_none sep l : sep ∉ l -> split sep l = ([], l).
Proof. intros Hl. rewrite <- (app_nil_r l) at 1. rewrite split_app by done. simpl. by rewrite app_nil_r. Qed.

Lemma split_rest sep l : sep ∉ (split sep l).2.
Proof.
  induction l as [|b l IH]; cbn [split]; [set_solver|]. destruct (split sep l) as [[|x ls] rest]; simpl in *;
    case_decide; simpl; set_solver.
Qed.

(** Splitting in two steps. *)
Lemma split_app_rest sep a b :
  split sep (a ++ b) =
  let '(ls, rest) := split sep a in let '(ls', rest') := split sep (rest ++ b) in (ls ++ ls', rest').
Proof.
  induction a as [|x a IH]; cbn [app split]; [by destruct (split sep b)|].
  rewrite IH. destruct (split sep a) as [ls rest].
  destruct (decide (x = sep)) as [->|Hx].
  - by destruct (split sep (rest ++ b)).
  - destruct ls as [|l ls]; cbn [app split].
    + destruct (split sep (rest ++ b)) as [[|y ls'] rest']; by rewrite decide_False.
    + by destruct (split sep (rest ++ b)).
Qed.

(** ** The split points of the code *)
Lemma memchr_none i sep l : memchr_iter i sep l = [] <-> sep ∉ l.
Proof.
  revert i. induction l as [|b l IH]; intros i; cbn [memchr_iter]; [set_solver|].
  case_decide; [set_solver|]. rewrite IH. set_solver.
Qed.

(** The first separator of a string that has one. *)
Lemma memchr_first i sep l :
  sep ∈ l -> exists cur l', l = cur ++ sep :: l' /\ sep ∉ cur
    /\ memchr_iter i sep l = (i + length cur)%nat :: memchr_iter (i + S (length cur)) sep l'.
Proof.
  revert i. induction l as [|b l IH]; intros i Hin; [by apply not_elem_of_nil in Hin|]. cbn [memchr_iter].
  destruct (decide (b = sep)) as [->|Hb].
  - exists [], l. simpl. rewrite Nat.add_0_r, Nat.add_1_r. set_solver.
  - destruct (IH (S i)) as (cur&l'&->&Hc&Hm); [set_solver|].
    exists (b :: cur), l'. simpl. rewrite Hm. split_and!; [done|set_solver|]. f_equal; [lia|f_equal; lia].
Qed.

Lemma get_range_app (pre cur suf : bytes) :
  get_range (pre ++ cur ++ suf) (length pre) (length pre + length cur) = Some cur.
Proof.
  unfold get_range. rewrite decide_True by (rewrite !length_app; lia).
  rewrite drop_app_length. by replace (length pre + length cur - length pre)%nat with (length cur) by lia; rewrite take_app_length.
Qed.

Lemma get_from_app (pre suf : bytes) : get_from (pre ++ suf) (length pre) = Some suf.
Proof. unfold get_from. rewrite decide_True by (rewrite length_app; lia). by rewrite drop_app_length. Qed.

Notation valid s := (List.filter (Sep.is_valid_chunk s)).

(** The loop over the split points of [suf] behind [pre]: the valid lines, and the position
    of the rest. *)
Lemma fragments_spec s pre suf ev :
  exists pre', pre ++ suf = pre' ++ (split (sp_separator s) suf).2
    /\ Sep.fragments s (pre ++ suf) (length pre) (memchr_iter (length pre) (sp_separator s) suf) ev
       = Ok (length pre', ev ++ valid s (split (sp_separator s) suf).1).
Proof.
  remember (length suf) as n eqn:Hn. assert (Hle : (length suf <= n)%nat) by lia. clear Hn.
  revert pre suf ev Hle. induction n as [|n IH]; intros pre suf ev Hle;
    (destruct (decide (sp_separator s ∈ suf)) as [Hin|Hin];
      [|rewrite split_none by done; exists pre; split; [done|];
        rewrite (proj2 (memchr_none _ _ _) Hin); simpl; by rewrite app_nil_r]).
  { destruct suf; [by apply not_elem_of_nil in Hin|simpl in Hle; lia]. }
  destruct (memchr_first (length pre) _ _ Hin) as (cur&suf'&->&Hc&->). rewrite split_line by done.
  cbn [Sep.fragments fst snd]. rewrite get_range_app. cbn [ok_or res_bind].
  set (ev' := if Sep.is_valid_chunk s cur then _ else _).
  destruct (IH (pre ++ cur ++ [sp_separator s]) suf' ev') as (pre'&Heq&Hf).
  { rewrite length_app in Hle. simpl in Hle. lia. }
  exists pre'. rewrite <- Heq. split; [by rewrite <- !app_assoc|].
  rewrite <- !app_assoc in Hf. simpl in Hf. rewrite !length_app in Hf. simpl in Hf.
  replace (length pre + (length cur + 1))%nat with (S (length pre + length cur)) in Hf by lia.
  rewrite Nat.add_succ_r, Hf. subst ev'. do 2 f_equal. cbn [List.filter].
  destruct (Sep.is_valid_chunk s cur); by rewrite <- ?app_assoc.
Qed.

(** ** The buffered mode *)

(** What [process] does with a chunk, in terms of its lines. *)
Definition buffered_result (s : Separate) (data : bytes) : Separate * res proc_error (list bytes) :=
  match split (sp_separator s) data with
  | ([], rest) => let '(s, r) := Sep.save_fragment s rest in (s, let? _ := r in Ok [])
  | (l :: ls, rest) =>
      if negb (bool_decide (sp_buffer s = [])) && Sep.exceeds_max_length s (length (sp_buffer s ++ l)) then
        (Sep.set_buffer s [], Err (DiscardedFragment (length l) (length (sp_buffer s ++ l))
                                     (from_option id 0%nat (sp_max_length s))))
      else
        let '(s', r) := Sep.save_fragment (Sep.set_buffer s []) rest in
        (s', let? _ := r in Ok (valid s ((sp_buffer s ++ l) :: ls)))
  end.

Lemma set_buffer_id s : Sep.set_buffer s (sp_buffer s) = s.
Proof. by destruct s. Qed.

Lemma process_buffered_spec s data :
  Sep.process_buffered data (memchr_iter 0 (sp_separator s) data) s = buffered_result s data.
Proof.
  unfold buffered_result. destruct (decide (sp_separator s ∈ data)) as [Hin|Hin].
  2:{ rewrite split_none by done. rewrite (proj2 (memchr_none _ _ _) Hin). cbn [Sep.process_buffered].
      unfold mbind, M_bind, m_call. by destruct (Sep.save_fragment s data) as [s' []]. }
  destruct (memchr_first 0 _ _ Hin) as (cur&suf&->&Hc&->). rewrite split_line by done.
  destruct (split (sp_separator s) suf) as [ls rest] eqn:Hsplit. cbn [fst snd Sep.process_buffered].
  unfold mbind at 1, M_bind at 1, m_lift at 1.
  pose proof (get_range_app [] cur (sp_separator s :: suf)) as Hr. simpl in Hr. simpl plus at 1. rewrite Hr. cbn [ok_or].
  unfold mbind at 1, M_bind at 1, m_get at 1.
  assert (Hrest : forall ev, (s0 ← m_get;
      '(last_idx, events) ← m_lift (Sep.fragments s0 (cur ++ sp_separator s :: suf) (S (0 + length cur))
          (memchr_iter (0 + S (length cur)) (sp_separator s) suf) ev);
      _ ← (if decide (last_idx <= length (cur ++ sp_separator s :: suf))%nat then
             rest ← m_lift (ok_or (InvalidInputData "Out of bounds") (get_from (cur ++ sp_separator s :: suf) last_idx));
             m_call (fun s => Sep.save_fragment s rest)
           else mret tt);
      mret events) (Sep.set_buffer s []) =
    let '(s', r) := Sep.save_fragment (Sep.set_buffer s []) rest in
    (s', let? _ := r in Ok (ev ++ valid s ls))).
  { intros ev. unfold mbind at 1, M_bind at 1, m_get at 1.
    destruct (fragments_spec (Sep.set_buffer s []) (cur ++ [sp_separator s]) suf ev) as (pre'&Heq&Hf).
    rewrite <- !app_assoc in Heq, Hf. simpl in Heq, Hf. rewrite length_app, Nat.add_1_r, Hsplit in Hf.
    unfold mbind at 1, M_bind at 1, m_lift at 1. simpl plus. rewrite Hf.
    rewrite Hsplit in Heq. simpl in Heq. rewrite Heq.
    unfold mbind at 1, M_bind at 1. rewrite decide_True by (rewrite length_app; lia).
    unfold mbind at 1, M_bind at 1, m_lift at 1. rewrite get_from_app. cbn [ok_or]. unfold m_call.
    by destruct (Sep.save_fragment (Sep.set_buffer s []) rest) as [s' [[]| |]]. }
  unfold mbind at 1, M_bind at 1.
  destruct (bool_decide (sp_buffer s = [])) eqn:Hb; cbn [negb andb].
  - apply bool_decide_eq_true in Hb. cbn. rewrite Hb. simpl app.
    assert (Sep.set_buffer s [] = s) as Hs by (rewrite <- Hb; apply set_buffer_id). rewrite Hs in *.
    etrans; [apply Hrest|]. destruct (Sep.save_fragment s rest) as [s' r]. do 2 f_equal.
    by destruct (Sep.is_valid_chunk s cur).
  - unfold mbind at 1, M_bind at 1, m_call, Sep.complete_fragment. rewrite <- length_app.
    destruct (Sep.exceeds_max_length s (length (sp_buffer s ++ cur))) eqn:Hex; [done|].
    etrans; [apply Hrest|]. destruct (Sep.save_fragment (Sep.set_buffer s []) rest) as [s' r].
    do 2 f_equal. cbn [List.filter]. unfold Sep.is_valid_chunk at 2. by rewrite Hex.
Qed.

(** A run over the chunks of a stream: the result of every call. *)
Fixpoint sep_run (s : Separate) (chunks : list bytes) : Separate * list (res proc_error (list bytes)) :=
  match chunks with
  | [] => (s, [])
  | d :: chunks =>
      let '((s, _), r) := pre_process s 0 d in
      let '(s, rs) := sep_run s chunks in (s, r :: rs)
  end.

(** The events of the calls that succeeded. *)
Definition events_of (rs : list (res proc_error (list bytes))) : list bytes :=
  concat (omap (fun r => match r with Ok ev => Some ev | _ => None end) rs).

(** The configuration of a processor, which no call changes. *)
Definition same_config (s s' : Separate) : Prop :=
  sp_separator s' = sp_separator s /\ sp_max_length s' = sp_max_length s /\ sp_is_buffered s' = sp_is_buffered s.

Lemma process_buffered_data s data :
  sp_is_buffered s = true ->
  exists n, pre_process s 0 data =
    ((Sep.set_parts (buffered_result s data).1 n, 0), (buffered_result s data).2).
Proof.
  intros Hb. cbn. unfold Sep.process, Sep.process_data. unfold mbind at 1, M_bind at 1, m_get. rewrite Hb.
  unfold mbind at 1, M_bind at 1. rewrite process_buffered_spec.
  destruct (buffered_result s data) as [s' [ev|e|]]; [by eexists|exists (sp_parts_per_chunk s')..]; by destruct s'.
Qed.

(** Data that a separator's limit, if it has one, lets through. *)
Definition fits (s : Separate) (l : bytes) : Prop := Sep.exceeds_max_length s (length l) = false.
Definition all_fit (s : Separate) (data : bytes) : Prop :=
  Forall (fits s) (split (sp_separator s) data).1 /\ fits s (split (sp_separator s) data).2.

Lemma fits_shorter s l l' : fits s l -> (length l' <= length l)%nat -> fits s l'.
Proof.
  unfold fits, Sep.exceeds_max_length. destruct (sp_max_length s) as [m|]; [|done].
  rewrite !bool_decide_eq_false. lia.
Qed.

(** When everything fits, so does every part of it that is seen on the way. *)
Lemma all_fit_app s a b :
  all_fit s (a ++ b) -> all_fit s a /\ all_fit s ((split (sp_separator s) a).2 ++ b).
Proof.
  unfold all_fit. rewrite split_app_rest. pose proof (split_rest (sp_separator s) a) as Hr.
  destruct (split (sp_separator s) a) as [ls rest]. cbn in Hr |- *.
  pose proof (split_app (sp_separator s) rest b Hr) as Hs.
  destruct (split (sp_separator s) (rest ++ b)) as [ls' rest'] eqn:Hs'. cbn. intros [[Hl Hl']%Forall_app Hrest].
  split_and!; try done. destruct (split (sp_separator s) b) as [[|x xs] rb]; cbn in Hs; simplify_eq.
  - eapply fits_shorter; [exact Hrest|]. rewrite length_app. lia.
  - apply Forall_cons in Hl' as [Hx _]. eapply fits_shorter; [exact Hx|]. rewrite length_app. lia.
Qed.

Lemma valid_fits s ls : Forall (fits s) ls -> valid s ls = ls.
Proof.
  induction 1 as [|l ls Hl _ IH]; [done|]. cbn [List.filter].
  assert (Sep.is_valid_chunk s l = true) as -> by (unfold Sep.is_valid_chunk; by rewrite Hl). by rewrite IH.
Qed.

Lemma save_fragment_fits s v :
  fits s (sp_buffer s ++ v) -> Sep.save_fragment s v = (Sep.set_buffer s (sp_buffer s ++ v), Ok tt).
Proof. unfold fits, Sep.save_fragment. rewrite length_app. by intros ->. Qed.

Lemma buffered_fits s data :
  sp_separator s ∉ sp_buffer s -> all_fit s (sp_buffer s ++ data) ->
  buffered_result s data =
  (Sep.set_buffer s (split (sp_separator s) (sp_buffer s ++ data)).2,
   Ok (split (sp_separator s) (sp_buffer s ++ data)).1).
Proof.
  intros Hb. unfold all_fit, buffered_result. rewrite split_app by done.
  destruct (split (sp_separator s) data) as [[|l ls] rest]; cbn [prepend fst snd]; intros [Hl Hr].
  - by rewrite save_fragment_fits.
  - pose proof Hl as [Hl1 _]%Forall_cons. unfold fits in Hl1. rewrite Hl1, andb_false_r.
    rewrite save_fragment_fits by done. cbn [res_bind]. by rewrite valid_fits.
Qed.

Lemma sep_run_split s chunks :
  sp_is_buffered s = true -> sp_separator s ∉ sp_buffer s -> all_fit s (sp_buffer s ++ concat chunks) ->
  let '(s', rs) := sep_run s chunks in
  Forall (fun r => exists ev, r = Ok ev) rs
  /\ (events_of rs, sp_buffer s') = split (sp_separator s) (sp_buffer s ++ concat chunks)
  /\ same_config s s'.
Proof.
  revert s. induction chunks as [|d chunks IH]; intros s Hb Hnot Hfit.
  { simpl. rewrite app_nil_r, split_none by done. done. }
  cbn [sep_run concat] in *. destruct (process_buffered_data s d Hb) as [n ->].
  rewrite app_assoc in Hfit. apply all_fit_app in Hfit as [Hfit1 Hfit2].
  rewrite (buffered_fits s d Hnot Hfit1). cbn [fst snd].
  set (s1 := Sep.set_parts _ n).
  pose proof (split_rest (sp_separator s) (sp_buffer s ++ d)) as Hrest.
  specialize (IH s1 Hb Hrest Hfit2). destruct (sep_run s1 chunks) as [s2 rs]. destruct IH as (Hok&Hs&Hc).
  split_and!; [constructor; eauto| |exact Hc]. rewrite app_assoc, (split_app_rest _ (sp_buffer s ++ d)).
  simpl in Hs. destruct (split (sp_separator s) (sp_buffer s ++ d)) as [ls rest]; simpl in *.
  destruct (split (sp_separator s) (rest ++ concat chunks)) as [ls' rest']. simplify_eq. done.
Qed.

(** Without a limit everything fits. *)
Lemma all_fit_unlimited sep data : all_fit (Sep.new sep 0 true) data.
Proof. split; [|done]. apply Forall_forall. done. Qed.

(** C11: without a length limit, splitting does not depend on how the stream is cut: over any
    sequence of chunks no call fails, the events of all calls together are exactly the lines
    of the concatenated stream, and the buffer holds what follows the last separator. *)
Theorem separate_chunking sep chunks :
  let '(s, rs) := sep_run (Sep.new sep 0 true) chunks in
  Forall (fun r => exists ev, r = Ok ev) rs
  /\ events_of rs = (split sep (concat chunks)).1
  /\ sp_buffer s = (split sep (concat chunks)).2.
Proof.
  pose proof (sep_run_split (Sep.new sep 0 true) chunks eq_refl (not_elem_of_nil _) (all_fit_unlimited _ _)) as H.
  destruct (sep_run _ _) as [s rs]. destruct H as (Hok&Hs&_). simpl in Hs. rewrite <- Hs. done.
Qed.

(** The stream a separate postprocessor produces for some messages. *)
Definition sep_encode (sep : byte) (msgs : list bytes) : bytes :=
  concat (map (fun m => concat (match (post_process (mkSeparatePost sep) 0 0 m).2 with Ok l => l | _ => [] end)) msgs).

Lemma split_encode sep msgs :
  Forall (fun m => sep ∉ m) msgs -> split sep (sep_encode sep msgs) = (msgs, []).
Proof.
  unfold sep_encode. induction 1 as [|m msgs Hm _ IH]; [done|]. cbn [map concat]. cbn. rewrite app_nil_r, <- app_assoc.
  simpl. rewrite split_line by done. cbn in IH. by rewrite IH.
Qed.

(** C14: separate round trip: messages that do not hold the separator and that are not longer
    than the limit, if there is one ([max] is not 0), written by the postprocessor and sent
    over a stream that cuts the bytes anywhere, are read back by the buffering preprocessor
    unchanged and in order; no call fails and nothing is left in its buffer. *)
Theorem separate_roundtrip sep max msgs chunks :
  Forall (fun m => sep ∉ m) msgs -> max = 0%nat \/ Forall (fun m => length m <= max)%nat msgs ->
  concat chunks = sep_encode sep msgs ->
  let '(s, rs) := sep_run (Sep.new sep max true) chunks in
  Forall (fun r => exists ev, r = Ok ev) rs /\ events_of rs = msgs /\ sp_buffer s = [].
Proof.
  intros Hm Hmax Hc. pose proof (sep_run_split (Sep.new sep max true) chunks eq_refl (not_elem_of_nil _)) as H.
  cbn [sp_buffer sp_separator Sep.new app] in H. rewrite Hc in H. unfold all_fit in H. cbn [sp_separator Sep.new] in H.
  rewrite split_encode in H by done. destruct (sep_run _ _) as [s rs]. destruct H as (Hok&Hs&_); [|by simplify_eq].
  split; cbn [fst snd]; [|by destruct max]. destruct Hmax as [->|Hmax]; [by apply Forall_forall|].
  eapply Forall_impl; [exact Hmax|]. intros m Hl. unfold fits, Sep.exceeds_max_length.
  destruct max; [done|]. cbn [Sep.new sp_max_length]. apply bool_decide_eq_false. lia.
Qed.

(** ** The length limit *)
Definition within (max : nat) (l : bytes) : Prop := (length l <= max)%nat.

Lemma valid_within s max ls : sp_max_length s = Some max -> Forall (within max) (valid s ls).
Proof.
  intros Hm. apply Forall_forall. intros l Hl%list_elem_of_In. apply filter_In in Hl as [_ Hl].
  unfold Sep.is_valid_chunk, Sep.exceeds_max_length in Hl. rewrite Hm in Hl.
  apply negb_true_iff, bool_decide_eq_false in Hl. unfold within. lia.
Qed.

Lemma save_fragment_within s max v :
  sp_max_length s = Some max -> within max (sp_buffer (Sep.save_fragment s v).1).
Proof.
  intros Hm. unfold Sep.save_fragment, Sep.exceeds_max_length. rewrite Hm.
  case_bool_decide; unfold within; simpl; [lia|]. rewrite length_app. lia.
Qed.

Lemma save_fragment_config s v : same_config s (Sep.save_fragment s v).1.
Proof. unfold Sep.save_fragment. by case_match. Qed.

Lemma buffered_config s data : same_config s (buffered_result s data).1.
Proof.
  unfold buffered_result. destruct (split _ _) as [[|l ls] rest].
  - pose proof (save_fragment_config s rest). by destruct (Sep.save_fragment s rest).
  - destruct (_ && _); [done|]. pose proof (save_fragment_config (Sep.set_buffer s []) rest) as H.
    by destruct (Sep.save_fragment (Sep.set_buffer s []) rest).
Qed.

Lemma buffered_within s data max :
  sp_max_length s = Some max ->
  within max (sp_buffer (buffered_result s data).1)
  /\ forall ev, (buffered_result s data).2 = Ok ev -> Forall (within max) ev.
Proof.
  intros Hm. unfold buffered_result. destruct (split _ _) as [[|l ls] rest].
  - pose proof (save_fragment_within s max rest Hm) as H.
    destruct (Sep.save_fragment s rest) as [s' r]; simpl in *. split; [done|].
    intros ev Hev. apply res_bind_Ok in Hev as (?&_&[= <-]). constructor.
  - destruct (_ && _); [by split; [unfold within; simpl; lia|]|].
    pose proof (save_fragment_within (Sep.set_buffer s []) max rest Hm) as H.
    destruct (Sep.save_fragment (Sep.set_buffer s []) rest) as [s' r]; simpl in *. split; [done|].
    intros ev Hev. apply res_bind_Ok in Hev as (?&_&[= <-]). exact (valid_within s max ((sp_buffer s ++ l) :: ls) Hm).
Qed.

(** The unbuffered mode: the lines within the limit, and what follows the last separator. *)
Lemma unbuffered_fragments s data points : forall last_idx ev r,
  Sep.fragments s data last_idx points ev = Ok r -> Sep.unbuffered s data last_idx points ev = Ok r.
Proof.
  induction points as [|p points IH]; intros last_idx ev r; [done|]. cbn [Sep.unbuffered Sep.fragments].
  destruct (get_range data last_idx p) as [f|] eqn:Hf; [|done]. cbn [ok_or res_bind].
  assert (length f = (p - last_idx)%nat) as <-.
  { unfold get_range in Hf. case_decide; simplify_eq. rewrite length_take, length_drop. lia. }
  unfold Sep.is_valid_chunk. destruct (Sep.exceeds_max_length s (length f)); apply IH.
Qed.

Lemma unbuffered_data s data :
  sp_is_buffered s = false ->
  exists n, pre_process s 0 data =
    ((Sep.set_parts s n, 0),
     Ok (valid s (split (sp_separator s) data).1 ++ [(split (sp_separator s) data).2])).
Proof.
  intros Hb. destruct (fragments_spec s [] data []) as (pre'&Heq&Hf). simpl in Heq, Hf.
  apply unbuffered_fragments in Hf. cbn. unfold Sep.process, Sep.process_data, Sep.process_unbuffered.
  unfold mbind, M_bind, m_get, m_lift, m_modify, mret, M_ret. rewrite Hb, Hf.
  assert (Hl : (length pre' <= length data)%nat) by (rewrite Heq, length_app; lia).
  pose proof (get_from_app pre' (split (sp_separator s) data).2) as Hg. rewrite <- Heq in Hg.
  rewrite decide_True, Hg by done. cbn. by eexists.
Qed.

Lemma unbuffered_run s chunks :
  sp_is_buffered s = false ->
  same_config s (sep_run s chunks).1 /\ sp_buffer (sep_run s chunks).1 = sp_buffer s
  /\ (sep_run s chunks).2 =
     (fun d => Ok (valid s (split (sp_separator s) d).1 ++ [(split (sp_separator s) d).2])) <$> chunks.
Proof.
  revert s. induction chunks as [|d chunks IH]; intros s Hb; [done|]. cbn [sep_run].
  destruct (unbuffered_data s d Hb) as [n ->]. specialize (IH (Sep.set_parts s n) Hb).
  destruct (sep_run _ chunks) as [s' rs]. destruct IH as (Hc&Hbuf&Hr). cbn in Hc, Hbuf, Hr |- *.
  split_and!; [done|done|]. by rewrite Hr.
Qed.

Lemma finish_within s max data ev :
  sp_is_buffered s = true -> sp_max_length s = Some max -> within max (sp_buffer s) ->
  (Sep.finish s data).2 = Ok ev -> Forall (within max) ev.
Proof.
  intros Hb Hm Hw. unfold Sep.finish. destruct data as [data|].
  - destruct (process_buffered_data s data Hb) as [n Hp]. cbn in Hp. unfold Sep.process in Hp.
    destruct (buffered_within s data max Hm) as [Hw' Hev].
    destruct (Sep.process_data data s) as [s' r]. simplify_eq. destruct (buffered_result s data) as [s1 r].
    cbn in Hw', Hev. destruct r as [evs|e|]; cbn; [|done|done]. specialize (Hev evs eq_refl).
    destruct (negb _); cbn; intros [= <-]; [|done]. apply Forall_app. by split; [|constructor].
  - destruct (negb _); cbn; intros [= <-]; by repeat constructor.
Qed.

(** C27: with a length limit, over any sequence of chunks, failed calls included, a buffering
    separator keeps every event it emits, in [process] or in a [finish] that follows, and its
    buffer within [max_length].  One that does not buffer answers every chunk with the lines
    of that chunk that are within the limit, followed by what comes after the last separator,
    whatever its length: the limit is not applied to that. *)
Theorem separate_bounded sep max chunks :
  (let '(s, rs) := sep_run (Sep.new sep (S max) true) chunks in
   Forall (within (S max)) (events_of rs) /\ within (S max) (sp_buffer s)
   /\ forall data ev, (Sep.finish s data).2 = Ok ev -> Forall (within (S max)) ev)
  /\ (sep_run (Sep.new sep (S max) false) chunks).2 =
     (fun d => Ok (List.filter (fun l => length l <=? S max)%nat (split sep d).1 ++ [(split sep d).2])) <$> chunks.
Proof.
  split.
  - assert (Hgen : forall s, sp_is_buffered s = true -> sp_max_length s = Some (S max) -> within (S max) (sp_buffer s) ->
      let '(s', rs) := sep_run s chunks in
      Forall (within (S max)) (events_of rs) /\ within (S max) (sp_buffer s') /\ same_config s s').
    { induction chunks as [|d chunks IH]; intros s Hb Hm Hw; [by split_and!; [constructor| |]|].
      cbn [sep_run]. destruct (process_buffered_data s d Hb) as [n ->].
      destruct (buffered_within s d (S max) Hm) as [Hw1 Hev]. destruct (buffered_config s d) as (Hs1&Hm1&Hb1).
      specialize (IH (Sep.set_parts (buffered_result s d).1 n)). destruct (sep_run _ chunks) as [s2 rs].
      destruct IH as (Hrs&Hs2&Hc1&Hc2&Hc3); [simpl; congruence|simpl; congruence|done|].
      split_and!; [|done|cbn in *; split_and!; congruence].
      destruct (buffered_result s d) as [s1 [ev|e|]]; simpl in *; [|done|done].
      unfold events_of; csimpl. apply Forall_app. split; [by apply Hev|done]. }
    specialize (Hgen (Sep.new sep (S max) true)). destruct (sep_run _ _) as [s rs].
    destruct Hgen as (?&?&_&Hc2&Hc3); [done|done|unfold within; simpl; lia|]. split_and!; [done|done|].
    intros data ev. by apply finish_within.
  - destruct (unbuffered_run (Sep.new sep (S max) false) chunks eq_refl) as (_&_&->).
    apply list_fmap_ext. intros i d _. do 2 f_equal. cbn [sp_separator Sep.new]. apply filter_ext. intros l.
    unfold Sep.is_valid_chunk, Sep.exceeds_max_length. cbn [sp_max_length Sep.new].
    case_bool_decide; cbn [negb]; symmetry; [apply Nat.leb_gt|apply Nat.leb_le]; lia.
Qed.

(** C36: the price of that limit in buffered mode: when what follows the last separator
    (together with what was buffered, if the chunk has no separator) exceeds it, the call fails
    with a discarded fragment, the buffer is emptied and every complete line of the chunk is
    lost with it, however short. *)
Theorem separate_overflow_loses_lines s data max :
  sp_is_buffered s = true -> sp_max_length s = Some max -> sp_separator s ∉ sp_buffer s ->
  (max < length (split (sp_separator s) (sp_buffer s ++ data)).2)%nat ->
  exists s' len total, pre_process s 0 data = ((s', 0), Err (DiscardedFragment len total max))
    /\ sp_buffer s' = [].
Proof.
  intros Hb Hm Hbuf. rewrite split_app by done. destruct (process_buffered_data s data Hb) as [n ->].
  unfold buffered_result. destruct (split (sp_separator s) data) as [[|l ls] rest]; cbn [prepend fst snd]; intros Hlen.
  - unfold Sep.save_fragment, Sep.exceeds_max_length. rewrite Hm, <- length_app, bool_decide_true by done.
    cbn. by eexists _, _, _.
  - destruct (_ && _); cbn [fst snd]; rewrite ?Hm; [by eexists _, _, _|].
    unfold Sep.save_fragment, Sep.exceeds_max_length. cbn. rewrite Hm, bool_decide_true by done.
    cbn. by eexists _, _, _.
Qed.

(** ** Witnesses *)
Lemma separate_roundtrip_witness :
  let '(s, rs) := sep_run (Sep.new Byte.x0a 4 true)
                    [[Byte.x61]; [Byte.x62; Byte.x0a; Byte.x0a]; [Byte.x63; Byte.x0a]] in
  Forall (fun r => exists ev, r = Ok ev) rs
  /\ events_of rs = [[Byte.x61; Byte.x62]; []; [Byte.x63]] /\ sp_buffer s = [].
Proof.
  apply (separate_roundtrip Byte.x0a 4 [[Byte.x61; Byte.x62]; []; [Byte.x63]]).
  - repeat constructor; set_solver.
  - right. repeat constructor; simpl; lia.
  - reflexivity.
Defined.

Lemma separate_overflow_loses_lines_witness :
  exists s' len total,
    pre_process (Sep.set_buffer (Sep.new Byte.x0a 2 true) [Byte.x61]) 0 [Byte.x61; Byte.x0a; Byte.x62; Byte.x62; Byte.x62]
    = ((s', 0), Err (DiscardedFragment len total 2)) /\ sp_buffer s' = [].
Proof.
  apply (separate_overflow_loses_lines (Sep.set_buffer (Sep.new Byte.x0a 2 true) [Byte.x61])
    [Byte.x61; Byte.x0a; Byte.x62; Byte.x62; Byte.x62] 2).
  - reflexivity.
  - reflexivity.
  - cbn. rewrite not_elem_of_cons. split; [discriminate|apply not_elem_of_nil].
  - simpl. lia.
Defined.
