(* ===== verification/FramingProps.v ===== *)
(** * Correctness of the framing processors

    Length prefixes (binary and textual), the ingest timestamp, packing into chunks and the
    finish chains of src/preprocessor and src/postprocessor. *)
From S2P Require Import Prelude Value Bytes Processors.

(** ** Length prefixed streams

    Both preprocessors alternate between waiting for a header and waiting for the message it
    announces.  [hdr] reads a header off the buffer. *)
Section framed.
Variable hdr : bytes -> option (Z * bytes).
Hypothesis hdr_app : forall b l rest d, hdr b = Some (l, rest) -> hdr (b ++ d) = Some (l, rest ++ d).

Inductive steps : LengthPrefixed -> list bytes -> LengthPrefixed -> Prop :=
| steps_refl s : steps s [] s
| steps_part l b out s' :
    0 <= l <= Z.of_nat (length b) ->
    steps (mkLP None (drop (Z.to_nat l) b)) out s' ->
    steps (mkLP (Some l) b) (take (Z.to_nat l) b :: out) s'
| steps_header b l rest out s' :
    hdr b = Some (l, rest) -> steps (mkLP (Some l) rest) out s' -> steps (mkLP None b) out s'.

Definition stuck (s : LengthPrefixed) : Prop :=
  match lp_len s with
  | Some l => Z.of_nat (length (lp_buffer s)) < l
  | None => hdr (lp_buffer s) = None
  end.

Definition feed (s : LengthPrefixed) (d : bytes) : LengthPrefixed := mkLP (lp_len s) (lp_buffer s ++ d).

Lemma steps_feed s out s' d : steps s out s' -> steps (feed s d) out (feed s' d).
Proof.
  induction 1 as [s|l b out s' Hl _ IH|b l rest out s' Hh _ IH]; unfold feed in *; simpl in *.
  - constructor.
  - rewrite <- (take_app_le b d (Z.to_nat l)) by lia. constructor; [rewrite length_app; lia|].
    rewrite drop_app_le by lia. done.
  - econstructor; [by apply hdr_app|done].
Qed.

Lemma steps_trans s out s1 out' s2 : steps s out s1 -> steps s1 out' s2 -> steps s (out ++ out') s2.
Proof. induction 1; intros H2; [done|constructor; auto|econstructor; eauto]. Qed.

Lemma steps_unique s out1 s1 out2 s2 :
  steps s out1 s1 -> stuck s1 -> steps s out2 s2 -> stuck s2 -> out1 = out2 /\ s1 = s2.
Proof.
  intros H. revert out2 s2. induction H as [s|l b out s' Hl _ IH|b l rest out s' Hh _ IH]; intros out2 s2 Hs1 H2 Hs2.
  - inversion H2; subst; unfold stuck in Hs1; simpl in Hs1; [done|lia|congruence].
  - inversion H2; subst; unfold stuck in Hs2; simpl in Hs2; [lia|].
    destruct (IH _ _ Hs1 H5 Hs2) as [-> ->]. done.
  - inversion H2; subst; unfold stuck in Hs2; simpl in Hs2; [congruence|]. simplify_eq. by apply IH.
Qed.

Lemma feed_feed s a b : feed (feed s a) b = feed s (a ++ b).
Proof. unfold feed; simpl. by rewrite app_assoc. Qed.

Lemma feed_nil s : feed s [] = s.
Proof. unfold feed. rewrite app_nil_r. by destruct s. Qed.
End framed.

(** ** The binary length prefix *)
Definition hdr_u64 (b : bytes) : option (Z * bytes) :=
  if decide (8 < length b)%nat then Some (read_u64 b, drop 8 b) else None.

Lemma hdr_u64_app b l rest d : hdr_u64 b = Some (l, rest) -> hdr_u64 (b ++ d) = Some (l, rest ++ d).
Proof.
  unfold hdr_u64. case_decide; [|done]. intros ?; simplify_eq.
  rewrite decide_True by (rewrite length_app; lia). unfold read_u64.
  by rewrite take_app_le, drop_app_le by lia.
Qed.

Lemma read_be_nonneg acc l : 0 <= acc -> 0 <= read_be acc l.
Proof.
  revert acc. induction l as [|b l IH]; intros acc Ha; simpl; [done|]. apply IH.
  pose proof (Z_of_byte_range b). rewrite Z.shiftl_mul_pow2 by lia. lia.
Qed.

(** Lengths are never negative. *)
Definition len_ok (s : LengthPrefixed) : Prop := match lp_len s with Some l => 0 <= l | None => True end.

Lemma loop_steps fuel s res :
  len_ok s -> (length (lp_buffer s) < fuel)%nat ->
  exists out, (LenPre.loop fuel s res).2 = res ++ out
    /\ steps hdr_u64 s out (LenPre.loop fuel s res).1
    /\ stuck hdr_u64 (LenPre.loop fuel s res).1 /\ len_ok (LenPre.loop fuel s res).1.
Proof.
  revert s res. induction fuel as [|fuel IH]; intros [len b] res Hok Hf; simpl in Hf; [lia|].
  assert (Hhead : forall b res, (length b < S fuel)%nat ->
    let r := if decide (8 < length b)%nat
             then LenPre.loop fuel (mkLP (Some (read_u64 b)) (drop 8 b)) res else (mkLP None b, res) in
    exists out, r.2 = res ++ out /\ steps hdr_u64 (mkLP None b) out r.1 /\ stuck hdr_u64 r.1 /\ len_ok r.1).
  { clear Hok Hf b res. intros b res Hb. destruct (decide (8 < length b)%nat) as [H8|H8]; cbv zeta.
    - destruct (IH (mkLP (Some (read_u64 b)) (drop 8 b)) res) as (out&Hr&Hs&Hst&Hk).
      { unfold len_ok; simpl. by apply read_be_nonneg. }
      { simpl. rewrite length_drop. lia. }
      exists out. split_and!; [done| |done|done]. eapply steps_header; [|done].
      unfold hdr_u64. by rewrite decide_True.
    - exists []. simpl. rewrite app_nil_r. split_and!; [done|constructor| |done].
      unfold stuck, hdr_u64; simpl. by rewrite decide_False. }
  cbn [LenPre.loop]. unfold LenPre.take_part. cbn [lp_len lp_buffer]. destruct len as [l|]; [|by apply Hhead].
  unfold len_ok in Hok; simpl in Hok. destruct (Z.leb_spec l (Z.of_nat (length b))) as [Hl|Hl].
  - destruct (Hhead (drop (Z.to_nat l) b) (res ++ [take (Z.to_nat l) b])) as (out&Hr&Hs&Hst&Hk).
    { rewrite length_drop. lia. }
    cbn [lp_buffer]. exists (take (Z.to_nat l) b :: out). rewrite Hr, <- app_assoc. split_and!; try done. by constructor.
  - exists []. simpl. rewrite app_nil_r. split_and!; [done|constructor|done|done].
Qed.

(** A run over the chunks of a stream. *)
Fixpoint lp_run (s : LengthPrefixed) (chunks : list bytes) : LengthPrefixed * list bytes :=
  match chunks with
  | [] => (s, [])
  | d :: chunks =>
      match pre_process s 0 d with
      | ((s, _), Ok out) => let '(s, outs) := lp_run s chunks in (s, out ++ outs)
      | ((s, _), _) => lp_run s chunks
      end
  end.

Lemma lp_run_steps s chunks :
  len_ok s -> stuck hdr_u64 s ->
  let '(s', outs) := lp_run s chunks in
  steps hdr_u64 (feed s (concat chunks)) outs s' /\ stuck hdr_u64 s'.
Proof.
  revert s. induction chunks as [|d chunks IH]; intros s Hok Hst; cbn [lp_run].
  { split; [|done]. rewrite feed_nil. constructor. }
  cbn [pre_process LengthPrefixed_Preprocessor]. unfold LenPre.process. fold (feed s d).
  destruct (loop_steps (S (length (lp_buffer (feed s d)))) (feed s d) []) as (out&Hr&Hs&Hst1&Hok1); [done|lia|].
  destruct (LenPre.loop _ _ _) as [s1 res]; simpl in *. subst res.
  specialize (IH s1 Hok1 Hst1). destruct (lp_run s1 chunks) as [s2 outs]. destruct IH as [Hs2 Hst2]. split; [|done].
  eapply steps_trans; [|exact Hs2]. rewrite <- feed_feed. apply steps_feed; [apply hdr_u64_app|done].
Qed.

(** The stream of a length-prefixed postprocessor. *)
Definition lp_encode (msgs : list bytes) : bytes :=
  concat (map (fun m => concat (match (post_process mkLengthPrefixedPost 0 0 m).2 with Ok l => l | _ => [] end)) msgs).

(** All messages but an empty one at the end. *)
Definition delivered (msgs : list bytes) : list bytes :=
  match last msgs with Some [] => removelast msgs | _ => msgs end.

Lemma lp_encode_cons m msgs : lp_encode (m :: msgs) = write_u64 (Z.of_nat (length m)) ++ m ++ lp_encode msgs.
Proof. unfold lp_encode. cbn [map concat]. cbn -[write_u64]. by rewrite app_nil_r, <- app_assoc. Qed.

Lemma lp_encode_steps msgs :
  Forall (fun m => Z.of_nat (length m) < 2 ^ 64) msgs ->
  exists s, steps hdr_u64 (mkLP None (lp_encode msgs)) (delivered msgs) s /\ stuck hdr_u64 s.
Proof.
  induction 1 as [|m msgs Hm Hms IH].
  { eexists. split; [constructor|done]. }
  rewrite lp_encode_cons. destruct (decide (m = [] /\ msgs = [])) as [[-> ->]|Hne].
  { eexists. split; [constructor|]. by vm_compute. }
  assert (Hd : delivered (m :: msgs) = m :: delivered msgs).
  { unfold delivered. destruct msgs as [|m' msgs']; [simpl; destruct m; naive_solver|].
    rewrite last_cons_cons. destruct (last (m' :: msgs')) as [[|]|]; done. }
  destruct IH as (s&Hs&Hst). exists s. split; [|done]. rewrite Hd.
  assert (Hl : (8 < length (write_u64 (Z.of_nat (length m)) ++ m ++ lp_encode msgs))%nat).
  { rewrite !length_app. unfold write_u64. rewrite length_to_be.
    destruct m as [|b m]; [|simpl; lia]. destruct msgs as [|m' msgs']; [naive_solver|].
    rewrite lp_encode_cons, length_app. unfold write_u64. rewrite length_to_be. simpl. lia. }
  eapply steps_header.
  { unfold hdr_u64. rewrite decide_True by done. rewrite read_write_u64 by (unfold is_u64; lia).
    rewrite drop_app_length' by (unfold write_u64; by rewrite length_to_be). done. }
  pose proof (steps_part hdr_u64 (Z.of_nat (length m)) (m ++ lp_encode msgs) (delivered msgs) s) as Hp.
  rewrite Nat2Z.id, take_app_length, drop_app_length in Hp. apply Hp; [rewrite length_app; lia|done].
Qed.

(** C12: length-prefixed round trip: however the stream is cut, the preprocessor reads back
    the messages the postprocessor wrote, unchanged and in order.  All of them, except that
    an empty message at the very end of the stream is held back until more data arrives. *)
Theorem length_prefixed_roundtrip msgs chunks :
  Forall (fun m => Z.of_nat (length m) < 2 ^ 64) msgs -> concat chunks = lp_encode msgs ->
  (lp_run LenPre.default chunks).2 = delivered msgs.
Proof.
  intros Hm Hc. destruct (lp_encode_steps msgs Hm) as (s&Hs&Hst).
  pose proof (lp_run_steps LenPre.default chunks I eq_refl) as Hr.
  destruct (lp_run LenPre.default chunks) as [s' outs]. destruct Hr as [Hr Hst'].
  unfold feed in Hr; simpl in Hr. rewrite Hc in Hr.
  by destruct (steps_unique hdr_u64 _ _ _ _ _ Hr Hst' Hs Hst) as [-> _].
Qed.

Lemma length_prefixed_roundtrip_witness :
  (lp_run LenPre.default
     [take 3 (lp_encode [[Byte.x61]; []; []]); drop 3 (lp_encode [[Byte.x61]; []; []])]).2 = [[Byte.x61]; []].
Proof.
  apply (length_prefixed_roundtrip [[Byte.x61]; []; []]).
  - repeat constructor.
  - vm_compute. reflexivity.
Defined.

(** ** The textual length prefix *)
Definition hdr_text (b : bytes) : option (Z * bytes) :=
  match TextPre.find_whitespace b with
  | Some (buf, rest) => match parse_u32 buf with Some l => Some (l, drop 1 rest) | None => None end
  | None => None
  end.

Lemma find_whitespace_app b buf rest d :
  TextPre.find_whitespace b = Some (buf, rest) -> TextPre.find_whitespace (b ++ d) = Some (buf, rest ++ d).
Proof.
  revert buf rest. induction b as [|x b IH]; intros buf rest; [done|]. cbn [app TextPre.find_whitespace].
  destruct (is_ascii_whitespace x); [by intros ?; simplify_eq|].
  destruct (TextPre.find_whitespace b) as [[pre post]|]; [|done]. intros ?; simplify_eq.
  by rewrite (IH pre rest eq_refl).
Qed.

Lemma find_whitespace_rest b buf rest :
  TextPre.find_whitespace b = Some (buf, rest) -> b = buf ++ rest /\ exists w rest', rest = w :: rest' /\ is_ascii_whitespace w = true.
Proof.
  revert buf rest. induction b as [|x b IH]; intros buf rest; [done|]. cbn [TextPre.find_whitespace].
  destruct (is_ascii_whitespace x) eqn:Hx; [intros ?; simplify_eq; eauto|].
  destruct (TextPre.find_whitespace b) as [[pre post]|]; [|done]. intros ?; simplify_eq.
  destruct (IH pre rest eq_refl) as [-> ?]. done.
Qed.

Lemma hdr_text_app b l rest d : hdr_text b = Some (l, rest) -> hdr_text (b ++ d) = Some (l, rest ++ d).
Proof.
  unfold hdr_text. destruct (TextPre.find_whitespace b) as [[buf post]|] eqn:Hf; [|done].
  rewrite (find_whitespace_app _ _ _ d Hf). destruct (find_whitespace_rest _ _ _ Hf) as (_&w&post'&->&_).
  destruct (parse_u32 buf); [|done]. intros ?; simplify_eq. done.
Qed.

Lemma parse_digits_nonneg acc l z : 0 <= acc -> parse_digits acc l = Some z -> 0 <= z.
Proof.
  revert acc. induction l as [|b l IH]; intros acc Ha; cbn [parse_digits]; [by intros [= <-]|].
  destruct (is_digit b) eqn:Hb; [|done]. unfold is_digit in Hb. apply andb_true_iff in Hb as [? ?].
  destruct (_ <? _); [|done]. apply IH. lia.
Qed.

Lemma parse_u32_nonneg l z : parse_u32 l = Some z -> 0 <= z.
Proof.
  unfold parse_u32. destruct l as [|b l]; [done|]. case_decide; [destruct l; [done|]|]; by apply parse_digits_nonneg.
Qed.

(** The outcomes of the loop: waiting for more, or at a header that is no number. *)
Definition text_outcome (s : LengthPrefixed) (res : list bytes)
    (r : LengthPrefixed * Prelude.res proc_error (list bytes)) : Prop :=
  match r with
  | (s', Ok r) => exists out, r = res ++ out /\ steps hdr_text s out s' /\ stuck hdr_text s' /\ len_ok s'
  | (s', Err _) => exists out b buf, steps hdr_text s out (mkLP None b)
      /\ TextPre.find_whitespace b = Some (buf, lp_buffer s') /\ parse_u32 buf = None /\ lp_len s' = None
  | (_, Panic) => False
  end.

Lemma text_outcome_header b l rest res r :
  hdr_text b = Some (l, rest) -> text_outcome (mkLP (Some l) rest) res r -> text_outcome (mkLP None b) res r.
Proof.
  intros Hh. destruct r as [s' [r|e|]]; simpl; [| |done].
  - intros (out&?&?&?&?). exists out. split_and!; try done. by eapply steps_header.
  - intros (out&b'&buf&?&?&?&?). exists out, b', buf. split_and!; try done. by eapply steps_header.
Qed.

Lemma text_outcome_part l b res r :
  0 <= l <= Z.of_nat (length b) ->
  text_outcome (mkLP None (drop (Z.to_nat l) b)) (res ++ [take (Z.to_nat l) b]) r ->
  text_outcome (mkLP (Some l) b) res r.
Proof.
  intros Hl. destruct r as [s' [r|e|]]; simpl; [| |done].
  - intros (out&->&?&?&?). exists (take (Z.to_nat l) b :: out). rewrite <- app_assoc.
    split_and!; try done. by constructor.
  - intros (out&b'&buf&?&?&?&?). exists (take (Z.to_nat l) b :: out), b', buf. split_and!; try done. by constructor.
Qed.

Lemma text_loop_outcome fuel s res :
  len_ok s -> (length (lp_buffer s) < fuel)%nat -> text_outcome s res (TextPre.loop fuel s res).
Proof.
  revert s res. induction fuel as [|fuel IH]; intros [len b] res Hok Hf; simpl in Hf; [lia|].
  assert (Hhead : forall b res, (length b < S fuel)%nat -> text_outcome (mkLP None b) res
    match TextPre.find_whitespace b with
    | Some (buf, rest) =>
        match parse_u32 buf with
        | Some l => TextPre.loop fuel (mkLP (Some l) (drop 1 rest)) res
        | None => (mkLP None rest, Err (ProcMsg "invalid digit found in string"))
        end
    | None => (mkLP None b, Ok res)
    end).
  { clear Hok Hf b res. intros b res Hb. destruct (TextPre.find_whitespace b) as [[buf rest]|] eqn:Hw.
    2:{ exists []. rewrite app_nil_r. split_and!; [done|constructor| |done]. unfold stuck, hdr_text; simpl. by rewrite Hw. }
    destruct (find_whitespace_rest _ _ _ Hw) as (Hb'&w&rest'&->&_).
    assert (length rest' < fuel)%nat by (rewrite Hb', length_app in Hb; simpl in Hb; lia).
    destruct (parse_u32 buf) as [l|] eqn:Hp.
    - eapply text_outcome_header; [unfold hdr_text; by rewrite Hw, Hp|].
      apply IH; [by apply (parse_u32_nonneg buf)|done].
    - exists [], b, buf. split_and!; [constructor|done|done|done]. }
  cbn [TextPre.loop]. unfold LenPre.take_part. cbn [lp_len lp_buffer]. destruct len as [l|].
  2:{ exact (Hhead b res Hf). }
  unfold len_ok in Hok; simpl in Hok. destruct (Z.leb_spec l (Z.of_nat (length b))) as [Hl|Hl].
  - apply text_outcome_part; [lia|]. apply Hhead. rewrite length_drop. lia.
  - exists []. rewrite app_nil_r. split_and!; [done|constructor|done|done].
Qed.

(** A run over the chunks of a stream: the messages, or [None] once a call failed. *)
Fixpoint text_run (s : TextualLengthPrefixed) (chunks : list bytes)
  : TextualLengthPrefixed * option (list bytes) :=
  match chunks with
  | [] => (s, Some [])
  | d :: chunks =>
      match pre_process s 0 d with
      | ((s, _), Ok out) => let '(s, outs) := text_run s chunks in (s, app out <$> outs)
      | ((s, _), _) => (s, None)
      end
  end.

Definition text_encode (msgs : list bytes) : bytes :=
  concat (map (fun m => concat (match (post_process mkTextualLengthPrefixedPost 0 0 m).2 with Ok l => l | _ => [] end)) msgs).

Lemma text_encode_cons m msgs :
  text_encode (m :: msgs) = to_string (length m) ++ Byte.x20 :: m ++ text_encode msgs.
Proof. unfold text_encode. cbn [map concat]. cbn -[to_string]. by rewrite app_nil_r, <- app_assoc. Qed.

Lemma find_whitespace_first l w rest :
  Forall (fun b => is_ascii_whitespace b = false) l -> is_ascii_whitespace w = true ->
  TextPre.find_whitespace (l ++ w :: rest) = Some (l, w :: rest).
Proof.
  intros Hl Hw. induction Hl as [|b l Hb _ IH]; cbn [app TextPre.find_whitespace]; [by rewrite Hw|].
  by rewrite Hb, IH.
Qed.

Lemma text_encode_steps msgs :
  Forall (fun m => Z.of_nat (length m) < 2 ^ 32) msgs ->
  steps hdr_text (mkLP None (text_encode msgs)) msgs (mkLP None []) /\ stuck hdr_text (mkLP None []).
Proof.
  intros Hm. split; [|done]. induction Hm as [|m msgs Hm _ IH]; [constructor|]. rewrite text_encode_cons.
  destruct (to_string_digits (length m)) as (Hd&_&_).
  eapply steps_header.
  { unfold hdr_text. rewrite find_whitespace_first; [by rewrite parse_to_string| |done].
    eapply Forall_impl; [exact Hd|apply digit_not_whitespace]. }
  pose proof (steps_part hdr_text (Z.of_nat (length m)) (m ++ text_encode msgs) msgs (mkLP None [])) as Hp.
  rewrite Nat2Z.id, take_app_length, drop_app_length in Hp. apply Hp; [rewrite length_app; lia|done].
Qed.

(** Steps commute: from a state that can reach a stuck one, every run does. *)
Lemma steps_prefix hdr s out1 s1 out2 s2 :
  steps hdr s out1 s1 -> stuck hdr s1 -> steps hdr s out2 s2 -> exists out3, steps hdr s2 out3 s1 /\ out1 = out2 ++ out3.
Proof.
  intros H1 Hst H2. revert out1 s1 H1 Hst. induction H2 as [s|l b out s' Hl _ IH|b l rest out s' Hh _ IH]; intros out1 s1 H1 Hst.
  - eauto.
  - inversion H1; subst; [unfold stuck in Hst; simpl in Hst; lia|].
    match goal with H : steps _ (mkLP None _) _ s1 |- _ => destruct (IH _ _ H Hst) as (o&?&->) end. by exists o.
  - inversion H1; subst; [unfold stuck in Hst; simpl in Hst; congruence|]. simplify_eq.
    match goal with H : steps _ (mkLP (Some _) _) _ s1 |- _ => destruct (IH _ _ H Hst) as (o&?&->) end. by exists o.
Qed.

Lemma text_run_steps s chunks all :
  len_ok (tlp s) -> steps hdr_text (feed (tlp s) (concat chunks)) all (mkLP None []) ->
  stuck hdr_text (tlp s) ->
  exists s' , text_run s chunks = (s', Some all).
Proof.
  revert s all. induction chunks as [|d chunks IH]; intros [s] all Hok Hall Hst; cbn [text_run tlp] in *.
  { rewrite feed_nil in Hall. inversion Hall; subst; unfold stuck in Hst; simpl in Hst; [by eexists|lia|congruence]. }
  cbn [concat] in Hall. rewrite <- feed_feed in Hall.
  cbn [pre_process TextualLengthPrefixed_Preprocessor]. unfold TextPre.process. cbn [tlp]. fold (feed s d).
  pose proof (text_loop_outcome (S (length (lp_buffer (feed s d)))) (feed s d) [] Hok ltac:(lia)) as Ho.
  destruct (TextPre.loop _ _ _) as [s1 [r|e|]]; simpl in Ho; [| |done].
  - destruct Ho as (out&->&Hs1&Hst1&Hok1). simpl.
    destruct (steps_prefix hdr_text _ _ _ _ _ Hall eq_refl (steps_feed hdr_text hdr_text_app _ _ _ (concat chunks) Hs1))
      as (out3&Hs3&->).
    destruct (IH (mkTLP s1) out3 Hok1 Hs3 Hst1) as [s' ->]. simpl. by eexists.
  - destruct Ho as (out&b&buf&Hs1&Hw&Hp&_). exfalso.
    destruct (steps_prefix hdr_text _ _ _ _ _ Hall eq_refl (steps_feed hdr_text hdr_text_app _ _ _ (concat chunks) Hs1))
      as (out3&Hs3&_).
    unfold feed in Hs3; simpl in Hs3.
    pose proof (find_whitespace_app _ _ _ (concat chunks) Hw) as Hw'.
    assert (Hh : hdr_text (b ++ concat chunks) = None) by (unfold hdr_text; by rewrite Hw', Hp).
    assert (Hne : b ++ concat chunks <> []) by (by destruct b).
    inversion Hs3; congruence.
Qed.

(** C13: textual length prefix round trip: messages below 4 GiB, written by the
    postprocessor and cut anywhere in transit, are read back unchanged and in order, empty
    ones included, and no call fails. *)
Theorem textual_length_prefixed_roundtrip msgs chunks :
  Forall (fun m => Z.of_nat (length m) < 2 ^ 32) msgs -> concat chunks = text_encode msgs ->
  exists s, text_run TextPre.default chunks = (s, Some msgs).
Proof.
  intros Hm Hc. destruct (text_encode_steps msgs Hm) as [Hs _].
  apply text_run_steps; [done| |done]. unfold feed; simpl. by rewrite Hc.
Qed.

(** C37: a length that is no number poisons the textual preprocessor for good: the failing
    call consumes the bad digits but not the delimiter after them, so from then on every
    call fails, whatever data arrives. *)
Theorem textual_length_prefixed_poisoned s bad w rest datas :
  tlp s = LenPre.default -> Forall (fun b => is_ascii_whitespace b = false) bad ->
  is_ascii_whitespace w = true -> parse_u32 bad = None ->
  exists s1 e, pre_process s 0 (bad ++ w :: rest) = ((s1, 0), Err e)
    /\ forall data, exists s2 e', pre_process (fold_left (fun s d => (pre_process s 0 d).1.1) datas s1) 0 data = ((s2, 0), Err e').
Proof.
  intros Hs Hb Hw Hp.
  pose proof (find_whitespace_first bad w rest Hb Hw) as Hf.
  assert (Hbad : forall s rest, lp_len (tlp s) = None -> lp_buffer (tlp s) = w :: rest ->
    forall data, pre_process s 0 data = ((mkTLP (mkLP None (w :: rest ++ data)), 0), Err (ProcMsg "invalid digit found in string"))).
  { intros s0 rest0 Hl0 Hb0 data. cbn. unfold TextPre.process. rewrite Hl0, Hb0. cbn. by rewrite Hw. }
  eexists (mkTLP (mkLP None (w :: rest))), _. split.
  { cbn. unfold TextPre.process. rewrite Hs. cbn. rewrite Hf, Hp. done. }
  intros data.
  assert (Hinv : exists rest', lp_len (tlp (fold_left (fun s d => (pre_process s 0 d).1.1) datas (mkTLP (mkLP None (w :: rest))))) = None
    /\ lp_buffer (tlp (fold_left (fun s d => (pre_process s 0 d).1.1) datas (mkTLP (mkLP None (w :: rest))))) = w :: rest').
  { clear data. generalize rest. clear -Hbad Hw. induction datas as [|d datas IH]; intros rest0; [by exists rest0|].
    cbn [fold_left]. rewrite (Hbad (mkTLP (mkLP None (w :: rest0))) rest0 eq_refl eq_refl d). apply IH. }
  destruct Hinv as (rest'&Hl&Hbuf). eexists _, _. by apply (Hbad _ rest').
Qed.

Lemma textual_length_prefixed_roundtrip_witness :
  exists s, text_run TextPre.default [[Byte.x32]; [Byte.x20; Byte.x61; Byte.x62; Byte.x30]; [Byte.x20]]
    = (s, Some [[Byte.x61; Byte.x62]; []]).
Proof.
  apply (textual_length_prefixed_roundtrip [[Byte.x61; Byte.x62]; []]).
  - repeat constructor.
  - vm_compute. reflexivity.
Defined.

Lemma textual_length_prefixed_poisoned_witness :
  exists s1 e, pre_process TextPre.default 0 [Byte.x61; Byte.x20] = ((s1, 0), Err e)
    /\ forall data, exists s2 e', pre_process (fold_left (fun s d => (pre_process s 0 d).1.1)
         [[Byte.x31; Byte.x20; Byte.x61]] s1) 0 data = ((s2, 0), Err e').
Proof.
  apply (textual_length_prefixed_poisoned TextPre.default [Byte.x61] Byte.x20 [] [[Byte.x31; Byte.x20; Byte.x61]]).
  - reflexivity.
  - repeat constructor.
  - reflexivity.
  - reflexivity.
Defined.

(** ** Packing into chunks *)
Fixpoint chunk_run (p : Chunk) (datas : list bytes) : Chunk * list bytes :=
  match datas with
  | [] => (p, [])
  | d :: datas =>
      match post_process p 0 0 d with
      | (p, Ok out) => let '(p, outs) := chunk_run p datas in (p, out ++ outs)
      | (p, _) => chunk_run p datas
      end
  end.

Definition fits (max : nat) (d : bytes) : bool := bool_decide (length d <= max)%nat.

(** What is a greedy packing of messages into chunks of at most [max] bytes: the groups of
    messages that were sent, and the group that is held.  A group is closed only when it is
    full, or when the message that follows does not fit any more. *)
Inductive greedy (max : nat) : list bytes -> list (list bytes) -> list bytes -> Prop :=
| greedy_held msgs : (length (concat msgs) <= max)%nat -> greedy max msgs [] msgs
| greedy_full g msgs groups held :
    g <> [] -> length (concat g) = max ->
    greedy max msgs groups held -> greedy max (g ++ msgs) (g :: groups) held
| greedy_next g m msgs groups held :
    g <> [] -> (length (concat g) <= max)%nat -> (max < length (concat g) + length m)%nat ->
    greedy max (m :: msgs) groups held -> greedy max (g ++ m :: msgs) (g :: groups) held.

Lemma greedy_concat max msgs groups held : greedy max msgs groups held -> concat groups ++ held = msgs.
Proof.
  induction 1 as [|g msgs groups held _ _ _ IH|g m msgs groups held _ _ _ _ IH]; [done|..];
    cbn [concat]; by rewrite <- app_assoc, IH.
Qed.

Lemma greedy_within max msgs groups held :
  greedy max msgs groups held ->
  Forall (fun g => (length (concat g) <= max)%nat) groups /\ (length (concat held) <= max)%nat.
Proof.
  induction 1 as [|g msgs groups held _ Hl _ [IH ?]|g m msgs groups held _ Hl _ _ [IH ?]]; [done|..];
    (split; [constructor; [lia|done]|done]).
Qed.

Lemma chunk_run_greedy p held datas :
  (length (concat held) <= ck_max_bytes p)%nat -> ck_chunk p = concat held ->
  let '(p', outs) := chunk_run p datas in
  exists groups held', outs = @concat byte <$> groups /\ ck_chunk p' = concat held'
    /\ greedy (ck_max_bytes p) (held ++ List.filter (fits (ck_max_bytes p)) datas) groups held'.
Proof.
  revert p held. induction datas as [|d datas IH]; intros [max c] held Hlen Hc; simpl in Hlen, Hc; subst c.
  { cbn [chunk_run List.filter]. rewrite app_nil_r. exists [], held. split_and!; [done|done|by constructor]. }
  cbn [chunk_run post_process Chunk_Postprocessor]. unfold Post.chunk. cbn [ck_max_bytes ck_chunk List.filter].
  unfold fits at 1. destruct (decide (max < length d)%nat) as [Hbig|Hsmall].
  { rewrite bool_decide_false by lia. specialize (IH (mkChunk max (concat held)) held Hlen eq_refl).
    by destruct (chunk_run _ _). }
  rewrite bool_decide_true by lia.
  destruct (decide (max < length (concat held) + length d)%nat) as [Hover|Hfit].
  - specialize (IH (mkChunk max d) [d]). cbn [concat ck_max_bytes ck_chunk] in IH. rewrite app_nil_r in IH.
    specialize (IH ltac:(lia) eq_refl). destruct (chunk_run (mkChunk max d) datas) as [p' outs].
    destruct IH as (groups&held'&->&Hh&Hg). exists (held :: groups), held'. split_and!; [done|done|].
    apply greedy_next; [intros ->; simpl in Hover; lia|done|lia|done].
  - destruct (decide (length (concat held) + length d = max)%nat) as [Heq|Hne].
    + specialize (IH (mkChunk max []) [] ltac:(simpl; lia) eq_refl). cbn [ck_max_bytes] in IH.
      destruct (chunk_run (mkChunk max []) datas) as [p' outs]. destruct IH as (groups&held'&->&Hh&Hg).
      assert (Hd : concat (held ++ [d]) = concat held ++ d) by (rewrite concat_app; simpl; by rewrite app_nil_r).
      exists ((held ++ [d]) :: groups), held'. split_and!; [cbn; by rewrite Hd|done|].
      replace (held ++ d :: List.filter (fits max) datas) with ((held ++ [d]) ++ List.filter (fits max) datas)
        by (by rewrite <- app_assoc).
      apply greedy_full; [by destruct held|by rewrite Hd, length_app|done].
    + specialize (IH (mkChunk max (concat held ++ d)) (held ++ [d])). rewrite concat_app in IH. simpl in IH.
      rewrite app_nil_r, length_app, <- app_assoc in IH. specialize (IH ltac:(lia) eq_refl).
      by destruct (chunk_run _ _).
Qed.

(** C26: the chunk postprocessor packs greedily and never splits a message: over any sequence
    of messages, the chunks it sends and the one it holds are the concatenations of consecutive
    groups of the messages, in order and without those longer than [max_bytes].  A chunk is sent
    only when it is full, or when the message that follows it would exceed [max_bytes]; no
    chunk, sent or held, is longer. *)
Theorem chunk_packs max datas :
  let '(p, outs) := chunk_run (Post.chunk_new max) datas in
  exists groups held,
    outs = @concat byte <$> groups /\ ck_chunk p = concat held
    /\ greedy max (List.filter (fits max) datas) groups held
    /\ concat groups ++ held = List.filter (fits max) datas
    /\ Forall (fun o => (length o <= max)%nat) outs /\ (length (ck_chunk p) <= max)%nat.
Proof.
  pose proof (chunk_run_greedy (Post.chunk_new max) [] datas ltac:(simpl; lia) eq_refl) as H.
  destruct (chunk_run _ _) as [p outs]. destruct H as (groups&held&->&Hh&Hg). cbn in Hg.
  destruct (greedy_within _ _ _ _ Hg) as [Hw Hl]. exists groups, held.
  split_and!; [done|done|done|by eapply greedy_concat| |by rewrite Hh]. apply Forall_fmap. exact Hw.
Qed.

(** ** Finishing a chain *)
Section finishing.
Context {P : Type} `{Preprocessor P} {Q : Type} `{Postprocessor Q}.

Lemma pre_finish_tail_none (pps : list P) : PreChain.finish_tail pps [] = (pps, Ok []).
Proof. induction pps as [|pp pps IH]; [done|]. cbn. by rewrite IH. Qed.
Lemma post_finish_tail_none (pps : list Q) : PostChain.finish_tail pps [] = (pps, Ok []).
Proof. induction pps as [|pp pps IH]; [done|]. cbn. by rewrite IH. Qed.

Lemma pre_finish_tail_app (front back : list P) data front' :
  PreChain.finish_tail front data = (front', Ok []) -> PreChain.finish_tail (front ++ back) data = (front' ++ back, Ok []).
Proof.
  revert data front'. induction front as [|pp front IH]; intros data front'; cbn [app PreChain.finish_tail].
  { intros [= <- ->]. apply pre_finish_tail_none. }
  destruct (PreChain.finish_all pp data []) as [pp' [data'|e|]]; [|done|done].
  destruct (PreChain.finish_tail front data') as [pps r] eqn:Hf. intros [= <- ->]. by rewrite (IH _ _ Hf).
Qed.
Lemma post_finish_tail_app (front back : list Q) data front' :
  PostChain.finish_tail front data = (front', Ok []) -> PostChain.finish_tail (front ++ back) data = (front' ++ back, Ok []).
Proof.
  revert data front'. induction front as [|pp front IH]; intros data front'; cbn [app PostChain.finish_tail].
  { intros [= <- ->]. apply post_finish_tail_none. }
  destruct (PostChain.finish_all pp data []) as [pp' [data'|e|]]; [|done|done].
  destruct (PostChain.finish_tail front data') as [pps r] eqn:Hf. intros [= <- ->]. by rewrite (IH _ _ Hf).
Qed.

(** C38: finishing a chain reaches a processor only with data of the ones in front of it: when
    the front part of a chain, of any processors, has nothing left to emit, the part behind it
    is not finished at all; it stays as it is, and what it holds is not emitted.  This holds
    for preprocessors and postprocessors alike. *)
Theorem finish_loses_buffers :
  (forall front front' back : list P, front <> [] ->
     PreChain.finish front = (front', Ok []) -> PreChain.finish (front ++ back) = (front' ++ back, Ok []))
  /\ (forall front front' back : list Q, front <> [] ->
     PostChain.finish front = (front', Ok []) -> PostChain.finish (front ++ back) = (front' ++ back, Ok [])).
Proof.
  split; intros [|head tail] front' back Hne; try done; cbn [app PreChain.finish PostChain.finish].
  - destruct (pre_finish head None) as [head' [data|e|]]; [|done|done].
    destruct (PreChain.finish_tail tail data) as [tail' r] eqn:Ht. intros [= <- ->].
    by rewrite (pre_finish_tail_app _ back _ _ Ht).
  - destruct (post_finish head None) as [head' [data|e|]]; [|done|done].
    destruct (PostChain.finish_tail tail data) as [tail' r] eqn:Ht. intros [= <- ->].
    by rewrite (post_finish_tail_app _ back _ _ Ht).
Qed.
End finishing.

(** The documented combination of separate and chunk: the last chunk is never sent.  A separate
    preprocessor behind ingest-ns never emits its last fragment, which it emits on its own. *)
Lemma finish_loses_buffers_witness :
  PostChain.finish [PostSeparate (mkSeparatePost Byte.x0a); PostChunk (mkChunk 8 [Byte.x61])]
    = ([PostSeparate (mkSeparatePost Byte.x0a); PostChunk (mkChunk 8 [Byte.x61])], Ok [])
  /\ PreChain.finish [PreIngestTs mkExtractIngestTs; PreSeparate (Sep.set_buffer (Sep.new Byte.x0a 4 true) [Byte.x61])]
    = ([PreIngestTs mkExtractIngestTs; PreSeparate (Sep.set_buffer (Sep.new Byte.x0a 4 true) [Byte.x61])], Ok [])
  /\ (PreChain.finish [PreSeparate (Sep.set_buffer (Sep.new Byte.x0a 4 true) [Byte.x61])]).2 = Ok [[Byte.x61]].
Proof.
  split; [|split; [|reflexivity]].
  - apply (proj2 (finish_loses_buffers (P := AnyPre) (Q := AnyPost)) [PostSeparate (mkSeparatePost Byte.x0a)]
      [PostSeparate (mkSeparatePost Byte.x0a)] [PostChunk (mkChunk 8 [Byte.x61])]); [discriminate|reflexivity].
  - apply (proj1 (finish_loses_buffers (P := AnyPre) (Q := AnyPost)) [PreIngestTs mkExtractIngestTs]
      [PreIngestTs mkExtractIngestTs]); [discriminate|reflexivity].
Defined.
