(* ===== verification/GelfProps.v ===== *)
(** * Correctness of GELF chunking

    src/postprocessor/gelf_chunking.rs cuts a message into frames, and
    src/preprocessor/gelf_chunking.rs puts it together from frames in any order. *)
From S2P Require Import Prelude Value Bytes Processors.

(** ** Cutting *)
Lemma chunks_of_concat fuel n data :
  (0 < n)%nat -> (length data <= fuel)%nat -> concat (Post.chunks_of fuel n data) = data.
Proof.
  intros Hn. revert data. induction fuel as [|fuel IH]; intros data Hf.
  { by destruct data; [|simpl in Hf; lia]. }
  cbn [Post.chunks_of]. destruct data as [|b data]; [done|].
  cbn [concat]. rewrite IH; [apply take_drop|]. rewrite length_drop. simpl in *. lia.
Qed.

Lemma chunks_of_nonempty fuel n data : data <> [] -> (0 < fuel)%nat -> Post.chunks_of fuel n data <> [].
Proof. destruct fuel, data; simpl; done || lia. Qed.

(** ** One frame *)
Lemma decode_frame r id n i c :
  is_u64 id -> (n < 256)%nat -> (i < 256)%nat ->
  GelfPre.decode_gelf r (Post.gelf_frame id n i c) = Ok (mkGelfSegment id (Z.of_nat i) (Z.of_nat n) c).
Proof.
  intros Hid Hn Hi. pose proof (read_write_u64 id [] Hid) as Hread.
  unfold Post.gelf_frame. unfold write_u64 in *. cbn [to_be] in *. cbn [app] in *.
  unfold read_u64 in Hread. cbn [take read_be] in Hread. rewrite !Z.shiftl_mul_pow2 in Hread by lia.
  unfold GelfPre.decode_gelf. rewrite !(Z.shiftl_mul_pow2 _ _) by lia.
  do 2 f_equal; [|rewrite Z_of_byte_of_Z; apply Z.mod_small; lia..].
  etrans; [|exact Hread]. ring.
Qed.

(** ** Collecting *)
Section collect.
Variable chunks : list bytes.
Variable id : Z.
Notation n := (length chunks).

(** The segments when those at the indices in [r] have arrived. *)
Definition received (r : list nat) : list (option bytes) :=
  imap (fun i c => if decide (i ∈ r) then Some c else None) chunks.

Lemma received_lookup r i :
  received r !! i = (fun c => if decide (i ∈ r) then Some c else None) <$> chunks !! i.
Proof. unfold received. by rewrite list_lookup_imap. Qed.

Lemma received_insert r i c :
  chunks !! i = Some c -> <[i := Some c]> (received r) = received (i :: r).
Proof.
  intros Hc. apply list_eq. intros j. destruct (decide (j = i)) as [->|Hne].
  - rewrite list_lookup_insert_eq by (unfold received; rewrite length_imap; by eapply lookup_lt_Some).
    rewrite received_lookup, Hc. simpl. by rewrite decide_True by set_solver.
  - rewrite list_lookup_insert_ne by done. rewrite !received_lookup. destruct (chunks !! j); [|done]. simpl.
    f_equal. destruct (decide (j ∈ r)), (decide (j ∈ i :: r)); set_solver.
Qed.

Lemma received_nil : replicate n None = received [].
Proof.
  apply list_eq. intros j. rewrite received_lookup. destruct (chunks !! j) as [c|] eqn:Hj; simpl.
  - apply lookup_replicate_2. by eapply lookup_lt_Some.
  - apply lookup_replicate_None. apply lookup_ge_None in Hj. lia.
Qed.

Lemma received_all r : (forall i, (i < n)%nat -> i ∈ r) -> received r = Some <$> chunks.
Proof.
  intros Hall. apply list_eq. intros j. rewrite received_lookup, list_lookup_fmap.
  destruct (chunks !! j) as [c|] eqn:Hj; [|done]. simpl. rewrite decide_True; [done|].
  apply Hall. by eapply lookup_lt_Some.
Qed.

Lemma assemble_all acc : GelfPre.assemble (Some <$> chunks) acc = Some (acc ++ concat chunks).
Proof.
  clear id. revert acc. induction chunks as [|c l IH]; intros acc; csimpl; [by rewrite app_nil_r|].
  rewrite IH. by rewrite <- app_assoc.
Qed.

(** The buffer after the segments at [r], all distinct, have arrived. *)
Definition holds_msg (g : GelfChunking) (r : list nat) : Prop :=
  gc_last_buffer g !! id = None /\
  match r with
  | [] => gc_buffer g !! id = None
  | _ => exists bytes, gc_buffer g !! id = Some (mkGelfMsgs (Z.of_nat n) (Z.of_nat (length r)) bytes (received r))
  end.

Definition seg (i : nat) (c : bytes) : GelfSegment := mkGelfSegment id (Z.of_nat i) (Z.of_nat n) c.

(** A segment arrives while no swap of the buffers is due. *)
Lemma enqueue_segment g r ns i c :
  wrapping_sub ns (gc_last_swap g) <= GelfPre.FIVE_SEC ->
  (2 <= n < 256)%nat -> holds_msg g r -> NoDup r -> (length r < n)%nat -> chunks !! i = Some c -> i ∉ r ->
  let '(g', out) := GelfPre.enqueue g ns (seg i c) in
  gc_last_swap g' = gc_last_swap g /\ gc_last_buffer g' = gc_last_buffer g
  /\ delete id (gc_buffer g') = delete id (gc_buffer g)
  /\ if decide (S (length r) = n)
     then gc_buffer g' !! id = None /\ out = GelfPre.assemble (received (i :: r)) []
     else out = None /\ holds_msg g' (i :: r).
Proof.
  intros Hns Hn [Hlast Hbuf] Hnd Hlen Hc Hi. unfold GelfPre.enqueue.
  assert ((GelfPre.FIVE_SEC <? wrapping_sub ns (gc_last_swap g)) = false) as -> by lia.
  rewrite decide_False by (simpl; lia). cbn [seg gs_id gs_seq gs_count gs_data]. rewrite !Nat2Z.id.
  pose proof (lookup_lt_Some _ _ _ Hc) as Hin.
  destruct r as [|j r].
  - rewrite Hbuf, Hlast. rewrite (decide_True (P:=(i < n)%nat)) by done.
    rewrite received_nil, (received_insert _ _ _ Hc). cbn [gm_stored gm_count].
    rewrite decide_False by lia. rewrite decide_False by (simpl; lia). cbn. split_and!; try done.
    + by rewrite delete_insert_eq.
    + split; [done|]. eexists. simpl. by rewrite lookup_insert_eq.
  - destruct Hbuf as [bs Hbuf]. rewrite Hbuf. unfold GelfPre.occupied. cbn [gm_segments gm_stored gm_count gm_bytes].
    rewrite received_lookup, Hc. cbn [fmap option_fmap option_map]. rewrite (decide_False (P:=i ∈ j :: r)) by done.
    rewrite (received_insert _ _ _ Hc).
    replace ((Z.of_nat (length (j :: r)) + 1) mod 256) with (Z.of_nat (S (length (j :: r))))
      by (rewrite Z.mod_small by lia; lia).
    destruct (decide (S (length (j :: r)) = n)) as [Heq|Hne].
    + rewrite decide_True by lia. cbn. rewrite lookup_delete_eq, delete_delete_eq. done.
    + rewrite decide_False by lia. cbn. split_and!; try done.
      * by rewrite delete_insert_eq.
      * split; [done|]. eexists. simpl. by rewrite lookup_insert_eq.
Qed.
End collect.

(** A run of the preprocessor over timed frames: all outputs, if no call fails. *)
Fixpoint gelf_run (g : GelfChunking) (frames : list (Z * bytes)) : GelfChunking * option (list bytes) :=
  match frames with
  | [] => (g, Some [])
  | (ns, d) :: frames =>
      match pre_process g ns d with
      | ((g, _), Ok out) => let '(g, outs) := gelf_run g frames in (g, app out <$> outs)
      | ((g, _), _) => (g, None)
      end
  end.

Lemma gelf_run_collect chunks id g r xs :
  is_u64 id -> (2 <= length chunks < 256)%nat -> holds_msg chunks id g r ->
  Forall (fun j => j < length chunks)%nat r ->
  Forall (fun x : Z * (nat * bytes) => wrapping_sub x.1 (gc_last_swap g) <= GelfPre.FIVE_SEC
            /\ chunks !! x.2.1 = Some x.2.2) xs ->
  NoDup (r ++ xs.*2.*1) -> (length r + length xs = length chunks)%nat -> xs <> [] ->
  let '(g', outs) := gelf_run g ((fun x => (x.1, Post.gelf_frame id (length chunks) x.2.1 x.2.2)) <$> xs) in
  outs = Some [concat chunks] /\ gc_buffer g' !! id = None
  /\ delete id (gc_buffer g') = delete id (gc_buffer g) /\ gc_last_buffer g' = gc_last_buffer g.
Proof.
  intros Hid Hn. revert g r. induction xs as [|[ns [i c]] xs IH]; intros g r Hh Hrn Hxs Hnd Hlen Hne; [done|].
  apply Forall_cons in Hxs as [[Hns Hc] Hxs]. cbn [fst snd] in Hns, Hc. csimpl in Hnd. csimpl.
  pose proof (lookup_lt_Some _ _ _ Hc) as Hi.
  rewrite <- Permutation_middle in Hnd. inversion_clear Hnd as [|?? Hir Hnd'].
  cbn [gelf_run pre_process GelfChunking_Preprocessor]. unfold GelfPre.process, GelfPre.process_with.
  rewrite decode_frame by (done || lia). fold (seg chunks id i c).
  assert (Hr : NoDup r) by by apply NoDup_app in Hnd' as [? _].
  pose proof (enqueue_segment chunks id g r ns i c Hns Hn Hh Hr ltac:(simpl in Hlen; lia) Hc ltac:(set_solver)) as He.
  destruct (GelfPre.enqueue g ns (seg chunks id i c)) as [g1 out]. destruct He as (Hsw&Hlb&Hdel&He).
  destruct (decide (S (length r) = length chunks)) as [Hlast|Hmore].
  - destruct He as [Hb1 ->]. destruct xs as [|x xs]; [|simpl in Hlen; lia].
    rewrite received_all, assemble_all; [by cbn|]. intros k Hk.
    assert (Hsub : i :: r ≡ₚ seq 0 (length chunks)).
    { apply submseteq_length_Permutation; [|simpl; rewrite length_seq; lia].
      apply NoDup_submseteq; [constructor; [set_solver|done]|]. intros j Hj. apply elem_of_seq.
      rewrite Forall_forall in Hrn. apply elem_of_cons in Hj as [->|Hj]; [lia|]. specialize (Hrn j Hj). lia. }
    rewrite Hsub. apply elem_of_seq. lia.
  - destruct He as [-> Hh1]. destruct xs as [|x xs]; [simpl in Hlen; lia|].
    specialize (IH g1 (i :: r) Hh1 ltac:(by constructor)). rewrite Hsw in IH. specialize (IH Hxs).
    destruct (gelf_run g1 _) as [g2 outs]. destruct IH as (->&?&?&?); [by constructor|simpl in *; lia|done|].
    split_and!; try done; congruence.
Qed.

Lemma imap_pair_fst {A} (l : list A) : (imap pair l).*1 = seq 0 (length l).
Proof.
  apply list_eq. intros i. rewrite list_lookup_fmap, list_lookup_imap.
  destruct (l !! i) as [x|] eqn:Hx; simpl.
  - symmetry. apply lookup_seq. split; [lia|by eapply lookup_lt_Some].
  - symmetry. apply lookup_ge_None. rewrite length_seq. by apply lookup_ge_None.
Qed.

(** Frames in any order are frames of indexed chunks in that order. *)
Lemma arrivals_indices chunks id (arrivals : list (Z * bytes)) :
  arrivals.*2 ≡ₚ imap (Post.gelf_frame id (length chunks)) chunks ->
  exists xs : list (Z * (nat * bytes)),
    arrivals = (fun x => (x.1, Post.gelf_frame id (length chunks) x.2.1 x.2.2)) <$> xs
    /\ xs.*2 ≡ₚ imap pair chunks.
Proof.
  set (f := fun y : nat * bytes => Post.gelf_frame id (length chunks) y.1 y.2).
  assert (imap (Post.gelf_frame id (length chunks)) chunks = f <$> imap pair chunks) as ->.
  { rewrite fmap_imap. by apply imap_ext. }
  intros (ys&Hys&Hp)%Permutation_map_inv. exists (zip arrivals.*1 ys).
  assert (Hl : length arrivals = length ys).
  { rewrite <- (length_fmap snd arrivals), Hys. apply length_fmap. }
  split.
  - clear Hp. revert ys Hys Hl. induction arrivals as [|[ns d] arrivals IH]; intros [|y ys] Hys Hl; simplify_eq/=; [done|].
    f_equal. apply IH; [done|congruence].
  - rewrite snd_zip by (rewrite length_fmap; lia). done.
Qed.

(** C10: GELF round trip: the frames a message is cut into, received in any order within the
    five second window by a preprocessor that holds nothing under the message's id, produce
    exactly one output, with the last frame: the message.  Nothing of it is left behind and
    whatever the preprocessor holds of other messages is untouched. *)
Theorem gelf_roundtrip p p' data frames g arrivals :
  is_u64 (ge_id p) -> (12 < ge_chunk_size p)%nat -> data <> [] ->
  post_process p 0 0 data = (p', Ok frames) ->
  arrivals.*2 ≡ₚ frames ->
  Forall (fun ns => wrapping_sub ns (gc_last_swap g) <= GelfPre.FIVE_SEC) arrivals.*1 ->
  gc_buffer g !! ge_id p = None -> gc_last_buffer g !! ge_id p = None ->
  exists g', gelf_run g arrivals = (g', Some [data])
    /\ gc_buffer g' = gc_buffer g /\ gc_last_buffer g' = gc_last_buffer g.
Proof.
  intros Hid Hsize Hdata Hpost Hperm Hns Hbuf Hlast. cbn in Hpost. unfold Post.gelf, Post.encode_gelf in Hpost.
  rewrite decide_False in Hpost by lia. unfold Post.chunk_len in Hpost. rewrite (decide_False (P := (_ < 12)%nat)) in Hpost by lia.
  set (chunks := Post.chunks_of (length data) (ge_chunk_size p - 12) data) in *.
  case_decide as Hn; simplify_eq.
  assert (Hcat : concat chunks = data) by (apply chunks_of_concat; lia).
  assert (Hne : chunks <> []) by (apply chunks_of_nonempty; [done|]; destruct data; simpl; [done|lia]).
  destruct (arrivals_indices chunks (ge_id p) arrivals Hperm) as (xs&->&Hxs). clear Hperm.
  assert (Hlen : length xs = length chunks) by (apply Permutation_length in Hxs; by rewrite !length_fmap, length_imap in Hxs).
  destruct (decide (length chunks = 1%nat)) as [H1|H1].
  - destruct chunks as [|c [|]]; simpl in H1, Hcat; [done| |lia]. rewrite app_nil_r in Hcat. subst c.
    destruct xs as [|[ns [i c]] [|]]; simpl in Hlen; [lia| |lia].
    csimpl in Hxs. apply Permutation_singleton_r in Hxs. simplify_eq.
    inversion_clear Hns as [|?? Hns1 _]. simpl in Hns1. cbn [fmap list_fmap gelf_run fst snd].
    cbn [pre_process GelfChunking_Preprocessor]. unfold GelfPre.process, GelfPre.process_with.
    rewrite decode_frame by (done || simpl; lia). unfold GelfPre.enqueue.
    assert ((GelfPre.FIVE_SEC <? wrapping_sub ns (gc_last_swap g)) = false) as -> by lia.
    rewrite decide_True by done. by exists g.
  - pose proof (gelf_run_collect chunks (ge_id p) g [] xs Hid) as Hrun. 
    destruct (gelf_run g _) as [g' outs].
    assert (Hall : Forall (fun x : Z * (nat * bytes) => chunks !! x.2.1 = Some x.2.2) xs).
    { apply Forall_forall. intros x Hx. assert (Hin : x.2 ∈ imap pair chunks) by (rewrite <- Hxs; apply list_elem_of_fmap; eauto).
      apply elem_of_lookup_imap in Hin as (i&c&Hx2&Hc). by rewrite Hx2. }
    destruct Hrun as (->&Hb&Hd&Hl).
    + destruct chunks as [|? [|]]; simpl in *; [done|done|lia].
    + by split.
    + constructor.
    + rewrite !Forall_fmap in Hns. rewrite Forall_forall in Hall, Hns |- *.
      intros x Hx. split; [by apply (Hns x)|by apply Hall].
    + simpl. rewrite Hxs. rewrite imap_pair_fst. apply NoDup_seq.
    + simpl. lia.
    + destruct xs; [simpl in Hlen; destruct chunks; done|done].
    + exists g'. rewrite Hcat. split_and!; [done| |done].
      rewrite <- (delete_id _ _ Hb), Hd. by apply delete_id.
Qed.

Definition gelf_ex : Gelf := mkGelf 7 14.
Definition gelf_ex_data : bytes := [Byte.x61; Byte.x62; Byte.x63].

Lemma gelf_roundtrip_witness :
  exists g', gelf_run GelfPre.default
      [(1, Post.gelf_frame 7 2 1 [Byte.x63]); (2, Post.gelf_frame 7 2 0 [Byte.x61; Byte.x62])]
      = (g', Some [gelf_ex_data]) /\ gc_buffer g' = ∅ /\ gc_last_buffer g' = ∅.
Proof.
  apply (gelf_roundtrip gelf_ex (mkGelf 8 14) gelf_ex_data
    [Post.gelf_frame 7 2 0 [Byte.x61; Byte.x62]; Post.gelf_frame 7 2 1 [Byte.x63]] GelfPre.default).
  - vm_compute. split; [discriminate|reflexivity].
  - simpl. lia.
  - discriminate.
  - reflexivity.
  - apply Permutation_swap.
  - repeat constructor; vm_compute; discriminate.
  - reflexivity.
  - reflexivity.
Defined.
